(** * Collision-boundary extraction of [LevelService::init]

    A shallow embedding of the tile-layer collision code of
    [src/engine/prefabs/components.h]: the occupancy classifier
    [LevelService::is_solid], the boundary-edge scan, the adjacency index,
    the loop walker, the winding test [LevelService::loop_has_solid_on_right]
    and the construction of the chain definitions handed to the physics
    engine.  The second part of the definitions embeds other classes of the
    same file: [MultiComponent], [Animation], [AnimationController],
    [TextureService], [SoundService], the layer renderers and layer bodies of
    [LevelService], and [PlatformerMovementComponent].

    Conventions.
    - A C++ [int] is a [Z].  The scan only forms [x + 1], [x - 1], [y + 1],
      [y - 1] for [0 <= x < size.x] and [0 <= y < size.y], so no signed
      overflow occurs on the values the code computes.
    - A [float] whose rounding, overflow or division by zero decides what
      the code does is an IEEE 754 binary32 number, with the operations of
      the standard library's [SpecFloat]: the arithmetic of the winding test
      and the frame timer of [Animation].  A program compiled to evaluate
      [float] expressions in binary32, round to nearest, computes these
      values.  Elsewhere (pixel and meter coordinates, surface materials,
      [PlatformerMovementComponent]) a [float] is its exact rational value
      ([Q]); what is stated there is about the data flow and about
      comparisons, not about rounded values.
    - In the winding test an [int] product that leaves the range of an
      [int] wraps around, and the conversion to [int] of a [float] that does
      not fit gives [INT_MIN]; both are undefined in C++, and the theorems
      that depend on the test bound the values below both.
    - A [std::unordered_set<Edge>] is the list of its elements in iteration
      order.  The order after the insertions is unspecified, so the walker is
      stated for every list [es] that is a permutation of the collected one;
      [erase] keeps the relative order of the remaining elements, as the C++
      standard guarantees.
    - A [std::unordered_map<IntPoint, std::vector<IntPoint>>] read with
      [operator[]] is a total function with the empty vector as default. *)

From Stdlib Require Import String.
From Stdlib Require Import ZArith List Bool Lia QArith Qround Qabs Qcanon.
From Stdlib Require Import Permutation Zdivisibility Arith FinFun.
From Stdlib Require Import Lqa.
From Stdlib Require Import Floats.SpecFloat.
Import ListNotations.
Open Scope Z_scope.

(* ================================================================== *)
(** * Data model *)

(** [ldtk::IntPoint]: an integer grid corner. *)
Record IntPoint : Type := mkPoint { px : Z; py : Z }.

(** [struct Edge]: undirected edge between two corners, stored canonically. *)
Record Edge : Type := mkEdge { ea : IntPoint; eb : IntPoint }.

(** [operator==] of [ldtk::IntPoint]. *)
Definition point_eqb (p q : IntPoint) : bool :=
  (px p =? px q) && (py p =? py q).

(** [operator==(const Edge&, const Edge&)]. *)
Definition edge_eqb (e1 e2 : Edge) : bool :=
  point_eqb (ea e1) (ea e2) && point_eqb (eb e1) (eb e2).

Definition point_eq_dec (p q : IntPoint) : {p = q} + {p <> q}.
Proof. decide equality; apply Z.eq_dec. Defined.

Definition edge_eq_dec (e1 e2 : Edge) : {e1 = e2} + {e1 <> e2}.
Proof. decide equality; apply point_eq_dec. Defined.

(** The lambda [make_edge] of [LevelService::init]. *)
Definition make_edge (p0 p1 : IntPoint) : Edge :=
  if (px p1 <? px p0) || ((px p1 =? px p0) && (py p1 <? py p0))
  then mkEdge p1 p0
  else mkEdge p0 p1.

(** What the code reads of an [ldtk::Layer]: the grid size in cells, the cell
    size in pixels and the name of the IntGrid value of every cell. *)
Record Layer : Type := mkLayer {
  getGridSize : IntPoint;
  getCellSize : Z;
  getIntGridValName : Z -> Z -> string
}.

(** The fields of [LevelService] the collision code reads. *)
Record LevelService : Type := mkService {
  collision_names : list string;
  scale : Q
}.

(* ================================================================== *)
(** * OccupancyClassifier *)

(** [std::find(collision_names.begin(), collision_names.end(), name) != end]. *)
Definition name_listed (names : list string) (name : string) : bool :=
  existsb (String.eqb name) names.

(** [LevelService::is_solid]. *)
Definition is_solid (svc : LevelService) (layer : Layer)
    (x y : Z) (size : IntPoint) : bool :=
  if (x <? 0) || (y <? 0) || (x >=? px size) || (y >=? py size)
  then false
  else
    let name := getIntGridValName layer x y in
    if name_listed (collision_names svc) name then true else false.

(* ================================================================== *)
(** * EdgeCollector *)

(** [std::unordered_set<Edge, EdgeHash>] as its iteration sequence. *)
Definition EdgeSet : Type := list Edge.

(** [edges.find(e) != edges.end()]. *)
Definition set_mem (e : Edge) (s : EdgeSet) : bool :=
  existsb (edge_eqb e) s.

(** [edges.insert(e)]: nothing happens when an equal element is present. *)
Definition set_insert (e : Edge) (s : EdgeSet) : EdgeSet :=
  if set_mem e s then s else s ++ [e].

(** [edges.erase(e)]: the other elements keep their relative order. *)
Definition set_erase (e : Edge) (s : EdgeSet) : EdgeSet :=
  filter (fun e' => negb (edge_eqb e' e)) s.

(** The integers [0, 1, ..., n-1] of a [for (int i = 0; i < n; i++)] loop. *)
Definition int_range (n : Z) : list Z :=
  map Z.of_nat (seq 0 (Z.to_nat n)).

(** The four conditional insertions done for the cell [(x, y)]. *)
Definition scan_cell (svc : LevelService) (layer : Layer) (size : IntPoint)
    (edges : EdgeSet) (x y : Z) : EdgeSet :=
  if negb (is_solid svc layer x y size) then edges
  else
    let edges :=
      if negb (is_solid svc layer x (y - 1) size)
      then set_insert (make_edge (mkPoint x y) (mkPoint (x + 1) y)) edges
      else edges in
    let edges :=
      if negb (is_solid svc layer x (y + 1) size)
      then set_insert (make_edge (mkPoint x (y + 1)) (mkPoint (x + 1) (y + 1))) edges
      else edges in
    let edges :=
      if negb (is_solid svc layer (x - 1) y size)
      then set_insert (make_edge (mkPoint x y) (mkPoint x (y + 1))) edges
      else edges in
    let edges :=
      if negb (is_solid svc layer (x + 1) y size)
      then set_insert (make_edge (mkPoint (x + 1) y) (mkPoint (x + 1) (y + 1))) edges
      else edges in
    edges.

(** The inner [for x] loop of one row. *)
Definition scan_row (svc : LevelService) (layer : Layer) (size : IntPoint)
    (edges : EdgeSet) (y : Z) : EdgeSet :=
  fold_left (fun acc x => scan_cell svc layer size acc x y)
            (int_range (px size)) edges.

(** The collection scan: rows [y = 0 .. size.y - 1], columns [x = 0 ..
    size.x - 1], starting from the empty set. *)
Definition collect_edges (svc : LevelService) (layer : Layer) : EdgeSet :=
  let size := getGridSize layer in
  fold_left (scan_row svc layer size) (int_range (py size)) [].

(* ================================================================== *)
(** * AdjacencyIndex *)

(** [std::unordered_map<ldtk::IntPoint, std::vector<ldtk::IntPoint>>], read
    with [operator[]]: a missing key reads as the empty vector. *)
Definition AdjMap : Type := IntPoint -> list IntPoint.

(** [adj[k].push_back(v)]. *)
Definition adj_push_back (adj : AdjMap) (k v : IntPoint) : AdjMap :=
  fun p => if point_eqb p k then adj p ++ [v] else adj p.

(** The loop [for (auto& e : edges)] that fills [adj], in the iteration
    order of the set. *)
Definition build_adj (edges : EdgeSet) : AdjMap :=
  fold_left (fun adj e => adj_push_back (adj_push_back adj (ea e) (eb e)) (eb e) (ea e))
            edges (fun _ => []).

(* ================================================================== *)
(** * LoopWalker *)

(** The vertex-count guard [poly.size() > 100000]. *)
Definition vertex_guard : Z := 100000.

(** The lambda [erase_edge]. *)
Definition erase_edge (edges : EdgeSet) (p0 p1 : IntPoint) : EdgeSet :=
  set_erase (make_edge p0 p1) edges.

(** The candidate scan of one walking step: the first neighbour of [cur], in
    recorded order, that is not [prev] and whose edge is still in the set. *)
Definition find_next (adj : AdjMap) (edges : EdgeSet) (prev cur : IntPoint)
    : option IntPoint :=
  find (fun cand => negb (point_eqb cand prev) && set_mem (make_edge cur cand) edges)
       (adj cur).

(** The inner loop [while (!(cur == start))].  It returns the edge set and
    the chain when the loop is left: by its condition, by [!found] or by the
    guard.  [None] means the fuel ran out before that. *)
Fixpoint walk (fuel : nat) (adj : AdjMap) (start : IntPoint)
    (edges : EdgeSet) (prev cur : IntPoint) (poly : list IntPoint)
    : option (EdgeSet * list IntPoint) :=
  if point_eqb cur start then Some (edges, poly)
  else
    match find_next adj edges prev cur with
    | None => Some (edges, poly)
    | Some next =>
        match fuel with
        | O => None
        | S fuel' =>
            let poly' := poly ++ [next] in
            let edges' := erase_edge edges cur next in
            if vertex_guard <? Z.of_nat (length poly')
            then Some (edges', poly')
            else walk fuel' adj start edges' cur next poly'
        end
    end.

(** [if (!poly.empty() && poly.back() == poly.front()) poly.pop_back();] *)
Definition drop_closing_vertex (poly : list IntPoint) : list IntPoint :=
  match poly with
  | [] => []
  | front :: _ =>
      if point_eqb (last poly front) front then removelast poly else poly
  end.

(* ================================================================== *)
(** * binary32

    The [float] of the winding test and of the timer of [Animation] is an
    IEEE 754 binary32 number: 24 bits of precision, largest exponent 127,
    round to nearest with ties to even.  [spec_float] and the operations on
    it are the ones of the standard library's [SpecFloat], at [prec = 24]
    and [emax = 128]: a finite number is [(-1)^s * m * 2^e]. *)
Definition float32 : Type := spec_float.

Definition fadd : float32 -> float32 -> float32 := SFadd 24 128.
Definition fsub : float32 -> float32 -> float32 := SFsub 24 128.
Definition fmul : float32 -> float32 -> float32 := SFmul 24 128.
Definition fdiv : float32 -> float32 -> float32 := SFdiv 24 128.
Definition fsqrt : float32 -> float32 := SFsqrt 24 128.
Definition fneg : float32 -> float32 := SFopp.
Definition fltb : float32 -> float32 -> bool := SFltb.
Definition fleb : float32 -> float32 -> bool := SFleb.

(** The conversion of an integer to [float]: the nearest binary32 number. *)
Definition float_of_int (n : Z) : float32 := binary_normalize 24 128 n 0 false.

(** The literals [0.0f], [1.0f], [0.5f], [0.25f] and [1e-4f] (the binary32
    number nearest to 1/10000, [13743895 * 2^-37]). *)
Definition f_zero : float32 := S754_zero false.
Definition f_one : float32 := S754_finite false 8388608 (-23).
Definition f_half : float32 := S754_finite false 8388608 (-24).
Definition f_quarter : float32 := S754_finite false 8388608 (-25).
Definition f_1e_4 : float32 := S754_finite false 13743895 (-37).

(** [INT_MIN]. *)
Definition int_min : Z := - 2 ^ 31.

(** [(int)std::floor(x)].  [std::floor] is exact.  The conversion of a NaN,
    of an infinity or of a value that does not fit an [int] is undefined in
    C++; the model gives it the result of the x86 conversion instruction,
    [INT_MIN]. *)
Definition floor_to_int (x : float32) : Z :=
  match x with
  | S754_zero _ => 0
  | S754_finite s m e =>
      let v := Z.shiftl (cond_Zopp s (Zpos m)) e in
      if (int_min <=? v) && (v <? 2 ^ 31) then v else int_min
  | _ => int_min
  end.

(** [int] arithmetic that leaves the range of an [int] wraps around (two's
    complement, 32 bits). *)
Definition wrap_int (z : Z) : Z := (z + 2 ^ 31) mod 2 ^ 32 - 2 ^ 31.

(** The [float] of a rational: the quotient of its numerator by its
    denominator, in lowest terms, rounded once to binary32 as [SFdiv] rounds
    the quotient of two mantissas.  The member [scale] is a [float];
    [LevelService] holds its value as a rational, and this is the [float]
    back. *)
Definition float_of_Q (q : Q) : float32 :=
  let r := Qred q in
  let quotient (s : bool) (n : positive) :=
    let '(mz, ez, lz) :=
      SFdiv_core_binary 24 128 (Zpos n) 0 (Zpos (Qden r)) 0 in
    binary_round_aux 24 128 s mz ez lz in
  match Qnum r with
  | Z0 => S754_zero false
  | Zpos n => quotient false n
  | Zneg n => quotient true n
  end.

(* ================================================================== *)
(** * WindingResolver *)

(** The body of the [for] loop of [loop_has_solid_on_right] for the edge from
    [a] to [b], up to the call of [is_solid]: [None] for [continue], and
    otherwise the cell [(gx, gy)] that is passed to [is_solid]. *)
Definition probe_grid_cell (svc : LevelService) (layer : Layer) (a b : IntPoint)
    : option (Z * Z) :=
  let cell_size := getCellSize layer in
  let scale := float_of_Q (scale svc) in
  let dx := wrap_int (px b - px a) in
  let dy := wrap_int (py b - py a) in
  if (dx =? 0) && (dy =? 0) then None
  else
    let ax := fmul (float_of_int (wrap_int (px a * cell_size))) scale in
    let ay := fmul (float_of_int (wrap_int (py a * cell_size))) scale in
    let bx := fmul (float_of_int (wrap_int (px b * cell_size))) scale in
    let by_ := fmul (float_of_int (wrap_int (py b * cell_size))) scale in
    let ex := fsub bx ax in
    let ey := fsub by_ ay in
    let len := fsqrt (fadd (fmul ex ex) (fmul ey ey)) in
    if fltb len f_1e_4 then None
    else
      let ex := fdiv ex len in
      let ey := fdiv ey len in
      let rx := fneg ey in
      let ry := ex in
      let mx := fmul f_half (fadd ax bx) in
      let my := fmul f_half (fadd ay by_) in
      let eps := fmul (fmul f_quarter (float_of_int cell_size)) scale in
      let sx := fadd mx (fmul rx eps) in
      let sy := fadd my (fmul ry eps) in
      let gx := floor_to_int (fdiv sx (fmul (float_of_int cell_size) scale)) in
      let gy := floor_to_int (fdiv sy (fmul (float_of_int cell_size) scale)) in
      Some (gx, gy).

(** The body of the [for] loop: [None] for [continue], [Some r] for
    [return r]. *)
Definition probe_edge (svc : LevelService) (layer : Layer) (a b : IntPoint)
    : option bool :=
  match probe_grid_cell svc layer a b with
  | Some (gx, gy) => Some (is_solid svc layer gx gy (getGridSize layer))
  | None => None
  end.

(** The [for (int i = 0; i < n; ++i)] loop over the remaining indices. *)
Fixpoint probe_from (svc : LevelService) (layer : Layer)
    (loop_corners : list IntPoint) (indices : list nat) : bool :=
  match indices with
  | [] => false
  | i :: rest =>
      let n := length loop_corners in
      let a := nth i loop_corners (mkPoint 0 0) in
      let b := nth ((i + 1) mod n) loop_corners (mkPoint 0 0) in
      match probe_edge svc layer a b with
      | Some r => r
      | None => probe_from svc layer loop_corners rest
      end
  end.

(** [LevelService::loop_has_solid_on_right]. *)
Definition loop_has_solid_on_right (svc : LevelService) (layer : Layer)
    (loop_corners : list IntPoint) : bool :=
  probe_from svc layer loop_corners (seq 0 (length loop_corners)).

(** The winding step of [init]: the chain is reversed when the probe does
    not report solid. *)
Definition resolve_winding (svc : LevelService) (layer : Layer)
    (poly : list IntPoint) : list IntPoint :=
  if negb (loop_has_solid_on_right svc layer poly) then rev poly else poly.

(** What one walk contributes to [loops]: the chain after the closing vertex
    is dropped, if it has at least three vertices, after the winding step. *)
Definition keep_chain (svc : LevelService) (layer : Layer)
    (poly : list IntPoint) : list (list IntPoint) :=
  let poly := drop_closing_vertex poly in
  if (3 <=? length poly)%nat then [resolve_winding svc layer poly] else [].

(** The outer loop [while (!edges.empty())].  [*edges.begin()] is the head of
    the iteration sequence. *)
Fixpoint walk_loops_from (fuel : nat) (svc : LevelService) (layer : Layer)
    (adj : AdjMap) (edges : EdgeSet) : option (list (list IntPoint)) :=
  match edges with
  | [] => Some []
  | startE :: _ =>
      match fuel with
      | O => None
      | S fuel' =>
          let start := ea startE in
          let cur := eb startE in
          let prev := start in
          let poly := [start; cur] in
          let edges := erase_edge edges start cur in
          match walk (length edges) adj start edges prev cur poly with
          | None => None
          | Some (edges, poly) =>
              match walk_loops_from fuel' svc layer adj edges with
              | None => None
              | Some loops => Some (keep_chain svc layer poly ++ loops)
              end
          end
      end
  end.

(** The adjacency index and the walk over an edge set whose iteration
    sequence is [es]. *)
Definition walk_loops (svc : LevelService) (layer : Layer) (es : EdgeSet)
    : option (list (list IntPoint)) :=
  walk_loops_from (length es) svc layer (build_adj es) es.

(** The loops of a layer when the set iterates in insertion order. *)
Definition layer_loops (svc : LevelService) (layer : Layer)
    : option (list (list IntPoint)) :=
  walk_loops svc layer (collect_edges svc layer).

(* ================================================================== *)
(** * GeometryEmitter *)

(** [b2Vec2] and raylib's [Vector2]. *)
Record b2Vec2 : Type := mkVec2 { vx : Q; vy : Q }.

(** [b2SurfaceMaterial] (Box2D). *)
Record b2SurfaceMaterial : Type := mkMaterial {
  friction : Q;
  restitution : Q;
  rollingResistance : Q;
  tangentSpeed : Q;
  userMaterialId : Z;
  customColor : Z
}.

(** The fields of [b2ChainDef] that [init] sets. *)
Record b2ChainDef : Type := mkChainDef {
  points : list b2Vec2;
  count : Z;
  materials : list b2SurfaceMaterial;
  materialCount : Z;
  isLoop : bool
}.

(** The field of [PhysicsService] that the conversion reads. *)
Record PhysicsService : Type := mkPhysics { pixels_to_meters : Q }.

(** [PhysicsService::convert_to_meters(Vector2)]. *)
Definition convert_to_meters (physics : PhysicsService) (pixels : b2Vec2) : b2Vec2 :=
  mkVec2 (vx pixels * pixels_to_meters physics) (vy pixels * pixels_to_meters physics).

(** The vertex loop [for (auto& p : loop)]. *)
Definition loop_verts (svc : LevelService) (layer : Layer)
    (physics : PhysicsService) (loop : list IntPoint) : list b2Vec2 :=
  map (fun p =>
         let xpx := (inject_Z (px p * getCellSize layer) * scale svc)%Q in
         let ypx := (inject_Z (py p * getCellSize layer) * scale svc)%Q in
         convert_to_meters physics (mkVec2 xpx ypx))
      loop.

(** The material loop [for (int i = 0; i < verts.size(); i++)], from the
    value [b2DefaultSurfaceMaterial()] returns. *)
Definition loop_mats (default_material : b2SurfaceMaterial) (verts : list b2Vec2)
    : list b2SurfaceMaterial :=
  map (fun _ : nat =>
         let mat := default_material in
         let mat := mkMaterial (1 # 10) (restitution mat) (rollingResistance mat)
                               (tangentSpeed mat) (userMaterialId mat) (customColor mat) in
         let mat := mkMaterial (friction mat) (1 # 10) (rollingResistance mat)
                               (tangentSpeed mat) (userMaterialId mat) (customColor mat) in
         mat)
      (seq 0 (length verts)).

(** The chain definition passed to [b2CreateChain] for one loop. *)
Definition chain_def (svc : LevelService) (layer : Layer)
    (physics : PhysicsService) (default_material : b2SurfaceMaterial)
    (loop : list IntPoint) : b2ChainDef :=
  let verts := loop_verts svc layer physics loop in
  let mats := loop_mats default_material verts in
  mkChainDef verts (Z.of_nat (length verts)) mats (Z.of_nat (length mats)) true.

(** All the chain definitions of a layer, for the iteration sequence [es]. *)
Definition layer_chains (svc : LevelService) (layer : Layer)
    (physics : PhysicsService) (default_material : b2SurfaceMaterial)
    (es : EdgeSet) : option (list b2ChainDef) :=
  option_map (map (chain_def svc layer physics default_material))
             (walk_loops svc layer es).

(* ================================================================== *)
(** * Boundary segments (specification side)

    The vocabulary of the statements about the collection scan: the sides of
    a cell, the unit segment on each side and the two cells a unit segment
    separates. *)

(** The four sides of a cell, in the order the scan tests them. *)
Inductive Side : Type := SUp | SDown | SLeft | SRight.

(** [is_solid] at the layer's own grid size, as every call site passes it. *)
Definition cell_solid (svc : LevelService) (layer : Layer) (x y : Z) : bool :=
  is_solid svc layer x y (getGridSize layer).

(** The axis-aligned neighbour cell across a side. *)
Definition side_neighbor (x y : Z) (s : Side) : Z * Z :=
  match s with
  | SUp => (x, y - 1)
  | SDown => (x, y + 1)
  | SLeft => (x - 1, y)
  | SRight => (x + 1, y)
  end.

(** The unit segment between the two grid corners bounding a side. *)
Definition side_edge (x y : Z) (s : Side) : Edge :=
  match s with
  | SUp => mkEdge (mkPoint x y) (mkPoint (x + 1) y)
  | SDown => mkEdge (mkPoint x (y + 1)) (mkPoint (x + 1) (y + 1))
  | SLeft => mkEdge (mkPoint x y) (mkPoint x (y + 1))
  | SRight => mkEdge (mkPoint (x + 1) y) (mkPoint (x + 1) (y + 1))
  end.

(** The sides of the cell [(x, y)] that count: the cell is solid and the
    neighbour across the side is not (or is out of range). *)
Definition boundary_sides_of_cell (svc : LevelService) (layer : Layer)
    (x y : Z) : list Side :=
  if cell_solid svc layer x y
  then filter (fun s => negb (cell_solid svc layer (fst (side_neighbor x y s))
                                                   (snd (side_neighbor x y s))))
              [SUp; SDown; SLeft; SRight]
  else [].

(** All the solid-cell sides facing a non-solid or out-of-range cell. *)
Definition boundary_sides (svc : LevelService) (layer : Layer)
    : list (Z * Z * Side) :=
  flat_map (fun y =>
    flat_map (fun x => map (fun s => (x, y, s))
                           (boundary_sides_of_cell svc layer x y))
             (int_range (px (getGridSize layer))))
    (int_range (py (getGridSize layer))).

(** The segment of a boundary side, from its [(x, y, side)] triple. *)
Definition edge_of_side (t : Z * Z * Side) : Edge :=
  side_edge (fst (fst t)) (snd (fst t)) (snd t).

Definition boundary_side_count (svc : LevelService) (layer : Layer) : nat :=
  length (boundary_sides svc layer).

(** The two cells a canonical unit segment separates: above and below a
    horizontal one, left and right of a vertical one. *)
Definition edge_cells (e : Edge) : option ((Z * Z) * (Z * Z)) :=
  let a := ea e in
  let b := eb e in
  if (px b =? px a + 1) && (py b =? py a)
  then Some ((px a, py a - 1), (px a, py a))
  else if (px b =? px a) && (py b =? py a + 1)
  then Some ((px a - 1, py a), (px a, py a))
  else None.

(** A unit segment with exactly one solid cell beside it. *)
Definition is_boundary_segment (svc : LevelService) (layer : Layer)
    (e : Edge) : bool :=
  match edge_cells e with
  | Some (c1, c2) =>
      xorb (cell_solid svc layer (fst c1) (snd c1))
           (cell_solid svc layer (fst c2) (snd c2))
  | None => false
  end.

(* ================================================================== *)
(** * Chains and loops (specification side) *)

(** The undirected edges between consecutive vertices of a chain, without
    the wrap from the last vertex back to the first. *)
Fixpoint chain_edges (poly : list IntPoint) : list Edge :=
  match poly with
  | p :: (q :: _) as rest => make_edge p q :: chain_edges rest
  | _ => []
  end.

(** The edges of a loop: consecutive vertices, wrapping last to first. *)
Definition loop_edges (loop : list IntPoint) : list Edge :=
  match loop with
  | [] => []
  | front :: _ => chain_edges (loop ++ [front])
  end.

(** Two grid corners one unit apart along exactly one axis. *)
Definition unit_step (p q : IntPoint) : Prop :=
  (Z.abs (px q - px p) = 1 /\ py q = py p) \/
  (px q = px p /\ Z.abs (py q - py p) = 1).

(** Every pair of consecutive vertices of a chain is a unit step (the wrap
    from the last vertex to the first is not looked at). *)
Fixpoint unit_steps (poly : list IntPoint) : Prop :=
  match poly with
  | p :: (q :: _) as rest => unit_step p q /\ unit_steps rest
  | _ => True
  end.

(** A chain whose walk came back to its first vertex. *)
Definition closed_walk (poly : list IntPoint) : Prop :=
  match poly with
  | [] => False
  | front :: _ => last poly front = front /\ (2 <= length poly)%nat
  end.

(** No edge in common. *)
Definition edge_disjoint (l1 l2 : list Edge) : Prop :=
  forall e, In e l1 -> ~ In e l2.

(** The chains of the outer loop before [keep_chain]: the same iteration as
    [walk_loops_from], recording the chain each walk ends with. *)
Fixpoint raw_walks_from (fuel : nat) (adj : AdjMap) (edges : EdgeSet)
    : option (list (list IntPoint)) :=
  match edges with
  | [] => Some []
  | startE :: _ =>
      match fuel with
      | O => None
      | S fuel' =>
          let start := ea startE in
          let cur := eb startE in
          let edges := erase_edge edges start cur in
          match walk (length edges) adj start edges start cur [start; cur] with
          | None => None
          | Some (edges, poly) =>
              match raw_walks_from fuel' adj edges with
              | None => None
              | Some raws => Some (poly :: raws)
              end
          end
      end
  end.

Definition raw_walks (es : EdgeSet) : option (list (list IntPoint)) :=
  raw_walks_from (length es) (build_adj es) es.

(** An edge stored with its lexicographically smaller endpoint first, as
    every edge [make_edge] returns. *)
Definition canonical (e : Edge) : Prop := make_edge (ea e) (eb e) = e.

(** The state of the inner loop relative to the edge set [E0] the walk
    started from: the live set only shrinks, and the edges of the chain are
    distinct edges of [E0] that have left the live set. *)
Record walk_inv (E0 edges : EdgeSet) (prev cur : IntPoint)
    (poly : list IntPoint) : Prop := mkWalkInv {
  wi_shape : exists pre, poly = pre ++ [prev; cur];
  wi_edges : incl edges E0;
  wi_chain : incl (chain_edges poly) E0;
  wi_fresh : edge_disjoint (chain_edges poly) edges;
  wi_nodup : NoDup (chain_edges poly)
}.

(* ================================================================== *)
(** * The probe of the winding test (specification side) *)

(** The probe point of the directed edge from [a] to [b], in cell units: the
    midpoint of the edge moved a quarter cell along the rightward normal
    [(-dy, dx)] of the direction [(dx, dy)]. *)
Definition probe_point (a b : IntPoint) : Q * Q :=
  let dx := px b - px a in
  let dy := py b - py a in
  ((inject_Z (px a + px b) / 2 + inject_Z (- dy) / 4)%Q,
   (inject_Z (py a + py b) / 2 + inject_Z dx / 4)%Q).

(** The grid cell that holds the probe point. *)
Definition probe_cell (a b : IntPoint) : Z * Z :=
  (Qfloor (fst (probe_point a b)), Qfloor (snd (probe_point a b))).

(* ================================================================== *)
(** * Values of binary32 numbers (specification side) *)

(** The number of bits of a mantissa. *)
Definition dig (p : positive) : Z := Zpos (digits2_pos p).

(** The exponents [e] of the mantissas of binary32, and the exponents [k]
    of the values [v * 2^k] the lemmas are stated for: far enough from both
    ends for any mantissa of 24 bits. *)
Definition exp_ok (e : Z) : Prop := -149 <= e <= 104.
Definition small_exp (k : Z) : Prop := -120 <= k <= 100.

(** The record that [shr] shifts to the right, for a mantissa with nothing
    shifted out of it yet: no round bit and no sticky bit. *)
Definition exact_rec (m : Z) : shr_record := Build_shr_record m false false.

(** [f32_is x v k]: the binary32 number [x] holds the value [v * 2^k]
    exactly: a zero when [v = 0], and otherwise the number of sign [v < 0]
    whose 24-bit mantissa [M] and exponent [k - n] satisfy
    [M = |v| * 2^n]. *)
Definition f32_is (x : float32) (v k : Z) : Prop :=
  (v = 0 /\ exists s, x = S754_zero s) \/
  (v <> 0 /\ exists M n, 0 <= n /\ Zpos M = Z.abs v * 2 ^ n /\ dig M = 24 /\
                        exp_ok (k - n) /\ x = S754_finite (v <? 0) M (k - n)).

(** A corner of the grid of a layer. *)
Definition corner_in_grid (layer : Layer) (p : IntPoint) : Prop :=
  0 <= px p <= px (getGridSize layer) /\ 0 <= py p <= py (getGridSize layer).

(** A well-formed binary32 number: the mantissa of a finite number has 24
    bits, or fewer at the smallest exponent, and the exponent is in range. *)
Definition well_formed (x : float32) : Prop := valid_binary 24 128 x = true.

(** A zero or a finite number: neither an infinity nor a NaN. *)
Definition is_finite (x : float32) : bool :=
  match x with
  | S754_zero _ | S754_finite _ _ _ => true
  | _ => false
  end.

(** The place of a number in the order of [SFcompare]: the class (negative
    infinity, negative, zero, positive, positive infinity), then the
    exponent and the mantissa, both negated below zero. *)
Definition f32_key (x : float32) : Z * Z * Z :=
  match x with
  | S754_nan => (0, 0, 0)
  | S754_infinity true => (-2, 0, 0)
  | S754_finite true m e => (-1, - e, - Zpos m)
  | S754_zero _ => (0, 0, 0)
  | S754_finite false m e => (1, e, Zpos m)
  | S754_infinity false => (2, 0, 0)
  end.

Definition key_le (a b : Z * Z * Z) : Prop :=
  fst (fst a) < fst (fst b) \/
  (fst (fst a) = fst (fst b) /\
   (snd (fst a) < snd (fst b) \/
    (snd (fst a) = snd (fst b) /\ snd a <= snd b))).

(** The layers on which the arithmetic of the winding test is exact: the
    scale is [t / 2^j] for integers [t >= 1] and [0 <= j <= 12], one cell
    spans [cell_size * t < 4096] units of [2^-j] pixels, and four times the
    width and the height of the grid plus one cell, in the same units, stay
    below [2^24]. *)
Definition exact_probes (svc : LevelService) (layer : Layer) (t j : Z) : Prop :=
  (scale svc == inject_Z t / inject_Z (2 ^ j))%Q /\ 0 <= j <= 12 /\
  1 <= t /\ 1 <= getCellSize layer /\
  getCellSize layer * t < 4096 /\
  4 * (px (getGridSize layer) + 1) * (getCellSize layer * t) < 2 ^ 24 /\
  4 * (py (getGridSize layer) + 1) * (getCellSize layer * t) < 2 ^ 24.

(* ================================================================== *)
(** * The boundary graph (specification side) *)

(** [v] is an endpoint of [e]. *)
Definition incident (v : IntPoint) (e : Edge) : bool :=
  point_eqb (ea e) v || point_eqb (eb e) v.

(** Number of live edges at a grid corner. *)
Definition degree (edges : EdgeSet) (v : IntPoint) : nat :=
  length (filter (incident v) edges).

(** Every corner has an even number of live edges. *)
Definition even_degrees (edges : EdgeSet) : Prop :=
  forall v, Nat.odd (degree edges v) = false.

(** During a walk exactly the start and the current corner have an odd
    number of live edges. *)
Definition odd_at_ends (edges : EdgeSet) (start cur : IntPoint) : Prop :=
  forall v, Nat.odd (degree edges v) = xorb (point_eqb v start) (point_eqb v cur).

(** A set of canonical edges without self-loops. *)
Definition proper_edges (es : EdgeSet) : Prop :=
  forall e, In e es -> canonical e /\ ea e <> eb e.

(** The four unit segments that meet at a grid corner: up, down, left,
    right. *)
Definition corner_edges (v : IntPoint) : list Edge :=
  [ mkEdge (mkPoint (px v) (py v - 1)) v;
    mkEdge v (mkPoint (px v) (py v + 1));
    mkEdge (mkPoint (px v - 1) (py v)) v;
    mkEdge v (mkPoint (px v + 1) (py v)) ].

(* ================================================================== *)
(** * Sample layers *)

(** A layer whose cell [(x, y)] carries the tag ["wall"] when [solid x y]
    holds and the empty tag otherwise. *)
Definition grid_layer (w h cell : Z) (solid : Z -> Z -> bool) : Layer :=
  mkLayer (mkPoint w h) cell
          (fun x y => if solid x y then "wall"%string else ""%string).

(** A service whose only collision tag is ["wall"], at the given scale. *)
Definition wall_service (s : Q) : LevelService := mkService ["wall"%string] s.

(** One solid cell. *)
Definition single_cell : Layer := grid_layer 1 1 16 (fun _ _ => true).

(** Scenario A: a 3x3 grid whose nine cells are solid. *)
Definition block3 : Layer := grid_layer 3 3 16 (fun _ _ => true).

(** The corners [v 0, v 1, ..., v t] of an indexed path. *)
Definition corner_path (v : nat -> IntPoint) (t : nat) : list IntPoint :=
  map v (seq 0 (S t)).

(** The live set when the chain is [poly]: the edges of [E0] the chain has
    not used. *)
Definition live_edges (E0 edges : EdgeSet) (poly : list IntPoint) : Prop :=
  forall e, In e edges <-> In e E0 /\ ~ In e (chain_edges poly).

(** A long strip: 50,001 solid cells in one row.  Its boundary is a single
    cycle of 100,004 unit edges. *)
Definition strip_width : Z := 50001.

Definition strip : Layer := grid_layer strip_width 1 16 (fun _ _ => true).

(** The corners of the boundary of a one-row strip of [w] cells, in walking
    order from [(0, 0)]: rightwards along the top, down the right end,
    leftwards along the bottom. *)
Definition strip_corner (w : Z) (i : nat) : IntPoint :=
  if Z.of_nat i <=? w
  then mkPoint (Z.of_nat i) 0
  else mkPoint (2 * w + 1 - Z.of_nat i) 1.

(** The corners on the boundary of a solid rectangle of [w] by [h] cells
    with its top left corner at the origin, in walking order from [(0, 0)]:
    along the top, down the right side, back along the bottom, up the left
    side; index [2 * (w + h)] is [(0, 0)] again. *)
Definition rect_corner (w h i : Z) : IntPoint :=
  if i <=? w then mkPoint i 0
  else if i <=? w + h then mkPoint w (i - w)
  else if i <=? 2 * w + h then mkPoint (2 * w + h - i) h
  else mkPoint 0 (2 * w + 2 * h - i).

(** The same corners with the index read modulo the perimeter. *)
Definition rect_cycle (w h i : Z) : IntPoint :=
  rect_corner w h (i mod (2 * w + 2 * h)).

(* ================================================================== *)
(** * Other classes of [components.h]: conventions

    - An [int] is a [Z]; where an [int] of the code could overflow, the
      bound that rules it out is a hypothesis of the theorem.
    - Undefined behaviour of the C++ code (a null or dangling pointer
      dereferenced, a [std::vector] indexed out of range) is the result
      [None] of the function that models the code.
    - A [std::unordered_map<std::string, V>] is the list of its entries, with
      distinct keys.  Nothing stated below depends on the order of the
      entries.
    - An object owned through a [std::unique_ptr] lives at an address
      ([ptr]); a null pointer is [None].
    - A call into raylib, Box2D or LDtkLoader is modelled by what the code
      passes and receives; what such a call returns is an input of the
      model. *)

(** ** [std::unordered_map<std::string, V>] *)

(** [m.find(k)]: the mapped value, [None] for [m.end()]. *)
Fixpoint map_find {V : Type} (m : list (string * V)) (k : string) : option V :=
  match m with
  | [] => None
  | (k', v) :: rest => if String.eqb k' k then Some v else map_find rest k
  end.

(** [m[k] = v]: the mapped value of an existing key is replaced, a new key
    gets a new entry. *)
Fixpoint map_assign {V : Type} (m : list (string * V)) (k : string) (v : V)
    : list (string * V) :=
  match m with
  | [] => [(k, v)]
  | (k', v') :: rest =>
      if String.eqb k' k then (k', v) :: rest
      else (k', v') :: map_assign rest k v
  end.

(** [m[k]] read: a missing key gets an entry with the value-initialised
    [V] ([default]) first. *)
Definition map_index {V : Type} (default : V) (m : list (string * V))
    (k : string) : list (string * V) * V :=
  match map_find m k with
  | Some v => (m, v)
  | None => (m ++ [(k, default)], default)
  end.

(** The address of an object on the heap. *)
Definition ptr : Type := nat.

(** ** [MultiComponent<T>] *)

(** [MultiComponent::components]: every entry owns a component or is
    null. *)
Definition ComponentMap : Type := list (string * option ptr).

(** [MultiComponent::add_component(name, std::unique_ptr<T>)]: the entry is
    assigned, then [components[name]->owner] is written. *)
Definition MultiComponent_add_component (components : ComponentMap)
    (name : string) (component : option ptr) : option ComponentMap :=
  let components := map_assign components name component in
  let (components, entry) := map_index None components name in
  match entry with
  | Some _ => Some components
  | None => None
  end.

(** [MultiComponent::get_component(name)]: [components[name].get()]. *)
Definition MultiComponent_get_component (components : ComponentMap)
    (name : string) : ComponentMap * option ptr :=
  map_index None components name.

(** [MultiComponent::init], [update] and [draw]: the same loop, calling the
    member function on every entry.  The result is the sequence of objects
    the member function was called on. *)
Fixpoint MultiComponent_update (components : ComponentMap) : option (list ptr) :=
  match components with
  | [] => Some []
  | (_, None) :: _ => None
  | (_, Some c) :: rest =>
      match MultiComponent_update rest with
      | Some calls => Some (c :: calls)
      | None => None
      end
  end.

(** ** [Animation] *)

(** raylib's [Texture2D]: the fields the code reads. *)
Record Texture2D : Type := mkTexture {
  texture_id : Z;
  texture_width : Z;
  texture_height : Z
}.

(** [class Animation]; the field [loop] is [looping] here. *)
Record Animation : Type := mkAnimation {
  frames : list Texture2D;
  fps : float32;
  frame_timer : float32;
  looping : bool;
  current_frame : Z;
  playing : bool;
  is_active : bool
}.

(** The conversion of an [int] to [size_t] (64 bits). *)
Definition to_size_t (i : Z) : Z := i mod 2 ^ 64.

(** The first constructor of [Animation].  [1.0f / fps] is the binary32
    quotient: an infinity when [fps] is a zero. *)
Definition Animation_new (frames : list Texture2D) (fps : float32)
    (looping : bool) : Animation :=
  mkAnimation frames fps (fdiv f_one fps) looping 0 true true.

(** [Animation::update]. *)
Definition Animation_update (a : Animation) (delta_time : float32) : Animation :=
  match frames a with
  | [] => a
  | _ :: _ =>
      if negb (playing a) || negb (is_active a) then a
      else
        let timer := fsub (frame_timer a) delta_time in
        let expired := fleb timer f_zero in
        let timer := if expired then fdiv f_one (fps a) else timer in
        let frame := if expired then current_frame a + 1 else current_frame a in
        let size := Z.of_nat (length (frames a)) in
        let frame :=
          if to_size_t (size - 1) <? to_size_t frame
          then if looping a then 0 else size - 1
          else frame in
        mkAnimation (frames a) (fps a) timer (looping a) frame
                    (playing a) (is_active a)
  end.

(** [frames[current_frame]]: [None] when the index is out of range. *)
Definition Animation_sprite (a : Animation) : option Texture2D :=
  nth_error (frames a) (Z.to_nat (to_size_t (current_frame a))).

(** Both overloads of [Animation::draw]: the textures passed to
    [DrawTexturePro]. *)
Definition Animation_draw (a : Animation) : option (list Texture2D) :=
  if negb (is_active a) then Some []
  else
    match Animation_sprite a with
    | Some sprite => Some [sprite]
    | None => None
    end.

(** [Animation::play]. *)
Definition Animation_play (a : Animation) : Animation :=
  mkAnimation (frames a) (fps a) (frame_timer a) (looping a) (current_frame a)
              true (is_active a).

(** [Animation::pause]. *)
Definition Animation_pause (a : Animation) : Animation :=
  mkAnimation (frames a) (fps a) (frame_timer a) (looping a) (current_frame a)
              false (is_active a).

(** [Animation::stop]. *)
Definition Animation_stop (a : Animation) : Animation :=
  mkAnimation (frames a) (fps a) (fdiv f_one (fps a)) (looping a) 0
              false (is_active a).

(** [Animation::update] once for every frame time of a list. *)
Definition Animation_updates (a : Animation) (delta_times : list float32)
    : Animation :=
  fold_left Animation_update delta_times a.

(** ** [AnimationController] *)

(** The [Animation] objects on the heap: [heap_objects h p] is the object at
    a live address, [heap_next h] the address [std::make_unique] returns
    next. *)
Record Heap : Type := mkHeap {
  heap_objects : ptr -> option Animation;
  heap_next : ptr
}.

Definition heap_empty : Heap := mkHeap (fun _ => None) 0%nat.

Definition heap_write (h : Heap) (p : ptr) (a : Animation) : Heap :=
  mkHeap (fun q => if Nat.eqb q p then Some a else heap_objects h q) (heap_next h).

(** The destructor of a [std::unique_ptr<Animation>] that owns [p]. *)
Definition heap_delete (h : Heap) (p : ptr) : Heap :=
  mkHeap (fun q => if Nat.eqb q p then None else heap_objects h q) (heap_next h).

(** [std::make_unique<Animation>(...)]. *)
Definition heap_make_unique (h : Heap) (a : Animation) : Heap * ptr :=
  (mkHeap (fun q => if Nat.eqb q (heap_next h) then Some a else heap_objects h q)
          (S (heap_next h)),
   heap_next h).

(** The fields of [AnimationController] its member functions read and
    write, apart from the drawing parameters. *)
Record AnimationController : Type := mkController {
  animations : list (string * option ptr);
  current_animation : option ptr;
  origin : b2Vec2
}.

Definition AnimationController_new : AnimationController :=
  mkController [] None (mkVec2 0 0).

(** A member function called on [*p]: [None] when [p] is not the address of
    a live object. *)
Definition on_animation (h : Heap) (p : ptr) (f : Animation -> Animation)
    : option Heap :=
  match heap_objects h p with
  | Some a => Some (heap_write h p (f a))
  | None => None
  end.

(** [AnimationController::add_animation(name, std::unique_ptr<Animation>)]. *)
Definition AnimationController_add_animation (h : Heap) (c : AnimationController)
    (name : string) (animation : option ptr)
    : option (Heap * AnimationController) :=
  let h :=
    match map_find (animations c) name with
    | Some (Some old) => heap_delete h old
    | _ => h
    end in
  let anims := map_assign (animations c) name animation in
  match current_animation c with
  | Some _ => Some (h, mkController anims (current_animation c) (origin c))
  | None =>
      match animation with
      | None => None
      | Some p =>
          match heap_objects h p with
          | None => None
          | Some a =>
              match Animation_sprite a with
              | None => None
              | Some sprite =>
                  Some (h, mkController anims (Some p)
                             (mkVec2 (inject_Z (texture_width sprite) / 2)
                                     (inject_Z (texture_height sprite) / 2)))
              end
          end
      end
  end.

(** The template [AnimationController::add_animation(name, args...)]:
    [std::make_unique<Animation>] followed by the function above.  [frames]
    are the textures the constructor of [Animation] stores, one for every
    file name it is given. *)
Definition AnimationController_add_new (h : Heap) (c : AnimationController)
    (name : string) (frames : list Texture2D) (fps : float32) (looping : bool)
    : option (Heap * AnimationController) :=
  let (h, p) := heap_make_unique h (Animation_new frames fps looping) in
  AnimationController_add_animation h c name (Some p).

(** [AnimationController::get_animation]. *)
Definition AnimationController_get_animation (c : AnimationController)
    (name : string) : AnimationController * option ptr :=
  let (anims, p) := map_index None (animations c) name in
  (mkController anims (current_animation c) (origin c), p).

(** The member functions that forward to the current animation, if there is
    one: [update], [play()], [pause], [stop]. *)
Definition on_current (h : Heap) (c : AnimationController)
    (f : Animation -> Animation) : option Heap :=
  match current_animation c with
  | Some p => on_animation h p f
  | None => Some h
  end.

Definition AnimationController_update (h : Heap) (c : AnimationController)
    (delta_time : float32) : option Heap :=
  on_current h c (fun a => Animation_update a delta_time).

Definition AnimationController_play (h : Heap) (c : AnimationController)
    : option Heap :=
  on_current h c Animation_play.

Definition AnimationController_pause (h : Heap) (c : AnimationController)
    : option Heap :=
  on_current h c Animation_pause.

Definition AnimationController_stop (h : Heap) (c : AnimationController)
    : option Heap :=
  on_current h c Animation_stop.

(** [AnimationController::set_play]. *)
Definition AnimationController_set_play (h : Heap) (c : AnimationController)
    (play : bool) : option Heap :=
  on_current h c (if play then Animation_play else Animation_pause).

(** [AnimationController::play(name)]. *)
Definition AnimationController_play_name (h : Heap) (c : AnimationController)
    (name : string) : option (Heap * AnimationController) :=
  match map_find (animations c) name with
  | None => Some (h, c)
  | Some None => None
  | Some (Some p) =>
      match heap_objects h p with
      | None => None
      | Some a =>
          let a := Animation_play a in
          match Animation_sprite a with
          | None => None
          | Some _ =>
              Some (heap_write h p a,
                    mkController (animations c) (Some p) (origin c))
          end
      end
  end.

(** [AnimationController::draw]: the textures drawn. *)
Definition AnimationController_draw (h : Heap) (c : AnimationController)
    : option (list Texture2D) :=
  match current_animation c with
  | None => Some []
  | Some p =>
      match heap_objects h p with
      | None => None
      | Some a => Animation_draw a
      end
  end.

(** A call of a member function of [AnimationController]. *)
Inductive ControllerCall : Type :=
| CallAdd (name : string) (frames : list Texture2D) (fps : float32)
          (looping : bool)
| CallGet (name : string)
| CallPlay
| CallPlayName (name : string)
| CallPause
| CallSetPlay (play : bool)
| CallStop
| CallUpdate (delta_time : float32)
| CallDraw.

Definition keep_controller (c : AnimationController) (h : option Heap)
    : option (Heap * AnimationController) :=
  option_map (fun h => (h, c)) h.

Definition controller_call (h : Heap) (c : AnimationController)
    (call : ControllerCall) : option (Heap * AnimationController) :=
  match call with
  | CallAdd name frames fps looping =>
      AnimationController_add_new h c name frames fps looping
  | CallGet name => Some (h, fst (AnimationController_get_animation c name))
  | CallPlay => keep_controller c (AnimationController_play h c)
  | CallPlayName name => AnimationController_play_name h c name
  | CallPause => keep_controller c (AnimationController_pause h c)
  | CallSetPlay play => keep_controller c (AnimationController_set_play h c play)
  | CallStop => keep_controller c (AnimationController_stop h c)
  | CallUpdate delta_time =>
      keep_controller c (AnimationController_update h c delta_time)
  | CallDraw =>
      match AnimationController_draw h c with
      | Some _ => Some (h, c)
      | None => None
      end
  end.

(** A sequence of calls on a controller. *)
Fixpoint controller_calls (h : Heap) (c : AnimationController)
    (calls : list ControllerCall) : option (Heap * AnimationController) :=
  match calls with
  | [] => Some (h, c)
  | call :: rest =>
      match controller_call h c call with
      | Some (h, c) => controller_calls h c rest
      | None => None
      end
  end.

(** Calls that add every name once, with at least one frame (and a number
    of frames that fits an [int]), and look up only names that were added. *)
Fixpoint calls_in_order (known : list string) (calls : list ControllerCall)
    : Prop :=
  match calls with
  | [] => True
  | CallAdd name frames _ _ :: rest =>
      ~ In name known /\ frames <> [] /\
      Z.of_nat (length frames) < 2 ^ 31 /\
      calls_in_order (name :: known) rest
  | CallGet name :: rest => In name known /\ calls_in_order known rest
  | _ :: rest => calls_in_order known rest
  end.

(** The frame index of an animation is an index of [frames], and the number
    of frames fits an [int]. *)
Definition frame_in_range (a : Animation) : Prop :=
  0 <= current_frame a < Z.of_nat (length (frames a)) /\
  Z.of_nat (length (frames a)) < 2 ^ 31.

(** The state of a controller after calls in order: the names added are the
    keys of the map, no entry is null, every entry owns a live animation
    whose frame index is in range, and the current animation is owned by an
    entry. *)
Definition controller_ok (known : list string) (h : Heap)
    (c : AnimationController) : Prop :=
  (forall name, In name known <-> map_find (animations c) name <> None) /\
  (forall name, map_find (animations c) name <> Some None) /\
  (forall name p, map_find (animations c) name = Some (Some p) ->
                  exists a, heap_objects h p = Some a /\ frame_in_range a) /\
  (forall p, current_animation c = Some p ->
             exists name, map_find (animations c) name = Some (Some p)).

(** ** [TextureService] *)

(** [TextureService::textures] and the file names passed to [LoadTexture]
    so far. *)
Record TextureService : Type := mkTextureService {
  textures : list (string * Texture2D);
  texture_loads : list string
}.

Definition TextureService_new : TextureService := mkTextureService [] [].

(** [TextureService::get_texture].  [LoadTexture loads filename] is what
    raylib returns for [filename] after the loads [loads]. *)
Definition TextureService_get_texture
    (LoadTexture : list string -> string -> Texture2D)
    (s : TextureService) (filename : string) : TextureService * Texture2D :=
  let s :=
    match map_find (textures s) filename with
    | None =>
        let texture := LoadTexture (texture_loads s) filename in
        mkTextureService (map_assign (textures s) filename texture)
                         (texture_loads s ++ [filename])
    | Some _ => s
    end in
  let (m, texture) :=
    map_index (mkTexture 0 0 0) (textures s) filename in
  (mkTextureService m (texture_loads s), texture).

(** [get_texture] for every file name of a list, in order. *)
Definition TextureService_get_textures
    (LoadTexture : list string -> string -> Texture2D)
    (s : TextureService) (filenames : list string) : TextureService :=
  fold_left (fun s f => fst (TextureService_get_texture LoadTexture s f))
            filenames s.

(** ** [SoundService] *)

(** raylib's [Sound], by the call that made it: [LoadSound] on a file, or
    [LoadSoundAlias] on a sound. *)
Inductive Sound : Type :=
| LoadSound (filename : string)
| LoadSoundAlias (source : Sound).

(** [SoundService::sounds]. *)
Definition SoundMap : Type := list (string * list Sound).

(** [SoundService::get_sound]: the map after the call and the sound
    [sounds[filename].back()] refers to ([None]: [back()] of an empty
    vector). *)
Definition SoundService_get_sound (sounds : SoundMap) (filename : string)
    : option (SoundMap * Sound) :=
  match map_find sounds filename with
  | None =>
      let sound := LoadSound filename in
      Some (map_assign sounds filename [sound], sound)
  | Some v =>
      match v with
      | [] => None
      | first :: _ =>
          let sound := LoadSoundAlias first in
          Some (map_assign sounds filename (v ++ [sound]), sound)
      end
  end.

(** [get_sound] for every file name of a list, in order. *)
Fixpoint SoundService_get_sounds (sounds : SoundMap) (filenames : list string)
    : option SoundMap :=
  match filenames with
  | [] => Some sounds
  | f :: rest =>
      match SoundService_get_sound sounds f with
      | Some (sounds, _) => SoundService_get_sounds sounds rest
      | None => None
      end
  end.

(** A call of raylib made by [~SoundService]. *)
Inductive UnloadCall : Type :=
| UnloadSound (sound : Sound)
| UnloadSoundAlias (sound : Sound).

(** [~SoundService]: the unload calls, [None] when [pair.second[0]] is out
    of range. *)
Fixpoint SoundService_destroy (sounds : SoundMap) : option (list UnloadCall) :=
  match sounds with
  | [] => Some []
  | (_, []) :: _ => None
  | (_, first :: aliases) :: rest =>
      match SoundService_destroy rest with
      | Some calls =>
          Some (UnloadSound first :: map UnloadSoundAlias aliases ++ calls)
      | None => None
      end
  end.

(** ** The layer renderers of [LevelService] *)

(** [struct LayerRenderer]; the render texture is its id. *)
Record LayerRenderer : Type := mkLayerRenderer {
  renderer : Z;
  layer_iid : string;
  visible : bool
}.

(** The loop of [LevelService::draw], from index [i] down to 0: the render
    textures drawn, in drawing order. *)
Fixpoint draw_down (renderers : list LayerRenderer) (count : nat) : list Z :=
  match count with
  | O => []
  | S i =>
      match nth_error renderers i with
      | Some layer_renderer =>
          if negb (visible layer_renderer) then draw_down renderers i
          else renderer layer_renderer :: draw_down renderers i
      | None => draw_down renderers i
      end
  end.

(** [LevelService::draw]. *)
Definition LevelService_draw (renderers : list LayerRenderer) : list Z :=
  draw_down renderers (length renderers).

(** [LevelService::draw_layer(ldtk::IID)]. *)
Fixpoint LevelService_draw_layer (renderers : list LayerRenderer)
    (layer_id : string) : list Z :=
  match renderers with
  | [] => []
  | layer_renderer :: rest =>
      if String.eqb (layer_iid layer_renderer) layer_id
      then [renderer layer_renderer]
      else LevelService_draw_layer rest layer_id
  end.

(** [LevelService::set_layer_visibility(ldtk::IID, bool)]. *)
Fixpoint LevelService_set_layer_visibility (renderers : list LayerRenderer)
    (layer_id : string) (value : bool) : list LayerRenderer :=
  match renderers with
  | [] => []
  | layer_renderer :: rest =>
      if String.eqb (layer_iid layer_renderer) layer_id
      then mkLayerRenderer (renderer layer_renderer) (layer_iid layer_renderer) value
           :: rest
      else layer_renderer :: LevelService_set_layer_visibility rest layer_id value
  end.

(** ** The layer bodies of [LevelService] *)

(** A Box2D body id. *)
Definition b2BodyId : Type := Z.

(** The Box2D world, as far as the code can tell: the ids of the valid
    bodies. *)
Definition b2World : Type := list b2BodyId.

Definition b2Body_IsValid (world : b2World) (body : b2BodyId) : bool :=
  existsb (Z.eqb body) world.

Definition b2DestroyBody (world : b2World) (body : b2BodyId) : b2World :=
  filter (fun b => negb (b =? body)) world.

(** [b2CreateBody], returning the id [body]. *)
Definition b2CreateBody (world : b2World) (body : b2BodyId) : b2World :=
  world ++ [body].

(** The loop [for (auto& loop : loops)] at the end of the layer loop of
    [LevelService::init]: one [push_back(layer_body)] for every loop. *)
Definition push_layer_body (layer_bodies : list b2BodyId) (layer_body : b2BodyId)
    (loops : list (list IntPoint)) : list b2BodyId :=
  fold_left (fun bodies _ => bodies ++ [layer_body]) loops layer_bodies.

(** The bodies of [LevelService::init] over the layers with a tileset: for
    each one its loops and the id [b2CreateBody] returns for it. *)
Fixpoint init_layer_bodies (world : b2World) (layer_bodies : list b2BodyId)
    (layers : list (b2BodyId * list (list IntPoint)))
    : b2World * list b2BodyId :=
  match layers with
  | [] => (world, layer_bodies)
  | (layer_body, loops) :: rest =>
      init_layer_bodies (b2CreateBody world layer_body)
                        (push_layer_body layer_bodies layer_body loops) rest
  end.

(** The second loop of [~LevelService]: the world afterwards and the calls
    of [b2DestroyBody]. *)
Fixpoint destroy_layer_bodies (world : b2World) (layer_bodies : list b2BodyId)
    : b2World * list b2BodyId :=
  match layer_bodies with
  | [] => (world, [])
  | body :: rest =>
      if b2Body_IsValid world body
      then let (world', calls) := destroy_layer_bodies (b2DestroyBody world body) rest in
           (world', body :: calls)
      else destroy_layer_bodies world rest
  end.

(** ** [PlatformerMovementComponent] *)

(** [x < y] on floats. *)
Definition Qltb (x y : Q) : bool := negb (Qle_bool y x).

(** [std::max] and [std::min] on floats. *)
Definition fmax (a b : Q) : Q := if Qltb a b then b else a.
Definition fmin (a b : Q) : Q := if Qltb b a then b else a.

(** [PlatformerMovementComponent::move_towards], on the rational values of
    the floats: [target - current] and [current + max_delta] are the exact
    difference and sum, where the code rounds both to binary32.  The
    statements below meet [move_towards] only inside [update] and say nothing
    of the horizontal velocity it returns. *)
Definition move_towards (current target max_delta : Q) : Q :=
  let delta := (target - current)%Q in
  if Qle_bool (Qabs delta) max_delta then target
  else (current + (if Qltb 0 delta then max_delta else - max_delta))%Q.

(** [struct PlatformerMovementParams]. *)
Record PlatformerMovementParams : Type := mkPlatformerParams {
  body_width : Q;
  body_height : Q;
  max_speed : Q;
  accel : Q;
  decel : Q;
  gravity : Q;
  jump_speed : Q;
  fall_speed : Q;
  jump_cutoff_multiplier : Q;
  coyote_time : Q;
  jump_buffer : Q
}.

(** The fields of [PlatformerMovementComponent]; the parameters [p] are
    [params] here. *)
Record PlatformerMovementComponent : Type := mkPlatformer {
  params : PlatformerMovementParams;
  grounded : bool;
  on_wall_left : bool;
  on_wall_right : bool;
  coyote_timer : Q;
  jump_buffer_timer : Q;
  move_x : Q;
  jump_pressed : bool;
  jump_held : bool
}.

(** What one [update] reads from the physics engine: whether the body is
    valid, the [hit] flag of the four ray casts and the velocity of the body
    in pixels per second. *)
Record PlatformerFrame : Type := mkPlatformerFrame {
  delta_time : Q;
  body_valid : bool;
  left_ground_hit : bool;
  right_ground_hit : bool;
  left_wall_hit : bool;
  right_wall_hit : bool;
  velocity : b2Vec2
}.

(** [PlatformerMovementComponent::update]: the component afterwards and the
    velocity passed to [body->set_velocity], if the call is reached. *)
Definition PlatformerMovementComponent_update (c : PlatformerMovementComponent)
    (f : PlatformerFrame) : PlatformerMovementComponent * option b2Vec2 :=
  if negb (body_valid f) then (c, None)
  else
    let p := params c in
    let dt := delta_time f in
    let coyote := fmax 0 (coyote_timer c - dt)%Q in
    let buffer := fmax 0 (jump_buffer_timer c - dt)%Q in
    let buffer := if jump_pressed c then jump_buffer p else buffer in
    let on_ground := left_ground_hit f || right_ground_hit f in
    let coyote := if on_ground then coyote_time p else coyote in
    let target_vx := (move_x c * max_speed p)%Q in
    let v := velocity f in
    let v_x :=
      if Qltb (1 # 1000) (Qabs target_vx)
      then move_towards (vx v) target_vx (accel p * dt)%Q
      else move_towards (vx v) 0 (decel p * dt)%Q in
    let v_y := (vy v + gravity p * dt)%Q in
    let v_y := fmax (- fall_speed p)%Q (fmin (fall_speed p) v_y) in
    let can_jump := on_ground || Qltb 0 coyote in
    let jump := Qltb 0 buffer && can_jump in
    let v_y := if jump then (- jump_speed p)%Q else v_y in
    let buffer := if jump then 0%Q else buffer in
    let coyote := if jump then 0%Q else coyote in
    let on_ground := if jump then false else on_ground in
    let v_y :=
      if negb (jump_held c) && Qltb v_y 0
      then (v_y * jump_cutoff_multiplier p)%Q else v_y in
    (mkPlatformer p on_ground (left_wall_hit f) (right_wall_hit f)
                  coyote buffer (move_x c) (jump_pressed c) (jump_held c),
     Some (mkVec2 v_x v_y)).

(** [PlatformerMovementComponent::set_input]. *)
Definition PlatformerMovementComponent_set_input (c : PlatformerMovementComponent)
    (horizontal_speed : Q) (pressed held : bool) : PlatformerMovementComponent :=
  mkPlatformer (params c) (grounded c) (on_wall_left c) (on_wall_right c)
               (coyote_timer c) (jump_buffer_timer c)
               horizontal_speed pressed held.

(** [set_input] followed by [update], once for every frame of a list: the
    component afterwards and the velocities written. *)
Fixpoint PlatformerMovementComponent_updates (c : PlatformerMovementComponent)
    (steps : list (Q * bool * bool * PlatformerFrame))
    : PlatformerMovementComponent * list (option b2Vec2) :=
  match steps with
  | [] => (c, [])
  | (horizontal_speed, pressed, held, f) :: rest =>
      let c := PlatformerMovementComponent_set_input c horizontal_speed pressed held in
      let (c, v) := PlatformerMovementComponent_update c f in
      let (c, vs) := PlatformerMovementComponent_updates c rest in
      (c, v :: vs)
  end.
(** The vertical velocity [update] writes when it does not jump: gravity,
    the clamp to the fall speed and the cut of an upward velocity when the
    jump button is not held. *)
Definition falling_velocity (p : PlatformerMovementParams) (held : bool)
    (dt v_y : Q) : Q :=
  let v_y := (v_y + gravity p * dt)%Q in
  let v_y := fmax (- fall_speed p)%Q (fmin (fall_speed p) v_y) in
  if negb held && Qltb v_y 0 then (v_y * jump_cutoff_multiplier p)%Q else v_y.

(** A frame in the air: the body is valid, no time runs backwards and
    neither ground ray hits. *)
Definition airborne_frame (f : PlatformerFrame) : Prop :=
  body_valid f = true /\ (0 <= delta_time f)%Q /\
  left_ground_hit f = false /\ right_ground_hit f = false.

(** ** Sample inputs *)

Definition sample_physics : PhysicsService := mkPhysics (1 # 30).

Definition sample_material : b2SurfaceMaterial := mkMaterial 0 0 0 0 0 0.

Definition sample_texture : Texture2D := mkTexture 1 16 16.

(** [15.0f], the default of [fps], and a frame time of a sixtieth of a
    second. *)
Definition sample_fps : float32 := float_of_int 15.

Definition sample_dt : float32 := float_of_Q (1 # 60).

(** A frame time of a tenth of a second, longer than the period of
    [sample_fps]. *)
Definition long_dt : float32 := float_of_Q (1 # 10).

Definition sample_animation : Animation :=
  Animation_new [sample_texture; sample_texture] sample_fps true.

Definition sample_calls : list ControllerCall :=
  [CallAdd "run" [sample_texture] sample_fps true; CallUpdate sample_dt;
   CallDraw; CallPlayName "run"; CallStop; CallGet "run"; CallDraw].

Definition sample_heap : Heap :=
  mkHeap (fun q => if Nat.eqb q 0 then Some sample_animation else None) 1%nat.

Definition sample_controller : AnimationController :=
  mkController [("run"%string, Some 0%nat)] (Some 0%nat) (mkVec2 8 8).

Definition sample_renderers : list LayerRenderer :=
  [mkLayerRenderer 1 "ground" true; mkLayerRenderer 2 "walls" true].

Definition sample_layers : list (b2BodyId * list (list IntPoint)) :=
  [(1, [[mkPoint 0 0; mkPoint 1 0; mkPoint 1 1; mkPoint 0 1]]); (2, [])].

Definition sample_params : PlatformerMovementParams :=
  mkPlatformerParams 24 40 220 2000 2500 1400 520 1200 (45 # 100) (8 # 100) (1 # 10).

Definition sample_component : PlatformerMovementComponent :=
  mkPlatformer sample_params false false false 0 0 0 false false.

Definition sample_frame : PlatformerFrame :=
  mkPlatformerFrame (1 # 60) true false false false false (mkVec2 0 0).

(* ================================================================== *)
(** * Theorems *)

(** ** Equality tests *)

Lemma point_eqb_spec (p q : IntPoint) : reflect (p = q) (point_eqb p q).
Proof.
  destruct p as [x1 y1], q as [x2 y2]; unfold point_eqb; cbn.
  destruct (Z.eqb_spec x1 x2), (Z.eqb_spec y1 y2); constructor; congruence.
Qed.

Lemma edge_eqb_spec (e1 e2 : Edge) : reflect (e1 = e2) (edge_eqb e1 e2).
Proof.
  destruct e1 as [a1 b1], e2 as [a2 b2]; unfold edge_eqb; cbn.
  destruct (point_eqb_spec a1 a2), (point_eqb_spec b1 b2);
    constructor; congruence.
Qed.

Lemma point_eqb_refl p : point_eqb p p = true.
Proof. destruct (point_eqb_spec p p); congruence. Qed.

Lemma edge_eqb_refl e : edge_eqb e e = true.
Proof. destruct (edge_eqb_spec e e); congruence. Qed.

(** ** C8: canonical edges *)

Lemma make_edge_sym p q : make_edge p q = make_edge q p.
Proof.
  destruct p as [x1 y1], q as [x2 y2]; unfold make_edge; cbn.
  destruct (Z.ltb_spec x2 x1), (Z.ltb_spec x1 x2),
           (Z.eqb_spec x2 x1), (Z.eqb_spec x1 x2),
           (Z.ltb_spec y2 y1), (Z.ltb_spec y1 y2); cbn;
    try reflexivity; try lia.
  f_equal; f_equal; lia.
Qed.

(** C8. For all grid points [p] and [q], [make_edge p q] and [make_edge q p]
    are the same value; the endpoints of that value are [p] and [q], the
    lexicographically smaller one first; and so the two constructions
    compare equal under the set's equality. *)
Theorem make_edge_canonical (p q : IntPoint) :
  make_edge p q = make_edge q p /\
  ((ea (make_edge p q) = p /\ eb (make_edge p q) = q) \/
   (ea (make_edge p q) = q /\ eb (make_edge p q) = p)) /\
  (px (ea (make_edge p q)) < px (eb (make_edge p q)) \/
   (px (ea (make_edge p q)) = px (eb (make_edge p q)) /\
    py (ea (make_edge p q)) <= py (eb (make_edge p q)))) /\
  edge_eqb (make_edge p q) (make_edge q p) = true.
Proof.
  pose proof (make_edge_sym p q) as E.
  split; [exact E|]. split; [|split].
  - unfold make_edge. destruct (_ || _); cbn [ea eb]; auto.
  - destruct p as [x1 y1], q as [x2 y2]; unfold make_edge; cbn.
    destruct (Z.ltb_spec x2 x1), (Z.eqb_spec x2 x1), (Z.ltb_spec y2 y1);
      cbn; lia.
  - rewrite <- E. apply edge_eqb_refl.
Qed.

(** ** C4: the occupancy classifier *)

Lemma name_listed_In names name :
  name_listed names name = true <-> In name names.
Proof.
  unfold name_listed. rewrite existsb_exists. split.
  - intros (s & Hs & E). apply String.eqb_eq in E. now subst.
  - intros H. exists name. split; [exact H | apply String.eqb_refl].
Qed.

Lemma is_solid_outside svc layer x y size :
  x < 0 \/ y < 0 \/ px size <= x \/ py size <= y ->
  is_solid svc layer x y size = false.
Proof.
  unfold is_solid. intros H.
  destruct (Z.ltb_spec x 0), (Z.ltb_spec y 0),
           (Z.geb_spec x (px size)), (Z.geb_spec y (py size)); cbn;
    try reflexivity; lia.
Qed.

(** C4. [is_solid] is [false] outside the grid, and inside the grid it is
    [true] exactly when the cell's tag name is a member of the collision
    names; being a function of its arguments it is pure and deterministic. *)
Theorem is_solid_spec (svc : LevelService) (layer : Layer) (x y : Z) (size : IntPoint) :
  ((x < 0 \/ y < 0 \/ px size <= x \/ py size <= y) ->
     is_solid svc layer x y size = false) /\
  ((0 <= x < px size /\ 0 <= y < py size) ->
     (is_solid svc layer x y size = true <->
      In (getIntGridValName layer x y) (collision_names svc))).
Proof.
  split.
  - apply is_solid_outside.
  - unfold is_solid. intros [Hx Hy].
    destruct (Z.ltb_spec x 0), (Z.ltb_spec y 0),
             (Z.geb_spec x (px size)), (Z.geb_spec y (py size)); cbn;
      try lia.
    rewrite <- name_listed_In.
    destruct (name_listed _ _); intuition congruence.
Qed.

(** ** C3: the collection scan *)

Lemma set_mem_In e s : set_mem e s = true <-> In e s.
Proof.
  unfold set_mem. rewrite existsb_exists. split.
  - intros (x & Hx & E). destruct (edge_eqb_spec e x); [now subst | discriminate].
  - intros H. exists e. split; [exact H | apply edge_eqb_refl].
Qed.

Lemma set_mem_false e s : set_mem e s = false <-> ~ In e s.
Proof.
  rewrite <- set_mem_In. destruct (set_mem e s); intuition congruence.
Qed.

Lemma set_insert_In e e' s : In e (set_insert e' s) <-> e = e' \/ In e s.
Proof.
  unfold set_insert. destruct (set_mem e' s) eqn:M.
  - apply set_mem_In in M. split; [now right | intros [-> | H]; assumption].
  - rewrite in_app_iff. cbn. intuition congruence.
Qed.

Lemma set_erase_In e e' s : In e (set_erase e' s) <-> In e s /\ e <> e'.
Proof.
  unfold set_erase. rewrite filter_In.
  destruct (edge_eqb_spec e e'); cbn; intuition congruence.
Qed.

Lemma set_erase_length e s : (length (set_erase e s) <= length s)%nat.
Proof. apply filter_length_le. Qed.

Lemma set_erase_length_lt e s :
  In e s -> (length (set_erase e s) < length s)%nat.
Proof.
  unfold set_erase. induction s as [|x s IH]; cbn; [tauto|].
  intros [-> | H].
  - rewrite edge_eqb_refl. cbn.
    pose proof (filter_length_le (fun e' => negb (edge_eqb e' e)) s). lia.
  - specialize (IH H). destruct (negb (edge_eqb x e)); cbn; lia.
Qed.

Lemma set_erase_NoDup e s : NoDup s -> NoDup (set_erase e s).
Proof. apply NoDup_filter. Qed.

Lemma int_range_In n x : In x (int_range n) <-> 0 <= x < n.
Proof.
  unfold int_range. rewrite in_map_iff. split.
  - intros (k & <- & Hk). apply in_seq in Hk. lia.
  - intros H. exists (Z.to_nat x). split; [lia | apply in_seq; lia].
Qed.

Lemma int_range_NoDup n : NoDup (int_range n).
Proof.
  unfold int_range. apply Injective_map_NoDup; [|apply seq_NoDup].
  intros a b. apply Nat2Z.inj.
Qed.

Lemma is_solid_in_range svc layer x y size :
  is_solid svc layer x y size = true -> 0 <= x < px size /\ 0 <= y < py size.
Proof.
  unfold is_solid.
  destruct (Z.ltb_spec x 0), (Z.ltb_spec y 0),
           (Z.geb_spec x (px size)), (Z.geb_spec y (py size)); cbn;
    try discriminate. lia.
Qed.

Lemma cell_solid_in_range svc layer x y :
  cell_solid svc layer x y = true ->
  0 <= x < px (getGridSize layer) /\ 0 <= y < py (getGridSize layer).
Proof. apply is_solid_in_range. Qed.

(** The canonical order leaves the four segments of the scan as written. *)
Lemma make_edge_right x y :
  make_edge (mkPoint x y) (mkPoint (x + 1) y) = mkEdge (mkPoint x y) (mkPoint (x + 1) y).
Proof.
  unfold make_edge; cbn.
  destruct (Z.ltb_spec (x + 1) x), (Z.eqb_spec (x + 1) x); cbn; try lia; reflexivity.
Qed.

Lemma make_edge_down x y :
  make_edge (mkPoint x y) (mkPoint x (y + 1)) = mkEdge (mkPoint x y) (mkPoint x (y + 1)).
Proof.
  unfold make_edge; cbn.
  destruct (Z.ltb_spec x x), (Z.eqb_spec x x), (Z.ltb_spec (y + 1) y); cbn;
    try lia; reflexivity.
Qed.

(** One cell of the scan inserts the segments of its boundary sides. *)
Lemma scan_cell_sides svc layer edges x y :
  scan_cell svc layer (getGridSize layer) edges x y =
  fold_left (fun acc s => set_insert (side_edge x y s) acc)
            (boundary_sides_of_cell svc layer x y) edges.
Proof.
  unfold scan_cell, boundary_sides_of_cell, cell_solid. cbn.
  rewrite !make_edge_right, !make_edge_down.
  destruct (is_solid svc layer x y _); cbn; [|reflexivity].
  destruct (is_solid svc layer x (y - 1) _),
           (is_solid svc layer x (y + 1) _),
           (is_solid svc layer (x - 1) y _),
           (is_solid svc layer (x + 1) y _); reflexivity.
Qed.

Lemma fold_left_flat_map {A B C : Type} (f : A -> C -> A) (g : B -> list C)
    (l : list B) (a : A) :
  fold_left f (flat_map g l) a = fold_left (fun acc x => fold_left f (g x) acc) l a.
Proof.
  revert a. induction l as [|x l IH]; intros a; cbn; [reflexivity|].
  now rewrite fold_left_app, IH.
Qed.

Lemma fold_left_ext_in {A B : Type} (f g : A -> B -> A) (l : list B) (a : A) :
  (forall acc x, In x l -> f acc x = g acc x) ->
  fold_left f l a = fold_left g l a.
Proof.
  revert a. induction l as [|x l IH]; intros a H; cbn; [reflexivity|].
  rewrite H by now left. apply IH. intros; apply H; now right.
Qed.

Lemma collect_edges_fold svc layer :
  collect_edges svc layer =
  fold_left (fun acc t => set_insert (edge_of_side t) acc)
            (boundary_sides svc layer) [].
Proof.
  unfold collect_edges, boundary_sides, scan_row.
  rewrite fold_left_flat_map. apply fold_left_ext_in. intros acc y _.
  rewrite fold_left_flat_map. apply fold_left_ext_in. intros acc' x _.
  rewrite scan_cell_sides.
  generalize (boundary_sides_of_cell svc layer x y). intros l. revert acc'.
  induction l as [|s l IH]; intros acc'; cbn; [reflexivity | apply IH].
Qed.

Lemma insert_all_fresh (l acc : list Edge) :
  NoDup (acc ++ l) ->
  fold_left (fun a e => set_insert e a) l acc = acc ++ l.
Proof.
  revert acc. induction l as [|e l IH]; intros acc H; cbn.
  - now rewrite app_nil_r.
  - assert (M : set_mem e acc = false).
    { apply set_mem_false. intros Hin.
      apply NoDup_remove_2 in H. apply H. apply in_or_app. now left. }
    unfold set_insert at 2. rewrite M.
    rewrite IH; rewrite <- app_assoc; [reflexivity | exact H].
Qed.

Lemma fold_left_map {A B C : Type} (f : A -> C -> A) (g : B -> C) (l : list B) (a : A) :
  fold_left (fun acc x => f acc (g x)) l a = fold_left f (map g l) a.
Proof. revert a. induction l; intros; cbn; auto. Qed.

Lemma boundary_sides_In svc layer x y s :
  In (x, y, s) (boundary_sides svc layer) <->
  cell_solid svc layer x y = true /\
  cell_solid svc layer (fst (side_neighbor x y s)) (snd (side_neighbor x y s)) = false.
Proof.
  unfold boundary_sides. rewrite in_flat_map. split.
  - intros (y' & Hy & H). apply in_flat_map in H. destruct H as (x' & Hx & H).
    apply in_map_iff in H. destruct H as (s' & E & Hs). inversion E; subst.
    unfold boundary_sides_of_cell in Hs.
    destruct (cell_solid svc layer x y) eqn:S; [|destruct Hs].
    apply filter_In in Hs. destruct Hs as [_ Hs].
    split; [reflexivity|]. now apply negb_true_iff in Hs.
  - intros [S N]. pose proof (cell_solid_in_range _ _ _ _ S) as [Hx Hy].
    exists y. split; [now apply int_range_In|].
    apply in_flat_map. exists x. split; [now apply int_range_In|].
    apply in_map_iff. exists s. split; [reflexivity|].
    unfold boundary_sides_of_cell. rewrite S. apply filter_In. split.
    + destruct s; cbn; tauto.
    + now rewrite N.
Qed.

Lemma NoDup_flat_map {A B : Type} (g : A -> list B) (l : list A) :
  NoDup l ->
  (forall x, In x l -> NoDup (g x)) ->
  (forall x x' b, In x l -> In x' l -> In b (g x) -> In b (g x') -> x = x') ->
  NoDup (flat_map g l).
Proof.
  induction 1 as [|x l Hx Hl IH]; intros Hg Hd; cbn; [constructor|].
  apply NoDup_app.
  - apply Hg. now left.
  - apply IH.
    + intros; apply Hg; now right.
    + intros x1 x2 b H1 H2. apply Hd; now right.
  - intros b Hb Hb'. apply in_flat_map in Hb'. destruct Hb' as (x' & Hx' & Hb').
    assert (x = x') by (eapply Hd; eauto; [now left | now right]).
    subst. contradiction.
Qed.

Lemma boundary_sides_NoDup svc layer : NoDup (boundary_sides svc layer).
Proof.
  unfold boundary_sides. apply NoDup_flat_map.
  - apply int_range_NoDup.
  - intros y _. apply NoDup_flat_map.
    + apply int_range_NoDup.
    + intros x _. apply Injective_map_NoDup.
      * intros s s' E. now inversion E.
      * unfold boundary_sides_of_cell. destruct (cell_solid svc layer x y).
        -- apply NoDup_filter.
           repeat constructor; cbn; intuition discriminate.
        -- constructor.
    + intros x x' b _ _ H H'.
      apply in_map_iff in H, H'. destruct H as (s & <- & _), H' as (s' & E & _).
      now inversion E.
  - intros y y' b _ _ H H'.
    apply in_flat_map in H, H'.
    destruct H as (x & _ & H), H' as (x' & _ & H').
    apply in_map_iff in H, H'. destruct H as (s & <- & _), H' as (s' & E & _).
    now inversion E.
Qed.

(** Two different boundary sides never lie on the same segment: the two
    cells beside a segment cannot both be solid with a non-solid neighbour
    across it. *)
Lemma edge_of_side_inj svc layer t t' :
  In t (boundary_sides svc layer) -> In t' (boundary_sides svc layer) ->
  edge_of_side t = edge_of_side t' -> t = t'.
Proof.
  destruct t as [[x y] s], t' as [[x' y'] s'].
  rewrite !boundary_sides_In. intros [S N] [S' N'] E.
  unfold edge_of_side in E; cbn in E.
  destruct s, s'; cbn in *; inversion E; subst;
    try reflexivity; try lia;
    repeat match goal with
           | H : cell_solid _ _ ?a ?b = false, H' : cell_solid _ _ ?c ?d = true |- _ =>
               replace c with a in H' by lia; replace d with b in H' by lia;
               congruence
           | |- (?a, ?b, ?s) = (?c, ?d, ?s) =>
               replace c with a by lia; replace d with b by lia; reflexivity
           end.
Qed.

Lemma collect_edges_raw svc layer :
  collect_edges svc layer = map edge_of_side (boundary_sides svc layer).
Proof.
  rewrite collect_edges_fold.
  rewrite (fold_left_map (fun a e => set_insert e a) edge_of_side).
  rewrite insert_all_fresh; [reflexivity|]. cbn.
  apply NoDup_map_NoDup_ForallPairs; [|apply boundary_sides_NoDup].
  intros t t' Ht Ht'. now apply edge_of_side_inj with (svc := svc) (layer := layer).
Qed.

Lemma collect_edges_NoDup svc layer : NoDup (collect_edges svc layer).
Proof.
  rewrite collect_edges_raw.
  apply NoDup_map_NoDup_ForallPairs; [|apply boundary_sides_NoDup].
  intros t t' Ht Ht'. now apply edge_of_side_inj with (svc := svc) (layer := layer).
Qed.

Lemma collect_edges_In svc layer e :
  In e (collect_edges svc layer) <-> is_boundary_segment svc layer e = true.
Proof.
  rewrite collect_edges_raw, in_map_iff. split.
  - intros ([[x y] s] & <- & H). apply boundary_sides_In in H. destruct H as [S N].
    unfold is_boundary_segment, edge_cells, edge_of_side.
    destruct s; cbn in *;
      repeat match goal with
             | |- context [Z.eqb ?a ?b] => destruct (Z.eqb_spec a b); try lia
             end; cbn;
      repeat match goal with
             | |- context [cell_solid svc layer ?a ?b] =>
                 first [ rewrite S | rewrite N
                       | replace a with x by lia; rewrite S
                       | replace b with y by lia; rewrite S
                       | replace a with (x + 1) by lia; rewrite N
                       | replace b with (y + 1) by lia; rewrite N ]
             end; reflexivity.
  - unfold is_boundary_segment, edge_cells.
    destruct e as [[ax ay] [bx by_]]; cbn.
    destruct (Z.eqb_spec bx (ax + 1)), (Z.eqb_spec by_ ay); cbn; subst.
    + intros X.
      destruct (cell_solid svc layer ax ay) eqn:S2,
               (cell_solid svc layer ax (ay - 1)) eqn:S1; try discriminate.
      * exists (ax, ay, SUp). split; [reflexivity|].
        apply boundary_sides_In. cbn. tauto.
      * exists (ax, ay - 1, SDown). split.
        -- unfold edge_of_side; cbn. now replace (ay - 1 + 1) with ay by lia.
        -- apply boundary_sides_In. cbn.
           now replace (ay - 1 + 1) with ay by lia.
    + destruct (Z.eqb_spec (ax + 1) ax); [lia|]. cbn. discriminate.
    + destruct (Z.eqb_spec bx ax), (Z.eqb_spec ay (ay + 1)); cbn; try lia;
        discriminate.
    + destruct (Z.eqb_spec bx ax), (Z.eqb_spec by_ (ay + 1)); cbn;
        try discriminate; subst.
      intros X.
      destruct (cell_solid svc layer ax ay) eqn:S2,
               (cell_solid svc layer (ax - 1) ay) eqn:S1; try discriminate.
      * exists (ax, ay, SLeft). split; [reflexivity|].
        apply boundary_sides_In. cbn. tauto.
      * exists (ax - 1, ay, SRight). split.
        -- unfold edge_of_side; cbn. now replace (ax - 1 + 1) with ax by lia.
        -- apply boundary_sides_In. cbn.
           now replace (ax - 1 + 1) with ax by lia.
Qed.

(** C3. After the collection scan the EdgeSet has no duplicate, its size is
    the number of solid-cell sides whose neighbour is non-solid or out of
    range, its members are exactly the unit segments that separate one solid
    cell from one non-solid (or out-of-range) cell, and each of them occurs
    exactly once. *)
Theorem collect_edges_exact (svc : LevelService) (layer : Layer) :
  NoDup (collect_edges svc layer) /\
  length (collect_edges svc layer) = boundary_side_count svc layer /\
  (forall e, In e (collect_edges svc layer) <->
             is_boundary_segment svc layer e = true) /\
  (forall e, is_boundary_segment svc layer e = true ->
             count_occ edge_eq_dec (collect_edges svc layer) e = 1%nat).
Proof.
  split; [apply collect_edges_NoDup|]. split; [|split].
  - rewrite collect_edges_raw. apply length_map.
  - apply collect_edges_In.
  - intros e H. apply NoDup_count_occ'; [apply collect_edges_NoDup|].
    now apply collect_edges_In.
Qed.

(** ** C10: surface materials *)

(** C10. For every loop handed to the physics chain, the number of surface
    materials equals the number of vertices (and the number of loop corners),
    the two counts of the chain definition agree with them, and every
    material has friction 0.1 and restitution 0.1. *)
Theorem chain_def_materials (svc : LevelService) (layer : Layer)
    (physics : PhysicsService) (default_material : b2SurfaceMaterial)
    (loop : list IntPoint) :
  let cd := chain_def svc layer physics default_material loop in
  length (materials cd) = length (points cd) /\
  length (points cd) = length loop /\
  materialCount cd = count cd /\
  count cd = Z.of_nat (length loop) /\
  Forall (fun mat => friction mat = 1 # 10 /\ restitution mat = 1 # 10)
         (materials cd).
Proof.
  intros cd. unfold cd, chain_def; cbn [materials points count materialCount].
  unfold loop_mats, loop_verts.
  rewrite !length_map, length_seq, ?length_map.
  repeat split; try reflexivity.
  apply Forall_forall. intros mat H. apply in_map_iff in H.
  destruct H as (i & <- & _). cbn. split; reflexivity.
Qed.

(** The same holds for every chain definition a layer produces. *)
Lemma layer_chains_materials svc layer physics default_material es chains :
  layer_chains svc layer physics default_material es = Some chains ->
  Forall (fun cd => length (materials cd) = length (points cd) /\
                    Forall (fun mat => friction mat = 1 # 10 /\
                                       restitution mat = 1 # 10) (materials cd))
         chains.
Proof.
  unfold layer_chains. destruct (walk_loops svc layer es) as [loops|]; cbn;
    [|discriminate].
  intros E. inversion E; subst. apply Forall_forall. intros cd H.
  apply in_map_iff in H. destruct H as (loop & <- & _).
  unfold chain_def; cbn [materials points]. unfold loop_mats, loop_verts.
  rewrite !length_map, length_seq. split; [reflexivity|].
  apply Forall_forall. intros mat H. apply in_map_iff in H.
  destruct H as (i & <- & _). cbn. split; reflexivity.
Qed.

(** ** The walker: one step and the loop rule *)

Lemma find_next_Some adj edges prev cur next :
  find_next adj edges prev cur = Some next ->
  In next (adj cur) /\ next <> prev /\ In (make_edge cur next) edges.
Proof.
  unfold find_next. intros H. apply find_some in H. destruct H as [Hin H].
  apply andb_true_iff in H. destruct H as [Hp Hm].
  split; [exact Hin|]. split.
  - intros ->. rewrite point_eqb_refl in Hp. discriminate.
  - now apply set_mem_In.
Qed.

Lemma find_next_None adj edges prev cur :
  find_next adj edges prev cur = None ->
  forall cand, In cand (adj cur) -> cand <> prev ->
               ~ In (make_edge cur cand) edges.
Proof.
  unfold find_next. intros H cand Hin Hne Hm.
  pose proof (find_none _ _ H cand Hin) as K. cbn in K.
  apply andb_false_iff in K. destruct K as [K | K].
  - apply negb_false_iff in K. destruct (point_eqb_spec cand prev); congruence.
  - apply set_mem_In in Hm. congruence.
Qed.

Lemma erase_edge_In edges p q e :
  In e (erase_edge edges p q) <-> In e edges /\ e <> make_edge p q.
Proof. apply set_erase_In. Qed.

Lemma erase_edge_incl edges p q : incl (erase_edge edges p q) edges.
Proof. intros e H. now apply erase_edge_In in H. Qed.

Lemma erase_edge_length edges p q :
  (length (erase_edge edges p q) <= length edges)%nat.
Proof. apply set_erase_length. Qed.

Lemma erase_edge_length_lt edges p q :
  In (make_edge p q) edges ->
  (length (erase_edge edges p q) < length edges)%nat.
Proof. apply set_erase_length_lt. Qed.

(** The loop rule of the inner [while]: a property of the walking state that
    every step preserves holds when the loop is left, and the loop is left in
    one of three ways.  At the head of the loop the guard has not tripped. *)
Lemma walk_rule (P : EdgeSet -> IntPoint -> IntPoint -> list IntPoint -> Prop)
    (adj : AdjMap) (start : IntPoint) :
  (forall edges prev cur poly next,
      P edges prev cur poly -> Z.of_nat (length poly) <= vertex_guard ->
      cur <> start ->
      find_next adj edges prev cur = Some next ->
      P (erase_edge edges cur next) cur next (poly ++ [next])) ->
  forall fuel edges prev cur poly edges' poly',
    P edges prev cur poly -> Z.of_nat (length poly) <= vertex_guard ->
    walk fuel adj start edges prev cur poly = Some (edges', poly') ->
    exists prev' cur',
      P edges' prev' cur' poly' /\
      (cur' = start \/
       (cur' <> start /\ find_next adj edges' prev' cur' = None) \/
       (cur' <> start /\ vertex_guard < Z.of_nat (length poly'))).
Proof.
  intros Hstep. induction fuel as [|fuel IH];
    intros edges prev cur poly edges' poly' HP HG H; cbn in H.
  - destruct (point_eqb_spec cur start) as [->|Hne].
    + inversion H; subst. exists prev, start. auto.
    + destruct (find_next adj edges prev cur) eqn:F; [discriminate|].
      inversion H; subst. exists prev, cur. auto.
  - destruct (point_eqb_spec cur start) as [->|Hne].
    + inversion H; subst. exists prev, start. auto.
    + destruct (find_next adj edges prev cur) as [next|] eqn:F.
      * pose proof (Hstep _ _ _ _ _ HP HG Hne F) as HP'.
        destruct (Z.ltb_spec vertex_guard (Z.of_nat (length (poly ++ [next])))).
        -- inversion H; subst. exists cur, next. split; [exact HP'|].
           destruct (point_eq_dec next start); auto.
        -- eapply IH; eauto.
      * inversion H; subst. exists prev, cur. auto.
Qed.

(** With as much fuel as there are edges the inner loop always returns. *)
Lemma walk_total adj start :
  forall fuel edges prev cur poly,
    (length edges <= fuel)%nat ->
    exists edges' poly',
      walk fuel adj start edges prev cur poly = Some (edges', poly').
Proof.
  induction fuel as [|fuel IH]; intros edges prev cur poly Hlen; cbn.
  - destruct (point_eqb cur start); [eauto|].
    destruct (find_next adj edges prev cur) as [next|] eqn:F; [|eauto].
    apply find_next_Some in F. destruct F as (_ & _ & F).
    destruct edges; [destruct F | cbn in Hlen; lia].
  - destruct (point_eqb cur start); [eauto|].
    destruct (find_next adj edges prev cur) as [next|] eqn:F; [|eauto].
    destruct (vertex_guard <? _); [eauto|].
    apply IH. apply find_next_Some in F. destruct F as (_ & _ & F).
    pose proof (erase_edge_length_lt _ _ _ F). lia.
Qed.

(** The inner loop never adds an edge. *)
Lemma walk_length_le adj start :
  forall fuel edges prev cur poly edges' poly',
    walk fuel adj start edges prev cur poly = Some (edges', poly') ->
    (length edges' <= length edges)%nat.
Proof.
  induction fuel as [|fuel IH]; intros edges prev cur poly edges' poly' H;
    cbn in H.
  - destruct (point_eqb cur start); [inversion H; subst; lia|].
    destruct (find_next adj edges prev cur); [discriminate|].
    inversion H; subst; lia.
  - destruct (point_eqb cur start); [inversion H; subst; lia|].
    destruct (find_next adj edges prev cur) as [next|];
      [|inversion H; subst; lia].
    pose proof (erase_edge_length edges cur next).
    destruct (vertex_guard <? _); [inversion H; subst; lia|].
    apply IH in H. lia.
Qed.

(** More fuel does not change the result. *)
Lemma walk_fuel_mono adj start :
  forall fuel fuel' edges prev cur poly r,
    (fuel <= fuel')%nat ->
    walk fuel adj start edges prev cur poly = Some r ->
    walk fuel' adj start edges prev cur poly = Some r.
Proof.
  induction fuel as [|fuel IH]; intros fuel' edges prev cur poly r Hle H.
  - cbn in H. destruct fuel'; cbn.
    + exact H.
    + destruct (point_eqb cur start); [exact H|].
      destruct (find_next adj edges prev cur); [discriminate | exact H].
  - destruct fuel' as [|fuel']; [lia|]. cbn in H |- *.
    destruct (point_eqb cur start); [exact H|].
    destruct (find_next adj edges prev cur); [|exact H].
    destruct (vertex_guard <? _); [exact H|].
    apply IH; [lia | exact H].
Qed.

(** ** Edges of a chain *)

Lemma chain_edges_snoc pre u v :
  chain_edges ((pre ++ [u]) ++ [v]) = chain_edges (pre ++ [u]) ++ [make_edge u v].
Proof.
  induction pre as [|x pre IH]; [reflexivity|].
  destruct pre as [|y pre]; [reflexivity|].
  change (make_edge x y :: chain_edges (((y :: pre) ++ [u]) ++ [v]) =
          (make_edge x y :: chain_edges ((y :: pre) ++ [u])) ++ [make_edge u v]).
  now rewrite IH.
Qed.

Lemma chain_edges_snoc2 pre u v :
  chain_edges (pre ++ [u; v]) = chain_edges (pre ++ [u]) ++ [make_edge u v].
Proof.
  change [u; v] with ([u] ++ [v]). rewrite app_assoc. apply chain_edges_snoc.
Qed.

Lemma chain_edges_rev poly :
  chain_edges (rev poly) = rev (chain_edges poly).
Proof.
  induction poly as [|x poly IH]; [reflexivity|].
  destruct poly as [|y poly]; [reflexivity|].
  change (rev (x :: y :: poly)) with ((rev poly ++ [y]) ++ [x]).
  rewrite chain_edges_snoc.
  change (chain_edges (x :: y :: poly)) with (make_edge x y :: chain_edges (y :: poly)).
  cbn [rev] in IH |- *. rewrite IH. now rewrite (make_edge_sym y x).
Qed.

Lemma chain_edges_removelast poly :
  incl (chain_edges (removelast poly)) (chain_edges poly).
Proof.
  destruct poly as [|x poly] using rev_ind; [intros e H; exact H|].
  rewrite removelast_last.
  destruct poly as [|y poly _] using rev_ind; [intros e H; exact H|].
  rewrite chain_edges_snoc. apply incl_appl, incl_refl.
Qed.

(** ** One walk keeps [walk_inv] *)

Lemma walk_inv_step E0 adj start edges prev cur poly next :
  walk_inv E0 edges prev cur poly -> cur <> start ->
  find_next adj edges prev cur = Some next ->
  walk_inv E0 (erase_edge edges cur next) cur next (poly ++ [next]).
Proof.
  intros [[pre Hs] He Hc Hf Hn] _ F.
  apply find_next_Some in F. destruct F as (_ & _ & F).
  assert (Ech : chain_edges (poly ++ [next]) =
                chain_edges poly ++ [make_edge cur next]).
  { subst poly. replace (pre ++ [prev; cur]) with ((pre ++ [prev]) ++ [cur])
      by (now rewrite <- app_assoc).
    apply chain_edges_snoc. }
  constructor.
  - exists (pre ++ [prev]). subst poly. now rewrite <- !app_assoc.
  - intros e H. apply He. now apply erase_edge_In in H.
  - rewrite Ech. apply incl_app; [exact Hc|].
    intros e [<- | []]. now apply He.
  - rewrite Ech. intros e H H'. apply erase_edge_In in H'. destruct H' as [H1 H2].
    apply in_app_or in H. destruct H as [H | [<- | []]].
    + exact (Hf e H H1).
    + now apply H2.
  - rewrite Ech. apply NoDup_app; [exact Hn | repeat constructor; intros [] |].
    intros e H [<- | []]. exact (Hf _ H F).
Qed.

Lemma walk_inv_start edges startE :
  In startE edges -> canonical startE ->
  walk_inv edges (erase_edge edges (ea startE) (eb startE))
           (ea startE) (eb startE) [ea startE; eb startE].
Proof.
  intros Hin Hcan. constructor.
  - now exists [].
  - apply erase_edge_incl.
  - cbn. intros e [<- | []]. now rewrite Hcan.
  - cbn. intros e [<- | []] H. apply erase_edge_In in H. now destruct H.
  - cbn. repeat constructor. intros [].
Qed.

(** What one walk of the outer loop guarantees about its chain. *)
Lemma walk_result E0 adj start fuel edges prev cur poly edges' poly' :
  walk_inv E0 edges prev cur poly ->
  Z.of_nat (length poly) <= vertex_guard ->
  walk fuel adj start edges prev cur poly = Some (edges', poly') ->
  exists prev' cur',
    walk_inv E0 edges' prev' cur' poly' /\
    incl edges' edges /\
    (exists tl, poly' = poly ++ tl) /\
    Z.of_nat (length poly') <= vertex_guard + 1 /\
    (cur' = start \/
     (cur' <> start /\ find_next adj edges' prev' cur' = None) \/
     (cur' <> start /\ vertex_guard < Z.of_nat (length poly'))).
Proof.
  intros HI HG H.
  pose (P := fun (e : EdgeSet) (pv cu : IntPoint) (po : list IntPoint) =>
               walk_inv E0 e pv cu po /\ incl e edges /\
               (exists tl, po = poly ++ tl) /\
               Z.of_nat (length po) <= vertex_guard + 1).
  assert (Hstep : forall e pv cu po nx,
             P e pv cu po -> Z.of_nat (length po) <= vertex_guard ->
             cu <> start -> find_next adj e pv cu = Some nx ->
             P (erase_edge e cu nx) cu nx (po ++ [nx])).
  { intros e pv cu po nx (K1 & K2 & (tl & K3) & K4) Hg Hne F.
    split; [|split; [|split]].
    - eapply walk_inv_step; eauto.
    - intros x Hx. apply K2. now apply erase_edge_In in Hx.
    - exists (tl ++ [nx]). subst po. now rewrite app_assoc.
    - rewrite length_app. cbn [length]. lia. }
  assert (HP : P edges prev cur poly).
  { split; [exact HI|]. split; [apply incl_refl|].
    split; [exists []; now rewrite app_nil_r | lia]. }
  destruct (walk_rule P adj start Hstep _ _ _ _ _ _ _ HP HG H)
    as (prev' & cur' & (H1 & H2 & H3 & H4) & H5).
  exists prev', cur'. auto.
Qed.

(** ** The outer loop *)

Lemma walk_loops_from_raw svc layer adj :
  forall fuel edges,
    walk_loops_from fuel svc layer adj edges =
    option_map (flat_map (keep_chain svc layer)) (raw_walks_from fuel adj edges).
Proof.
  induction fuel as [|fuel IH]; intros edges; destruct edges as [|startE rest];
    try reflexivity.
  cbn [walk_loops_from raw_walks_from].
  destruct (walk _ adj (ea startE) _ _ _ _) as [[edges' poly']|]; [|reflexivity].
  rewrite IH. destruct (raw_walks_from fuel adj edges'); reflexivity.
Qed.

Lemma walk_loops_raw svc layer es :
  walk_loops svc layer es =
  option_map (flat_map (keep_chain svc layer)) (raw_walks es).
Proof. apply walk_loops_from_raw. Qed.

Lemma canonical_erase edges p q :
  Forall canonical edges -> Forall canonical (erase_edge edges p q).
Proof.
  rewrite !Forall_forall. intros H e He. apply H. now apply erase_edge_In in He.
Qed.

Lemma canonical_incl edges edges' :
  incl edges' edges -> Forall canonical edges -> Forall canonical edges'.
Proof. rewrite !Forall_forall. auto. Qed.

(** With as much fuel as there are edges the outer loop always returns. *)
Lemma raw_walks_total adj :
  forall fuel edges,
    Forall canonical edges -> (length edges <= fuel)%nat ->
    exists raws, raw_walks_from fuel adj edges = Some raws.
Proof.
  induction fuel as [|fuel IH]; intros edges Hcan Hlen.
  - destruct edges; [now exists [] | cbn in Hlen; lia].
  - destruct edges as [|startE rest]; [now exists []|].
    cbn [raw_walks_from].
    set (edges := startE :: rest) in *.
    assert (Hin : In startE edges) by now left.
    assert (Hc : canonical startE) by (rewrite Forall_forall in Hcan; auto).
    destruct (walk_total adj (ea startE) (length (erase_edge edges (ea startE) (eb startE)))
                (erase_edge edges (ea startE) (eb startE)) (ea startE) (eb startE)
                [ea startE; eb startE] (Nat.le_refl _)) as (edges' & poly' & W).
    rewrite W.
    destruct (walk_result edges adj _ _ _ _ _ _ _ _
                (walk_inv_start edges startE Hin Hc) ltac:(cbn; unfold vertex_guard; lia) W)
      as (prev' & cur' & HI & Hincl & _).
    destruct (IH edges') as (raws & R).
    + eapply canonical_incl; [|exact Hcan].
      intros e He. apply Hincl in He. now apply erase_edge_In in He.
    + pose proof (erase_edge_length_lt edges (ea startE) (eb startE)) as L.
      rewrite Hc in L. specialize (L Hin).
      pose proof (walk_length_le _ _ _ _ _ _ _ _ _ W). lia.
    + rewrite R. eauto.
Qed.

Lemma raw_walks_fuel_mono adj :
  forall fuel fuel' edges raws,
    (fuel <= fuel')%nat ->
    raw_walks_from fuel adj edges = Some raws ->
    raw_walks_from fuel' adj edges = Some raws.
Proof.
  induction fuel as [|fuel IH]; intros fuel' edges raws Hle H.
  - destruct edges; [|discriminate]. destruct fuel'; exact H.
  - destruct fuel' as [|fuel']; [lia|].
    destruct edges as [|startE rest]; [exact H|].
    cbn [raw_walks_from] in H |- *.
    destruct (walk _ adj (ea startE) _ _ _ _) as [[edges' poly']|]; [|discriminate].
    destruct (raw_walks_from fuel adj edges') as [raws'|] eqn:R; [|discriminate].
    rewrite (IH fuel' edges' raws'); [exact H | lia | exact R].
Qed.

(** The rule of the outer [while]: a property [Q] of the live edge set that
    every walk restores gives the property [R] each walk establishes for its
    chain. *)
Lemma raw_walks_rule adj (Q : EdgeSet -> Prop) (R : list IntPoint -> Prop) :
  (forall startE rest edges' poly',
      Q (startE :: rest) ->
      walk (length (erase_edge (startE :: rest) (ea startE) (eb startE))) adj
           (ea startE) (erase_edge (startE :: rest) (ea startE) (eb startE))
           (ea startE) (eb startE) [ea startE; eb startE] = Some (edges', poly') ->
      Q edges' /\ R poly') ->
  forall fuel edges raws,
    Q edges -> raw_walks_from fuel adj edges = Some raws -> Forall R raws.
Proof.
  intros Hwalk. induction fuel as [|fuel IH]; intros edges raws HQ H.
  - destruct edges; [|discriminate]. inversion H. constructor.
  - destruct edges as [|startE rest]; [inversion H; constructor|].
    cbn [raw_walks_from] in H.
    destruct (walk _ adj (ea startE) _ _ _ _) as [[edges' poly']|] eqn:W;
      [|discriminate].
    destruct (raw_walks_from fuel adj edges') as [raws'|] eqn:E; [|discriminate].
    inversion H; subst. destruct (Hwalk _ _ _ _ HQ W) as [HQ' HR].
    constructor; [exact HR | eapply IH; eauto].
Qed.

(** The chains of the outer loop use edges of the set they start from, each
    at most once, and no two of them share an edge. *)
Lemma raw_walks_spec adj :
  forall fuel edges raws,
    Forall canonical edges ->
    raw_walks_from fuel adj edges = Some raws ->
    Forall (fun p => incl (chain_edges p) edges /\ NoDup (chain_edges p) /\
                     (2 <= length p)%nat /\
                     Z.of_nat (length p) <= vertex_guard + 1) raws /\
    ForallOrdPairs (fun p q => edge_disjoint (chain_edges p) (chain_edges q)) raws.
Proof.
  induction fuel as [|fuel IH]; intros edges raws Hcan H.
  - destruct edges; [|discriminate]. inversion H. split; constructor.
  - destruct edges as [|startE rest]; [inversion H; split; constructor|].
    cbn [raw_walks_from] in H.
    set (edges := startE :: rest) in *.
    assert (Hin : In startE edges) by now left.
    assert (Hc : canonical startE) by (rewrite Forall_forall in Hcan; auto).
    destruct (walk _ adj (ea startE) _ _ _ _) as [[edges' poly']|] eqn:W;
      [|discriminate].
    destruct (raw_walks_from fuel adj edges') as [raws'|] eqn:E; [|discriminate].
    inversion H; subst raws. clear H.
    destruct (walk_result edges adj _ _ _ _ _ _ _ _
                (walk_inv_start edges startE Hin Hc)
                ltac:(cbn; unfold vertex_guard; lia) W)
      as (prev' & cur' & HI & Hincl & (tl & Htl) & Hlen & _).
    assert (Hsub : incl edges' edges).
    { intros e He. apply Hincl in He. now apply erase_edge_In in He. }
    destruct (IH edges' raws' (canonical_incl _ _ Hsub Hcan) E) as [F1 F2].
    destruct HI as [_ _ Hc1 Hf1 Hn1]. split.
    + constructor.
      * repeat split; auto. subst poly'. cbn. lia.
      * eapply Forall_impl; [|exact F1]. cbn.
        intros q (K1 & K2 & K3 & K4). repeat split; auto.
        intros e He. apply Hsub. now apply K1.
    + constructor; [|exact F2].
      eapply Forall_impl; [|exact F1]. cbn.
      intros q (K1 & _) e He Hq. apply (Hf1 e He). now apply K1.
Qed.

(** ** What [keep_chain] keeps *)

Lemma make_edge_cases p q :
  make_edge p q = mkEdge p q \/ make_edge p q = mkEdge q p.
Proof. unfold make_edge. destruct (_ || _); auto. Qed.

Lemma unit_step_sym p q : unit_step p q -> unit_step q p.
Proof. unfold unit_step. intros [[H1 H2] | [H1 H2]]; [left | right]; lia. Qed.

(** The two endpoints of a boundary segment are one unit apart. *)
Lemma boundary_segment_unit svc layer e :
  is_boundary_segment svc layer e = true -> unit_step (ea e) (eb e).
Proof.
  unfold is_boundary_segment, edge_cells, unit_step.
  destruct ((px (eb e) =? px (ea e) + 1) && (py (eb e) =? py (ea e))) eqn:H1.
  - intros _. apply andb_true_iff in H1. destruct H1 as [H1 H2].
    apply Z.eqb_eq in H1, H2. left. lia.
  - destruct ((px (eb e) =? px (ea e)) && (py (eb e) =? py (ea e) + 1)) eqn:H2;
      [|discriminate].
    intros _. apply andb_true_iff in H2. destruct H2 as [H2 H3].
    apply Z.eqb_eq in H2, H3. right. lia.
Qed.

Lemma boundary_segment_canonical svc layer e :
  is_boundary_segment svc layer e = true -> canonical e.
Proof.
  unfold is_boundary_segment, edge_cells, canonical, make_edge.
  destruct e as [[ax ay] [bx by_]]; cbn.
  destruct (Z.eqb_spec bx (ax + 1)), (Z.eqb_spec by_ ay),
           (Z.eqb_spec bx ax), (Z.eqb_spec by_ (ay + 1)),
           (Z.ltb_spec bx ax), (Z.ltb_spec by_ ay); cbn;
    try discriminate; try lia; reflexivity.
Qed.

Lemma chain_edges_unit_steps (U : Edge -> Prop) poly :
  (forall p q, U (make_edge p q) -> unit_step p q) ->
  Forall U (chain_edges poly) -> unit_steps poly.
Proof.
  intros HU. induction poly as [|x poly IH]; [constructor|].
  destruct poly as [|y poly]; [constructor|].
  change (chain_edges (x :: y :: poly)) with (make_edge x y :: chain_edges (y :: poly)).
  intros H. inversion H; subst. split; [now apply HU | now apply IH].
Qed.

Lemma drop_closing_vertex_edges poly :
  incl (chain_edges (drop_closing_vertex poly)) (chain_edges poly).
Proof.
  unfold drop_closing_vertex. destruct poly as [|front rest]; [apply incl_refl|].
  destruct (point_eqb _ _); [apply chain_edges_removelast | apply incl_refl].
Qed.

Lemma resolve_winding_cases svc layer poly :
  resolve_winding svc layer poly = poly \/
  resolve_winding svc layer poly = rev poly.
Proof. unfold resolve_winding. destruct (negb _); auto. Qed.

Lemma resolve_winding_edges svc layer poly e :
  In e (chain_edges (resolve_winding svc layer poly)) <-> In e (chain_edges poly).
Proof.
  destruct (resolve_winding_cases svc layer poly) as [-> | ->]; [tauto|].
  rewrite chain_edges_rev. symmetry. apply in_rev.
Qed.

Lemma resolve_winding_length svc layer poly :
  length (resolve_winding svc layer poly) = length poly.
Proof.
  destruct (resolve_winding_cases svc layer poly) as [-> | ->];
    [reflexivity | apply length_rev].
Qed.

Lemma keep_chain_In svc layer poly c :
  In c (keep_chain svc layer poly) ->
  c = resolve_winding svc layer (drop_closing_vertex poly) /\
  (3 <= length (drop_closing_vertex poly))%nat.
Proof.
  unfold keep_chain. destruct (Nat.leb_spec 3 (length (drop_closing_vertex poly)));
    [|intros []].
  intros [<- | []]. auto.
Qed.

Lemma keep_chain_edges svc layer poly c :
  In c (keep_chain svc layer poly) -> incl (chain_edges c) (chain_edges poly).
Proof.
  intros H. apply keep_chain_In in H. destruct H as [-> _].
  intros e He. apply resolve_winding_edges in He.
  now apply drop_closing_vertex_edges.
Qed.

Lemma drop_closing_vertex_length poly :
  (length (drop_closing_vertex poly) <= length poly)%nat.
Proof.
  unfold drop_closing_vertex. destruct poly as [|front rest]; [cbn; lia|].
  destruct (point_eqb _ _); [|lia].
  destruct (exists_last (l := front :: rest)) as (l & a & E); [discriminate|].
  rewrite E, removelast_last, length_app. cbn. lia.
Qed.

Lemma keep_chain_length svc layer poly c :
  In c (keep_chain svc layer poly) -> (length c <= length poly)%nat.
Proof.
  intros H. apply keep_chain_In in H. destruct H as [-> _].
  rewrite resolve_winding_length. apply drop_closing_vertex_length.
Qed.

(** ** The edge set of a layer *)

Lemma collect_edges_canonical svc layer es :
  Permutation es (collect_edges svc layer) -> Forall canonical es.
Proof.
  intros HP. apply Forall_forall. intros e He.
  apply (boundary_segment_canonical svc layer).
  apply collect_edges_In. eapply Permutation_in; eauto.
Qed.

Lemma collect_edges_unit svc layer es p q :
  Permutation es (collect_edges svc layer) ->
  In (make_edge p q) es -> unit_step p q.
Proof.
  intros HP H.
  assert (K : unit_step (ea (make_edge p q)) (eb (make_edge p q))).
  { apply (boundary_segment_unit svc layer). apply collect_edges_In.
    eapply Permutation_in; eauto. }
  destruct (make_edge_cases p q) as [E | E]; rewrite E in K; cbn in K;
    [exact K | now apply unit_step_sym].
Qed.

(** ** C6: termination *)

(** C6. For every occupancy input and every iteration order of the edge
    set, the walk-all-loops phase returns: the fuel [length es] is enough and
    more fuel gives the same loops.  The Selecting step removes the picked
    edge, every Walking step removes the edge it consumes, and no walk ends
    with more than 100,001 vertices in its chain. *)
Theorem extraction_terminates (svc : LevelService) (layer : Layer) (es : EdgeSet) :
  Permutation es (collect_edges svc layer) ->
  (exists raws loops,
      raw_walks es = Some raws /\
      walk_loops svc layer es = Some loops /\
      (forall fuel, (length es <= fuel)%nat ->
         walk_loops_from fuel svc layer (build_adj es) es = Some loops) /\
      Forall (fun poly => Z.of_nat (length poly) <= vertex_guard + 1) raws /\
      Forall (fun loop => Z.of_nat (length loop) <= vertex_guard + 1) loops) /\
  (forall edges startE,
      incl edges es -> In startE edges ->
      ~ In startE (erase_edge edges (ea startE) (eb startE)) /\
      (length (erase_edge edges (ea startE) (eb startE)) < length edges)%nat) /\
  (forall adj edges prev cur next,
      find_next adj edges prev cur = Some next ->
      In (make_edge cur next) edges /\
      ~ In (make_edge cur next) (erase_edge edges cur next) /\
      (length (erase_edge edges cur next) < length edges)%nat).
Proof.
  intros HP. pose proof (collect_edges_canonical _ _ _ HP) as Hcan.
  split; [|split].
  - destruct (raw_walks_total (build_adj es) (length es) es Hcan (Nat.le_refl _))
      as (raws & R).
    exists raws, (flat_map (keep_chain svc layer) raws).
    destruct (raw_walks_spec _ _ _ _ Hcan R) as [F _].
    split; [exact R|]. split; [|split; [|split]].
    + rewrite walk_loops_raw. unfold raw_walks. now rewrite R.
    + intros fuel Hf. rewrite walk_loops_from_raw.
      now rewrite (raw_walks_fuel_mono _ _ fuel _ _ Hf R).
    + eapply Forall_impl; [|exact F]. cbn. tauto.
    + apply Forall_forall. intros c Hc. apply in_flat_map in Hc.
      destruct Hc as (poly & Hp & Hc).
      rewrite Forall_forall in F. destruct (F poly Hp) as (_ & _ & _ & L).
      pose proof (keep_chain_length _ _ _ _ Hc). lia.
  - intros edges startE Hsub Hin.
    assert (Hc : canonical startE).
    { rewrite Forall_forall in Hcan. auto. }
    unfold canonical in Hc. split.
    + intros H. apply erase_edge_In in H. destruct H as [_ H]. now apply H.
    + apply erase_edge_length_lt. now rewrite Hc.
  - intros adj edges prev cur next F.
    apply find_next_Some in F. destruct F as (_ & _ & F).
    split; [exact F|]. split.
    + intros H. apply erase_edge_In in H. now destruct H.
    + now apply erase_edge_length_lt.
Qed.

(** ** C9: unit steps *)

(** C9. In every emitted chain each pair of consecutive vertices (the wrap
    apart) differs by exactly one unit in exactly one coordinate. *)
Theorem emitted_chains_unit_steps (svc : LevelService) (layer : Layer) (es : EdgeSet) :
  Permutation es (collect_edges svc layer) ->
  exists loops,
    walk_loops svc layer es = Some loops /\ Forall unit_steps loops.
Proof.
  intros HP. pose proof (collect_edges_canonical _ _ _ HP) as Hcan.
  destruct (raw_walks_total (build_adj es) (length es) es Hcan (Nat.le_refl _))
    as (raws & R).
  exists (flat_map (keep_chain svc layer) raws). split.
  - rewrite walk_loops_raw. unfold raw_walks. now rewrite R.
  - destruct (raw_walks_spec _ _ _ _ Hcan R) as [F _].
    apply Forall_forall. intros c Hc. apply in_flat_map in Hc.
    destruct Hc as (poly & Hp & Hc).
    rewrite Forall_forall in F. destruct (F poly Hp) as (K & _).
    apply chain_edges_unit_steps with (U := fun e => In e es).
    + intros p q. now apply (collect_edges_unit svc layer).
    + apply Forall_forall. intros e He. apply K.
      eapply keep_chain_edges; eauto.
Qed.

(** ** Degrees in the boundary graph *)

Lemma set_erase_notin e s : ~ In e s -> set_erase e s = s.
Proof.
  unfold set_erase. induction s as [|x s IH]; [reflexivity|].
  intros H. cbn. destruct (edge_eqb_spec x e) as [->|Hne]; cbn.
  - exfalso. apply H. now left.
  - f_equal. apply IH. intros K. apply H. now right.
Qed.

Lemma degree_erase edges e v :
  NoDup edges -> In e edges ->
  degree edges v =
  (degree (set_erase e edges) v + (if incident v e then 1 else 0))%nat.
Proof.
  unfold degree. induction 1 as [|x l Hx Hl IH]; [intros []|].
  intros [-> | Hin].
  - change (set_erase e (e :: l)) with
      (if negb (edge_eqb e e) then e :: set_erase e l else set_erase e l).
    rewrite edge_eqb_refl. cbn [negb]. rewrite (set_erase_notin _ _ Hx).
    cbn [filter]. destruct (incident v e); cbn [length]; lia.
  - change (set_erase e (x :: l)) with
      (if negb (edge_eqb x e) then x :: set_erase e l else set_erase e l).
    destruct (edge_eqb_spec x e) as [->|Hne]; [contradiction|]. cbn [negb].
    cbn [filter]. specialize (IH Hin).
    destruct (incident v x); cbn [length]; lia.
Qed.

Lemma odd_degree_erase edges e v :
  NoDup edges -> In e edges ->
  Nat.odd (degree (set_erase e edges) v) =
  xorb (Nat.odd (degree edges v)) (incident v e).
Proof.
  intros Hn Hin. rewrite (degree_erase edges e v Hn Hin), Nat.odd_add.
  generalize (Nat.odd (degree (set_erase e edges) v)). intros b.
  destruct (incident v e), b; reflexivity.
Qed.

Lemma point_eqb_sym p q : point_eqb p q = point_eqb q p.
Proof.
  destruct (point_eqb_spec p q), (point_eqb_spec q p); congruence.
Qed.

Lemma incident_make_edge v p q :
  incident v (make_edge p q) = point_eqb v p || point_eqb v q.
Proof.
  unfold incident. destruct (make_edge_cases p q) as [-> | ->]; cbn;
    rewrite (point_eqb_sym p v), (point_eqb_sym q v);
    [reflexivity | apply orb_comm].
Qed.

Lemma incident_make_edge_xor v p q :
  p <> q ->
  incident v (make_edge p q) = xorb (point_eqb v p) (point_eqb v q).
Proof.
  intros Hne. rewrite incident_make_edge.
  destruct (point_eqb_spec v p), (point_eqb_spec v q); cbn; congruence.
Qed.

Lemma make_edge_ends e : canonical e -> make_edge (ea e) (eb e) = e.
Proof. exact (fun H => H). Qed.

(** A live edge at [v] is the edge from [v] to one of its recorded
    neighbours. *)
Lemma incident_other_end e v :
  canonical e -> incident v e = true ->
  exists u, e = make_edge v u /\ ((ea e = v /\ eb e = u) \/ (eb e = v /\ ea e = u)).
Proof.
  intros Hc Hi. unfold incident in Hi. apply orb_true_iff in Hi.
  destruct Hi as [Hi | Hi].
  - destruct (point_eqb_spec (ea e) v); [|discriminate]. subst v.
    exists (eb e). split; [now rewrite Hc | auto].
  - destruct (point_eqb_spec (eb e) v); [|discriminate]. subst v.
    exists (ea e). split; [now rewrite make_edge_sym, Hc | auto].
Qed.

Lemma degree_pos_edge edges v :
  (0 < degree edges v)%nat -> exists e, In e edges /\ incident v e = true.
Proof.
  unfold degree. intros H.
  destruct (filter (incident v) edges) as [|e l] eqn:E; [cbn in H; lia|].
  exists e. apply filter_In. rewrite E. now left.
Qed.

(** ** The adjacency index *)

Lemma adj_push_back_In adj k w v u :
  In u (adj_push_back adj k w v) <-> In u (adj v) \/ (v = k /\ u = w).
Proof.
  unfold adj_push_back. destruct (point_eqb_spec v k) as [->|Hne].
  - rewrite in_app_iff. cbn. intuition congruence.
  - intuition congruence.
Qed.

Lemma build_adj_In es v u :
  In u (build_adj es v) <->
  exists e, In e es /\ ((ea e = v /\ eb e = u) \/ (eb e = v /\ ea e = u)).
Proof.
  unfold build_adj.
  assert (G : forall l adj,
             In u (fold_left (fun adj e => adj_push_back (adj_push_back adj (ea e) (eb e))
                                                         (eb e) (ea e)) l adj v) <->
             In u (adj v) \/
             exists e, In e l /\ ((ea e = v /\ eb e = u) \/ (eb e = v /\ ea e = u))).
  { induction l as [|x l IH]; intros adj; cbn [fold_left].
    - split; [auto | intros [H | (e & [] & _)]; exact H].
    - rewrite IH, !adj_push_back_In. split.
      + intros [[[H | [H1 H2]] | [H1 H2]] | (e & He & K)].
        * now left.
        * right. exists x. split; [now left | left; split; congruence].
        * right. exists x. split; [now left | right; split; congruence].
        * right. exists e. split; [now right | exact K].
      + intros [H | (e & [<- | He] & K)].
        * auto.
        * destruct K as [[K1 K2] | [K1 K2]]; left; [left; right | right]; auto.
        * right. exists e. auto. }
  rewrite G. cbn. split; [intros [[] | H]; exact H | auto].
Qed.

(** ** Walks on a graph with even degrees *)

Lemma chain_edges_length poly :
  length (chain_edges poly) = pred (length poly).
Proof.
  induction poly as [|x poly IH]; [reflexivity|].
  destruct poly as [|y poly]; [reflexivity|].
  change (chain_edges (x :: y :: poly)) with (make_edge x y :: chain_edges (y :: poly)).
  cbn [length] in IH |- *. now rewrite IH.
Qed.

Lemma proper_edges_ends es p q :
  proper_edges es -> In (make_edge p q) es -> p <> q.
Proof.
  intros Hp Hin. destruct (Hp _ Hin) as [_ Hne].
  intros ->. apply Hne. destruct (make_edge_cases q q) as [E | E];
    rewrite E; reflexivity.
Qed.

Lemma odd_at_ends_start es edges startE :
  proper_edges es -> incl edges es -> NoDup edges -> even_degrees edges ->
  In startE edges ->
  odd_at_ends (erase_edge edges (ea startE) (eb startE)) (ea startE) (eb startE).
Proof.
  intros Hp Hsub Hn Hev Hin v. destruct (Hp _ (Hsub _ Hin)) as [Hc Hne].
  unfold erase_edge. rewrite odd_degree_erase; [|exact Hn | now rewrite Hc].
  rewrite Hev, incident_make_edge_xor by exact Hne. reflexivity.
Qed.

Lemma odd_at_ends_step es edges start cur next :
  proper_edges es -> incl edges es -> NoDup edges ->
  odd_at_ends edges start cur -> In (make_edge cur next) edges ->
  odd_at_ends (erase_edge edges cur next) start next.
Proof.
  intros Hp Hsub Hn Ho Hin v.
  unfold erase_edge. rewrite odd_degree_erase by assumption.
  rewrite Ho, incident_make_edge_xor
    by (eapply proper_edges_ends; eauto).
  destruct (point_eqb v start), (point_eqb v cur), (point_eqb v next); reflexivity.
Qed.

(** While the current corner has an odd number of live edges the candidate
    scan finds one. *)
Lemma odd_not_stuck es E0 edges start prev cur poly :
  proper_edges es -> incl E0 es ->
  walk_inv E0 edges prev cur poly -> odd_at_ends edges start cur ->
  cur <> start ->
  find_next (build_adj es) edges prev cur <> None.
Proof.
  intros Hp Hsub [[pre Hs] He Hc Hf Hn] Ho Hne F.
  assert (D : (0 < degree edges cur)%nat).
  { specialize (Ho cur). rewrite point_eqb_refl in Ho.
    destruct (point_eqb_spec cur start); [contradiction|]. cbn in Ho.
    destruct (degree edges cur); [discriminate | lia]. }
  destruct (degree_pos_edge _ _ D) as (e & Hin & Hi).
  assert (Hes : In e es) by (apply Hsub, He, Hin).
  destruct (incident_other_end e cur (proj1 (Hp _ Hes)) Hi) as (u & -> & K).
  apply (find_next_None _ _ _ _ F u).
  - apply build_adj_In. eauto.
  - intros ->. apply (Hf (make_edge cur prev)); [|exact Hin].
    subst poly. rewrite chain_edges_snoc2, (make_edge_sym cur prev).
    apply in_or_app. right. now left.
  - exact Hin.
Qed.

Lemma closed_walk_shape start cur tl pre prev poly :
  poly = [start; cur] ++ tl -> poly = pre ++ [prev; start] -> closed_walk poly.
Proof.
  intros H1 H2. destruct poly as [|front t]; [discriminate|].
  cbn in H1. injection H1 as -> Ht. unfold closed_walk. split.
  - rewrite H2. change [prev; start] with ([prev] ++ [start]).
    rewrite app_assoc. apply last_last.
  - subst t. cbn. lia.
Qed.

(** One walk on a graph with even degrees and at most 100,000 edges comes
    back to its start, and leaves even degrees behind. *)
Lemma walk_closes es startE rest edges' poly' :
  proper_edges es ->
  incl (startE :: rest) es -> NoDup (startE :: rest) ->
  even_degrees (startE :: rest) ->
  Z.of_nat (length (startE :: rest)) <= vertex_guard ->
  walk (length (erase_edge (startE :: rest) (ea startE) (eb startE))) (build_adj es)
       (ea startE) (erase_edge (startE :: rest) (ea startE) (eb startE))
       (ea startE) (eb startE) [ea startE; eb startE] = Some (edges', poly') ->
  (incl edges' es /\ NoDup edges' /\ even_degrees edges' /\
   Z.of_nat (length edges') <= vertex_guard) /\
  closed_walk poly'.
Proof.
  set (E := startE :: rest). set (start := ea startE). set (cur0 := eb startE).
  intros Hp Hsub Hn Hev Hlen W.
  assert (Hin : In startE E) by now left.
  pose (P := fun (e : EdgeSet) (pv cu : IntPoint) (po : list IntPoint) =>
               walk_inv E e pv cu po /\ NoDup e /\ odd_at_ends e start cu /\
               exists tl, po = [start; cur0] ++ tl).
  assert (Hstep : forall e pv cu po nx,
             P e pv cu po -> Z.of_nat (length po) <= vertex_guard ->
             cu <> start -> find_next (build_adj es) e pv cu = Some nx ->
             P (erase_edge e cu nx) cu nx (po ++ [nx])).
  { intros e pv cu po nx (K1 & K2 & K3 & (tl & K4)) _ Hne F.
    pose proof (find_next_Some _ _ _ _ _ F) as (_ & _ & Fin).
    split; [|split; [|split]].
    - eapply walk_inv_step; eauto.
    - now apply set_erase_NoDup.
    - apply odd_at_ends_step with (es := es) (cur := cu); auto.
      intros x Hx. apply Hsub. now apply (wi_edges _ _ _ _ _ K1).
    - exists (tl ++ [nx]). subst po. now rewrite app_assoc. }
  assert (HP : P (erase_edge E start cur0) start cur0 [start; cur0]).
  { split; [|split; [|split]].
    - apply walk_inv_start; [exact Hin | apply (Hp _ (Hsub _ Hin))].
    - now apply set_erase_NoDup.
    - now apply odd_at_ends_start with (es := es).
    - now exists []. }
  destruct (walk_rule P (build_adj es) start Hstep _ _ _ _ _ _ _ HP
              ltac:(cbn; unfold vertex_guard; lia) W)
    as (prev' & cur' & (K1 & K2 & K3 & (tl & K4)) & Hexit).
  assert (Hcl : cur' = start).
  { destruct Hexit as [Hx | [[Hne Hx] | [Hne Hx]]]; [exact Hx | |].
    - exfalso. revert Hx. eapply odd_not_stuck; eauto.
    - exfalso. destruct K1 as [[pre Hs] He Hc Hf Hnd].
      assert (L : (length (chain_edges poly' ++ edges') <= length E)%nat).
      { apply NoDup_incl_length.
        - apply NoDup_app; assumption.
        - apply incl_app; assumption. }
      rewrite length_app, chain_edges_length in L.
      assert (edges' = []).
      { destruct edges'; [reflexivity|]. cbn [length] in L. lia. }
      subst edges'. specialize (K3 cur'). cbn in K3.
      rewrite point_eqb_refl in K3.
      destruct (point_eqb_spec cur' start); [contradiction | discriminate]. }
  subst cur'. split; [split; [|split; [|split]]|].
  - intros x Hx. apply Hsub. now apply (wi_edges _ _ _ _ _ K1).
  - exact K2.
  - intros v. rewrite K3. now destruct (point_eqb v start).
  - assert (L : (length edges' <= length E)%nat).
    { apply NoDup_incl_length; [exact K2 | apply (wi_edges _ _ _ _ _ K1)]. }
    lia.
  - destruct (wi_shape _ _ _ _ _ K1) as (pre & Hs).
    eapply closed_walk_shape; eauto.
Qed.

(** On a graph with even degrees and at most 100,000 edges every walk of the
    outer loop closes. *)
Lemma all_walks_close es fuel raws :
  proper_edges es -> NoDup es -> even_degrees es ->
  Z.of_nat (length es) <= vertex_guard ->
  raw_walks_from fuel (build_adj es) es = Some raws ->
  Forall closed_walk raws.
Proof.
  intros Hp Hn Hev Hlen R.
  apply (raw_walks_rule (build_adj es)
           (fun edges => incl edges es /\ NoDup edges /\ even_degrees edges /\
                         Z.of_nat (length edges) <= vertex_guard)
           closed_walk) with (3 := R).
  - intros startE rest edges' poly' (Q1 & Q2 & Q3 & Q4) W.
    eapply walk_closes; eauto.
  - repeat split; auto. apply incl_refl.
Qed.

(** ** The boundary graph of a grid has even degrees *)

Lemma boundary_incident_corner svc layer e v :
  is_boundary_segment svc layer e = true -> incident v e = true ->
  In e (corner_edges v).
Proof.
  intros Hb Hi. pose proof (boundary_segment_unit _ _ _ Hb) as Hu.
  pose proof (boundary_segment_canonical _ _ _ Hb) as Hc.
  unfold is_boundary_segment, edge_cells in Hb.
  unfold incident in Hi. unfold corner_edges.
  destruct e as [[ax ay] [bx by_]], v as [x y]. cbn in *.
  unfold point_eqb in Hi; cbn in Hi.
  destruct (Z.eqb_spec bx (ax + 1)), (Z.eqb_spec by_ ay),
           (Z.eqb_spec bx ax), (Z.eqb_spec by_ (ay + 1));
    cbn in Hb; try discriminate; try lia; subst;
    destruct (Z.eqb_spec ax x), (Z.eqb_spec ay y),
             (Z.eqb_spec (ax + 1) x), (Z.eqb_spec (ay + 1) y);
    cbn in Hi; try discriminate; try lia; subst.
  - right; right; right; left. reflexivity.
  - right; right; left. do 2 f_equal; lia.
  - right; left. reflexivity.
  - left. do 2 f_equal; lia.
Qed.

Lemma corner_edges_incident v e : In e (corner_edges v) -> incident v e = true.
Proof.
  unfold corner_edges, incident.
  intros [<- | [<- | [<- | [<- | []]]]]; cbn;
    rewrite point_eqb_refl; auto using orb_true_r.
Qed.

Lemma corner_edges_NoDup v : NoDup (corner_edges v).
Proof.
  unfold corner_edges. destruct v as [x y]. cbn.
  repeat constructor; cbn; intros H;
    repeat match goal with
           | H : _ \/ _ |- _ => destruct H as [H | H]
           | H : False |- _ => destruct H
           | H : mkEdge _ _ = mkEdge _ _ |- _ => inversion H; clear H; lia
           end.
Qed.

(** The parity count at one corner, from the four cells around it. *)
Lemma corner_edges_parity svc layer v :
  Nat.odd (length (filter (is_boundary_segment svc layer) (corner_edges v))) = false.
Proof.
  destruct v as [x y]. unfold corner_edges. cbn [px py filter].
  assert (U : is_boundary_segment svc layer
                (mkEdge (mkPoint x (y - 1)) (mkPoint x y)) =
              xorb (cell_solid svc layer (x - 1) (y - 1)) (cell_solid svc layer x (y - 1))).
  { unfold is_boundary_segment, edge_cells. cbn.
    destruct (Z.eqb_spec x (x + 1)), (Z.eqb_spec x x), (Z.eqb_spec y (y - 1)),
             (Z.eqb_spec y (y - 1 + 1)); cbn; try lia; reflexivity. }
  assert (D : is_boundary_segment svc layer
                (mkEdge (mkPoint x y) (mkPoint x (y + 1))) =
              xorb (cell_solid svc layer (x - 1) y) (cell_solid svc layer x y)).
  { unfold is_boundary_segment, edge_cells. cbn.
    destruct (Z.eqb_spec x (x + 1)), (Z.eqb_spec x x), (Z.eqb_spec (y + 1) y),
             (Z.eqb_spec (y + 1) (y + 1)); cbn; try lia; reflexivity. }
  assert (L : is_boundary_segment svc layer
                (mkEdge (mkPoint (x - 1) y) (mkPoint x y)) =
              xorb (cell_solid svc layer (x - 1) (y - 1)) (cell_solid svc layer (x - 1) y)).
  { unfold is_boundary_segment, edge_cells. cbn.
    destruct (Z.eqb_spec x (x - 1 + 1)), (Z.eqb_spec y y); cbn; try lia;
      reflexivity. }
  assert (R : is_boundary_segment svc layer
                (mkEdge (mkPoint x y) (mkPoint (x + 1) y)) =
              xorb (cell_solid svc layer x (y - 1)) (cell_solid svc layer x y)).
  { unfold is_boundary_segment, edge_cells. cbn.
    destruct (Z.eqb_spec (x + 1) (x + 1)), (Z.eqb_spec y y); cbn; try lia;
      reflexivity. }
  rewrite U, D, L, R.
  destruct (cell_solid svc layer (x - 1) (y - 1)), (cell_solid svc layer x (y - 1)),
           (cell_solid svc layer (x - 1) y), (cell_solid svc layer x y);
    reflexivity.
Qed.

Lemma collect_edges_proper svc layer es :
  Permutation es (collect_edges svc layer) -> proper_edges es.
Proof.
  intros HP e He.
  assert (Hb : is_boundary_segment svc layer e = true).
  { apply collect_edges_In. eapply Permutation_in; eauto. }
  split; [now apply (boundary_segment_canonical svc layer)|].
  pose proof (boundary_segment_unit _ _ _ Hb) as Hu. intros E.
  rewrite E in Hu. unfold unit_step in Hu. lia.
Qed.

Lemma collect_edges_perm_NoDup svc layer es :
  Permutation es (collect_edges svc layer) -> NoDup es.
Proof.
  intros HP. eapply Permutation_NoDup; [apply Permutation_sym, HP|].
  apply collect_edges_NoDup.
Qed.

Lemma collect_edges_even svc layer es :
  Permutation es (collect_edges svc layer) -> even_degrees es.
Proof.
  intros HP v. unfold degree.
  rewrite <- (corner_edges_parity svc layer v). f_equal.
  apply Permutation_length. apply NoDup_Permutation.
  - apply NoDup_filter. eapply collect_edges_perm_NoDup; eauto.
  - apply NoDup_filter, corner_edges_NoDup.
  - intros e. rewrite !filter_In. split.
    + intros [He Hi].
      assert (Hb : is_boundary_segment svc layer e = true).
      { apply collect_edges_In. eapply Permutation_in; eauto. }
      split; [|exact Hb]. eapply boundary_incident_corner; eauto.
    + intros [He Hb]. split; [|now apply corner_edges_incident].
      eapply Permutation_in; [apply Permutation_sym, HP|].
      now apply collect_edges_In.
Qed.

(** On a layer with at most 100,000 boundary edges every walk closes. *)
Lemma layer_walks_close svc layer es :
  Permutation es (collect_edges svc layer) ->
  Z.of_nat (length es) <= vertex_guard ->
  exists raws, raw_walks es = Some raws /\ Forall closed_walk raws.
Proof.
  intros HP Hlen.
  destruct (raw_walks_total (build_adj es) (length es) es
              (collect_edges_canonical _ _ _ HP) (Nat.le_refl _)) as (raws & R).
  exists raws. split; [exact R|].
  eapply all_walks_close; eauto.
  - eapply collect_edges_proper; eauto.
  - eapply collect_edges_perm_NoDup; eauto.
  - eapply collect_edges_even; eauto.
Qed.

(** ** Closed walks become loops *)

Lemma loop_edges_rev q e :
  In e (loop_edges (rev q)) <-> In e (loop_edges q).
Proof.
  destruct q as [|v0 t]; [reflexivity|].
  destruct (exists_last (l := v0 :: t)) as (pre & vk & E); [discriminate|].
  assert (L : loop_edges (v0 :: t) = chain_edges (v0 :: t) ++ [make_edge vk v0]).
  { unfold loop_edges. rewrite E. apply chain_edges_snoc. }
  assert (R : loop_edges (rev (v0 :: t)) = rev (make_edge vk v0 :: chain_edges (v0 :: t))).
  { change (make_edge vk v0 :: chain_edges (v0 :: t))
      with (chain_edges (vk :: v0 :: t)).
    rewrite <- chain_edges_rev.
    change (rev (vk :: v0 :: t)) with (rev (v0 :: t) ++ [vk]).
    rewrite E, rev_app_distr. reflexivity. }
  rewrite L, R, <- in_rev, in_app_iff. cbn. tauto.
Qed.

Lemma drop_closing_vertex_closed p :
  closed_walk p ->
  exists front q, p = (front :: q) ++ [front] /\
                  drop_closing_vertex p = front :: q.
Proof.
  destruct p as [|front t]; [intros []|]. intros [Hl Hlen].
  unfold drop_closing_vertex. rewrite Hl, point_eqb_refl.
  destruct (exists_last (l := front :: t)) as (l & a & E); [discriminate|].
  rewrite E in Hl |- *. rewrite last_last in Hl. subst a.
  rewrite removelast_last.
  destruct l as [|x l]; [cbn in E; inversion E; subst; cbn in Hlen; lia|].
  cbn in E. inversion E; subst. do 2 eexists. split; reflexivity.
Qed.

(** The loop edges of the chain kept from a closed walk are the edges the
    walk consumed. *)
Lemma closed_keep_loop_edges svc layer p c :
  closed_walk p -> In c (keep_chain svc layer p) ->
  forall e, In e (loop_edges c) <-> In e (chain_edges p).
Proof.
  intros Hcl Hc e. apply keep_chain_In in Hc. destruct Hc as [-> _].
  destruct (drop_closing_vertex_closed p Hcl) as (front & q & Hp & Hd).
  rewrite Hd, Hp.
  change (chain_edges ((front :: q) ++ [front])) with (loop_edges (front :: q)).
  destruct (resolve_winding_cases svc layer (front :: q)) as [-> | ->];
    [reflexivity | apply loop_edges_rev].
Qed.

(** A chain whose walk did not close is kept as it ends, provided it has
    three vertices. *)
Lemma keep_chain_open svc layer poly :
  ~ closed_walk poly ->
  keep_chain svc layer poly =
  if (3 <=? length poly)%nat then [resolve_winding svc layer poly] else [].
Proof.
  intros Hop. unfold keep_chain.
  assert (E : drop_closing_vertex poly = poly \/ (length poly < 3)%nat /\
              (length (drop_closing_vertex poly) < 3)%nat).
  { unfold drop_closing_vertex. destruct poly as [|front t]; [now left|].
    destruct (point_eqb_spec (last (front :: t) front) front) as [Hl|]; [|now left].
    right. destruct t as [|y t]; [cbn; lia|].
    exfalso. apply Hop. split; [exact Hl | cbn; lia]. }
  destruct E as [-> | [E1 E2]]; [reflexivity|].
  destruct (Nat.leb_spec 3 (length poly)), (Nat.leb_spec 3 (length (drop_closing_vertex poly)));
    try lia; reflexivity.
Qed.

Lemma FOP_flat_map {A B : Type} (R : A -> A -> Prop) (R' : B -> B -> Prop)
    (f : A -> list B) (l : list A) :
  (forall a, (length (f a) <= 1)%nat) ->
  (forall a a' b b', In a l -> In a' l -> R a a' -> In b (f a) -> In b' (f a') -> R' b b') ->
  ForallOrdPairs R l -> ForallOrdPairs R' (flat_map f l).
Proof.
  intros Hone HR. induction 1 as [|a l Ha Hl IH]; cbn; [constructor|].
  assert (IH' : ForallOrdPairs R' (flat_map f l)).
  { apply IH. intros a1 a2 b1 b2 H1 H2. apply HR; now right. }
  destruct (f a) as [|b [|b' t]] eqn:E; cbn.
  - exact IH'.
  - constructor; [|exact IH'].
    apply Forall_forall. intros b' Hb'. apply in_flat_map in Hb'.
    destruct Hb' as (a' & Ha' & Hb').
    rewrite Forall_forall in Ha.
    apply (HR a a' b b'); auto; [now left | now right | rewrite E; now left].
  - specialize (Hone a). rewrite E in Hone. cbn in Hone. lia.
Qed.

Lemma keep_chain_one svc layer p : (length (keep_chain svc layer p) <= 1)%nat.
Proof. unfold keep_chain. destruct (_ <=? _)%nat; cbn; lia. Qed.

(** ** C5 and C1 on layers where the guard cannot trip *)

(** C5 (amended). For every emitted chain the edges between consecutive
    vertices, without the wrap, are edges of the original EdgeSet, and no such
    edge belongs to two different emitted chains.  When the EdgeSet has at
    most 100,000 edges the same holds with the wrap from the last vertex to
    the first. *)
Theorem loops_use_edges_once (svc : LevelService) (layer : Layer) (es : EdgeSet) :
  Permutation es (collect_edges svc layer) ->
  exists loops,
    walk_loops svc layer es = Some loops /\
    Forall (fun c => incl (chain_edges c) (collect_edges svc layer)) loops /\
    ForallOrdPairs (fun c d => edge_disjoint (chain_edges c) (chain_edges d)) loops /\
    (Z.of_nat (length es) <= vertex_guard ->
     Forall (fun c => incl (loop_edges c) (collect_edges svc layer)) loops /\
     ForallOrdPairs (fun c d => edge_disjoint (loop_edges c) (loop_edges d)) loops).
Proof.
  intros HP. pose proof (collect_edges_canonical _ _ _ HP) as Hcan.
  destruct (raw_walks_total (build_adj es) (length es) es Hcan (Nat.le_refl _))
    as (raws & R).
  exists (flat_map (keep_chain svc layer) raws).
  destruct (raw_walks_spec _ _ _ _ Hcan R) as [F FO].
  rewrite Forall_forall in F.
  split; [|split; [|split]].
  - rewrite walk_loops_raw. unfold raw_walks. now rewrite R.
  - apply Forall_forall. intros c Hc. apply in_flat_map in Hc.
    destruct Hc as (p & Hp & Hc). destruct (F p Hp) as (K & _).
    intros e He. eapply Permutation_in; [exact HP|]. apply K.
    eapply keep_chain_edges; eauto.
  - eapply FOP_flat_map; [apply keep_chain_one | | exact FO].
    intros p q c d _ _ Hd Hc Hq e He He'.
    apply (Hd e); eapply keep_chain_edges; eauto.
  - intros Hlen.
    assert (Hcl : Forall closed_walk raws).
    { destruct (layer_walks_close svc layer es HP Hlen) as (raws' & R' & Hcl).
      unfold raw_walks in R'. congruence. }
    rewrite Forall_forall in Hcl. split.
    + apply Forall_forall. intros c Hc. apply in_flat_map in Hc.
      destruct Hc as (p & Hp & Hc). destruct (F p Hp) as (K & _).
      intros e He. eapply Permutation_in; [exact HP|]. apply K.
      now apply (closed_keep_loop_edges svc layer p c (Hcl p Hp) Hc).
    + eapply FOP_flat_map; [apply keep_chain_one | | exact FO].
      intros p q c d Hp Hq Hd Hc Hc' e He He'.
      apply (Hd e).
      * now apply (closed_keep_loop_edges svc layer p c (Hcl p Hp) Hc).
      * now apply (closed_keep_loop_edges svc layer q d (Hcl q Hq) Hc').
Qed.

(** C1 (amended). On a layer whose EdgeSet has at most 100,000 edges no walk
    ends without closing, so only closed loops are passed to winding
    resolution and emission.  In general the only gate after a walk is the
    vertex count: a chain whose walk did not close is discarded when it has
    fewer than three vertices and is passed on otherwise. *)
Theorem unclosed_walks_kept_from_three (svc : LevelService) (layer : Layer) (es : EdgeSet) :
  Permutation es (collect_edges svc layer) ->
  exists raws,
    raw_walks es = Some raws /\
    walk_loops svc layer es = Some (flat_map (keep_chain svc layer) raws) /\
    (Z.of_nat (length es) <= vertex_guard -> Forall closed_walk raws) /\
    Forall (fun poly =>
              ~ closed_walk poly ->
              keep_chain svc layer poly =
              if (3 <=? length poly)%nat
              then [resolve_winding svc layer poly] else []) raws.
Proof.
  intros HP. pose proof (collect_edges_canonical _ _ _ HP) as Hcan.
  destruct (raw_walks_total (build_adj es) (length es) es Hcan (Nat.le_refl _))
    as (raws & R).
  exists raws. split; [exact R|]. split; [|split].
  - rewrite walk_loops_raw. unfold raw_walks. now rewrite R.
  - intros Hlen.
    destruct (layer_walks_close svc layer es HP Hlen) as (raws' & R' & Hcl).
    unfold raw_walks in R'. congruence.
  - apply Forall_forall. intros poly _. apply keep_chain_open.
Qed.

(** ** A walk along a path without branches *)

Lemma find_unique {A : Type} (f : A -> bool) (l : list A) (x : A) :
  In x l -> f x = true -> (forall y, In y l -> f y = true -> y = x) ->
  find f l = Some x.
Proof.
  intros Hin Hx Hu. destruct (find f l) as [y|] eqn:F.
  - apply find_some in F. destruct F as [Hy Hfy]. f_equal. now apply Hu.
  - pose proof (find_none _ _ F x Hin). congruence.
Qed.

Lemma corner_path_S v t : corner_path v (S t) = corner_path v t ++ [v (S t)].
Proof. unfold corner_path. rewrite (seq_S (S t) 0), map_app. reflexivity. Qed.

Lemma corner_path_shape v t :
  exists pre, corner_path v (S t) = pre ++ [v t; v (S t)].
Proof.
  destruct t as [|t].
  - now exists [].
  - exists (corner_path v t). rewrite !corner_path_S, <- app_assoc. reflexivity.
Qed.

Lemma corner_path_length v t : length (corner_path v t) = S t.
Proof. unfold corner_path. now rewrite length_map, length_seq. Qed.

Lemma chain_edges_corner_path v t e :
  In e (chain_edges (corner_path v t)) <->
  exists j, (j < t)%nat /\ e = make_edge (v j) (v (S j)).
Proof.
  induction t as [|t IH].
  - cbn. split; [intros [] | intros (j & Hj & _); lia].
  - destruct (corner_path_shape v t) as (pre & Hs).
    rewrite Hs, chain_edges_snoc2.
    assert (Hp : pre ++ [v t] = corner_path v t).
    { rewrite corner_path_S in Hs.
      change [v t; v (S t)] with ([v t] ++ [v (S t)]) in Hs.
      rewrite app_assoc in Hs. now apply app_inj_tail in Hs. }
    rewrite Hp, in_app_iff, IH. cbn. split.
    + intros [(j & Hj & ->) | [<- | []]]; [exists j | exists t]; split; auto; lia.
    + intros (j & Hj & ->). destruct (Nat.eq_dec j t) as [->|Hne]; [auto|].
      left. exists j. split; [lia | reflexivity].
Qed.

Section ForcedWalk.

Variable adj : AdjMap.
Variable E0 : EdgeSet.
Variable v : nat -> IntPoint.
Variable n : nat.

Hypothesis v_start : forall i, (1 <= i <= n)%nat -> v i <> v 0%nat.
Hypothesis v_adj : forall i, (1 <= i <= n)%nat -> In (v (S i)) (adj (v i)).
Hypothesis v_edge : forall i, (1 <= i <= n)%nat -> In (make_edge (v i) (v (S i))) E0.
Hypothesis v_only :
  forall i cand, (1 <= i <= n)%nat ->
    In cand (adj (v i)) -> In (make_edge (v i) cand) E0 ->
    cand = v (pred i) \/ cand = v (S i).
Hypothesis v_fresh :
  forall i j, (j < i <= n)%nat ->
    make_edge (v j) (v (S j)) <> make_edge (v i) (v (S i)).

(** At the corner [v t] the candidate scan can only take [v (t + 1)]. *)
Lemma forced_step t edges :
  (1 <= t <= n)%nat -> live_edges E0 edges (corner_path v t) ->
  find_next adj edges (v (pred t)) (v t) = Some (v (S t)) /\
  live_edges E0 (erase_edge edges (v t) (v (S t))) (corner_path v (S t)).
Proof.
  intros Ht Hl. unfold live_edges in Hl |- *.
  assert (Hnew : In (make_edge (v t) (v (S t))) edges).
  { apply Hl. split; [now apply v_edge|].
    intros H. apply chain_edges_corner_path in H. destruct H as (j & Hj & E).
    apply (v_fresh t j); [lia | now symmetry]. }
  assert (Hold : ~ In (make_edge (v t) (v (pred t))) edges).
  { intros H. apply Hl in H. destruct H as [_ H]. apply H.
    apply chain_edges_corner_path. exists (pred t). split; [lia|].
    rewrite make_edge_sym. now replace (S (pred t)) with t by lia. }
  split.
  - unfold find_next. apply find_unique.
    + now apply v_adj.
    + apply andb_true_iff. split; [|now apply set_mem_In].
      apply negb_true_iff. destruct (point_eqb_spec (v (S t)) (v (pred t))) as [E|];
        [|reflexivity].
      exfalso. apply Hold. now rewrite <- E.
    + intros cand Hc Hf. apply andb_true_iff in Hf. destruct Hf as [_ Hf].
      apply set_mem_In in Hf.
      destruct (v_only t cand Ht Hc (proj1 (proj1 (Hl _) Hf))) as [-> | ->];
        [contradiction | reflexivity].
  - intros e. rewrite erase_edge_In, Hl, corner_path_S.
    destruct (corner_path_shape v (pred t)) as (pre & Hs).
    replace (S (pred t)) with t in Hs by lia.
    rewrite Hs.
    replace ((pre ++ [v (pred t); v t]) ++ [v (S t)])
      with (((pre ++ [v (pred t)]) ++ [v t]) ++ [v (S t)])
      by (now rewrite <- !app_assoc).
    rewrite chain_edges_snoc.
    replace ((pre ++ [v (pred t)]) ++ [v t]) with (pre ++ [v (pred t); v t])
      by (now rewrite <- app_assoc).
    rewrite in_app_iff. cbn. intuition congruence.
Qed.

(** From the corner [v t] the walk goes on, one forced step at a time,
    until the guard stops it. *)
Lemma walk_to_guard :
  forall d t fuel edges,
    (1 <= t)%nat -> (t + d <= n)%nat -> (d < fuel)%nat ->
    Z.of_nat (t + d) + 1 = vertex_guard ->
    live_edges E0 edges (corner_path v t) ->
    exists edges',
      walk fuel adj (v 0%nat) edges (v (pred t)) (v t) (corner_path v t) =
      Some (edges', corner_path v (S (t + d))).
Proof.
  induction d as [|d IH]; intros t fuel edges Ht Hn Hf Hg Hl;
    (destruct fuel as [|fuel]; [lia|]);
    destruct (forced_step t edges ltac:(lia) Hl) as [F Hl'];
    cbn [walk];
    (destruct (point_eqb_spec (v t) (v 0%nat)) as [E|_];
     [exfalso; revert E; apply v_start; lia|]);
    rewrite F, <- corner_path_S, corner_path_length.
  - destruct (Z.ltb_spec vertex_guard (Z.of_nat (S (S t)))); [|lia].
    rewrite Nat.add_0_r. eauto.
  - destruct (Z.ltb_spec vertex_guard (Z.of_nat (S (S t)))); [lia|].
    replace (S (t + S d)) with (S (S t + d)) by lia.
    apply (IH (S t) fuel); auto; lia.
Qed.

(** When the path comes back to [v 0] before the guard trips, the walk
    follows it to the end and closes. *)
Lemma walk_to_close :
  forall d t fuel edges,
    (1 <= t)%nat -> (t + d <= S n)%nat -> (d <= fuel)%nat ->
    v (t + d)%nat = v 0%nat ->
    Z.of_nat (S (t + d)) <= vertex_guard ->
    live_edges E0 edges (corner_path v t) ->
    exists edges',
      walk fuel adj (v 0%nat) edges (v (pred t)) (v t) (corner_path v t) =
      Some (edges', corner_path v (t + d)) /\
      live_edges E0 edges' (corner_path v (t + d)).
Proof.
  induction d as [|d IH]; intros t fuel edges Ht Hn Hf Hv Hg Hl.
  - rewrite Nat.add_0_r in *. exists edges. split; [|exact Hl].
    destruct fuel; cbn [walk]; rewrite Hv, point_eqb_refl; reflexivity.
  - destruct fuel as [|fuel]; [lia|].
    destruct (forced_step t edges ltac:(lia) Hl) as [F Hl'].
    cbn [walk].
    destruct (point_eqb_spec (v t) (v 0%nat)) as [E|_];
      [exfalso; revert E; apply v_start; lia|].
    rewrite F, <- corner_path_S, corner_path_length.
    destruct (Z.ltb_spec vertex_guard (Z.of_nat (S (S t)))); [lia|].
    replace (t + S d)%nat with (S t + d)%nat in * by lia.
    apply (IH (S t) fuel); auto; lia.
Qed.

End ForcedWalk.

(** ** The long strip: a walk the guard stops *)

Lemma closed_walk_ends p pre x front rest :
  closed_walk p -> p = pre ++ [x] -> p = front :: rest -> x = front.
Proof.
  intros H H1 H2. subst p. rewrite H2 in H. destruct H as [H _].
  rewrite <- H2, last_last in H. exact H.
Qed.

Lemma loop_edges_wrap p pre x front rest :
  p = pre ++ [x] -> p = front :: rest -> In (make_edge x front) (loop_edges p).
Proof.
  intros H1 H2. unfold loop_edges. rewrite H2. rewrite <- H2. rewrite H1.
  rewrite chain_edges_snoc. apply in_or_app. right. left. reflexivity.
Qed.

Ltac cmp_cases T :=
  match T with
  | context [(?x <=? ?y)%Z] => destruct (Z.leb_spec x y)
  | context [(?x <? ?y)%Z] => destruct (Z.ltb_spec x y)
  | context [(?x =? ?y)%Z] => destruct (Z.eqb_spec x y)
  end.

(** Case analysis on every integer test of the hypotheses and the goal. *)
Ltac strip_bools :=
  repeat match goal with
         | H : ?T |- _ => cmp_cases T
         | |- ?G => cmp_cases G
         end.

Lemma mkPoint_inj a b c d : mkPoint a b = mkPoint c d -> a = c /\ b = d.
Proof. intros H. now injection H. Qed.

Lemma mkEdge_inj a b c d : mkEdge a b = mkEdge c d -> a = c /\ b = d.
Proof. intros H. now injection H. Qed.

Ltac point_eqs :=
  repeat match goal with
         | H : mkEdge _ _ = mkEdge _ _ |- _ => apply mkEdge_inj in H; destruct H
         | H : mkPoint _ _ = mkPoint _ _ |- _ => apply mkPoint_inj in H; destruct H
         end.

Lemma strip_corner_inj w i j :
  Z.of_nat i <= 2 * w + 1 -> Z.of_nat j <= 2 * w + 1 ->
  strip_corner w i = strip_corner w j -> i = j.
Proof.
  unfold strip_corner. intros Hi Hj E.
  strip_bools; point_eqs; lia.
Qed.

(** The edge from the [i]-th corner of the strip to the next one. *)
Lemma strip_corner_edge w i :
  Z.of_nat i <= 2 * w ->
  make_edge (strip_corner w i) (strip_corner w (S i)) =
  if Z.of_nat i <? w
  then mkEdge (mkPoint (Z.of_nat i) 0) (mkPoint (Z.of_nat i + 1) 0)
  else if Z.of_nat i =? w
  then mkEdge (mkPoint w 0) (mkPoint w 1)
  else mkEdge (mkPoint (2 * w - Z.of_nat i) 1)
              (mkPoint (2 * w - Z.of_nat i + 1) 1).
Proof.
  unfold strip_corner, make_edge. rewrite Nat2Z.inj_succ.
  intros Hi. strip_bools; cbn [px py]; strip_bools;
    cbn [px py orb andb] in *; try lia;
    apply (f_equal2 mkEdge); apply (f_equal2 mkPoint); lia.
Qed.

Section LongStrip.

Variable svc : LevelService.
Variable layer : Layer.
Variable w : Z.
Variable es : EdgeSet.

Hypothesis w_long : vertex_guard <= 2 * w.
Hypothesis layer_solid :
  forall x y, cell_solid svc layer x y = (0 <=? x) && (x <? w) && (y =? 0).
Hypothesis es_perm : Permutation es (collect_edges svc layer).

(** The boundary segments of the strip: the top and bottom side of every
    cell and the two ends. *)
Lemma strip_segments e :
  is_boundary_segment svc layer e = true <->
  (exists k, 0 <= k < w /\
             (e = mkEdge (mkPoint k 0) (mkPoint (k + 1) 0) \/
              e = mkEdge (mkPoint k 1) (mkPoint (k + 1) 1))) \/
  e = mkEdge (mkPoint 0 0) (mkPoint 0 1) \/
  e = mkEdge (mkPoint w 0) (mkPoint w 1).
Proof.
  unfold vertex_guard in w_long.
  unfold is_boundary_segment, edge_cells.
  destruct e as [[ax ay] [bx by_]]. cbn [ea eb px py fst snd].
  split.
  - destruct ((bx =? ax + 1) && (by_ =? ay)) eqn:H1.
    + apply andb_true_iff in H1. destruct H1 as [H1 H2].
      apply Z.eqb_eq in H1, H2. subst bx by_. cbn [fst snd].
      rewrite !layer_solid. intros X.
      left. exists ax.
      strip_bools; cbn in X; try discriminate; try lia;
        (split; [lia|]);
        first [ left; apply (f_equal2 mkEdge); apply (f_equal2 mkPoint); lia
              | right; apply (f_equal2 mkEdge); apply (f_equal2 mkPoint); lia ].
    + destruct ((bx =? ax) && (by_ =? ay + 1)) eqn:H2; [|discriminate].
      apply andb_true_iff in H2. destruct H2 as [H2 H3].
      apply Z.eqb_eq in H2, H3. subst bx by_. cbn [fst snd].
      rewrite !layer_solid. intros X. right.
      strip_bools; cbn in X; try discriminate; try lia;
        first [ left; apply (f_equal2 mkEdge); apply (f_equal2 mkPoint); lia
              | right; apply (f_equal2 mkEdge); apply (f_equal2 mkPoint); lia ].
  - intros [(k & Hk & [E | E]) | [E | E]]; point_eqs; subst;
      cbn [fst snd]; strip_bools; cbn [andb fst snd]; try lia;
      rewrite !layer_solid; strip_bools; cbn; try lia; reflexivity.
Qed.

Lemma strip_corner_edge_In i :
  Z.of_nat i <= 2 * w ->
  In (make_edge (strip_corner w i) (strip_corner w (S i))) es.
Proof.
  unfold vertex_guard in w_long.
  intros Hi. eapply Permutation_in; [apply Permutation_sym, es_perm|].
  apply collect_edges_In, strip_segments. rewrite strip_corner_edge by exact Hi.
  strip_bools.
  - left. exists (Z.of_nat i). split; [lia | now left].
  - right. right. now subst.
  - left. exists (2 * w - Z.of_nat i). split; [lia | now right].
Qed.

(** Every edge of the strip at its [i]-th corner leads to the corner
    before or the corner after. *)
Lemma strip_corner_only i cand :
  1 <= Z.of_nat i <= 2 * w ->
  In (make_edge (strip_corner w i) cand) es ->
  cand = strip_corner w (pred i) \/ cand = strip_corner w (S i).
Proof.
  unfold vertex_guard in w_long.
  intros Hi Hin.
  assert (Hb : is_boundary_segment svc layer
                 (make_edge (strip_corner w i) cand) = true).
  { apply collect_edges_In. eapply Permutation_in; eauto. }
  apply strip_segments in Hb. clear Hin.
  unfold strip_corner in *. rewrite Nat2Z.inj_succ, Nat2Z.inj_pred by lia.
  destruct cand as [cx cy].
  destruct (make_edge_cases (if Z.of_nat i <=? w
                             then mkPoint (Z.of_nat i) 0
                             else mkPoint (2 * w + 1 - Z.of_nat i) 1)
                            (mkPoint cx cy)) as [E | E];
    rewrite E in Hb; clear E;
    destruct Hb as [(k & Hk & [E | E]) | [E | E]];
    strip_bools; point_eqs; subst; try lia;
    first [ left; apply (f_equal2 mkPoint); lia
          | right; apply (f_equal2 mkPoint); lia ].
Qed.

Lemma strip_corner_fresh i j :
  (j < i)%nat -> Z.of_nat i <= 2 * w ->
  make_edge (strip_corner w j) (strip_corner w (S j)) <>
  make_edge (strip_corner w i) (strip_corner w (S i)).
Proof.
  intros Hji Hi E.
  assert (K : forall a b c d, make_edge a b = make_edge c d ->
                              (a = c /\ b = d) \/ (a = d /\ b = c)).
  { intros a b c d H.
    destruct (make_edge_cases a b) as [E1 | E1], (make_edge_cases c d) as [E2 | E2];
      rewrite E1, E2 in H; point_eqs; auto. }
  destruct (K _ _ _ _ E) as [[E1 E2] | [E1 E2]];
    apply strip_corner_inj in E1; try apply strip_corner_inj in E2;
    rewrite ?Nat2Z.inj_succ; lia.
Qed.

(** From the edge [(0,0)-(1,0)] the first walk runs along the boundary
    until the guard stops it at its 100,001st vertex. *)
Lemma strip_first_walk fuel :
  (Z.to_nat vertex_guard <= fuel)%nat ->
  exists edges',
    walk fuel (build_adj es) (mkPoint 0 0)
         (erase_edge es (mkPoint 0 0) (mkPoint 1 0))
         (mkPoint 0 0) (mkPoint 1 0) [mkPoint 0 0; mkPoint 1 0] =
    Some (edges', corner_path (strip_corner w) (Z.to_nat vertex_guard)).
Proof.
  intros Hf. unfold vertex_guard in *.
  pose (n := Z.to_nat 99999).
  assert (C0 : strip_corner w 0 = mkPoint 0 0).
  { unfold strip_corner. strip_bools; [reflexivity | lia]. }
  assert (C1 : strip_corner w 1 = mkPoint 1 0).
  { unfold strip_corner. strip_bools; [reflexivity | lia]. }
  destruct (walk_to_guard (build_adj es) es (strip_corner w) n) with
    (d := Z.to_nat 99998) (t := 1%nat) (fuel := fuel)
    (edges := erase_edge es (mkPoint 0 0) (mkPoint 1 0)) as (edges' & W).
  - intros i Hi E. apply strip_corner_inj in E; lia.
  - intros i Hi. apply build_adj_In.
    exists (make_edge (strip_corner w i) (strip_corner w (S i))).
    split; [apply strip_corner_edge_In; lia|].
    destruct (make_edge_cases (strip_corner w i) (strip_corner w (S i))) as [-> | ->];
      cbn; auto.
  - intros i Hi. apply strip_corner_edge_In. lia.
  - intros i cand Hi _ Hin. apply strip_corner_only; [lia | exact Hin].
  - intros i j Hij. apply strip_corner_fresh; lia.
  - lia.
  - unfold n. lia.
  - lia.
  - unfold vertex_guard. lia.
  - intros e. rewrite erase_edge_In. unfold corner_path.
    cbn [seq map chain_edges In]. rewrite C0, C1. intuition congruence.
  - exists edges'.
    replace (Z.to_nat 100000) with (S (1 + Z.to_nat 99998)) by lia.
    unfold corner_path at 1 in W. cbn [seq map pred] in W.
    rewrite C0, C1 in W. exact W.
Qed.

Lemma strip_corners_far :
  ~ unit_step (strip_corner w (Z.to_nat vertex_guard)) (mkPoint 0 0) /\
  strip_corner w (Z.to_nat vertex_guard) <> mkPoint 0 0.
Proof.
  unfold vertex_guard in *. unfold strip_corner, unit_step.
  rewrite Z2Nat.id by lia.
  strip_bools; cbn [px py]; split; try lia; intros E; point_eqs; lia.
Qed.

(** The chain the first walk ends with is open and has 100,001 vertices. *)
Lemma strip_chain_open :
  let poly := corner_path (strip_corner w) (Z.to_nat vertex_guard) in
  ~ closed_walk poly /\
  keep_chain svc layer poly = [resolve_winding svc layer poly] /\
  forall c, c = poly \/ c = rev poly ->
            In (make_edge (strip_corner w (Z.to_nat vertex_guard)) (mkPoint 0 0))
               (loop_edges c).
Proof.
  intros poly.
  assert (C0 : strip_corner w 0 = mkPoint 0 0).
  { unfold strip_corner, vertex_guard in *. strip_bools; [reflexivity | lia]. }
  assert (G : Z.to_nat vertex_guard = S (Z.to_nat (vertex_guard - 1))).
  { unfold vertex_guard. lia. }
  assert (Hp : poly = mkPoint 0 0 :: map (strip_corner w) (seq 1 (Z.to_nat vertex_guard))).
  { unfold poly, corner_path. cbn [seq map]. rewrite C0. reflexivity. }
  assert (Hl : poly = corner_path (strip_corner w) (Z.to_nat (vertex_guard - 1)) ++
                      [strip_corner w (Z.to_nat vertex_guard)]).
  { unfold poly. rewrite G at 1. rewrite corner_path_S. rewrite <- G.
    reflexivity. }
  assert (Hlen : length poly = S (Z.to_nat vertex_guard)).
  { unfold poly. apply corner_path_length. }
  clearbody poly.
  assert (Hop : ~ closed_walk poly).
  { intros H. apply (proj2 strip_corners_far).
    exact (closed_walk_ends _ _ _ _ _ H Hl Hp). }
  split; [exact Hop|]. split.
  - rewrite keep_chain_open by exact Hop. rewrite Hlen.
    destruct (Nat.leb_spec 3 (S (Z.to_nat vertex_guard))); [reflexivity|].
    unfold vertex_guard in *. lia.
  - intros c [Hc | Hc]; rewrite Hc.
    + exact (loop_edges_wrap _ _ _ _ _ Hl Hp).
    + apply (proj2 (loop_edges_rev poly _)).
      exact (loop_edges_wrap _ _ _ _ _ Hl Hp).
Qed.

End LongStrip.

Lemma walk_incl adj start :
  forall fuel edges prev cur poly edges' poly',
    walk fuel adj start edges prev cur poly = Some (edges', poly') ->
    incl edges' edges.
Proof.
  induction fuel as [|fuel IH]; intros edges prev cur poly edges' poly' H;
    cbn in H.
  - destruct (point_eqb cur start); [inversion H; subst; apply incl_refl|].
    destruct (find_next adj edges prev cur); [discriminate|].
    inversion H; subst; apply incl_refl.
  - destruct (point_eqb cur start); [inversion H; subst; apply incl_refl|].
    destruct (find_next adj edges prev cur) as [next|];
      [|inversion H; subst; apply incl_refl].
    destruct (vertex_guard <? _).
    + inversion H; subst. apply erase_edge_incl.
    + apply IH in H. intros e He. apply H in He. now apply erase_edge_In in He.
Qed.

Lemma int_range_head n : 0 < n -> exists tl, int_range n = 0 :: tl.
Proof.
  intros Hn. unfold int_range.
  destruct (Z.to_nat n) as [|m] eqn:E; [lia|].
  cbn [seq map]. eauto.
Qed.

(** When the cell [(0, 0)] is solid the scan inserts its top side first. *)
Lemma collect_edges_head svc layer :
  cell_solid svc layer 0 0 = true ->
  exists tl, collect_edges svc layer = mkEdge (mkPoint 0 0) (mkPoint 1 0) :: tl.
Proof.
  intros S. pose proof (cell_solid_in_range _ _ _ _ S) as [Hx Hy].
  rewrite collect_edges_raw. unfold boundary_sides.
  destruct (int_range_head (py (getGridSize layer))) as (ty & ->); [lia|].
  destruct (int_range_head (px (getGridSize layer))) as (tx & ->); [lia|].
  cbn [flat_map]. unfold boundary_sides_of_cell at 1. rewrite S.
  cbn [filter side_neighbor fst snd].
  assert (N : cell_solid svc layer 0 (0 - 1) = false).
  { apply is_solid_outside. lia. }
  rewrite N. cbn [negb map app]. rewrite <- !app_assoc. cbn [app map].
  eexists. reflexivity.
Qed.

(** On a one-row strip of at least 50,000 solid cells the first walk of the
    outer loop, in insertion order, is stopped by the guard, and its open
    chain is kept. *)
Lemma long_strip_walks svc layer w :
  vertex_guard <= 2 * w ->
  (forall x y, cell_solid svc layer x y = (0 <=? x) && (x <? w) && (y =? 0)) ->
  exists raws,
    raw_walks (collect_edges svc layer) =
    Some (corner_path (strip_corner w) (Z.to_nat vertex_guard) :: raws).
Proof.
  intros Hw Hs.
  assert (S0 : cell_solid svc layer 0 0 = true).
  { rewrite Hs. unfold vertex_guard in Hw. strip_bools; cbn; try lia; reflexivity. }
  destruct (collect_edges_head svc layer S0) as (tl & Hes).
  pose proof (collect_edges_canonical svc layer _ (Permutation_refl _)) as Hcan.
  unfold raw_walks. set (adj := build_adj (collect_edges svc layer)).
  rewrite Hes. cbn [length raw_walks_from ea eb].
  rewrite <- Hes. set (es := collect_edges svc layer) in *.
  set (edges1 := erase_edge es (mkPoint 0 0) (mkPoint 1 0)).
  destruct (walk_total adj (mkPoint 0 0) (length edges1) edges1 (mkPoint 0 0)
              (mkPoint 1 0) [mkPoint 0 0; mkPoint 1 0] (Nat.le_refl _))
    as (e1 & p1 & W1).
  destruct (strip_first_walk svc layer w es Hw Hs (Permutation_refl _)
              (Nat.max (length edges1) (Z.to_nat vertex_guard)) (Nat.le_max_r _ _))
    as (e2 & W2).
  fold adj edges1 in W2.
  pose proof (walk_fuel_mono adj (mkPoint 0 0) _ _ _ _ _ _ _
                (Nat.le_max_l (length edges1) (Z.to_nat vertex_guard)) W1) as W3.
  rewrite W3 in W2. inversion W2; subst e2 p1. clear W2 W3.
  rewrite W1.
  destruct (raw_walks_total adj (length tl) e1) as (raws & R).
  - eapply canonical_incl; [|exact Hcan].
    intros e He. apply (walk_incl _ _ _ _ _ _ _ _ _ W1) in He.
    now apply erase_edge_In in He.
  - pose proof (walk_length_le _ _ _ _ _ _ _ _ _ W1) as L1.
    assert (L2 : (length edges1 < length es)%nat).
    { apply erase_edge_length_lt.
      change (make_edge (mkPoint 0 0) (mkPoint 1 0))
        with (mkEdge (mkPoint 0 0) (mkPoint 1 0)).
      rewrite Hes. now left. }
    rewrite Hes in L2. cbn [length] in L2. lia.
  - rewrite R. eauto.
Qed.

Lemma long_strip_open_chain svc layer w :
  vertex_guard <= 2 * w ->
  (forall x y, cell_solid svc layer x y = (0 <=? x) && (x <? w) && (y =? 0)) ->
  exists raws poly loops,
    raw_walks (collect_edges svc layer) = Some raws /\
    layer_loops svc layer = Some loops /\
    In poly raws /\ ~ closed_walk poly /\
    (3 <= length poly)%nat /\
    In (resolve_winding svc layer poly) loops.
Proof.
  intros Hw Hs. destruct (long_strip_walks svc layer w Hw Hs) as (raws & R).
  destruct (strip_chain_open svc layer w Hw) as (Hop & Hk & _).
  set (poly := corner_path (strip_corner w) (Z.to_nat vertex_guard)) in *.
  assert (Hlen : length poly = S (Z.to_nat vertex_guard)).
  { unfold poly. apply corner_path_length. }
  clearbody poly.
  exists (poly :: raws), poly, (flat_map (keep_chain svc layer) (poly :: raws)).
  split; [exact R|]. split; [|split; [|split; [|split]]].
  - unfold layer_loops. rewrite walk_loops_raw, R. reflexivity.
  - left. reflexivity.
  - exact Hop.
  - rewrite Hlen. unfold vertex_guard. lia.
  - cbn [flat_map]. rewrite Hk. left. reflexivity.
Qed.

Lemma long_strip_wrap_edge svc layer w :
  vertex_guard <= 2 * w ->
  (forall x y, cell_solid svc layer x y = (0 <=? x) && (x <? w) && (y =? 0)) ->
  exists loops c,
    layer_loops svc layer = Some loops /\
    In c loops /\
    ~ incl (loop_edges c) (collect_edges svc layer).
Proof.
  intros Hw Hs. destruct (long_strip_walks svc layer w Hw Hs) as (raws & R).
  destruct (strip_chain_open svc layer w Hw) as (Hop & Hk & Hwrap).
  pose proof (proj1 (strip_corners_far w Hw)) as Hfar.
  set (poly := corner_path (strip_corner w) (Z.to_nat vertex_guard)) in *.
  clearbody poly.
  exists (flat_map (keep_chain svc layer) (poly :: raws)),
         (resolve_winding svc layer poly).
  split; [|split].
  - unfold layer_loops. rewrite walk_loops_raw, R. reflexivity.
  - cbn [flat_map]. rewrite Hk. left. reflexivity.
  - intros Hincl. apply Hfar.
    apply (collect_edges_unit svc layer (collect_edges svc layer));
      [apply Permutation_refl|].
    apply Hincl. apply Hwrap. apply resolve_winding_cases.
Qed.

(** The 50,001-cell strip is such a layer. *)
Lemma strip_solid s x y :
  cell_solid (wall_service s) strip x y =
  (0 <=? x) && (x <? strip_width) && (y =? 0).
Proof.
  unfold cell_solid, is_solid, strip, grid_layer, wall_service, strip_width.
  cbn [getGridSize getIntGridValName collision_names px py].
  change (name_listed ["wall"%string] "wall"%string) with true.
  destruct (Z.ltb_spec x 0), (Z.ltb_spec y 0), (Z.geb_spec x 50001),
           (Z.geb_spec y 1), (Z.leb_spec 0 x), (Z.ltb_spec x 50001),
           (Z.eqb_spec y 0); cbn; try lia; reflexivity.
Qed.

Lemma strip_is_long : vertex_guard <= 2 * strip_width.
Proof. unfold vertex_guard, strip_width. lia. Qed.

(** C1, counterexample. On the 50,001-cell strip the first walk is stopped by
    the guard before it closes; its chain of 100,001 vertices is not a closed
    loop, yet it is passed to winding resolution and is among the emitted
    loops. *)
Lemma strip_unclosed_chain_emitted :
  exists raws poly loops,
    raw_walks (collect_edges (wall_service 1) strip) = Some raws /\
    layer_loops (wall_service 1) strip = Some loops /\
    In poly raws /\ ~ closed_walk poly /\
    (3 <= length poly)%nat /\
    In (resolve_winding (wall_service 1) strip poly) loops.
Proof.
  exact (long_strip_open_chain (wall_service 1) strip strip_width
           strip_is_long (strip_solid 1)).
Qed.

(** C5, counterexample. On the same strip an emitted chain has a wrap edge,
    from its last vertex back to its first, that is not an edge of the
    original EdgeSet. *)
Lemma strip_wrap_edge_not_collected :
  exists loops c,
    layer_loops (wall_service 1) strip = Some loops /\
    In c loops /\
    ~ incl (loop_edges c) (collect_edges (wall_service 1) strip).
Proof.
  exact (long_strip_wrap_edge (wall_service 1) strip strip_width
           strip_is_long (strip_solid 1)).
Qed.

(** ** binary32: the operations are exact on small dyadic values *)

(** The operations of [SpecFloat] are those of [Corelib]; this names them as
    the ones [ZArith] states its lemmas about. *)
Ltac std_ops :=
  change IntDef.Z.add with Z.add in *; change IntDef.Z.sub with Z.sub in *;
  change IntDef.Z.mul with Z.mul in *; change IntDef.Z.opp with Z.opp in *;
  change IntDef.Z.max with Z.max in *; change IntDef.Z.min with Z.min in *;
  change IntDef.Z.leb with Z.leb in *; change IntDef.Z.eqb with Z.eqb in *;
  change IntDef.Z.compare with Z.compare in *;
  change IntDef.Z.div2 with Z.div2 in *; change IntDef.Z.even with Z.even in *;
  change IntDef.Z.div_eucl with Z.div_eucl in *;
  change IntDef.Z.sqrtrem with Z.sqrtrem in *;
  change IntDef.Z.shiftl with Z.shiftl in *;
  change PosDef.Pos.mul with Pos.mul in *; change @PosDef.Pos.iter with @Pos.iter in *;
  change PosDef.Pos.succ with Pos.succ in *;
  change PosDef.Pos.compare_cont with Pos.compare_cont in *.

Lemma fexp32 e : fexp 24 128 e = Z.max (e - 24) (-149).
Proof. reflexivity. Qed.

Lemma dig_bounds p : 2 ^ (dig p - 1) <= Zpos p < 2 ^ dig p.
Proof.
  unfold dig. induction p as [p IH | p IH |]; cbn [digits2_pos].
  - rewrite Pos2Z.inj_succ. replace (Z.succ (Z.pos (digits2_pos p)) - 1) with (Z.pos (digits2_pos p)) by lia.
    rewrite Z.pow_succ_r by lia.
    replace (Z.pos (digits2_pos p)) with (Z.succ (Z.pos (digits2_pos p) - 1)) at 1 by lia.
    rewrite Z.pow_succ_r by lia. lia.
  - rewrite Pos2Z.inj_succ. replace (Z.succ (Z.pos (digits2_pos p)) - 1) with (Z.pos (digits2_pos p)) by lia.
    rewrite Z.pow_succ_r by lia.
    replace (Z.pos (digits2_pos p)) with (Z.succ (Z.pos (digits2_pos p) - 1)) at 1 by lia.
    rewrite Z.pow_succ_r by lia. lia.
  - cbn. lia.
Qed.

Lemma dig_pos p : 1 <= dig p.
Proof. unfold dig. lia. Qed.

Lemma dig_unique p d : 2 ^ (d - 1) <= Zpos p < 2 ^ d -> dig p = d.
Proof.
  intros [L U]. pose proof (dig_bounds p) as [L' U']. pose proof (dig_pos p).
  assert (0 < d).
  { destruct (Z.ltb_spec 0 d); [assumption|].
    destruct (Z.eqb_spec d 0) as [->|]; [cbn in U; lia|].
    rewrite (Z.pow_neg_r 2 d) in U by lia. lia. }
  destruct (Z.lt_trichotomy (dig p) d) as [C | [C | C]]; [|exact C|].
  - assert (2 ^ dig p <= 2 ^ (d - 1)) by (apply Z.pow_le_mono_r; lia). lia.
  - assert (2 ^ d <= 2 ^ (dig p - 1)) by (apply Z.pow_le_mono_r; lia). lia.
Qed.

Lemma dig_shift p q n : 0 <= n -> Zpos q = Zpos p * 2 ^ n -> dig q = dig p + n.
Proof.
  intros Hn E. apply dig_unique. pose proof (dig_bounds p) as [L U]. pose proof (dig_pos p).
  rewrite E. replace (dig p + n - 1) with ((dig p - 1) + n) by lia.
  rewrite !Z.pow_add_r by lia.
  assert (0 < 2 ^ n) by (apply Z.pow_pos_nonneg; lia). nia.
Qed.

Lemma dig_mul p q : dig p + dig q - 1 <= dig (p * q) <= dig p + dig q.
Proof.
  pose proof (dig_bounds p) as [Lp Up]. pose proof (dig_bounds q) as [Lq Uq].
  pose proof (dig_bounds (p * q)) as [L U]. pose proof (dig_pos p). pose proof (dig_pos q).
  pose proof (dig_pos (p * q)).
  rewrite Pos2Z.inj_mul in L, U.
  assert (A : 2 ^ (dig p - 1 + (dig q - 1)) < 2 ^ dig (p * q)).
  { rewrite Z.pow_add_r by lia.
    assert (0 < 2 ^ (dig p - 1)) by (apply Z.pow_pos_nonneg; lia).
    assert (0 < 2 ^ (dig q - 1)) by (apply Z.pow_pos_nonneg; lia). nia. }
  assert (B : 2 ^ (dig (p * q) - 1) < 2 ^ (dig p + dig q)).
  { rewrite (Z.pow_add_r 2 (dig p)) by lia. nia. }
  apply Z.pow_lt_mono_r_iff in A; [|lia|lia].
  apply Z.pow_lt_mono_r_iff in B; [|lia|lia]. lia.
Qed.

Lemma iter_pos_iter {A} (f : A -> A) n x : iter_pos f n x = Pos.iter f x n.
Proof.
  revert x. induction n as [n IH | n IH |]; intros x; cbn [iter_pos Pos.iter].
  - rewrite !IH. now rewrite <- !Pos.iter_swap.
  - now rewrite !IH.
  - reflexivity.
Qed.

Lemma iter_xO p d : Zpos (Pos.iter xO p d) = Zpos p * 2 ^ Zpos d.
Proof.
  induction d as [|d IH] using Pos.peano_ind.
  - cbn [Pos.iter]. rewrite Z.pow_1_r. lia.
  - rewrite Pos.iter_succ, Pos2Z.inj_succ, Z.pow_succ_r by lia.
    rewrite Pos2Z.inj_xO, IH. ring.
Qed.


Lemma iter_shr_exact n M :
  Pos.iter shr_1 (exact_rec (Zpos M * 2 ^ Zpos n)) n = exact_rec (Zpos M).
Proof.
  revert M. induction n as [|n IH] using Pos.peano_ind; intros M.
  - rewrite Z.pow_1_r, Z.mul_comm. reflexivity.
  - rewrite Pos.iter_succ_r, Pos2Z.inj_succ, Z.pow_succ_r by lia.
    replace (Zpos M * (2 * 2 ^ Zpos n)) with (2 * (Zpos M * 2 ^ Zpos n)) by ring.
    rewrite <- iter_xO.
    change (shr_1 (exact_rec (2 * Zpos (Pos.iter xO M n)))) with (exact_rec (Zpos (Pos.iter xO M n))).
    rewrite iter_xO. apply IH.
Qed.


Lemma shr_fexp_exact m e M n :
  0 <= n -> Zpos m = Zpos M * 2 ^ n -> dig M = 24 -> -149 <= e + n ->
  shr_fexp 24 128 (Zpos m) e loc_Exact = (exact_rec (Zpos M), e + n).
Proof.
  intros Hn E D R. pose proof (dig_shift M m n Hn E) as Dm.
  unfold shr_fexp. cbn [Zdigits2 shr_record_of_loc]. std_ops. fold (dig m).
  replace (fexp 24 128 (dig m + e) - e) with n by (rewrite fexp32; lia).
  unfold shr. destruct n as [|n|n]; [| |lia].
  - rewrite Z.pow_0_r, Z.mul_1_r in E. now rewrite E, Z.add_0_r.
  - rewrite iter_pos_iter, E. fold (exact_rec (Zpos M * 2 ^ Zpos n)).
    now rewrite iter_shr_exact.
Qed.

(** Rounding a value that a normal binary32 number holds returns it. *)
Lemma binary_round_aux_exact s m e M n :
  0 <= n -> Zpos m = Zpos M * 2 ^ n -> dig M = 24 -> exp_ok (e + n) ->
  binary_round_aux 24 128 s (Zpos m) e loc_Exact = S754_finite s M (e + n).
Proof.
  intros Hn E D [R1 R2]. unfold binary_round_aux. std_ops.
  rewrite (shr_fexp_exact m e M n Hn E D R1).
  cbn [exact_rec shr_m loc_of_shr_record round_nearest_even].
  rewrite (shr_fexp_exact M (e + n) M 0); [|lia|rewrite Z.pow_0_r; lia|exact D|lia].
  cbn [exact_rec shr_m]. rewrite Z.add_0_r.
  destruct (Z.leb_spec (e + n) (128 - 24)); [reflexivity|lia].
Qed.

Lemma binary_round_up s m e M n :
  0 <= n -> Zpos M = Zpos m * 2 ^ n -> dig M = 24 -> exp_ok (e - n) ->
  binary_round 24 128 s m e = S754_finite s M (e - n).
Proof.
  intros Hn E D R. pose proof (dig_shift m M n Hn E) as Dm. rewrite D in Dm.
  unfold binary_round, shl_align. std_ops. fold (dig m).
  replace (fexp 24 128 (dig m + e) - e) with (- n) by (rewrite fexp32; unfold exp_ok in *; lia).
  destruct n as [|n|n]; [| |lia]; cbn [Z.opp].
  - rewrite Z.pow_0_r, Z.mul_1_r in E. injection E as ->.
    rewrite (binary_round_aux_exact s m e m 0); [|lia|rewrite Z.pow_0_r; lia|lia|now rewrite Z.add_0_r, Z.sub_0_r in *].
    now rewrite Z.add_0_r, Z.sub_0_r.
  - assert (EM : Pos.iter xO m n = M) by (apply Pos2Z.inj; now rewrite iter_xO).
    rewrite EM.
    replace (fexp 24 128 (dig m + e)) with (e - Zpos n) by (rewrite fexp32; unfold exp_ok in *; lia).
    rewrite (binary_round_aux_exact s M (e - Zpos n) M 0); [|lia|rewrite Z.pow_0_r; lia|exact D|now rewrite Z.add_0_r].
    now rewrite Z.add_0_r.
Qed.

Lemma binary_round_down s m e M n :
  0 <= n -> Zpos m = Zpos M * 2 ^ n -> dig M = 24 -> exp_ok (e + n) ->
  binary_round 24 128 s m e = S754_finite s M (e + n).
Proof.
  intros Hn E D R. pose proof (dig_shift M m n Hn E) as Dm. rewrite D in Dm.
  unfold binary_round, shl_align. std_ops. fold (dig m).
  replace (fexp 24 128 (dig m + e) - e) with n by (rewrite fexp32; unfold exp_ok in *; lia).
  destruct n as [|n|n]; [| |lia].
  - now apply binary_round_aux_exact.
  - now apply binary_round_aux_exact.
Qed.

Lemma dig_le_24 p : Zpos p < 2 ^ 24 <-> dig p <= 24.
Proof.
  pose proof (dig_bounds p) as [L U]. pose proof (dig_pos p) as P1. split; intros H.
  - destruct (Z.leb_spec (dig p) 24); [assumption|].
    assert (2 ^ 24 <= 2 ^ (dig p - 1)) by (apply Z.pow_le_mono_r; lia). lia.
  - assert (2 ^ dig p <= 2 ^ 24) by (apply Z.pow_le_mono_r; lia). lia.
Qed.

Lemma norm_exists p :
  dig p <= 24 ->
  exists M, Zpos M = Zpos p * 2 ^ (24 - dig p) /\ dig M = 24.
Proof.
  intros H. destruct (24 - dig p) as [|d|d] eqn:E; [| |lia].
  - exists p. rewrite Z.pow_0_r. lia.
  - exists (Pos.iter xO p d). split; [apply iter_xO|].
    rewrite (dig_shift p _ (Zpos d)); [lia|lia|apply iter_xO].
Qed.

Lemma pow2_inj_le a b c n m :
  0 < c -> 0 <= n -> 0 <= m -> a = c * 2 ^ n -> b = c * 2 ^ m -> a <= b -> n <= m.
Proof.
  intros Hc Hn Hm -> -> H. destruct (Z.leb_spec n m); [assumption|].
  assert (2 ^ m < 2 ^ n) by (apply Z.pow_lt_mono_r; lia). nia.
Qed.

(** Rounding [m * 2^e], where [m = p * 2^j] and [p] has at most 24 bits. *)
Lemma binary_round_is s m e p j :
  0 <= j -> Zpos m = Zpos p * 2 ^ j -> dig p <= 24 -> small_exp (e + j) ->
  exists M n, 0 <= n /\ Zpos M = Zpos p * 2 ^ n /\ dig M = 24 /\
              exp_ok (e + j - n) /\
              binary_round 24 128 s m e = S754_finite s M (e + j - n).
Proof.
  intros Hj E D R. destruct (norm_exists p D) as (M & EM & DM).
  pose proof (dig_pos p). set (n := 24 - dig p) in *.
  assert (Hn : 0 <= n) by lia.
  assert (Rn : exp_ok (e + j - n)) by (unfold exp_ok, small_exp in *; lia).
  exists M, n. repeat split; try assumption; try apply Rn.
  destruct (Z.leb_spec j n) as [C | C].
  - replace (e + j - n) with (e - (n - j)) in * by lia.
    apply binary_round_up; [lia| |exact DM|exact Rn].
    rewrite EM, E. replace n with (j + (n - j)) at 1 by lia.
    rewrite Z.pow_add_r by lia. ring.
  - replace (e + j - n) with (e + (j - n)) in * by lia.
    apply binary_round_down; [lia| |exact DM|exact Rn].
    rewrite EM, E. replace j with (n + (j - n)) at 1 by lia.
    rewrite Z.pow_add_r by lia. ring.
Qed.

(** The same for [binary_round_aux], which does not shift to the left: [m]
    has at least 24 bits. *)
Lemma binary_round_aux_is s m e p j :
  0 <= j -> Zpos m = Zpos p * 2 ^ j -> dig p <= 24 -> 24 <= dig m ->
  small_exp (e + j) ->
  exists M n, 0 <= n /\ Zpos M = Zpos p * 2 ^ n /\ dig M = 24 /\
              exp_ok (e + j - n) /\
              binary_round_aux 24 128 s (Zpos m) e loc_Exact =
              S754_finite s M (e + j - n).
Proof.
  intros Hj E D Dm R. destruct (norm_exists p D) as (M & EM & DM).
  pose proof (dig_pos p). set (n := 24 - dig p) in *.
  assert (Hn : 0 <= n) by lia.
  assert (Rn : exp_ok (e + j - n)) by (unfold exp_ok, small_exp in *; lia).
  pose proof (dig_shift p m j Hj E) as Dj.
  exists M, n. repeat split; try assumption; try apply Rn.
  replace (e + j - n) with (e + (j - n)) in * by lia.
  apply binary_round_aux_exact; [lia| |exact DM|exact Rn].
  rewrite EM, E. replace j with (n + (j - n)) at 1 by lia.
  rewrite Z.pow_add_r by lia. ring.
Qed.

Lemma abs_pos v : v <> 0 -> exists p, Z.abs v = Zpos p.
Proof. destruct v as [|p|p]; [congruence| |]; intros _; now exists p. Qed.

(** [binary_normalize] on an integer [v * 2^j] with [|v| < 2^24]. *)
Lemma binary_normalize_is z e v j :
  0 <= j -> z = v * 2 ^ j -> Z.abs v < 2 ^ 24 -> small_exp (e + j) ->
  f32_is (binary_normalize 24 128 z e false) v (e + j).
Proof.
  intros Hj E B R. assert (P2 : 0 < 2 ^ j) by (apply Z.pow_pos_nonneg; lia).
  destruct (Z.eq_dec v 0) as [-> | Hv].
  - left. split; [reflexivity|]. subst z. cbn. now exists false.
  - right. split; [exact Hv|]. destruct (abs_pos v Hv) as (p & Hp).
    assert (Dp : dig p <= 24) by (apply dig_le_24; lia).
    destruct z as [|m|m].
    + nia.
    + assert (0 < v) by nia.
      assert (Em : Zpos m = Zpos p * 2 ^ j) by lia.
      destruct (binary_round_is false m e p j Hj Em Dp R) as (M & n & H1 & H2 & H3 & H4 & H5).
      exists M, n. rewrite Hp. repeat split; try assumption; try apply H4.
      cbn [binary_normalize]. rewrite H5.
      destruct (Z.ltb_spec v 0); [lia|reflexivity].
    + assert (v < 0) by nia.
      assert (Em : Zpos m = Zpos p * 2 ^ j) by lia.
      destruct (binary_round_is true m e p j Hj Em Dp R) as (M & n & H1 & H2 & H3 & H4 & H5).
      exists M, n. rewrite Hp. repeat split; try assumption; try apply H4.
      cbn [binary_normalize]. rewrite H5.
      destruct (Z.ltb_spec v 0); [reflexivity|lia].
Qed.

Lemma float_of_int_is n : Z.abs n < 2 ^ 24 -> f32_is (float_of_int n) n 0.
Proof.
  intros H. apply (binary_normalize_is n 0 n 0); [lia|rewrite Z.pow_0_r; lia|exact H|].
  unfold small_exp; lia.
Qed.

Lemma sign_mul a b : a <> 0 -> b <> 0 -> xorb (a <? 0) (b <? 0) = (a * b <? 0).
Proof. destruct a, b; intros; try congruence; reflexivity. Qed.

Lemma f32_is_n x v k :
  v <> 0 -> f32_is x v k ->
  exists M n p, Z.abs v = Zpos p /\ n = 24 - dig p /\ 0 <= n <= 23 /\
                Zpos M = Zpos p * 2 ^ n /\ dig M = 24 /\ exp_ok (k - n) /\
                x = S754_finite (v <? 0) M (k - n).
Proof.
  intros Hv [[E _] | [_ (M & n & Hn & E & D & R & ->)]]; [congruence|].
  destruct (abs_pos v Hv) as (p & Hp). rewrite Hp in E.
  pose proof (dig_shift p M n Hn E) as Ds. pose proof (dig_pos p).
  exists M, n, p. repeat split; try assumption; try lia; apply R.
Qed.

Lemma fmul_is x y a b k l :
  f32_is x a k -> f32_is y b l -> Z.abs (a * b) < 2 ^ 24 -> small_exp (k + l) ->
  f32_is (fmul x y) (a * b) (k + l).
Proof.
  intros Hx Hy B R.
  destruct (Z.eq_dec a 0) as [-> | Ha].
  { left. split; [reflexivity|]. destruct Hx as [[_ [sx ->]] | [N _]]; [|congruence].
    destruct (Z.eq_dec b 0) as [-> | Hb].
    - destruct Hy as [[_ [sy ->]] | [N _]]; [|congruence]. cbn. eauto.
    - destruct (f32_is_n y b l Hb Hy) as (M & n & p & _ & _ & _ & _ & _ & _ & ->). cbn. eauto. }
  destruct (Z.eq_dec b 0) as [-> | Hb].
  { left. split; [lia|]. destruct Hy as [[_ [sy ->]] | [N _]]; [|congruence].
    destruct (f32_is_n x a k Ha Hx) as (M & n & p & _ & _ & _ & _ & _ & _ & ->). cbn. eauto. }
  destruct (f32_is_n x a k Ha Hx) as (M1 & n1 & p1 & A1 & N1 & B1 & E1 & D1 & R1 & ->).
  destruct (f32_is_n y b l Hb Hy) as (M2 & n2 & p2 & A2 & N2 & B2 & E2 & D2 & R2 & ->).
  right. split; [nia|].
  assert (Hab : Z.abs (a * b) = Zpos (p1 * p2)) by (rewrite Z.abs_mul, A1, A2; reflexivity).
  pose proof (dig_mul M1 M2) as DM.
  destruct (binary_round_aux_is (xorb (a <? 0) (b <? 0)) (M1 * M2) (k - n1 + (l - n2))
              (p1 * p2) (n1 + n2)) as (M & n & H1 & H2 & H3 & H4 & H5).
  - lia.
  - rewrite !Pos2Z.inj_mul, E1, E2, Z.pow_add_r by lia. ring.
  - apply dig_le_24. lia.
  - lia.
  - replace (k - n1 + (l - n2) + (n1 + n2)) with (k + l) by lia. exact R.
  - exists M, n. rewrite Hab.
    replace (k - n1 + (l - n2) + (n1 + n2) - n) with (k + l - n) in * by lia.
    repeat split; try assumption; try apply H4.
    unfold fmul. cbn [SFmul]. std_ops. rewrite H5. now rewrite sign_mul.
Qed.

Lemma shl_align_val m e e' :
  e' <= e -> Zpos (fst (shl_align m e e')) = Zpos m * 2 ^ (e - e').
Proof.
  intros H. unfold shl_align. std_ops.
  destruct (e' - e) as [|d|d] eqn:E; cbn [fst].
  - replace (e - e') with 0 by lia. rewrite Z.pow_0_r. lia.
  - lia.
  - rewrite iter_xO. f_equal. f_equal. lia.
Qed.

Lemma cond_Zopp_abs v p : Z.abs v = Zpos p -> cond_Zopp (v <? 0) (Zpos p) = v.
Proof.
  intros H. unfold cond_Zopp. destruct (Z.ltb_spec v 0); lia.
Qed.

Lemma cond_Zopp_mul s a b : cond_Zopp s (a * b) = cond_Zopp s a * b.
Proof. destruct s; cbn; ring. Qed.

(** The aligned integer of a normal number at a lower exponent. *)
Lemma aligned_val v p M n k ez :
  Z.abs v = Zpos p -> 0 <= n -> Zpos M = Zpos p * 2 ^ n -> ez <= k - n ->
  cond_Zopp (v <? 0) (Zpos (fst (shl_align M (k - n) ez))) = v * 2 ^ (k - ez).
Proof.
  intros A Hn E H. rewrite shl_align_val by exact H.
  rewrite E, <- Z.mul_assoc, <- Z.pow_add_r by lia.
  replace (n + (k - n - ez)) with (k - ez) by lia.
  rewrite cond_Zopp_mul. now rewrite (cond_Zopp_abs v p A).
Qed.

Lemma fadd_is x y a b k :
  f32_is x a k -> f32_is y b k -> Z.abs (a + b) < 2 ^ 24 -> small_exp k ->
  f32_is (fadd x y) (a + b) k.
Proof.
  intros Hx Hy B R.
  destruct (Z.eq_dec a 0) as [-> | Ha].
  { destruct Hx as [[_ [sx ->]] | [N _]]; [|congruence].
    destruct (Z.eq_dec b 0) as [-> | Hb].
    - destruct Hy as [[_ [sy ->]] | [N _]]; [|congruence].
      left. split; [reflexivity|]. destruct sx, sy; cbn; eauto.
    - destruct (f32_is_n y b k Hb Hy) as (M & n & p & _ & _ & _ & _ & _ & _ & E).
      rewrite Z.add_0_l. rewrite E in *. exact Hy. }
  destruct (Z.eq_dec b 0) as [-> | Hb].
  { destruct Hy as [[_ [sy ->]] | [N _]]; [|congruence].
    destruct (f32_is_n x a k Ha Hx) as (M & n & p & _ & _ & _ & _ & _ & _ & E).
    rewrite Z.add_0_r. rewrite E in *. exact Hx. }
  destruct (f32_is_n x a k Ha Hx) as (M1 & n1 & p1 & A1 & N1 & B1 & E1 & D1 & R1 & ->).
  destruct (f32_is_n y b k Hb Hy) as (M2 & n2 & p2 & A2 & N2 & B2 & E2 & D2 & R2 & ->).
  unfold fadd. cbn [SFadd]. std_ops.
  set (ez := Z.min (k - n1) (k - n2)).
  rewrite (aligned_val a p1 M1 n1 k ez A1) by (unfold ez; lia).
  rewrite (aligned_val b p2 M2 n2 k ez A2) by (unfold ez; lia).
  replace k with (ez + (k - ez)) at 3 by lia.
  apply binary_normalize_is; [unfold ez; lia|ring|exact B|].
  now replace (ez + (k - ez)) with k by lia.
Qed.

Lemma fsub_is x y a b k :
  f32_is x a k -> f32_is y b k -> Z.abs (a - b) < 2 ^ 24 -> small_exp k ->
  f32_is (fsub x y) (a - b) k.
Proof.
  intros Hx Hy B R.
  destruct (Z.eq_dec a 0) as [-> | Ha].
  { destruct Hx as [[_ [sx ->]] | [N _]]; [|congruence].
    destruct (Z.eq_dec b 0) as [-> | Hb].
    - destruct Hy as [[_ [sy ->]] | [N _]]; [|congruence].
      left. split; [reflexivity|]. destruct sx, sy; cbn; eauto.
    - destruct (f32_is_n y b k Hb Hy) as (M & n & p & A & Hn & Bn & E & D & Rn & ->).
      right. split; [lia|]. exists M, n. cbn [fsub SFsub Z.sub Z.add Z.opp].
      rewrite Z.abs_opp, A. repeat split; try assumption; try lia; try apply Rn.
      f_equal. destruct (Z.ltb_spec b 0), (Z.ltb_spec (- b) 0); try lia; reflexivity. }
  destruct (Z.eq_dec b 0) as [-> | Hb].
  { destruct Hy as [[_ [sy ->]] | [N _]]; [|congruence].
    destruct (f32_is_n x a k Ha Hx) as (M & n & p & _ & _ & _ & _ & _ & _ & E).
    rewrite Z.sub_0_r. rewrite E in *. exact Hx. }
  destruct (f32_is_n x a k Ha Hx) as (M1 & n1 & p1 & A1 & N1 & B1 & E1 & D1 & R1 & ->).
  destruct (f32_is_n y b k Hb Hy) as (M2 & n2 & p2 & A2 & N2 & B2 & E2 & D2 & R2 & ->).
  unfold fsub. cbn [SFsub]. std_ops.
  set (ez := Z.min (k - n1) (k - n2)).
  rewrite (aligned_val a p1 M1 n1 k ez A1) by (unfold ez; lia).
  rewrite (aligned_val b p2 M2 n2 k ez A2) by (unfold ez; lia).
  replace k with (ez + (k - ez)) at 3 by lia.
  apply binary_normalize_is; [unfold ez; lia|ring|exact B|].
  now replace (ez + (k - ez)) with k by lia.
Qed.

Lemma fneg_is x v k : f32_is x v k -> f32_is (fneg x) (- v) k.
Proof.
  intros [[-> [s ->]] | [Hv (M & n & Hn & E & D & R & ->)]].
  - left. split; [reflexivity|]. cbn. eauto.
  - right. split; [lia|]. exists M, n. rewrite Z.abs_opp.
    repeat split; try assumption; try apply R. cbn. f_equal.
    destruct (Z.ltb_spec v 0), (Z.ltb_spec (- v) 0); try lia; reflexivity.
Qed.

Lemma new_location_zero n : new_location n 0 = loc_Exact.
Proof. unfold new_location. destruct (IntDef.Z.even n); reflexivity. Qed.

Lemma sign_div a b : a <> 0 -> b <> 0 -> xorb (a * b <? 0) (b <? 0) = (a <? 0).
Proof. destruct a, b; intros; try congruence; reflexivity. Qed.

(** The quotient of [(a * b) * 2^k] by [b * 2^l] is [a * 2^(k - l)]. *)
Lemma fdiv_is x y a b k l :
  f32_is x (a * b) k -> f32_is y b l -> b <> 0 -> small_exp (k - l) ->
  f32_is (fdiv x y) a (k - l).
Proof.
  intros Hx Hy Hb R.
  destruct (f32_is_n y b l Hb Hy) as (M2 & n2 & p2 & A2 & N2 & B2 & E2 & D2 & R2 & ->).
  destruct (Z.eq_dec a 0) as [-> | Ha].
  { left. split; [reflexivity|]. destruct Hx as [[_ [sx ->]] | [N _]]; [|lia]. cbn. eauto. }
  assert (Hab : a * b <> 0) by nia.
  destruct (f32_is_n x (a * b) k Hab Hx) as (M1 & n1 & p1 & A1 & N1 & B1 & E1 & D1 & R1 & ->).
  destruct (abs_pos a Ha) as (p & Hp).
  assert (P12 : p1 = (p * p2)%positive).
  { apply Pos2Z.inj. rewrite Pos2Z.inj_mul, <- A1, <- A2, <- Hp. apply Z.abs_mul. }
  pose proof (dig_mul p p2) as DM. rewrite <- P12 in DM. pose proof (dig_pos p) as Dp.
  right. split; [exact Ha|].
  set (q := Zpos p * 2 ^ (n1 + 24 - n2)).
  assert (Q : Zpos M1 * 2 ^ 24 = q * Zpos M2).
  { unfold q. rewrite E1, E2, P12, Pos2Z.inj_mul.
    replace (n1 + 24 - n2) with (n1 + 24 - n2 + 0) by lia.
    replace (Zpos p * Zpos p2 * 2 ^ n1 * 2 ^ 24)
      with (Zpos p * Zpos p2 * (2 ^ n1 * 2 ^ 24)) by ring.
    rewrite <- Z.pow_add_r by lia.
    replace (Zpos p * 2 ^ (n1 + 24 - n2 + 0) * (Zpos p2 * 2 ^ n2))
      with (Zpos p * Zpos p2 * (2 ^ (n1 + 24 - n2 + 0) * 2 ^ n2)) by ring.
    rewrite <- Z.pow_add_r by lia. do 2 f_equal. lia. }
  assert (Qpos : exists m, q = Zpos m).
  { unfold q. assert (0 < 2 ^ (n1 + 24 - n2)) by (apply Z.pow_pos_nonneg; lia).
    destruct (Zpos p * 2 ^ (n1 + 24 - n2)) as [|m|m] eqn:Em; try lia. now exists m. }
  destruct Qpos as (m & Hm).
  unfold fdiv. cbn [SFdiv]. unfold SFdiv_core_binary. cbn [Zdigits2]. std_ops.
  fold (dig M1) (dig M2). rewrite D1, D2.
  replace (24 + (k - n1) - (24 + (l - n2))) with (k - n1 - (l - n2)) by lia.
  rewrite fexp32.
  replace (Z.min (Z.max (k - n1 - (l - n2) - 24) (-149)) (k - n1 - (l - n2)))
    with (k - n1 - (l - n2) - 24)
    by (unfold exp_ok, small_exp in *; lia).
  replace (k - n1 - (l - n2) - (k - n1 - (l - n2) - 24)) with 24 by lia.
  rewrite Z.shiftl_mul_pow2 by lia. rewrite Q.
  assert (Hdiv : Z.div_eucl (q * Zpos M2) (Zpos M2) = (q, 0)).
  { pose proof (Z.div_eucl_eq (q * Zpos M2) (Zpos M2)) as H1.
    pose proof (Z.mod_pos_bound (q * Zpos M2) (Zpos M2)) as H2.
    unfold Z.modulo in H2.
    destruct (Z.div_eucl (q * Zpos M2) (Zpos M2)) as [q' r']. 
    specialize (H1 ltac:(lia)). specialize (H2 ltac:(lia)).
    assert (q' = q) by nia. subst q'. f_equal. lia. }
  rewrite Hdiv, new_location_zero, Hm.
  destruct (binary_round_aux_is (xorb (a * b <? 0) (b <? 0)) m (k - n1 - (l - n2) - 24)
              p (n1 + 24 - n2)) as (M & n & H1 & H2 & H3 & H4 & H5).
  - lia.
  - now rewrite <- Hm.
  - lia.
  - rewrite (dig_shift p m (n1 + 24 - n2)); [lia|lia|now rewrite <- Hm].
  - replace (k - n1 - (l - n2) - 24 + (n1 + 24 - n2)) with (k - l) by lia. exact R.
  - exists M, n. rewrite Hp.
    replace (k - n1 - (l - n2) - 24 + (n1 + 24 - n2) - n) with (k - l - n) in * by lia.
    repeat split; try assumption; try apply H4.
    rewrite H5. now rewrite sign_div.
Qed.

Lemma sqrtrem_square q : 0 < q -> Z.sqrtrem (q * q) = (q, 0).
Proof.
  intros Hq. pose proof (Z.sqrtrem_spec (q * q) ltac:(nia)) as H.
  destruct (Z.sqrtrem (q * q)) as [s r]. destruct H as [E [R1 R2]].
  assert (s = q) by nia. subst s. f_equal. lia.
Qed.

(** The square root of [(c * c) * 2^(2k)] is [c * 2^k]. *)
Lemma fsqrt_is x c k :
  f32_is x (c * c) (2 * k) -> 0 < c -> small_exp k ->
  f32_is (fsqrt x) c k.
Proof.
  intros Hx Hc R. assert (Hcc : c * c <> 0) by nia.
  destruct (f32_is_n x (c * c) (2 * k) Hcc Hx) as (M1 & n1 & p1 & A1 & N1 & B1 & E1 & D1 & R1 & ->).
  destruct (abs_pos c ltac:(lia)) as (p & Hp). rewrite Z.abs_eq in Hp by lia.
  assert (P1 : p1 = (p * p)%positive).
  { apply Pos2Z.inj. rewrite Pos2Z.inj_mul, <- A1, <- Hp. rewrite Z.abs_eq; nia. }
  pose proof (dig_mul p p) as DM. rewrite <- P1 in DM. pose proof (dig_pos p) as Dp.
  destruct (Z.ltb_spec (c * c) 0) as [N|_]; [nia|].
  right. split; [lia|].
  set (E := 2 * k - n1) in *.
  (* the parity of the exponent decides the shift *)
  set (e' := Z.div2 (24 + E + 1) - 24).
  set (s := E - 2 * e').
  assert (He' : 2 * e' = E - 24 \/ 2 * e' = E - 23).
  { unfold e'. rewrite Z.div2_div. pose proof (Z.div_mod (24 + E + 1) 2 ltac:(lia)).
    pose proof (Z.mod_pos_bound (24 + E + 1) 2 ltac:(lia)). lia. }
  assert (Hs : s = 24 \/ s = 23) by (unfold s; lia).
  assert (Par : exists t, n1 + s = 2 * t /\ 0 <= t /\ e' + t = k).
  { exists (k - e'). unfold s, E in *. lia. }
  destruct Par as (t & Pt & Ht0 & Hk).
  set (q := Zpos p * 2 ^ t).
  assert (Q : Zpos M1 * 2 ^ s = q * q).
  { unfold q. rewrite E1, P1, Pos2Z.inj_mul.
    replace (Zpos p * Zpos p * 2 ^ n1 * 2 ^ s) with (Zpos p * Zpos p * (2 ^ n1 * 2 ^ s)) by ring.
    rewrite <- Z.pow_add_r by lia. rewrite Pt.
    replace (2 * t) with (t + t) by lia. rewrite Z.pow_add_r by lia. ring. }
  assert (Qpos : exists m, q = Zpos m).
  { unfold q. assert (0 < 2 ^ t) by (apply Z.pow_pos_nonneg; lia).
    destruct (Zpos p * 2 ^ t) as [|m|m] eqn:Em; try lia. now exists m. }
  destruct Qpos as (m & Hm).
  unfold fsqrt. cbn [SFsqrt]. unfold SFsqrt_core_binary. cbn [Zdigits2]. std_ops.
  fold (dig M1). rewrite D1. fold E. rewrite fexp32.
  assert (Emin : Z.min (Z.max (Z.div2 (24 + E + 1) - 24) (-149)) (Z.div2 E) = e').
  { assert (Z.div2 E >= e').
    { unfold e'. rewrite !Z.div2_div.
      pose proof (Z.div_mod (24 + E + 1) 2 ltac:(lia)).
      pose proof (Z.mod_pos_bound (24 + E + 1) 2 ltac:(lia)).
      pose proof (Z.div_mod E 2 ltac:(lia)).
      pose proof (Z.mod_pos_bound E 2 ltac:(lia)). lia. }
    fold e'. unfold exp_ok, small_exp, E in *. lia. }
  rewrite Emin. fold s.
  assert (Hm' : (match s with
                 | 0 => Zpos M1
                 | Zpos _ => Z.shiftl (Zpos M1) s
                 | Zneg _ => 0
                 end) = q * q).
  { rewrite <- Q. destruct Hs as [-> | ->]; now rewrite Z.shiftl_mul_pow2 by lia. }
  rewrite Hm'. rewrite sqrtrem_square by lia. cbn [Z.eqb].
  rewrite Hm.
  destruct (binary_round_aux_is false m e' p t) as (M & n & H1 & H2 & H3 & H4 & H5).
  - lia.
  - now rewrite <- Hm.
  - lia.
  - rewrite (dig_shift p m t); [lia|lia|now rewrite <- Hm].
  - now rewrite Hk.
  - exists M, n. rewrite Z.abs_eq, Hp by lia.
    rewrite Hk in *.
    destruct (Z.ltb_spec c 0); [lia|].
    repeat split; try assumption; apply H4.
Qed.

(** A positive normal number with a small exponent is not below [1e-4f]. *)
Lemma fltb_threshold x v k :
  f32_is x v k -> 0 < v -> -13 <= k -> fltb x f_1e_4 = false.
Proof.
  intros Hx Hv Hk.
  destruct (f32_is_n x v k ltac:(lia) Hx) as (M & n & p & A & N & B & E & D & R & ->).
  destruct (Z.ltb_spec v 0); [lia|].
  unfold fltb, SFltb, f_1e_4. cbn [SFcompare]. std_ops.
  destruct (Z.compare_spec (k - n) (-37)); lia || reflexivity.
Qed.

(** The floor of [v * 2^k] for [k <= 0]. *)
Lemma floor_to_int_is x v k :
  f32_is x v k -> k <= 0 -> int_min <= v / 2 ^ (- k) < 2 ^ 31 ->
  floor_to_int x = v / 2 ^ (- k).
Proof.
  intros Hx Hk B.
  destruct (Z.eq_dec v 0) as [-> | Hv].
  { destruct Hx as [[_ [s ->]] | [N _]]; [|congruence]. now rewrite Z.div_0_l by (apply Z.pow_nonzero; lia). }
  destruct (f32_is_n x v k Hv Hx) as (M & n & p & A & N & Bn & E & D & R & ->).
  unfold floor_to_int.
  assert (V : Z.shiftl (cond_Zopp (v <? 0) (Zpos M)) (k - n) = v / 2 ^ (- k)).
  { rewrite E, cond_Zopp_mul, (cond_Zopp_abs v p A).
    rewrite <- Z.shiftl_mul_pow2 by lia. rewrite Z.shiftl_shiftl by lia.
    replace (n + (k - n)) with k by lia.
    now rewrite Z.shiftl_div_pow2 by lia. }
  rewrite V.
  destruct (Z.leb_spec int_min (v / 2 ^ (- k))); [|lia].
  destruct (Z.ltb_spec (v / 2 ^ (- k)) (2 ^ 31)); [|lia]. reflexivity.
Qed.

(** The same value with a smaller unit. *)
Lemma f32_is_shift x v k j :
  f32_is x v k -> 0 <= j -> Z.abs (v * 2 ^ j) < 2 ^ 24 ->
  f32_is x (v * 2 ^ j) (k - j).
Proof.
  intros Hx Hj B. assert (P2 : 0 < 2 ^ j) by (apply Z.pow_pos_nonneg; lia).
  destruct (Z.eq_dec v 0) as [-> | Hv].
  { destruct Hx as [[_ Hs] | [N _]]; [|congruence]. left. split; [reflexivity|exact Hs]. }
  destruct (f32_is_n x v k Hv Hx) as (M & n & p & A & N & Bn & E & D & R & ->).
  right. split; [nia|].
  rewrite Z.abs_mul, A, (Z.abs_eq (2 ^ j)) in B |- * by lia.
  assert (Hp' : exists p', Zpos p' = Zpos p * 2 ^ j).
  { destruct (Zpos p * 2 ^ j) as [|p'|p'] eqn:Ep; try lia. now exists p'. }
  destruct Hp' as (p' & Ep).
  pose proof (dig_shift p p' j Hj Ep) as Dp'.
  assert (dig p' <= 24) by (apply dig_le_24; lia).
  exists M, (n - j). replace (k - j - (n - j)) with (k - n) by lia.
  repeat split; try assumption; try lia; try apply R.
  - rewrite E. replace n with (j + (n - j)) at 1 by lia.
    rewrite Z.pow_add_r by lia. ring.
  - f_equal. destruct (Z.ltb_spec v 0), (Z.ltb_spec (v * 2 ^ j) 0); try nia; reflexivity.
Qed.

Lemma f32_is_exp x v k k' : k = k' -> f32_is x v k -> f32_is x v k'.
Proof. now intros ->. Qed.

Lemma f_half_is : f32_is f_half 1 (-1).
Proof.
  right. split; [lia|]. exists 8388608%positive, 23.
  repeat split; try reflexivity; unfold exp_ok; lia.
Qed.

Lemma f_quarter_is : f32_is f_quarter 1 (-2).
Proof.
  right. split; [lia|]. exists 8388608%positive, 23.
  repeat split; try reflexivity; unfold exp_ok; lia.
Qed.

Lemma divide_pow2 (k : nat) d :
  0 < d -> (d | 2 ^ Z.of_nat k) -> exists i, 0 <= i <= Z.of_nat k /\ d = 2 ^ i.
Proof.
  revert d. induction k as [|k IH]; intros d Hd Hdiv.
  - exists 0. split; [lia|]. apply Z.divide_1_r_nonneg in Hdiv; [exact Hdiv|lia].
  - rewrite Nat2Z.inj_succ, Z.pow_succ_r in Hdiv by lia.
    destruct (Z.even d) eqn:Ev.
    + apply Z.even_spec in Ev. destruct Ev as (d' & ->).
      apply Z.mul_divide_cancel_l in Hdiv; [|lia].
      destruct (IH d' ltac:(lia) Hdiv) as (i & Hi & ->).
      exists (i + 1). split; [lia|]. rewrite Z.pow_add_r by lia. ring.
    + assert (G : Z.gcd d 2 = 1).
      { pose proof (Z.gcd_divide_r d 2) as G2. pose proof (Z.gcd_divide_l d 2) as G1.
        pose proof (Z.gcd_nonneg d 2) as G0.
        apply Z.divide_pos_le in G2; [|lia].
        destruct (Z.eq_dec (Z.gcd d 2) 2) as [E | E].
        - rewrite E in G1. destruct G1 as (c & ->).
          rewrite Z.mul_comm, Z.even_mul in Ev. discriminate Ev.
        - destruct (Z.eq_dec (Z.gcd d 2) 0) as [E0 | E0]; [|lia].
          apply Z.gcd_eq_0_l in E0. lia. }
      apply Z.gauss in Hdiv; [|exact G].
      destruct (IH d Hd Hdiv) as (i & Hi & ->). exists i. split; [lia|reflexivity].
Qed.

(** The quotient of [p * 2^0] by [2^i], for a mantissa [p] of at most 24
    bits. *)
Lemma quotient_pow2 s p d i :
  Zpos d = 2 ^ i -> 0 <= i <= 50 -> dig p <= 24 ->
  exists M n, 0 <= n /\ Zpos M = Zpos p * 2 ^ n /\ dig M = 24 /\
              exp_ok (- i - n) /\
              (let '(mz, ez, lz) :=
                 SFdiv_core_binary 24 128 (Zpos p) 0 (Zpos d) 0 in
               binary_round_aux 24 128 s mz ez lz) = S754_finite s M (- i - n).
Proof.
  intros Ed Hi Dp. pose proof (dig_pos p) as D1.
  assert (Pi : 0 < 2 ^ i) by (apply Z.pow_pos_nonneg; lia).
  assert (Dd : dig d = i + 1).
  { apply dig_unique. rewrite Ed. replace (i + 1 - 1) with i by lia.
    split; [lia|]. apply Z.pow_lt_mono_r; lia. }
  set (sh := 25 + i - dig p).
  assert (Q : Zpos p * 2 ^ sh = (Zpos p * 2 ^ (25 - dig p)) * Zpos d).
  { rewrite Ed, <- Z.mul_assoc, <- Z.pow_add_r by lia. do 2 f_equal. unfold sh. lia. }
  assert (Qpos : exists m, Zpos p * 2 ^ (25 - dig p) = Zpos m).
  { assert (0 < 2 ^ (25 - dig p)) by (apply Z.pow_pos_nonneg; lia).
    destruct (Zpos p * 2 ^ (25 - dig p)) as [|m|m] eqn:Em; try lia. now exists m. }
  destruct Qpos as (m & Hm).
  destruct (binary_round_aux_is s m (dig p - i - 25) p (25 - dig p))
    as (M & n & H1 & H2 & H3 & H4 & H5).
  - lia.
  - now rewrite <- Hm.
  - exact Dp.
  - rewrite (dig_shift p m (25 - dig p)); [lia|lia|now rewrite <- Hm].
  - unfold small_exp. lia.
  - exists M, n.
    replace (dig p - i - 25 + (25 - dig p) - n) with (- i - n) in * by lia.
    repeat split; try assumption; try apply H4.
    unfold SFdiv_core_binary. cbn [Zdigits2]. std_ops.
    fold (dig p) (dig d). rewrite Dd, fexp32.
    replace (Z.min (Z.max (dig p + 0 - (i + 1 + 0) - 24) (-149)) (0 - 0))
      with (dig p - i - 25) by lia.
    replace (0 - 0 - (dig p - i - 25)) with sh by (unfold sh; lia).
    assert (Hsh : (match sh with
                   | 0 => Zpos p
                   | Zpos _ => Z.shiftl (Zpos p) sh
                   | Zneg _ => 0
                   end) = Zpos p * 2 ^ sh).
    { destruct sh as [|k|k] eqn:Es; [lia| |lia]. now rewrite Z.shiftl_mul_pow2 by lia. }
    rewrite Hsh, Q, Hm.
    assert (Hdiv : Z.div_eucl (Zpos m * Zpos d) (Zpos d) = (Zpos m, 0)).
    { pose proof (Z.div_eucl_eq (Zpos m * Zpos d) (Zpos d) ltac:(lia)) as K1.
      pose proof (Z.mod_pos_bound (Zpos m * Zpos d) (Zpos d) ltac:(lia)) as K2.
      unfold Z.modulo in K2.
      destruct (Z.div_eucl (Zpos m * Zpos d) (Zpos d)) as [q' r'].
      assert (q' = Zpos m) by nia. subst q'. f_equal. lia. }
    rewrite Hdiv, new_location_zero. exact H5.
Qed.

(** A scale [t / 2^j] is held exactly. *)
Lemma float_of_Q_dyadic q t j :
  (q == inject_Z t / inject_Z (2 ^ j))%Q -> 0 <= j <= 50 -> t <> 0 ->
  Z.abs t < 2 ^ 24 -> f32_is (float_of_Q q) t (- j).
Proof.
  intros E Hj Ht B. assert (P2 : 0 < 2 ^ j) by (apply Z.pow_pos_nonneg; lia).
  destruct (2 ^ j) as [|p|p] eqn:Ep; try lia.
  unfold float_of_Q.
  pose proof (Qeq_trans _ _ _ (Qred_correct q) E) as Rq.
  pose proof (Qred_involutive q) as Ri. apply Qred_iff in Ri.
  destruct (Qred q) as [n d]. cbn [Qnum Qden] in *.
  unfold Qeq, Qdiv, Qinv, Qmult, inject_Z in Rq. cbn [Qnum Qden] in Rq.
  rewrite Z.mul_1_r, Pos.mul_1_l in Rq.
  assert (Dd : (Zpos d | 2 ^ Z.of_nat (Z.to_nat j))).
  { rewrite Z2Nat.id, Ep by lia. apply (Z.gauss _ n).
    - exists t. lia.
    - now rewrite Z.gcd_comm. }
  destruct (divide_pow2 (Z.to_nat j) (Zpos d) (Pos2Z.is_pos d) Dd) as (i & Hi & Ed).
  rewrite Z2Nat.id in Hi by lia.
  assert (Pi : 0 < 2 ^ i) by (apply Z.pow_pos_nonneg; lia).
  assert (Et : t = n * 2 ^ (j - i)).
  { assert (2 ^ j = 2 ^ (j - i) * 2 ^ i) by (rewrite <- Z.pow_add_r by lia; f_equal; lia).
    rewrite Ed in Rq. nia. }
  assert (Pji : 0 < 2 ^ (j - i)) by (apply Z.pow_pos_nonneg; lia).
  assert (Hn : Z.abs n < 2 ^ 24) by nia.
  assert (Nn : n <> 0) by nia.
  rewrite Et. apply (f32_is_exp _ _ (- i - (j - i))); [lia|].
  apply f32_is_shift; [|lia|rewrite <- Et; exact B].
  right. split; [exact Nn|].
  destruct n as [|c|c]; [congruence| |].
  - destruct (quotient_pow2 false c d i Ed ltac:(lia) ltac:(apply dig_le_24; cbn in Hn; lia))
      as (M & n0 & H1 & H2 & H3 & H4 & H5).
    exists M, n0. cbn [Z.abs Z.ltb Z.compare]. repeat split; try assumption; apply H4.
  - destruct (quotient_pow2 true c d i Ed ltac:(lia) ltac:(apply dig_le_24; cbn in Hn; lia))
      as (M & n0 & H1 & H2 & H3 & H4 & H5).
    exists M, n0. cbn [Z.abs Z.ltb Z.compare]. repeat split; try assumption; apply H4.
Qed.

(** ** C7: the winding probe *)

Lemma wrap_int_small z : - 2 ^ 31 <= z < 2 ^ 31 -> wrap_int z = z.
Proof.
  intros H. unfold wrap_int. rewrite Z.mod_small by lia. lia.
Qed.

Lemma unit_step_delta a b :
  unit_step a b ->
  ((px b - px a) * (px b - px a) + (py b - py a) * (py b - py a) = 1)%Z /\
  -1 <= px b - px a <= 1 /\ -1 <= py b - py a <= 1.
Proof.
  unfold unit_step. intros [[H1 H2] | [H1 H2]].
  - rewrite H2, Z.sub_diag. split; [nia|lia].
  - rewrite H1, Z.sub_diag. split; [nia|lia].
Qed.

(** The cell that holds the probe point, by integer division. *)
Lemma probe_cell_div a b :
  probe_cell a b =
  ((2 * (px a + px b) - (py b - py a)) / 4,
   (2 * (py a + py b) + (px b - px a)) / 4).
Proof.
  unfold probe_cell, probe_point, Qfloor. cbn [px py fst snd].
  unfold Qdiv, Qmult, Qplus, Qinv, inject_Z. cbn [Qnum Qden].
  change (Z.pos (1 * 4)) with 4. change (Z.pos (1 * 2)) with 2.
  change (Z.pos (1 * 2 * (1 * 4))) with 8.
  f_equal; Z.div_mod_to_equations; lia.
Qed.

(** On a unit edge between corners of the grid, when the arithmetic is
    exact, the loop body computes the cell that holds the probe point. *)
Lemma probe_grid_cell_unit svc layer t j a b :
  exact_probes svc layer t j -> unit_step a b ->
  corner_in_grid layer a -> corner_in_grid layer b ->
  probe_grid_cell svc layer a b = Some (probe_cell a b).
Proof.
  intros (Hs & Hj & Ht & Hc & HL & HW & HH) Hu [Hax Hay] [Hbx Hby].
  destruct (unit_step_delta a b Hu) as (Hd & Hdx & Hdy).
  set (cs := getCellSize layer) in *. set (L := cs * t) in *.
  assert (Lpos : 1 <= L) by (unfold L; nia).
  assert (P31 : 2 ^ 24 < 2 ^ 31) by (apply Z.pow_lt_mono_r; lia).
  assert (P24 : 2 ^ 24 = 16777216) by reflexivity.
  assert (Wb : forall x, 0 <= x <= px (getGridSize layer) ->
                         4 * (x + 1) * L < 2 ^ 24) by (intros; nia).
  assert (Hb : forall y, 0 <= y <= py (getGridSize layer) ->
                         4 * (y + 1) * L < 2 ^ 24) by (intros; nia).
  pose proof (Wb _ Hax) as Bax. pose proof (Wb _ Hbx) as Bbx.
  pose proof (Hb _ Hay) as Bay. pose proof (Hb _ Hby) as Bby.
  assert (E0 : small_exp (- j)) by (unfold small_exp; lia).
  assert (E2 : small_exp (-2 + - j)) by (unfold small_exp; lia).
  assert (S : f32_is (float_of_Q (scale svc)) t (- j))
    by (apply float_of_Q_dyadic; [exact Hs|lia|lia|nia]).
  assert (C : f32_is (float_of_int cs) cs 0) by (apply float_of_int_is; nia).
  assert (K : forall x, 0 <= x -> 4 * (x + 1) * L < 2 ^ 24 ->
              f32_is (fmul (float_of_int (wrap_int (x * cs))) (float_of_Q (scale svc)))
                     (x * L) (- j)).
  { intros x X0 X1. rewrite wrap_int_small by nia.
    replace (x * L) with (x * cs * t) by (unfold L; ring).
    apply (fmul_is _ _ (x * cs) t 0 (- j));
      [apply float_of_int_is; nia|exact S| |exact E0].
    replace (x * cs * t) with (x * L) by (unfold L; ring). nia. }
  unfold probe_grid_cell. fold cs. cbv zeta.
  rewrite !(wrap_int_small (_ - _)) by lia.
  replace ((px b - px a =? 0) && (py b - py a =? 0)) with false
    by (symmetry; apply andb_false_iff;
        destruct (Z.eqb_spec (px b - px a) 0), (Z.eqb_spec (py b - py a) 0);
        auto; nia).
  set (sc := float_of_Q (scale svc)) in *.
  set (ax := fmul (float_of_int (wrap_int (px a * cs))) sc).
  set (ay := fmul (float_of_int (wrap_int (py a * cs))) sc).
  set (bx := fmul (float_of_int (wrap_int (px b * cs))) sc).
  set (by_ := fmul (float_of_int (wrap_int (py b * cs))) sc).
  assert (AX : f32_is ax (px a * L) (- j)) by (apply K; lia).
  assert (AY : f32_is ay (py a * L) (- j)) by (apply K; lia).
  assert (BX : f32_is bx (px b * L) (- j)) by (apply K; lia).
  assert (BY : f32_is by_ (py b * L) (- j)) by (apply K; lia).
  set (dx := px b - px a) in *. set (dy := py b - py a) in *.
  set (ex := fsub bx ax). set (ey := fsub by_ ay).
  assert (EX : f32_is ex (dx * L) (- j)).
  { replace (dx * L) with (px b * L - px a * L) by (unfold dx; ring).
    apply fsub_is; [exact BX|exact AX| |exact E0].
    replace (px b * L - px a * L) with (dx * L) by (unfold dx; ring). nia. }
  assert (EY : f32_is ey (dy * L) (- j)).
  { replace (dy * L) with (py b * L - py a * L) by (unfold dy; ring).
    apply fsub_is; [exact BY|exact AY| |exact E0].
    replace (py b * L - py a * L) with (dy * L) by (unfold dy; ring). nia. }
  set (len := fsqrt (fadd (fmul ex ex) (fmul ey ey))).
  assert (LEN : f32_is len L (- j)).
  { apply fsqrt_is; [|lia|exact E0].
    assert (SQ : dx * L * (dx * L) + dy * L * (dy * L) = L * L)
      by (rewrite <- (Z.mul_1_l (L * L)), <- Hd; ring).
    rewrite <- SQ. apply (f32_is_exp _ _ (- j + - j)); [lia|].
    assert (Q1 : (dx * L) * (dx * L) <= L * L) by nia.
    assert (Q2 : (dy * L) * (dy * L) <= L * L) by nia.
    apply fadd_is; [| | |unfold small_exp; lia].
    - apply fmul_is; [exact EX|exact EX| |unfold small_exp; lia]. nia.
    - apply fmul_is; [exact EY|exact EY| |unfold small_exp; lia]. nia.
    - rewrite SQ. nia. }
  rewrite (fltb_threshold len L (- j) LEN) by lia.
  set (nx := fdiv ex len). set (ny := fdiv ey len).
  assert (NX : f32_is nx dx 0).
  { apply (f32_is_exp _ _ (- j - - j)); [lia|].
    apply (fdiv_is _ _ dx L); [exact EX|exact LEN|lia|unfold small_exp; lia]. }
  assert (NY : f32_is ny dy 0).
  { apply (f32_is_exp _ _ (- j - - j)); [lia|].
    apply (fdiv_is _ _ dy L); [exact EY|exact LEN|lia|unfold small_exp; lia]. }
  set (eps := fmul (fmul f_quarter (float_of_int cs)) sc).
  assert (EPS : f32_is eps L (-2 + - j)).
  { unfold L. replace (cs * t) with (1 * cs * t) by ring.
    apply (fmul_is _ _ (1 * cs) t (-2) (- j));
      [apply (fmul_is _ _ 1 cs (-2) 0);
         [exact f_quarter_is|exact C|nia|unfold small_exp; lia]
      |exact S| |exact E2].
    replace (1 * cs * t) with L by (unfold L; ring). nia. }
  set (den := fmul (float_of_int cs) sc).
  assert (DEN : f32_is den L (- j)).
  { apply (fmul_is _ _ cs t 0 (- j)); [exact C|exact S|fold L; nia|exact E0]. }
  (* the midpoint, in quarters of the unit *)
  assert (MID : forall u v fu fv,
            f32_is fu (u * L) (- j) -> f32_is fv (v * L) (- j) ->
            0 <= u -> 0 <= v ->
            4 * (u + 1) * L < 2 ^ 24 -> 4 * (v + 1) * L < 2 ^ 24 ->
            - 1 <= v - u <= 1 ->
            f32_is (fmul f_half (fadd fu fv)) (2 * (u + v) * L) (-2 + - j)).
  { intros u v fu fv FU FV U0 V0 U1 V1 UV.
    replace (2 * (u + v) * L) with (1 * (u * L + v * L) * 2 ^ 1)
      by (change (2 ^ 1) with 2; ring).
    apply (f32_is_exp _ _ (-1 + - j - 1)); [lia|].
    apply (f32_is_shift _ (1 * (u * L + v * L)) (-1 + - j) 1);
      [|lia|change (2 ^ 1) with 2; nia].
    apply (fmul_is _ _ 1 (u * L + v * L) (-1) (- j));
      [exact f_half_is| |nia|unfold small_exp; lia].
    apply fadd_is; [exact FU|exact FV|nia|exact E0]. }
  (* one coordinate of the probe: the midpoint plus the normal times [eps],
     divided by the width of a cell *)
  assert (PROBE : forall u v fu fv fr r,
            f32_is fu (u * L) (- j) -> f32_is fv (v * L) (- j) ->
            f32_is fr r 0 -> -1 <= r <= 1 ->
            0 <= u -> 0 <= v ->
            4 * (u + 1) * L < 2 ^ 24 -> 4 * (v + 1) * L < 2 ^ 24 ->
            - 1 <= v - u <= 1 ->
            floor_to_int (fdiv (fadd (fmul f_half (fadd fu fv)) (fmul fr eps)) den) =
            (2 * (u + v) + r) / 4).
  { intros u v fu fv fr r FU FV FR R U0 V0 U1 V1 UV.
    assert (SX : f32_is (fadd (fmul f_half (fadd fu fv)) (fmul fr eps))
                        ((2 * (u + v) + r) * L) (-2 + - j)).
    { replace ((2 * (u + v) + r) * L) with (2 * (u + v) * L + r * L) by ring.
      apply fadd_is; [now apply MID| |nia|exact E2].
      apply (fmul_is _ _ r L 0 (-2 + - j)); [exact FR|exact EPS|nia|exact E2]. }
    assert (QX : f32_is (fdiv (fadd (fmul f_half (fadd fu fv)) (fmul fr eps)) den)
                        (2 * (u + v) + r) (-2)).
    { apply (f32_is_exp _ _ (-2 + - j - - j)); [lia|].
      apply (fdiv_is _ _ (2 * (u + v) + r) L);
        [exact SX|exact DEN|lia|unfold small_exp; lia]. }
    rewrite (floor_to_int_is _ _ _ QX); [reflexivity|lia|].
    change (2 ^ (- -2)) with 4. unfold int_min. Z.div_mod_to_equations. nia. }
  rewrite probe_cell_div. cbn [fst snd]. fold dx dy.
  rewrite (PROBE (px a) (px b) ax bx (fneg ny) (- dy));
    [|assumption|assumption|now apply fneg_is|lia|lia|lia|lia|lia
     |unfold dx in *; lia].
  rewrite (PROBE (py a) (py b) ay by_ nx dx);
    [|assumption|assumption|assumption|lia|lia|lia|lia|lia|unfold dy in *; lia].
  reflexivity.
Qed.

(** And it returns the solidity of that cell. *)
Lemma probe_edge_unit svc layer t j a b :
  exact_probes svc layer t j -> unit_step a b ->
  corner_in_grid layer a -> corner_in_grid layer b ->
  probe_edge svc layer a b =
  Some (is_solid svc layer (fst (probe_cell a b)) (snd (probe_cell a b))
                 (getGridSize layer)).
Proof.
  intros HL Hu Ha Hb. unfold probe_edge.
  rewrite (probe_grid_cell_unit svc layer t j a b HL Hu Ha Hb).
  now destruct (probe_cell a b).
Qed.

(** The probe cell is the cell on the right of the direction of travel
    (with the y axis pointing down, as on screen). *)
Lemma probe_cell_right x y :
  probe_cell (mkPoint x y) (mkPoint (x + 1) y) = (x, y) /\
  probe_cell (mkPoint (x + 1) y) (mkPoint x y) = (x, y - 1) /\
  probe_cell (mkPoint x y) (mkPoint x (y + 1)) = (x - 1, y) /\
  probe_cell (mkPoint x (y + 1)) (mkPoint x y) = (x, y).
Proof.
  unfold probe_cell, probe_point, Qfloor. cbn [px py fst snd].
  unfold Qdiv, Qmult, Qplus, Qinv, inject_Z. cbn [Qnum Qden].
  repeat split; f_equal; cbn; Z.div_mod_to_equations; lia.
Qed.

(** The corners of the collected edges are corners of the grid. *)
Lemma collect_edges_in_grid svc layer es p q :
  Permutation es (collect_edges svc layer) ->
  In (make_edge p q) es -> corner_in_grid layer p /\ corner_in_grid layer q.
Proof.
  intros HP H. apply (Permutation_in _ HP) in H.
  rewrite collect_edges_raw in H. apply in_map_iff in H.
  destruct H as ([[x y] s] & E & H). apply boundary_sides_In in H.
  destruct H as [S _]. apply cell_solid_in_range in S.
  unfold edge_of_side in E. cbn [fst snd] in E. unfold corner_in_grid.
  destruct (make_edge_cases p q) as [M | M]; rewrite M in E;
    destruct s; cbn [side_edge] in E; inversion E; subst; cbn [px py]; lia.
Qed.

(** The winding test on a chain whose first edge is a unit edge. *)
Lemma loop_has_solid_on_right_unit svc layer t j a b rest :
  exact_probes svc layer t j -> unit_step a b ->
  corner_in_grid layer a -> corner_in_grid layer b ->
  loop_has_solid_on_right svc layer (a :: b :: rest) =
  cell_solid svc layer (fst (probe_cell a b)) (snd (probe_cell a b)).
Proof.
  intros HL Hu Ha Hb. unfold loop_has_solid_on_right.
  cbn [length seq probe_from]. rewrite Nat.mod_small by lia.
  cbn [Nat.add nth]. now rewrite (probe_edge_unit svc layer t j).
Qed.




(** Beyond the bounds of [exact_probes] the rounding decides.  With cells of
    one pixel at scale 1, the edge from corner [(16777217, 0)] to corner
    [(16777218, 0)] has the cell [(16777217, 0)] on its right; the [float]
    of 16777217 is 16777216, the midpoint is rounded to 16777216 and the
    resolver answers for the cell [(16777216, 0)]. *)
Lemma far_corner_probe_rounds :
  let layer := grid_layer 33554432 1 1 (fun x _ => x =? 16777217) in
  let a := mkPoint 16777217 0 in
  let b := mkPoint 16777218 0 in
  probe_cell a b = (16777217, 0) /\
  cell_solid (wall_service 1) layer 16777217 0 = true /\
  probe_edge (wall_service 1) layer a b =
    Some (cell_solid (wall_service 1) layer 16777216 0) /\
  loop_has_solid_on_right (wall_service 1) layer
    [a; b; mkPoint 16777218 1; mkPoint 16777217 1] = false.
Proof. vm_compute. repeat split; reflexivity. Qed.

(** At scale 1e19 the square of the length of an edge of 16 pixels is not a
    binary32 number: the sum of the squares is the infinity, both components
    of the normal are zero and the probe stays at the midpoint of the edge.
    Going down the right side of the single solid cell, with the cell on the
    right, the resolver answers for the cell [(1, 0)], outside the grid. *)
Lemma huge_scale_probe_overflows :
  let svc := wall_service (inject_Z (10 ^ 19)) in
  let a := mkPoint 1 0 in
  let b := mkPoint 1 1 in
  cell_solid svc single_cell (fst (probe_cell a b)) (snd (probe_cell a b)) = true /\
  probe_edge svc single_cell a b = Some (cell_solid svc single_cell 1 0) /\
  loop_has_solid_on_right svc single_cell
    [a; b; mkPoint 0 1; mkPoint 0 0] = false.
Proof. vm_compute. repeat split; reflexivity. Qed.

(** ** C2: the 3x3 block *)

(** C2, counterexample. The 3x3 block yields one loop of twelve vertices,
    not four. *)
Lemma block3_loop_has_twelve_vertices :
  layer_loops (wall_service 1) block3 =
    Some [[mkPoint 0 0; mkPoint 1 0; mkPoint 2 0; mkPoint 3 0;
           mkPoint 3 1; mkPoint 3 2; mkPoint 3 3; mkPoint 2 3;
           mkPoint 1 3; mkPoint 0 3; mkPoint 0 2; mkPoint 0 1]] /\
  ~ (exists loop, layer_loops (wall_service 1) block3 = Some [loop] /\
                  length loop = 4%nat).
Proof.
  assert (E : layer_loops (wall_service 1) block3 =
    Some [[mkPoint 0 0; mkPoint 1 0; mkPoint 2 0; mkPoint 3 0;
           mkPoint 3 1; mkPoint 3 2; mkPoint 3 3; mkPoint 2 3;
           mkPoint 1 3; mkPoint 0 3; mkPoint 0 2; mkPoint 0 1]])
    by (vm_compute; reflexivity).
  split; [exact E|].
  intros (loop & H & L). rewrite E in H. inversion H; subst. discriminate L.
Qed.

(** ** Walks on a boundary that is one simple cycle *)

Section SimpleCycle.

(** The corners of the cycle are [c 0, c 1, ..., c (N - 1)]; the index is
    read modulo [N]. *)
Variable N : Z.
Variable c : Z -> IntPoint.
Variable es : EdgeSet.

Hypothesis N_ge : 3 <= N.
Hypothesis c_cong : forall i j, c i = c j <-> (N | i - j).
Hypothesis es_edges :
  forall e, In e es <-> exists j, e = make_edge (c j) (c (j + 1)).

Lemma cycle_edge_In j : In (make_edge (c j) (c (j + 1))) es.
Proof. apply es_edges. now exists j. Qed.

Lemma divide_small x : (N | x) -> 0 < x < N -> False.
Proof.
  intros [z Hz] Hx. subst x.
  assert (0 < z) by nia. nia.
Qed.

Lemma make_edge_eq_cases a b a' b' :
  make_edge a b = make_edge a' b' -> (a = a' /\ b = b') \/ (a = b' /\ b = a').
Proof.
  intros H.
  destruct (make_edge_cases a b) as [E1 | E1],
           (make_edge_cases a' b') as [E2 | E2];
    rewrite E1, E2 in H; injection H; auto.
Qed.

Lemma cycle_only j cand :
  In (make_edge (c j) cand) es -> cand = c (j - 1) \/ cand = c (j + 1).
Proof.
  intros H. apply es_edges in H. destruct H as (k & H).
  apply make_edge_eq_cases in H. destruct H as [[H1 H2] | [H1 H2]].
  - right. subst cand. apply c_cong. apply c_cong in H1.
    now replace (k + 1 - (j + 1)) with (- (j - k)) by lia; apply Z.divide_opp_r.
  - left. subst cand. apply c_cong. apply c_cong in H1.
    now replace (k - (j - 1)) with (- (j - (k + 1))) by lia; apply Z.divide_opp_r.
Qed.

Lemma cycle_fresh i j :
  make_edge (c i) (c (i + 1)) = make_edge (c j) (c (j + 1)) -> (N | i - j).
Proof.
  intros H. apply make_edge_eq_cases in H. destruct H as [[H1 _] | [H1 H2]].
  - now apply c_cong.
  - exfalso. apply c_cong in H1, H2.
    assert (D : (N | 2)).
    { replace 2 with ((i + 1 - j) - (i - (j + 1))) by lia.
      now apply Z.divide_sub_r. }
    apply Z.divide_pos_le in D; lia.
Qed.

(** The corners met from [c s] onwards. *)
Let v (s : Z) (t : nat) : IntPoint := c (s + Z.of_nat t).

Lemma cycle_v_start s i : 1 <= Z.of_nat i < N -> v s i <> v s 0.
Proof.
  unfold v. intros Hi E. apply c_cong in E.
  replace (s + Z.of_nat i - (s + Z.of_nat 0%nat)) with (Z.of_nat i) in E by lia.
  eapply divide_small; eauto. lia.
Qed.

Lemma cycle_v_adj s i : In (v s (S i)) (build_adj es (v s i)).
Proof.
  unfold v. apply build_adj_In.
  exists (make_edge (c (s + Z.of_nat i)) (c (s + Z.of_nat i + 1))).
  split; [apply cycle_edge_In|].
  rewrite Nat2Z.inj_succ.
  replace (s + Z.succ (Z.of_nat i)) with (s + Z.of_nat i + 1) by lia.
  destruct (make_edge_cases (c (s + Z.of_nat i)) (c (s + Z.of_nat i + 1)))
    as [-> | ->]; cbn; auto.
Qed.

Lemma cycle_v_edge s i : In (make_edge (v s i) (v s (S i))) es.
Proof.
  unfold v. rewrite Nat2Z.inj_succ.
  replace (s + Z.succ (Z.of_nat i)) with (s + Z.of_nat i + 1) by lia.
  apply cycle_edge_In.
Qed.

Lemma cycle_v_only s i cand :
  (1 <= i)%nat -> In (make_edge (v s i) cand) es ->
  cand = v s (pred i) \/ cand = v s (S i).
Proof.
  unfold v. intros Hi H. apply cycle_only in H.
  rewrite Nat2Z.inj_succ, Nat2Z.inj_pred by lia.
  replace (s + Z.pred (Z.of_nat i)) with (s + Z.of_nat i - 1) by lia.
  replace (s + Z.succ (Z.of_nat i)) with (s + Z.of_nat i + 1) by lia.
  exact H.
Qed.

Lemma cycle_v_fresh s i j :
  (j < i)%nat -> Z.of_nat i < N ->
  make_edge (v s j) (v s (S j)) <> make_edge (v s i) (v s (S i)).
Proof.
  unfold v. intros Hji Hi E. rewrite !Nat2Z.inj_succ in E.
  replace (s + Z.succ (Z.of_nat j)) with (s + Z.of_nat j + 1) in E by lia.
  replace (s + Z.succ (Z.of_nat i)) with (s + Z.of_nat i + 1) in E by lia.
  apply cycle_fresh in E. apply Z.divide_opp_r in E.
  eapply (divide_small (- (s + Z.of_nat j - (s + Z.of_nat i)))); eauto. lia.
Qed.

Lemma cycle_live_start s :
  live_edges es (erase_edge es (c s) (c (s + 1))) (corner_path (v s) 1).
Proof.
  intros e. rewrite erase_edge_In. unfold corner_path, v.
  cbn [seq map chain_edges In].
  replace (s + Z.of_nat 0) with s by lia.
  replace (s + Z.of_nat 1) with (s + 1) by lia.
  intuition congruence.
Qed.

(** Every edge of the cycle is met within [N] steps from [c s]. *)
Lemma cycle_covered s e :
  In e es -> In e (chain_edges (corner_path (v s) (Z.to_nat N))).
Proof.
  intros H. apply es_edges in H. destruct H as (j & ->).
  apply chain_edges_corner_path.
  exists (Z.to_nat ((j - s) mod N)).
  pose proof (Z.mod_pos_bound (j - s) N ltac:(lia)) as Hb.
  split; [lia|]. unfold v. rewrite Nat2Z.inj_succ, Z2Nat.id by lia.
  assert (D : (N | j - (s + (j - s) mod N))).
  { exists ((j - s) / N). rewrite (Z.mod_eq (j - s) N) by lia. ring. }
  f_equal; apply c_cong.
  - exact D.
  - destruct D as [z D]. exists z. lia.
Qed.

(** A cycle short enough for the guard: the walk from [c s] goes once
    around, comes back to [c s] and has consumed every edge. *)
Lemma cycle_walk_closes s fuel :
  N + 1 <= vertex_guard -> (Z.to_nat N <= fuel)%nat ->
  walk fuel (build_adj es) (c s) (erase_edge es (c s) (c (s + 1)))
       (c s) (c (s + 1)) [c s; c (s + 1)] =
  Some ([], corner_path (v s) (Z.to_nat N)).
Proof.
  intros Hg Hf.
  destruct (walk_to_close (build_adj es) es (v s) (Z.to_nat (N - 1)))
    with (d := Z.to_nat (N - 1)) (t := 1%nat) (fuel := fuel)
         (edges := erase_edge es (c s) (c (s + 1))) as (edges' & W & Hl).
  - intros i Hi. apply cycle_v_start. lia.
  - intros i _. apply cycle_v_adj.
  - intros i _. apply cycle_v_edge.
  - intros i cand Hi _ Hin. apply cycle_v_only; [lia | exact Hin].
  - intros i j Hij. apply cycle_v_fresh; lia.
  - lia.
  - lia.
  - lia.
  - unfold v. apply c_cong.
    exists 1. rewrite Nat2Z.inj_add, Z2Nat.id by lia. lia.
  - lia.
  - apply cycle_live_start.
  - replace (1 + Z.to_nat (N - 1))%nat with (Z.to_nat N) in * by lia.
    assert (E : edges' = []).
    { destruct edges' as [|e l]; [reflexivity|]. exfalso.
      destruct (proj1 (Hl e) (or_introl eq_refl)) as [H1 H2].
      apply H2. now apply cycle_covered. }
    subst edges'.
    assert (V0 : v s 0 = c s) by (unfold v; f_equal; lia).
    assert (V1 : v s 1 = c (s + 1)) by (unfold v; f_equal; lia).
    unfold corner_path at 1 in W. cbn [seq map pred] in W.
    rewrite ?V0, ?V1 in W. exact W.
Qed.

(** A cycle longer than the guard: the walk from [c s] is stopped at its
    100,001st vertex, which is not [c s]. *)
Lemma cycle_walk_guard s fuel :
  vertex_guard < N -> (Z.to_nat vertex_guard <= fuel)%nat ->
  exists edges',
    walk fuel (build_adj es) (c s) (erase_edge es (c s) (c (s + 1)))
         (c s) (c (s + 1)) [c s; c (s + 1)] =
    Some (edges', corner_path (v s) (Z.to_nat vertex_guard)).
Proof.
  intros Hg Hf. unfold vertex_guard in *.
  destruct (walk_to_guard (build_adj es) es (v s) (Z.to_nat 99999))
    with (d := Z.to_nat 99998) (t := 1%nat) (fuel := fuel)
         (edges := erase_edge es (c s) (c (s + 1))) as (edges' & W).
  - intros i Hi. apply cycle_v_start. lia.
  - intros i _. apply cycle_v_adj.
  - intros i _. apply cycle_v_edge.
  - intros i cand Hi _ Hin. apply cycle_v_only; [lia | exact Hin].
  - intros i j Hij. apply cycle_v_fresh; lia.
  - lia.
  - lia.
  - lia.
  - unfold vertex_guard. lia.
  - apply cycle_live_start.
  - exists edges'.
    replace (Z.to_nat 100000) with (S (1 + Z.to_nat 99998)) by lia.
    assert (V0 : v s 0 = c s) by (unfold v; f_equal; lia).
    assert (V1 : v s 1 = c (s + 1)) by (unfold v; f_equal; lia).
    unfold corner_path at 1 in W. cbn [seq map pred] in W.
    rewrite ?V0, ?V1 in W. exact W.
Qed.

End SimpleCycle.

(** The first walk of the outer loop, from what the inner loop returns with
    any sufficient fuel. *)
Lemma raw_walks_first es a b tl fuel e1 p1 :
  es = mkEdge a b :: tl -> Forall canonical es ->
  walk fuel (build_adj es) a (erase_edge es a b) a b [a; b] = Some (e1, p1) ->
  exists raws,
    raw_walks es = Some (p1 :: raws) /\
    raw_walks_from (length tl) (build_adj es) e1 = Some raws.
Proof.
  intros Hes Hcan W.
  unfold raw_walks. remember (build_adj es) as adj eqn:Hadj.
  assert (U : raw_walks_from (length es) adj es =
              match walk (length (erase_edge es a b)) adj a (erase_edge es a b)
                         a b [a; b] with
              | None => None
              | Some (edges, poly) =>
                  match raw_walks_from (length tl) adj edges with
                  | None => None
                  | Some raws => Some (poly :: raws)
                  end
              end).
  { rewrite Hes. reflexivity. }
  set (edges1 := erase_edge es a b) in *.
  destruct (walk_total adj a (length edges1) edges1 a b [a; b] (Nat.le_refl _))
    as (e0 & p0 & W0).
  pose proof (walk_fuel_mono adj a _ _ _ _ _ _ _
                (Nat.le_max_l (length edges1) fuel) W0) as W1.
  pose proof (walk_fuel_mono adj a _ _ _ _ _ _ _
                (Nat.le_max_r (length edges1) fuel) W) as W2.
  rewrite W1 in W2. inversion W2; subst e0 p0. clear W1 W2.
  destruct (raw_walks_total adj (length tl) e1) as (raws & R).
  - eapply canonical_incl; [|exact Hcan].
    intros e He. apply (walk_incl _ _ _ _ _ _ _ _ _ W0) in He.
    now apply erase_edge_In in He.
  - pose proof (walk_length_le _ _ _ _ _ _ _ _ _ W0) as L1.
    assert (L2 : (length edges1 < length es)%nat).
    { apply erase_edge_length_lt.
      assert (Hc : canonical (mkEdge a b)).
      { rewrite Forall_forall in Hcan. apply Hcan. rewrite Hes. now left. }
      unfold canonical in Hc. cbn in Hc. rewrite Hc, Hes. now left. }
    rewrite Hes in L2. cbn [length] in L2. lia.
  - exists raws. split; [|exact R]. now rewrite U, W0, R.
Qed.

Lemma reverse_cong N (c : Z -> IntPoint) :
  (forall i j, c i = c j <-> (N | i - j)) ->
  forall i j, c (- i) = c (- j) <-> (N | i - j).
Proof.
  intros H i j. rewrite H.
  replace (- i - - j) with (- (i - j)) by lia.
  apply Z.divide_opp_r.
Qed.

Lemma reverse_edges (c : Z -> IntPoint) es :
  (forall e, In e es <-> exists j, e = make_edge (c j) (c (j + 1))) ->
  forall e, In e es <-> exists j, e = make_edge (c (- j)) (c (- (j + 1))).
Proof.
  intros H e. rewrite H. split; intros (j & ->).
  - exists (- (j + 1)). rewrite make_edge_sym. f_equal; f_equal; lia.
  - exists (- (j + 1)). rewrite make_edge_sym. f_equal; f_equal; lia.
Qed.

(** The corners of a cycle read from [c s]: forwards or backwards. *)
Lemma cycle_start_edge N (c : Z -> IntPoint) es e0 :
  (forall i j, c i = c j <-> (N | i - j)) ->
  (forall e, In e es <-> exists j, e = make_edge (c j) (c (j + 1))) ->
  In e0 es ->
  exists (c' : Z -> IntPoint) (s : Z),
    e0 = mkEdge (c' s) (c' (s + 1)) /\
    (forall i j, c' i = c' j <-> (N | i - j)) /\
    (forall e, In e es <-> exists j, e = make_edge (c' j) (c' (j + 1))) /\
    ((forall i, c' i = c i) \/ (forall i, c' i = c (- i))).
Proof.
  intros Hc He Hin. destruct (proj1 (He e0) Hin) as (j & ->).
  destruct (make_edge_cases (c j) (c (j + 1))) as [E | E].
  - exists c, j. auto.
  - exists (fun i => c (- i)), (- (j + 1)). cbn beta. split; [|split; [|split]].
    + rewrite E. f_equal; f_equal; lia.
    + now apply reverse_cong.
    + intros e. rewrite (reverse_edges c es He e).
      split; intros (k & ->); exists k; reflexivity.
    + right. reflexivity.
Qed.

(** On a boundary that is one simple cycle of at most 99,999 edges the outer
    loop makes one walk: once around the cycle from the picked edge,
    forwards or backwards. *)
Lemma cycle_raw_walks N (c : Z -> IntPoint) es :
  3 <= N ->
  (forall i j, c i = c j <-> (N | i - j)) ->
  (forall e, In e es <-> exists j, e = make_edge (c j) (c (j + 1))) ->
  Forall canonical es ->
  N + 1 <= vertex_guard ->
  exists (f : nat -> IntPoint),
    raw_walks es = Some [corner_path f (Z.to_nat N)] /\
    ((exists s, forall t, f t = c (s + Z.of_nat t)) \/
     (exists s, forall t, f t = c (s - Z.of_nat t))).
Proof.
  intros HN Hc He Hcan Hg.
  destruct es as [|e0 tl] eqn:Hes.
  { exfalso. apply (proj2 (He (make_edge (c 0) (c (0 + 1))))). now exists 0. }
  rewrite <- Hes in *.
  assert (Hin : In e0 es) by (rewrite Hes; now left).
  destruct (cycle_start_edge N c es e0 Hc He Hin)
    as (c' & s & E0 & Hc' & He' & Hdir).
  pose proof (cycle_walk_closes N c' es HN Hc' He' s (Z.to_nat N) Hg (Nat.le_refl _))
    as W.
  rewrite E0 in Hes.
  destruct (raw_walks_first es _ _ tl _ _ _ Hes Hcan W) as (raws & R1 & R2).
  assert (raws = []).
  { destruct (length tl); cbn in R2; now inversion R2. }
  subst raws.
  exists (fun t => c' (s + Z.of_nat t)). split; [exact R1|].
  destruct Hdir as [Hd | Hd].
  - left. exists s. intros t. apply Hd.
  - right. exists (- s). intros t. rewrite Hd. f_equal. lia.
Qed.

(** On a boundary that is one simple cycle of more than 100,000 edges the
    guard stops the first walk, whatever edge is picked first: the chain has
    100,001 vertices and is not closed. *)
Lemma cycle_raw_walks_guard N (c : Z -> IntPoint) es :
  (forall i j, c i = c j <-> (N | i - j)) ->
  (forall e, In e es <-> exists j, e = make_edge (c j) (c (j + 1))) ->
  Forall canonical es ->
  vertex_guard < N ->
  exists poly raws,
    raw_walks es = Some (poly :: raws) /\
    length poly = S (Z.to_nat vertex_guard) /\
    ~ closed_walk poly.
Proof.
  intros Hc He Hcan Hg.
  assert (HN : 3 <= N) by (unfold vertex_guard in Hg; lia).
  destruct es as [|e0 tl] eqn:Hes.
  { exfalso. apply (proj2 (He (make_edge (c 0) (c (0 + 1))))). now exists 0. }
  rewrite <- Hes in *.
  assert (Hin : In e0 es) by (rewrite Hes; now left).
  destruct (cycle_start_edge N c es e0 Hc He Hin)
    as (c' & s & E0 & Hc' & He' & _).
  destruct (cycle_walk_guard N c' es HN Hc' He' s (Z.to_nat vertex_guard) Hg
              (Nat.le_refl _)) as (e1 & W).
  rewrite E0 in Hes.
  destruct (raw_walks_first es _ _ tl _ _ _ Hes Hcan W) as (raws & R1 & _).
  set (f := fun t => c' (s + Z.of_nat t)) in *.
  exists (corner_path f (Z.to_nat vertex_guard)), raws.
  split; [exact R1|]. split; [apply corner_path_length|].
  assert (G : Z.to_nat vertex_guard = S (Z.to_nat (vertex_guard - 1))).
  { unfold vertex_guard. lia. }
  intros Hcl.
  apply (cycle_v_start N c' HN Hc' s (Z.to_nat vertex_guard));
    [unfold vertex_guard in *; lia|].
  fold (f (Z.to_nat vertex_guard)). fold (f 0%nat).
  eapply closed_walk_ends; [exact Hcl | |].
  - rewrite G at 1. apply corner_path_S.
  - unfold corner_path. cbn [seq map]. reflexivity.
Qed.

(** A corner function on [0, N] that closes up gives a cycle indexed by all
    the integers. *)
Lemma cycle_of_range N (corner : Z -> IntPoint) es :
  0 < N ->
  (forall i j, 0 <= i < N -> 0 <= j < N -> corner i = corner j -> i = j) ->
  corner N = corner 0 ->
  (forall e, In e es <->
             exists j, 0 <= j < N /\ e = make_edge (corner j) (corner (j + 1))) ->
  (forall i j, corner (i mod N) = corner (j mod N) <-> (N | i - j)) /\
  (forall e, In e es <->
             exists j, e = make_edge (corner (j mod N)) (corner ((j + 1) mod N))).
Proof.
  intros HN Hinj Hclose He.
  assert (Hnext : forall j, corner ((j + 1) mod N) = corner (j mod N + 1)).
  { intros j. pose proof (Z.mod_pos_bound j N HN) as Hb.
    rewrite <- Z.add_mod_idemp_l by lia.
    destruct (Z.eq_dec (j mod N + 1) N) as [E | E].
    - rewrite E, Z.mod_same by lia. now rewrite Hclose.
    - now rewrite Z.mod_small by lia. }
  split.
  - intros i j. rewrite <- Z.mod_divide by lia. rewrite <- Z.cong_iff_0.
    split; [|now intros ->].
    apply Hinj; now apply Z.mod_pos_bound.
  - intros e. rewrite He. split.
    + intros (j & Hj & ->). exists j.
      now rewrite Hnext, Z.mod_small by lia.
    + intros (j & ->). exists (j mod N).
      split; [now apply Z.mod_pos_bound | now rewrite Hnext].
Qed.

(** ** A solid rectangle at the origin *)

Lemma rect_corner_inj w h i j :
  1 <= w -> 1 <= h ->
  0 <= i < 2 * w + 2 * h -> 0 <= j < 2 * w + 2 * h ->
  rect_corner w h i = rect_corner w h j -> i = j.
Proof.
  unfold rect_corner. intros Hw Hh Hi Hj E.
  strip_bools; point_eqs; lia.
Qed.

Lemma rect_corner_close w h :
  1 <= w -> 1 <= h ->
  rect_corner w h (2 * w + 2 * h) = rect_corner w h 0.
Proof.
  unfold rect_corner. intros Hw Hh.
  strip_bools; try lia; apply (f_equal2 mkPoint); lia.
Qed.

(** The edge from one corner of the rectangle to the next. *)
Lemma rect_corner_edge w h j :
  1 <= w -> 1 <= h -> 0 <= j < 2 * w + 2 * h ->
  make_edge (rect_corner w h j) (rect_corner w h (j + 1)) =
  if j <? w then mkEdge (mkPoint j 0) (mkPoint (j + 1) 0)
  else if j <? w + h then mkEdge (mkPoint w (j - w)) (mkPoint w (j - w + 1))
  else if j <? 2 * w + h
       then mkEdge (mkPoint (2 * w + h - j - 1) h) (mkPoint (2 * w + h - j) h)
  else mkEdge (mkPoint 0 (2 * w + 2 * h - j - 1)) (mkPoint 0 (2 * w + 2 * h - j)).
Proof.
  unfold rect_corner, make_edge. intros Hw Hh Hj.
  strip_bools; cbn [px py]; strip_bools;
    cbn [px py orb andb] in *; try lia;
    apply (f_equal2 mkEdge); apply (f_equal2 mkPoint); lia.
Qed.

Section SolidRectangle.

Variable svc : LevelService.
Variable layer : Layer.
Variable w h : Z.

Hypothesis w_pos : 1 <= w.
Hypothesis h_pos : 1 <= h.
Hypothesis layer_solid :
  forall x y, cell_solid svc layer x y =
              (0 <=? x) && (x <? w) && (0 <=? y) && (y <? h).

(** The boundary segments of the rectangle are the edges between
    consecutive corners. *)
Lemma rect_segments e :
  is_boundary_segment svc layer e = true <->
  exists j, 0 <= j < 2 * w + 2 * h /\
            e = make_edge (rect_corner w h j) (rect_corner w h (j + 1)).
Proof.
  split.
  - unfold is_boundary_segment, edge_cells.
    destruct e as [[ax ay] [bx by_]]. cbn [ea eb px py fst snd].
    destruct ((bx =? ax + 1) && (by_ =? ay)) eqn:H1.
    + apply andb_true_iff in H1. destruct H1 as [H1 H2].
      apply Z.eqb_eq in H1, H2. subst bx by_. cbn [fst snd].
      rewrite !layer_solid. intros X.
      assert (K : (ay = 0 \/ ay = h) /\ 0 <= ax < w).
      { strip_bools; cbn in X; try discriminate; lia. }
      destruct K as [[-> | ->] Hx].
      * exists ax. split; [lia|]. rewrite rect_corner_edge by lia.
        strip_bools; try lia. reflexivity.
      * exists (2 * w + h - ax - 1). split; [lia|].
        rewrite rect_corner_edge by lia.
        strip_bools; try lia.
        apply (f_equal2 mkEdge); apply (f_equal2 mkPoint); lia.
    + destruct ((bx =? ax) && (by_ =? ay + 1)) eqn:H2; [|discriminate].
      apply andb_true_iff in H2. destruct H2 as [H2 H3].
      apply Z.eqb_eq in H2, H3. subst bx by_. cbn [fst snd].
      rewrite !layer_solid. intros X.
      assert (K : (ax = 0 \/ ax = w) /\ 0 <= ay < h).
      { strip_bools; cbn in X; try discriminate; lia. }
      destruct K as [[-> | ->] Hy].
      * exists (2 * w + 2 * h - ay - 1). split; [lia|].
        rewrite rect_corner_edge by lia.
        strip_bools; try lia.
        apply (f_equal2 mkEdge); apply (f_equal2 mkPoint); lia.
      * exists (w + ay). split; [lia|]. rewrite rect_corner_edge by lia.
        strip_bools; try lia.
        apply (f_equal2 mkEdge); apply (f_equal2 mkPoint); lia.
  - intros (j & Hj & ->). rewrite rect_corner_edge by lia.
    unfold is_boundary_segment, edge_cells.
    repeat match goal with
           | |- context [Z.ltb ?a ?b] => destruct (Z.ltb_spec a b)
           end;
      cbn [ea eb px py fst snd]; strip_bools;
      cbn [andb fst snd]; try lia;
      rewrite !layer_solid; strip_bools; cbn; try lia; reflexivity.
Qed.

Variable es : EdgeSet.
Hypothesis es_perm : Permutation es (collect_edges svc layer).

Lemma rect_cycle_cong i j :
  rect_cycle w h i = rect_cycle w h j <-> (2 * w + 2 * h | i - j).
Proof.
  unfold rect_cycle.
  apply (cycle_of_range (2 * w + 2 * h) (rect_corner w h) es); try lia.
  - intros a b Ha Hb. now apply rect_corner_inj.
  - now apply rect_corner_close.
  - intros e. rewrite <- rect_segments, <- collect_edges_In.
    split; apply Permutation_in; [exact es_perm | now apply Permutation_sym].
Qed.

Lemma rect_cycle_edges e :
  In e es <->
  exists j, e = make_edge (rect_cycle w h j) (rect_cycle w h (j + 1)).
Proof.
  unfold rect_cycle.
  apply (cycle_of_range (2 * w + 2 * h) (rect_corner w h) es); try lia.
  - intros a b Ha Hb. now apply rect_corner_inj.
  - now apply rect_corner_close.
  - intros e'. rewrite <- rect_segments, <- collect_edges_In.
    split; apply Permutation_in; [exact es_perm | now apply Permutation_sym].
Qed.

End SolidRectangle.

(** A walk that went once around a cycle leaves, after the closing vertex
    is dropped, the corners of the cycle. *)
Lemma drop_closing_vertex_snoc front rest x :
  drop_closing_vertex ((front :: rest) ++ [x]) =
  if point_eqb x front then front :: rest else (front :: rest) ++ [x].
Proof.
  unfold drop_closing_vertex.
  change ((front :: rest) ++ [x]) with (front :: (rest ++ [x])) at 1.
  cbv iota. rewrite last_last, removelast_last. reflexivity.
Qed.

Lemma keep_chain_cycle svc layer (f : nat -> IntPoint) m :
  (2 <= m)%nat -> f (S m) = f 0%nat ->
  keep_chain svc layer (corner_path f (S m)) =
  [resolve_winding svc layer (corner_path f m)].
Proof.
  intros Hm Hf. unfold keep_chain.
  assert (E : drop_closing_vertex (corner_path f (S m)) = corner_path f m).
  { rewrite corner_path_S.
    assert (Hh : corner_path f m = f 0%nat :: map f (seq 1 m)) by reflexivity.
    rewrite Hh, drop_closing_vertex_snoc, Hf, point_eqb_refl. reflexivity. }
  rewrite E, corner_path_length.
  destruct (Nat.leb_spec 3 (S m)); [reflexivity | lia].
Qed.

(** Reading a cycle forwards or backwards from any corner meets every
    corner within one turn. *)
Lemma cycle_reading_covers N (c : Z -> IntPoint) (f : nat -> IntPoint) k :
  0 < N ->
  (forall i j, c i = c j <-> (N | i - j)) ->
  ((exists s, forall t, f t = c (s + Z.of_nat t)) \/
   (exists s, forall t, f t = c (s - Z.of_nat t))) ->
  In (c k) (corner_path f (Z.to_nat (N - 1))).
Proof.
  intros HN Hc [(s & Hf) | (s & Hf)]; unfold corner_path; apply in_map_iff.
  - pose proof (Z.mod_pos_bound (k - s) N HN) as Hb.
    exists (Z.to_nat ((k - s) mod N)). split.
    + rewrite Hf, Z2Nat.id by lia. apply Hc.
      exists (- ((k - s) / N)). rewrite (Z.mod_eq (k - s) N) by lia. ring.
    + apply in_seq. lia.
  - pose proof (Z.mod_pos_bound (s - k) N HN) as Hb.
    exists (Z.to_nat ((s - k) mod N)). split.
    + rewrite Hf, Z2Nat.id by lia. apply Hc.
      exists ((s - k) / N). rewrite (Z.mod_eq (s - k) N) by lia. ring.
    + apply in_seq. lia.
Qed.

(** A solid rectangle of [w] by [h] cells at the origin, with empty
    surroundings and a perimeter below the guard, yields exactly one loop:
    the [2 * (w + h)] corners of its perimeter, one unit apart, read from
    some corner in one of the two directions. *)
Lemma solid_rectangle_one_loop svc layer w h es :
  1 <= w -> 1 <= h -> 2 * w + 2 * h + 1 <= vertex_guard ->
  (forall x y, cell_solid svc layer x y =
               (0 <=? x) && (x <? w) && (0 <=? y) && (y <? h)) ->
  Permutation es (collect_edges svc layer) ->
  exists loop f,
    walk_loops svc layer es = Some [loop] /\
    (loop = corner_path f (Z.to_nat (2 * w + 2 * h - 1)) \/
     loop = rev (corner_path f (Z.to_nat (2 * w + 2 * h - 1)))) /\
    ((exists s, forall t, f t = rect_cycle w h (s + Z.of_nat t)) \/
     (exists s, forall t, f t = rect_cycle w h (s - Z.of_nat t))) /\
    length loop = Z.to_nat (2 * w + 2 * h) /\
    (forall k, In (rect_cycle w h k) loop).
Proof.
  intros Hw Hh Hg Hs HP.
  set (N := 2 * w + 2 * h) in *.
  pose proof (rect_cycle_cong svc layer w h Hw Hh Hs es HP) as Hc.
  pose proof (rect_cycle_edges svc layer w h Hw Hh Hs es HP) as He.
  fold N in Hc.
  destruct (cycle_raw_walks N (rect_cycle w h) es ltac:(lia) Hc He
              (collect_edges_canonical _ _ _ HP) Hg) as (f & R & Hdir).
  assert (HN : Z.to_nat N = S (Z.to_nat (N - 1))) by lia.
  assert (Hclose : f (S (Z.to_nat (N - 1))) = f 0%nat).
  { destruct Hdir as [(s & Hf) | (s & Hf)]; rewrite !Hf; apply Hc;
      [exists 1 | exists (-1)]; lia. }
  set (P := corner_path f (Z.to_nat (N - 1))) in *.
  exists (resolve_winding svc layer P), f.
  split; [|split; [|split; [|split]]].
  - rewrite walk_loops_raw, R. cbn [option_map flat_map].
    rewrite HN, keep_chain_cycle by (exact Hclose || lia).
    reflexivity.
  - apply resolve_winding_cases.
  - exact Hdir.
  - rewrite resolve_winding_length. unfold P. rewrite corner_path_length. lia.
  - intros k.
    assert (K : In (rect_cycle w h k) P).
    { apply (cycle_reading_covers N); [lia | exact Hc | exact Hdir]. }
    destruct (resolve_winding_cases svc layer P) as [-> | ->];
      [exact K | now apply -> in_rev].
Qed.

Lemma block3_solid s x y :
  cell_solid (wall_service s) block3 x y =
  (0 <=? x) && (x <? 3) && (0 <=? y) && (y <? 3).
Proof.
  unfold cell_solid, is_solid, block3, grid_layer, wall_service.
  cbn [getGridSize getIntGridValName collision_names px py].
  change (name_listed ["wall"%string] "wall"%string) with true.
  destruct (Z.ltb_spec x 0), (Z.ltb_spec y 0), (Z.geb_spec x 3),
           (Z.geb_spec y 3), (Z.leb_spec 0 x), (Z.ltb_spec x 3),
           (Z.leb_spec 0 y), (Z.ltb_spec y 3); cbn; try lia; reflexivity.
Qed.

(** C2 (amended). A layer whose solid cells are exactly the 3x3 block at the
    origin yields, whatever the iteration order of the edge set, exactly one
    closed loop of 12 vertices: the grid corners on the perimeter of the
    block, one unit apart, read from some corner in one of the two
    directions; the corners (0,0), (3,0), (3,3) and (0,3) are among them. *)
Theorem block3_one_loop (svc : LevelService) (layer : Layer) (es : EdgeSet) :
  (forall x y, cell_solid svc layer x y =
               (0 <=? x) && (x <? 3) && (0 <=? y) && (y <? 3)) ->
  Permutation es (collect_edges svc layer) ->
  exists loop f,
    walk_loops svc layer es = Some [loop] /\
    (loop = corner_path f 11 \/ loop = rev (corner_path f 11)) /\
    ((exists s, forall t, f t = rect_cycle 3 3 (s + Z.of_nat t)) \/
     (exists s, forall t, f t = rect_cycle 3 3 (s - Z.of_nat t))) /\
    length loop = 12%nat /\
    In (mkPoint 0 0) loop /\ In (mkPoint 3 0) loop /\
    In (mkPoint 3 3) loop /\ In (mkPoint 0 3) loop.
Proof.
  intros Hs HP.
  destruct (solid_rectangle_one_loop svc layer 3 3 es ltac:(lia) ltac:(lia)
              ltac:(unfold vertex_guard; lia) Hs HP)
    as (loop & f & H1 & H2 & H3 & H4 & H5).
  exists loop, f. repeat split; try assumption.
  - exact (H5 0).
  - exact (H5 3).
  - exact (H5 6).
  - exact (H5 9).
Qed.

(** The guard stops the first walk on the long strip whatever the iteration
    order of the edge set is. *)
Lemma long_rectangle_any_order svc layer w h es :
  1 <= w -> 1 <= h -> vertex_guard < 2 * w + 2 * h ->
  (forall x y, cell_solid svc layer x y =
               (0 <=? x) && (x <? w) && (0 <=? y) && (y <? h)) ->
  Permutation es (collect_edges svc layer) ->
  exists poly raws,
    raw_walks es = Some (poly :: raws) /\
    length poly = S (Z.to_nat vertex_guard) /\
    ~ closed_walk poly /\
    keep_chain svc layer poly = [resolve_winding svc layer poly].
Proof.
  intros Hw Hh Hg Hs HP.
  destruct (cycle_raw_walks_guard (2 * w + 2 * h) (rect_cycle w h) es
              (rect_cycle_cong svc layer w h Hw Hh Hs es HP)
              (rect_cycle_edges svc layer w h Hw Hh Hs es HP)
              (collect_edges_canonical _ _ _ HP) Hg)
    as (poly & raws & R & Hlen & Hop).
  exists poly, raws. repeat split; try assumption.
  rewrite keep_chain_open by exact Hop. rewrite Hlen.
  destruct (Nat.leb_spec 3 (S (Z.to_nat vertex_guard))); [reflexivity|].
  unfold vertex_guard in *. lia.
Qed.

Lemma strip_solid_rect s x y :
  cell_solid (wall_service s) strip x y =
  (0 <=? x) && (x <? strip_width) && (0 <=? y) && (y <? 1).
Proof.
  rewrite strip_solid.
  destruct (Z.leb_spec 0 x), (Z.ltb_spec x strip_width), (Z.eqb_spec y 0),
           (Z.leb_spec 0 y), (Z.ltb_spec y 1); cbn; try lia; reflexivity.
Qed.

Lemma strip_any_order es :
  Permutation es (collect_edges (wall_service 1) strip) ->
  exists poly raws,
    raw_walks es = Some (poly :: raws) /\
    length poly = S (Z.to_nat vertex_guard) /\
    ~ closed_walk poly /\
    keep_chain (wall_service 1) strip poly =
    [resolve_winding (wall_service 1) strip poly].
Proof.
  exact (long_rectangle_any_order (wall_service 1) strip strip_width 1 es
           ltac:(unfold strip_width; lia) ltac:(lia)
           ltac:(unfold vertex_guard, strip_width; lia)
           (strip_solid_rect 1)).
Qed.

(** ** The theorems at concrete layers *)


Lemma single_cell_small :
  Z.of_nat (length (collect_edges (wall_service 1) single_cell)) <= vertex_guard.
Proof. vm_compute. intros H. discriminate H. Defined.

Lemma unclosed_walks_witness :
  exists raws,
    raw_walks (collect_edges (wall_service 1) single_cell) = Some raws /\
    Forall closed_walk raws.
Proof.
  destruct (unclosed_walks_kept_from_three (wall_service 1) single_cell
              (collect_edges (wall_service 1) single_cell) (Permutation_refl _))
    as (raws & R & _ & Hcl & _).
  exists raws. split; [exact R | exact (Hcl single_cell_small)].
Defined.

Lemma block3_one_loop_witness :
  exists loop,
    walk_loops (wall_service 1) block3 (collect_edges (wall_service 1) block3) =
    Some [loop] /\ length loop = 12%nat.
Proof.
  destruct (block3_one_loop (wall_service 1) block3
              (collect_edges (wall_service 1) block3)
              (block3_solid 1) (Permutation_refl _))
    as (loop & f & H1 & _ & _ & H4 & _).
  exists loop. split; [exact H1 | exact H4].
Defined.

Lemma loops_use_edges_once_witness :
  exists loops,
    walk_loops (wall_service 1) single_cell
               (collect_edges (wall_service 1) single_cell) = Some loops /\
    Forall (fun c => incl (loop_edges c) (collect_edges (wall_service 1) single_cell))
           loops.
Proof.
  destruct (loops_use_edges_once (wall_service 1) single_cell
              (collect_edges (wall_service 1) single_cell) (Permutation_refl _))
    as (loops & R & _ & _ & H).
  exists loops. split; [exact R | exact (proj1 (H single_cell_small))].
Defined.

Lemma extraction_terminates_witness :
  exists loops,
    walk_loops (wall_service 1) single_cell
               (collect_edges (wall_service 1) single_cell) = Some loops.
Proof.
  destruct (extraction_terminates (wall_service 1) single_cell
              (collect_edges (wall_service 1) single_cell) (Permutation_refl _))
    as ((raws & loops & _ & R & _) & _).
  exists loops. exact R.
Defined.


Lemma emitted_chains_unit_steps_witness :
  exists loops,
    walk_loops (wall_service 1) single_cell
               (collect_edges (wall_service 1) single_cell) = Some loops /\
    Forall unit_steps loops.
Proof.
  exact (emitted_chains_unit_steps (wall_service 1) single_cell
           (collect_edges (wall_service 1) single_cell) (Permutation_refl _)).
Defined.

(* ================================================================== *)
(** * Further properties of the code *)

(** ** Every edge of the set ends up in a walk *)

(** One walk loses no edge: an edge of the set it starts from is still live
    when the walk ends, or is an edge of its chain. *)
Lemma walk_keeps_edges adj startE rest edges' poly' :
  canonical startE ->
  walk (length (erase_edge (startE :: rest) (ea startE) (eb startE))) adj
       (ea startE) (erase_edge (startE :: rest) (ea startE) (eb startE))
       (ea startE) (eb startE) [ea startE; eb startE] = Some (edges', poly') ->
  forall e, In e (startE :: rest) -> In e edges' \/ In e (chain_edges poly').
Proof.
  intros Hc W.
  pose (P := fun (es : EdgeSet) (pv cu : IntPoint) (po : list IntPoint) =>
               (exists pre, po = pre ++ [pv; cu]) /\
               forall e, In e (startE :: rest) -> In e es \/ In e (chain_edges po)).
  assert (Hstep : forall es pv cu po nx,
             P es pv cu po -> Z.of_nat (length po) <= vertex_guard ->
             cu <> ea startE -> find_next adj es pv cu = Some nx ->
             P (erase_edge es cu nx) cu nx (po ++ [nx])).
  { intros es pv cu po nx [[pre Hs] K] _ _ _. split.
    - exists (pre ++ [pv]). subst po. now rewrite <- !app_assoc.
    - intros e He.
      assert (Ech : chain_edges (po ++ [nx]) = chain_edges po ++ [make_edge cu nx]).
      { subst po. replace (pre ++ [pv; cu]) with ((pre ++ [pv]) ++ [cu])
          by (now rewrite <- app_assoc).
        apply chain_edges_snoc. }
      rewrite Ech, in_app_iff. destruct (K e He) as [H | H]; [|auto].
      destruct (edge_eq_dec e (make_edge cu nx)) as [-> | Hne].
      + right. right. now left.
      + left. apply erase_edge_In. auto. }
  assert (HP : P (erase_edge (startE :: rest) (ea startE) (eb startE))
                 (ea startE) (eb startE) [ea startE; eb startE]).
  { split; [now exists []|]. intros e He. cbn [chain_edges]. rewrite Hc.
    destruct (edge_eq_dec e startE) as [-> | Hne].
    - right. now left.
    - left. apply erase_edge_In. rewrite Hc. auto. }
  destruct (walk_rule P adj (ea startE) Hstep _ _ _ _ _ _ _ HP
              ltac:(cbn; unfold vertex_guard; lia) W)
    as (prev' & cur' & [_ K] & _).
  exact K.
Qed.

(** The outer loop loses no edge either: every edge of the set belongs to
    the chain of one of the walks. *)
Lemma raw_walks_cover adj :
  forall fuel edges raws,
    Forall canonical edges ->
    raw_walks_from fuel adj edges = Some raws ->
    forall e, In e edges -> exists p, In p raws /\ In e (chain_edges p).
Proof.
  induction fuel as [|fuel IH]; intros edges raws Hcan H e He.
  - destruct edges; [destruct He | discriminate].
  - destruct edges as [|startE rest]; [destruct He|].
    cbn [raw_walks_from] in H.
    assert (Hc : canonical startE) by (rewrite Forall_forall in Hcan; apply Hcan; now left).
    destruct (walk _ adj (ea startE) _ _ _ _) as [[edges' poly']|] eqn:W;
      [|discriminate].
    destruct (raw_walks_from fuel adj edges') as [raws'|] eqn:E; [|discriminate].
    inversion H; subst raws. clear H.
    destruct (walk_keeps_edges adj startE rest edges' poly' Hc W e He) as [K | K].
    + destruct (walk_result (startE :: rest) adj _ _ _ _ _ _ _ _
                  (walk_inv_start (startE :: rest) startE (or_introl eq_refl) Hc)
                  ltac:(cbn; unfold vertex_guard; lia) W)
        as (prev' & cur' & HI & _).
      destruct (IH edges' raws') with (e := e) as (p & Hp & Hep); auto.
      * eapply canonical_incl; [|exact Hcan]. apply (wi_edges _ _ _ _ _ HI).
      * exists p. split; [now right | exact Hep].
    + exists poly'. split; [now left | exact K].
Qed.

(** A closed walk over distinct proper edges has at least three vertices
    once its closing vertex is dropped. *)
Lemma closed_walk_three es p :
  proper_edges es -> closed_walk p ->
  incl (chain_edges p) es -> NoDup (chain_edges p) ->
  (3 <= length (drop_closing_vertex p))%nat.
Proof.
  intros Hp Hcl Hin Hn.
  destruct (drop_closing_vertex_closed p Hcl) as (front & q & E & D).
  rewrite D. destruct q as [|x q].
  - exfalso. subst p. cbn in Hin.
    apply (proper_edges_ends es front front Hp); [|reflexivity].
    apply Hin. now left.
  - destruct q as [|y q]; [|cbn; lia].
    exfalso. subst p. cbn in Hn. rewrite (make_edge_sym x front) in Hn.
    inversion Hn as [|? ? K _]. apply K. now left.
Qed.

Lemma loop_edges_length c : length (loop_edges c) = length c.
Proof.
  destruct c as [|v c]; [reflexivity|]. unfold loop_edges.
  rewrite chain_edges_length, length_app. cbn. lia.
Qed.

(** The chain kept from a closed walk: one loop, whose edges with the wrap
    are the edges of the walk, each once. *)
Lemma keep_chain_closed svc layer es p :
  proper_edges es -> closed_walk p ->
  incl (chain_edges p) es -> NoDup (chain_edges p) ->
  exists c, keep_chain svc layer p = [c] /\
            S (length c) = length p /\
            Permutation (loop_edges c) (chain_edges p).
Proof.
  intros Hp Hcl Hin Hn.
  pose proof (closed_walk_three es p Hp Hcl Hin Hn) as H3.
  assert (K : keep_chain svc layer p =
              [resolve_winding svc layer (drop_closing_vertex p)]).
  { unfold keep_chain. destruct (Nat.leb_spec 3 (length (drop_closing_vertex p)));
      [reflexivity | lia]. }
  exists (resolve_winding svc layer (drop_closing_vertex p)).
  split; [exact K|].
  assert (L : S (length (resolve_winding svc layer (drop_closing_vertex p))) = length p).
  { rewrite resolve_winding_length.
    destruct (drop_closing_vertex_closed p Hcl) as (front & q & E & D).
    rewrite D, E, length_app. cbn. lia. }
  split; [exact L|].
  assert (M : forall e, In e (loop_edges (resolve_winding svc layer (drop_closing_vertex p)))
                        <-> In e (chain_edges p)).
  { apply (closed_keep_loop_edges svc layer p _ Hcl). rewrite K. now left. }
  apply NoDup_Permutation; [|exact Hn | exact M].
  apply NoDup_incl_NoDup with (l := chain_edges p); [exact Hn | |].
  - rewrite loop_edges_length, chain_edges_length. lia.
  - intros e He. now apply M.
Qed.

Lemma flat_map_keep_closed svc layer es raws :
  proper_edges es ->
  Forall closed_walk raws ->
  Forall (fun p => incl (chain_edges p) es /\ NoDup (chain_edges p)) raws ->
  Permutation (flat_map loop_edges (flat_map (keep_chain svc layer) raws))
              (flat_map chain_edges raws) /\
  length (flat_map (keep_chain svc layer) raws) = length raws.
Proof.
  intros Hp. induction raws as [|p raws IH]; intros Hcl HF.
  - split; constructor.
  - inversion Hcl; subst. inversion HF as [|? ? [K1 K2] HF']; subst.
    destruct (keep_chain_closed svc layer es p Hp H1 K1 K2) as (c & Kc & _ & Pc).
    destruct (IH H2 HF') as [IH1 IH2]. cbn [flat_map]. rewrite Kc.
    cbn [flat_map app length]. split.
    + now apply Permutation_app.
    + now rewrite IH2.
Qed.

Lemma FOP_NoDup_flat_map {A B : Type} (f : A -> list B) (l : list A) :
  Forall (fun a => NoDup (f a)) l ->
  ForallOrdPairs (fun a b => forall x, In x (f a) -> ~ In x (f b)) l ->
  NoDup (flat_map f l).
Proof.
  induction l as [|a l IH]; intros HF HO; [constructor|].
  inversion HF as [|? ? Ha HF']; subst. inversion HO as [|? ? Hab HO']; subst.
  cbn. apply NoDup_app; [exact Ha | now apply IH |].
  intros x Hx Hx'. apply in_flat_map in Hx'. destruct Hx' as (b & Hb & Hxb).
  rewrite Forall_forall in Hab. exact (Hab b Hb x Hx Hxb).
Qed.

(** The chains of all the walks use every edge of the set exactly once. *)
Lemma raw_walks_partition es raws :
  Forall canonical es -> NoDup es ->
  raw_walks es = Some raws ->
  Permutation (flat_map chain_edges raws) es.
Proof.
  intros Hcan Hn R. unfold raw_walks in R.
  destruct (raw_walks_spec _ _ _ _ Hcan R) as [F FO].
  apply NoDup_Permutation; [|exact Hn|].
  - apply FOP_NoDup_flat_map; [|exact FO].
    eapply Forall_impl; [|exact F]. cbn. tauto.
  - intros e. split.
    + intros H. apply in_flat_map in H. destruct H as (p & Hp & He).
      rewrite Forall_forall in F. now apply (F p Hp).
    + intros H. destruct (raw_walks_cover _ _ _ _ Hcan R e H) as (p & Hp & He).
      apply in_flat_map. eauto.
Qed.

Lemma loops_total_length (loops : list (list IntPoint)) :
  list_sum (map (@length IntPoint) loops) = length (flat_map loop_edges loops).
Proof.
  induction loops as [|c loops IH]; [reflexivity|].
  cbn [map list_sum flat_map]. rewrite length_app, loop_edges_length, <- IH.
  reflexivity.
Qed.

Lemma collect_edges_raw_length svc layer :
  length (collect_edges svc layer) = length (boundary_sides svc layer).
Proof. rewrite collect_edges_raw. apply length_map. Qed.

(** X1. On a layer with at most 100,000 boundary edges the emitted loops
    partition the boundary: reading every loop's edges with the wrap from the
    last vertex to the first gives every edge of the EdgeSet exactly once, so
    the loops have as many vertices in all as there are boundary sides. *)
Theorem loops_partition_boundary (svc : LevelService) (layer : Layer) (es : EdgeSet) :
  Permutation es (collect_edges svc layer) ->
  Z.of_nat (length es) <= vertex_guard ->
  exists loops,
    walk_loops svc layer es = Some loops /\
    Permutation (flat_map loop_edges loops) (collect_edges svc layer) /\
    (forall e, is_boundary_segment svc layer e = true <->
               exists c, In c loops /\ In e (loop_edges c)) /\
    list_sum (map (@length IntPoint) loops) = boundary_side_count svc layer.
Proof.
  intros HP Hlen.
  pose proof (collect_edges_canonical _ _ _ HP) as Hcan.
  pose proof (collect_edges_proper _ _ _ HP) as Hpr.
  pose proof (collect_edges_perm_NoDup _ _ _ HP) as Hn.
  destruct (layer_walks_close svc layer es HP Hlen) as (raws & R & Hcl).
  assert (F : Forall (fun p => incl (chain_edges p) es /\ NoDup (chain_edges p)) raws).
  { destruct (raw_walks_spec _ _ _ _ Hcan R) as [F _].
    eapply Forall_impl; [|exact F]. cbn. tauto. }
  destruct (flat_map_keep_closed svc layer es raws Hpr Hcl F) as [K _].
  assert (PM : Permutation (flat_map loop_edges (flat_map (keep_chain svc layer) raws))
                           (collect_edges svc layer)).
  { rewrite K, (raw_walks_partition es raws Hcan Hn R). exact HP. }
  exists (flat_map (keep_chain svc layer) raws). split; [|split; [|split]].
  - rewrite walk_loops_raw, R. reflexivity.
  - exact PM.
  - intros e. rewrite <- collect_edges_In. split.
    + intros H. apply (Permutation_in _ (Permutation_sym PM)) in H.
      apply in_flat_map in H. exact H.
    + intros H. apply (Permutation_in _ PM). apply in_flat_map. exact H.
  - unfold boundary_side_count. rewrite <- collect_edges_raw_length.
    rewrite <- (Permutation_length PM). apply loops_total_length.
Qed.

(** ** Loops have an even number of vertices *)

Lemma last_default {A : Type} (l : list A) (x d d' : A) :
  last (x :: l) d = last (x :: l) d'.
Proof.
  revert x. induction l as [|y l IH]; intros x; [reflexivity|].
  change (last (y :: l) d = last (y :: l) d'). apply IH.
Qed.

(** Along unit steps the coordinate sum changes by one at every step. *)
Lemma unit_steps_sum poly v :
  unit_steps (v :: poly) ->
  exists k, px (last (v :: poly) v) + py (last (v :: poly) v)
            - (px v + py v) + Z.of_nat (length poly) = 2 * k.
Proof.
  revert v. induction poly as [|y poly IH]; intros v H.
  - exists 0. cbn. lia.
  - destruct H as [Hu H]. destruct (IH y H) as (k & Hk).
    change (last (v :: y :: poly) v) with (last (y :: poly) v).
    rewrite (last_default poly y v y).
    cbn [length]. rewrite Nat2Z.inj_succ.
    unfold unit_step in Hu.
    destruct Hu as [[H1 H2] | [H1 H2]].
    + destruct (Z.abs_spec (px y - px v)) as [[_ E] | [_ E]].
      * exists (k + 1). lia.
      * exists k. lia.
    + destruct (Z.abs_spec (py y - py v)) as [[_ E] | [_ E]].
      * exists (k + 1). lia.
      * exists k. lia.
Qed.

Lemma closed_unit_walk_even p :
  closed_walk p -> unit_steps p -> Nat.even (pred (length p)) = true.
Proof.
  destruct p as [|v poly]; [intros []|]. intros [Hl _] Hu.
  destruct (unit_steps_sum poly v Hu) as (k & Hk). rewrite Hl in Hk.
  cbn [length pred]. apply Nat.even_spec. exists (Z.to_nat k). lia.
Qed.

Lemma raw_walks_unit_steps svc layer es raws :
  Permutation es (collect_edges svc layer) ->
  raw_walks es = Some raws -> Forall unit_steps raws.
Proof.
  intros HP R.
  destruct (raw_walks_spec _ _ _ _ (collect_edges_canonical _ _ _ HP) R) as [F _].
  eapply Forall_impl; [|exact F]. cbn. intros p (K & _).
  apply (chain_edges_unit_steps (fun e => In e es)).
  - intros a b. apply (collect_edges_unit svc layer es a b HP).
  - apply Forall_forall. exact K.
Qed.

(** X2. On a layer with at most 100,000 boundary edges every chain definition
    handed to the physics engine is a loop with an even number of points, at
    least four, and one chain is made for every walk. *)
Theorem layer_chains_even_count (svc : LevelService) (layer : Layer)
    (physics : PhysicsService) (default_material : b2SurfaceMaterial)
    (es : EdgeSet) :
  Permutation es (collect_edges svc layer) ->
  Z.of_nat (length es) <= vertex_guard ->
  exists raws chains,
    raw_walks es = Some raws /\
    layer_chains svc layer physics default_material es = Some chains /\
    length chains = length raws /\
    Forall (fun cd => 4 <= count cd /\ Z.even (count cd) = true /\
                      count cd = Z.of_nat (length (points cd)) /\
                      isLoop cd = true) chains.
Proof.
  intros HP Hlen.
  pose proof (collect_edges_canonical _ _ _ HP) as Hcan.
  pose proof (collect_edges_proper _ _ _ HP) as Hpr.
  destruct (layer_walks_close svc layer es HP Hlen) as (raws & R & Hcl).
  pose proof (raw_walks_unit_steps svc layer es raws HP R) as Hu.
  assert (F : Forall (fun p => incl (chain_edges p) es /\ NoDup (chain_edges p)) raws).
  { destruct (raw_walks_spec _ _ _ _ Hcan R) as [F _].
    eapply Forall_impl; [|exact F]. cbn. tauto. }
  exists raws, (map (chain_def svc layer physics default_material)
                    (flat_map (keep_chain svc layer) raws)).
  split; [exact R|]. split; [|split].
  - unfold layer_chains. rewrite walk_loops_raw, R. reflexivity.
  - rewrite length_map.
    now destruct (flat_map_keep_closed svc layer es raws Hpr Hcl F).
  - apply Forall_forall. intros cd Hcd. apply in_map_iff in Hcd.
    destruct Hcd as (c & <- & Hc). apply in_flat_map in Hc.
    destruct Hc as (p & Hp & Hc).
    rewrite Forall_forall in Hcl, Hu, F. destruct (F p Hp) as [K1 K2].
    destruct (keep_chain_closed svc layer es p Hpr (Hcl p Hp) K1 K2)
      as (c' & Kc & Lc & _).
    rewrite Kc in Hc. destruct Hc as [<- | []].
    pose proof (closed_unit_walk_even p (Hcl p Hp) (Hu p Hp)) as Ev.
    rewrite <- Lc in Ev. cbn [pred] in Ev.
    pose proof (closed_walk_three es p Hpr (Hcl p Hp) K1 K2) as H3.
    assert (L3 : (3 <= length c')%nat).
    { assert (In c' (keep_chain svc layer p)) by (rewrite Kc; now left).
      apply keep_chain_In in H. destruct H as [-> H].
      now rewrite resolve_winding_length. }
    unfold chain_def; cbn [count points isLoop]. unfold loop_verts.
    rewrite length_map.
    apply Nat.even_spec in Ev. destruct Ev as (m & Em).
    repeat split.
    + lia.
    + rewrite Em, Nat2Z.inj_mul. rewrite Z.even_mul. reflexivity.
Qed.

(** ** The degree of a grid corner *)

(** The four unit segments at the corner [(x, y)], from the four cells that
    meet there. *)
Lemma corner_segments svc layer x y :
  is_boundary_segment svc layer (mkEdge (mkPoint x (y - 1)) (mkPoint x y)) =
    xorb (cell_solid svc layer (x - 1) (y - 1)) (cell_solid svc layer x (y - 1)) /\
  is_boundary_segment svc layer (mkEdge (mkPoint x y) (mkPoint x (y + 1))) =
    xorb (cell_solid svc layer (x - 1) y) (cell_solid svc layer x y) /\
  is_boundary_segment svc layer (mkEdge (mkPoint (x - 1) y) (mkPoint x y)) =
    xorb (cell_solid svc layer (x - 1) (y - 1)) (cell_solid svc layer (x - 1) y) /\
  is_boundary_segment svc layer (mkEdge (mkPoint x y) (mkPoint (x + 1) y)) =
    xorb (cell_solid svc layer x (y - 1)) (cell_solid svc layer x y).
Proof.
  unfold is_boundary_segment, edge_cells. cbn [ea eb px py fst snd].
  replace (y - 1 + 1) with y by lia. replace (x - 1 + 1) with x by lia.
  rewrite !Z.eqb_refl.
  replace (x =? x + 1) with false by (symmetry; apply Z.eqb_neq; lia).
  replace (y =? y - 1) with false by (symmetry; apply Z.eqb_neq; lia).
  replace (y + 1 =? y) with false by (symmetry; apply Z.eqb_neq; lia).
  cbn [andb]. repeat split; reflexivity.
Qed.

Lemma degree_corner svc layer es v :
  Permutation es (collect_edges svc layer) ->
  degree es v =
  length (filter (is_boundary_segment svc layer) (corner_edges v)).
Proof.
  intros HP. unfold degree.
  apply Permutation_length. apply NoDup_Permutation.
  - apply NoDup_filter. eapply collect_edges_perm_NoDup; eauto.
  - apply NoDup_filter, corner_edges_NoDup.
  - intros e. rewrite !filter_In. split.
    + intros [He Hi].
      assert (Hb : is_boundary_segment svc layer e = true).
      { apply collect_edges_In. eapply Permutation_in; eauto. }
      split; [|exact Hb]. eapply boundary_incident_corner; eauto.
    + intros [He Hb]. split; [|now apply corner_edges_incident].
      eapply Permutation_in; [apply Permutation_sym, HP|].
      now apply collect_edges_In.
Qed.

(** X3. In the collected EdgeSet a grid corner has 0, 2 or 4 edges.  It has 4
    exactly at a pinch point: of the four cells around it the two on one
    diagonal are solid and the two on the other are not.  It has none exactly
    when the four cells agree. *)
Theorem corner_degree_cases (svc : LevelService) (layer : Layer) (es : EdgeSet)
    (x y : Z) :
  Permutation es (collect_edges svc layer) ->
  let nw := cell_solid svc layer (x - 1) (y - 1) in
  let ne := cell_solid svc layer x (y - 1) in
  let sw := cell_solid svc layer (x - 1) y in
  let se := cell_solid svc layer x y in
  let d := degree es (mkPoint x y) in
  (d = 0 \/ d = 2 \/ d = 4)%nat /\
  (d = 4%nat <-> nw = se /\ ne = sw /\ nw <> ne) /\
  (d = 0%nat <-> nw = ne /\ ne = sw /\ sw = se).
Proof.
  intros HP nw ne sw se d. unfold d.
  rewrite (degree_corner svc layer es _ HP).
  unfold corner_edges. cbn [px py filter].
  destruct (corner_segments svc layer x y) as (U & D & L & R).
  rewrite U, D, L, R. fold nw ne sw se.
  destruct nw, ne, sw, se; cbn; repeat split; try tauto; try lia;
    try congruence; intuition (try discriminate; try lia; try congruence).
Qed.

(** ** The adjacency index *)

(** The endpoint of [e] that is not [v]. *)
Lemma adj_push_back_other adj k w v :
  v <> k -> adj_push_back adj k w v = adj v.
Proof.
  intros H. unfold adj_push_back. destruct (point_eqb_spec v k); congruence.
Qed.

Lemma adj_push_back_same adj k w :
  adj_push_back adj k w k = adj k ++ [w].
Proof. unfold adj_push_back. now rewrite point_eqb_refl. Qed.

Lemma build_adj_list es v :
  (forall e, In e es -> ea e <> eb e) ->
  build_adj es v =
  map (fun e => if point_eqb (ea e) v then eb e else ea e)
      (filter (incident v) es).
Proof.
  intros Hne. unfold build_adj.
  assert (G : forall l adj,
             (forall e, In e l -> ea e <> eb e) ->
             fold_left (fun adj e => adj_push_back (adj_push_back adj (ea e) (eb e))
                                                   (eb e) (ea e)) l adj v =
             adj v ++ map (fun e => if point_eqb (ea e) v then eb e else ea e)
                          (filter (incident v) l)).
  { induction l as [|x l IH]; intros adj Hl; cbn [fold_left filter map].
    - now rewrite app_nil_r.
    - rewrite IH by (intros e He; apply Hl; now right).
      assert (Hx : ea x <> eb x) by (apply Hl; now left).
      unfold incident.
      destruct (point_eqb_spec (ea x) v) as [E1 | N1];
        destruct (point_eqb_spec (eb x) v) as [E2 | N2]; cbn [orb map].
      + congruence.
      + rewrite adj_push_back_other by congruence. subst v.
        rewrite adj_push_back_same, point_eqb_refl, <- app_assoc. reflexivity.
      + rewrite <- E2, adj_push_back_same.
        rewrite adj_push_back_other by congruence.
        rewrite E2. destruct (point_eqb_spec (ea x) v); [contradiction|].
        rewrite <- app_assoc. reflexivity.
      + rewrite !adj_push_back_other by congruence. reflexivity. }
  rewrite G by exact Hne. reflexivity.
Qed.

(** X4. The adjacency index of a collected EdgeSet lists [u] under [v]
    exactly when the set holds the edge between [v] and [u]; it lists no
    neighbour twice, it lists as many neighbours as [v] has edges, and it is
    symmetric. *)
Theorem build_adj_index (svc : LevelService) (layer : Layer) (es : EdgeSet) :
  Permutation es (collect_edges svc layer) ->
  forall v,
    (forall u, In u (build_adj es v) <-> In (make_edge v u) es) /\
    (forall u, In u (build_adj es v) <-> In v (build_adj es u)) /\
    NoDup (build_adj es v) /\
    length (build_adj es v) = degree es v /\
    (forall u, In u (build_adj es v) -> unit_step v u).
Proof.
  intros HP v.
  pose proof (collect_edges_proper _ _ _ HP) as Hpr.
  pose proof (collect_edges_perm_NoDup _ _ _ HP) as Hn.
  assert (M : forall a b, In b (build_adj es a) <-> In (make_edge a b) es).
  { intros a b. rewrite build_adj_In. split.
    - intros (e & He & [[K1 K2] | [K1 K2]]); subst a b.
      + now rewrite (proj1 (Hpr e He)).
      + rewrite make_edge_sym. now rewrite (proj1 (Hpr e He)).
    - intros H. exists (make_edge a b). split; [exact H|].
      destruct (make_edge_cases a b) as [-> | ->]; cbn; auto. }
  split; [apply M|]. split; [|split; [|split]].
  - intros u. rewrite !M, (make_edge_sym u v). reflexivity.
  - rewrite build_adj_list by (intros e He; apply (Hpr e He)).
    apply Injective_map_NoDup_in; [|apply NoDup_filter, Hn].
    intros e1 e2 H1 H2 E. apply filter_In in H1, H2.
    destruct H1 as [H1 I1], H2 as [H2 I2].
    destruct (incident_other_end e1 v (proj1 (Hpr e1 H1)) I1) as (u1 & -> & K1).
    destruct (incident_other_end e2 v (proj1 (Hpr e2 H2)) I2) as (u2 & -> & K2).
    assert (N1 : v <> u1) by (eapply proper_edges_ends; eauto).
    assert (N2 : v <> u2) by (eapply proper_edges_ends; eauto).
    f_equal.
    destruct K1 as [[A1 B1] | [A1 B1]], K2 as [[A2 B2] | [A2 B2]];
      rewrite ?A1, ?A2, ?B1, ?B2 in E;
      repeat match type of E with
             | context [point_eqb ?a ?b] =>
                 destruct (point_eqb_spec a b); try congruence
             end.
  - rewrite build_adj_list by (intros e He; apply (Hpr e He)).
    now rewrite length_map.
  - intros u Hu. apply M in Hu. exact (collect_edges_unit svc layer es v u HP Hu).
Qed.

(** ** Layers with and without chains *)

(** Above a solid cell there is a solid cell with a non-solid (or
    out-of-range) cell right above it. *)
Lemma column_top svc layer x n :
  cell_solid svc layer x (Z.of_nat n) = true ->
  exists k, cell_solid svc layer x k = true /\
            cell_solid svc layer x (k - 1) = false.
Proof.
  induction n as [|n IH]; intros H.
  - exists 0. split; [exact H|]. apply is_solid_outside. lia.
  - destruct (cell_solid svc layer x (Z.of_nat n)) eqn:E.
    + now apply IH.
    + exists (Z.of_nat (S n)). split; [exact H|].
      replace (Z.of_nat (S n) - 1) with (Z.of_nat n) by lia. exact E.
Qed.

Lemma collect_edges_nil svc layer :
  collect_edges svc layer = [] <-> forall x y, cell_solid svc layer x y = false.
Proof.
  split.
  - intros E x y. destruct (cell_solid svc layer x y) eqn:S; [|reflexivity].
    exfalso. destruct (cell_solid_in_range _ _ _ _ S) as [_ Hy].
    rewrite <- (Z2Nat.id y) in S by lia.
    destruct (column_top svc layer x _ S) as (k & K1 & K2).
    destruct (corner_segments svc layer x k) as (_ & _ & _ & R).
    rewrite K1, K2 in R. cbn in R. apply collect_edges_In in R.
    rewrite E in R. destruct R.
  - intros H. destruct (collect_edges svc layer) as [|e l] eqn:E; [reflexivity|].
    exfalso. assert (K : In e (collect_edges svc layer)) by (rewrite E; now left).
    apply collect_edges_In in K. unfold is_boundary_segment in K.
    destruct (edge_cells e) as [[c1 c2]|]; [|discriminate].
    rewrite !H in K. discriminate.
Qed.

Lemma raw_walks_nil es raws :
  raw_walks es = Some raws -> (raws = [] <-> es = []).
Proof.
  unfold raw_walks. destruct es as [|e es]; cbn [length raw_walks_from].
  - intros H. inversion H. tauto.
  - destruct (walk _ _ _ _ _ _ _) as [[edges' poly']|]; [|discriminate].
    destruct (raw_walks_from _ _ edges'); [|discriminate].
    intros H. inversion H. split; discriminate.
Qed.

(** X5. A layer with at most 100,000 boundary edges gets no chain exactly
    when none of its cells is solid. *)
Theorem chains_iff_solid_cell (svc : LevelService) (layer : Layer)
    (physics : PhysicsService) (default_material : b2SurfaceMaterial)
    (es : EdgeSet) :
  Permutation es (collect_edges svc layer) ->
  Z.of_nat (length es) <= vertex_guard ->
  exists chains,
    layer_chains svc layer physics default_material es = Some chains /\
    (chains = [] <-> forall x y, cell_solid svc layer x y = false).
Proof.
  intros HP Hlen.
  pose proof (collect_edges_canonical _ _ _ HP) as Hcan.
  pose proof (collect_edges_proper _ _ _ HP) as Hpr.
  destruct (layer_walks_close svc layer es HP Hlen) as (raws & R & Hcl).
  assert (F : Forall (fun p => incl (chain_edges p) es /\ NoDup (chain_edges p)) raws).
  { destruct (raw_walks_spec _ _ _ _ Hcan R) as [F _].
    eapply Forall_impl; [|exact F]. cbn. tauto. }
  destruct (flat_map_keep_closed svc layer es raws Hpr Hcl F) as [_ L].
  exists (map (chain_def svc layer physics default_material)
              (flat_map (keep_chain svc layer) raws)).
  split.
  - unfold layer_chains. rewrite walk_loops_raw, R. reflexivity.
  - rewrite <- collect_edges_nil.
    assert (E1 : es = [] <-> collect_edges svc layer = []).
    { split; intros E.
      - rewrite E in HP. now apply Permutation_nil in HP.
      - rewrite E in HP. now apply Permutation_sym, Permutation_nil in HP. }
    rewrite <- E1, <- (raw_walks_nil es raws R).
    split; intros E.
    + apply (f_equal (@length _)) in E. rewrite length_map, L in E.
      now destruct raws.
    + subst raws. reflexivity.
Qed.

(** ** A solid rectangle, at the level of the chain definition *)

Lemma rect_corner_perimeter w h p :
  1 <= w -> 1 <= h ->
  (exists i, 0 <= i < 2 * w + 2 * h /\ rect_corner w h i = p) <->
  (0 <= px p <= w /\ 0 <= py p <= h /\
   (px p = 0 \/ px p = w \/ py p = 0 \/ py p = h)).
Proof.
  intros Hw Hh. split.
  - intros (i & Hi & <-). unfold rect_corner. strip_bools; cbn [px py]; lia.
  - intros (Hx & Hy & Hs). destruct p as [x y]. cbn [px py] in *.
    destruct (Z.eq_dec y 0) as [-> | Ny].
    + exists x. split; [lia|]. unfold rect_corner.
      strip_bools; try lia. reflexivity.
    + destruct (Z.eq_dec x w) as [-> | Nx].
      * exists (w + y). split; [lia|]. unfold rect_corner.
        strip_bools; try lia. apply (f_equal2 mkPoint); lia.
      * destruct (Z.eq_dec y h) as [-> | Nh].
        -- exists (2 * w + h - x). split; [lia|]. unfold rect_corner.
           strip_bools; try lia; apply (f_equal2 mkPoint); lia.
        -- exists (2 * w + 2 * h - y). split; [lia|]. unfold rect_corner.
           strip_bools; try lia; apply (f_equal2 mkPoint); lia.
Qed.

(** X6. A layer whose solid cells are exactly a rectangle of [w] by [h] cells
    at the origin, with a perimeter below the vertex guard, gets exactly one
    chain, for every iteration order of the edge set: a loop of
    [2 * (w + h)] points, one for each grid corner on the perimeter of the
    rectangle and no other. *)
Theorem solid_rectangle_one_chain (svc : LevelService) (layer : Layer)
    (physics : PhysicsService) (default_material : b2SurfaceMaterial)
    (w h : Z) (es : EdgeSet) :
  1 <= w -> 1 <= h -> 2 * w + 2 * h + 1 <= vertex_guard ->
  (forall x y, cell_solid svc layer x y =
               (0 <=? x) && (x <? w) && (0 <=? y) && (y <? h)) ->
  Permutation es (collect_edges svc layer) ->
  exists loop,
    layer_chains svc layer physics default_material es =
      Some [chain_def svc layer physics default_material loop] /\
    count (chain_def svc layer physics default_material loop) = 2 * w + 2 * h /\
    NoDup loop /\
    (forall p, In p loop <->
               0 <= px p <= w /\ 0 <= py p <= h /\
               (px p = 0 \/ px p = w \/ py p = 0 \/ py p = h)).
Proof.
  intros Hw Hh Hg Hs HP.
  destruct (solid_rectangle_one_loop svc layer w h es Hw Hh Hg Hs HP)
    as (loop & f & W & Hl & Hf & Hlen & Hall).
  exists loop.
  assert (Hin : forall p, In p loop <->
                          exists i, 0 <= i < 2 * w + 2 * h /\ rect_corner w h i = p).
  { intros p. split.
    - intros Hp.
      assert (K : In p (corner_path f (Z.to_nat (2 * w + 2 * h - 1)))).
      { destruct Hl as [-> | ->]; [exact Hp | now apply in_rev]. }
      unfold corner_path in K. apply in_map_iff in K. destruct K as (t & <- & _).
      assert (C : exists k, f t = rect_cycle w h k).
      { destruct Hf as [[s Hf] | [s Hf]]; rewrite Hf; eauto. }
      destruct C as (k & ->). unfold rect_cycle.
      exists (k mod (2 * w + 2 * h)). split; [|reflexivity].
      apply Z.mod_pos_bound. lia.
    - intros (i & Hi & <-).
      replace (rect_corner w h i) with (rect_cycle w h i); [apply Hall|].
      unfold rect_cycle. now rewrite Z.mod_small. }
  split; [|split; [|split]].
  - unfold layer_chains. rewrite W. reflexivity.
  - unfold chain_def; cbn [count]. unfold loop_verts.
    rewrite length_map, Hlen. lia.
  - apply NoDup_incl_NoDup
      with (l := map (rect_corner w h) (int_range (2 * w + 2 * h))).
    + apply Injective_map_NoDup_in; [|apply int_range_NoDup].
      intros i j Hi Hj. apply int_range_In in Hi, Hj.
      now apply rect_corner_inj.
    + rewrite length_map. unfold int_range.
      rewrite length_map, length_seq, Hlen. lia.
    + intros p Hp. apply in_map_iff in Hp. destruct Hp as (i & <- & Hi).
      apply int_range_In in Hi. apply Hin. eauto.
  - intros p. rewrite Hin. now apply rect_corner_perimeter.
Qed.

(** ** The winding of the loop around a solid rectangle *)

(** Walking the perimeter forwards the probe falls into the rectangle,
    walking it backwards it falls outside. *)
Lemma rect_probe w h j :
  1 <= w -> 1 <= h -> 0 <= j < 2 * w + 2 * h ->
  (let c := probe_cell (rect_corner w h j) (rect_corner w h (j + 1)) in
   (0 <=? fst c) && (fst c <? w) && (0 <=? snd c) && (snd c <? h) = true) /\
  (let c := probe_cell (rect_corner w h (j + 1)) (rect_corner w h j) in
   (0 <=? fst c) && (fst c <? w) && (0 <=? snd c) && (snd c <? h) = false).
Proof.
  intros Hw Hh Hj. rewrite !probe_cell_div. cbv zeta. cbn [fst snd].
  unfold rect_corner.
  destruct (Z.leb_spec j w), (Z.leb_spec (j + 1) w),
           (Z.leb_spec j (w + h)), (Z.leb_spec (j + 1) (w + h)),
           (Z.leb_spec j (2 * w + h)), (Z.leb_spec (j + 1) (2 * w + h));
    try lia; cbn [px py]; split; strip_bools; cbn [andb];
    try reflexivity; exfalso; Z.div_mod_to_equations; lia.
Qed.

Lemma rect_cycle_next w h s :
  1 <= w -> 1 <= h ->
  rect_cycle w h (s + 1) = rect_corner w h (s mod (2 * w + 2 * h) + 1).
Proof.
  intros Hw Hh. unfold rect_cycle. set (N := 2 * w + 2 * h).
  pose proof (Z.mod_pos_bound s N ltac:(unfold N; lia)) as Hb.
  destruct (Z.eq_dec (s mod N + 1) N) as [E | E].
  - rewrite E. unfold N at 2. rewrite rect_corner_close by assumption.
    f_equal. rewrite <- Z.add_mod_idemp_l by lia.
    rewrite E, Z.mod_same by lia. reflexivity.
  - f_equal. rewrite <- Z.add_mod_idemp_l by lia. apply Z.mod_small. lia.
Qed.

Lemma rev_seq n : rev (seq 0 (S n)) = map (fun t => n - t)%nat (seq 0 (S n)).
Proof.
  induction n as [|n IH]; [reflexivity|].
  rewrite (seq_S (S n) 0) at 1. rewrite rev_app_distr. cbn [rev app Nat.add].
  rewrite IH. change (seq 0 (S (S n))) with (0%nat :: seq 1 (S n)).
  cbn [map]. f_equal. rewrite <- seq_shift, map_map. reflexivity.
Qed.

Lemma rev_corner_path f n :
  rev (corner_path f n) = corner_path (fun t => f (n - t)%nat) n.
Proof.
  unfold corner_path. rewrite <- map_rev, rev_seq, map_map. reflexivity.
Qed.

(** X7. Around a solid rectangle of [w] by [h] cells whose perimeter, with
    the closing vertex, stays within the vertex guard
    ([2 * w + 2 * h + 1 <= 100,000]), on a layer where the arithmetic of the
    winding test is exact ([exact_probes]), the emitted loop always runs with
    the solid on its right: whichever edge the walker picked first and
    whichever way it went, the loop after the winding step lists the
    perimeter corners forwards (along the top to the right, down the right
    side, back along the bottom, up the left side) from some corner. *)
Theorem solid_rectangle_winding (svc : LevelService) (layer : Layer)
    (w h t j : Z) (es : EdgeSet) :
  1 <= w -> 1 <= h -> 2 * w + 2 * h + 1 <= vertex_guard ->
  exact_probes svc layer t j ->
  (forall x y, cell_solid svc layer x y =
               (0 <=? x) && (x <? w) && (0 <=? y) && (y <? h)) ->
  Permutation es (collect_edges svc layer) ->
  exists s,
    walk_loops svc layer es =
    Some [map (fun t => rect_cycle w h (s + Z.of_nat t))
              (seq 0 (Z.to_nat (2 * w + 2 * h)))].
Proof.
  intros Hw Hh Hg HL Hs HP.
  set (N := 2 * w + 2 * h) in *.
  pose proof (rect_cycle_cong svc layer w h Hw Hh Hs es HP) as Hc.
  pose proof (rect_cycle_edges svc layer w h Hw Hh Hs es HP) as He.
  fold N in Hc.
  destruct (cycle_raw_walks N (rect_cycle w h) es ltac:(lia) Hc He
              (collect_edges_canonical _ _ _ HP) Hg) as (f & R & Hdir).
  assert (HN : Z.to_nat N = S (Z.to_nat (N - 1))) by lia.
  assert (Hclose : f (S (Z.to_nat (N - 1))) = f 0%nat).
  { destruct Hdir as [(s & Hf) | (s & Hf)]; rewrite !Hf; apply Hc;
      [exists 1 | exists (-1)]; lia. }
  assert (W : walk_loops svc layer es =
              Some [resolve_winding svc layer (corner_path f (Z.to_nat (N - 1)))]).
  { rewrite walk_loops_raw, R. cbn [option_map flat_map].
    rewrite HN, keep_chain_cycle by (exact Hclose || lia). reflexivity. }
  assert (Shape : exists rest,
             corner_path f (Z.to_nat (N - 1)) = f 0%nat :: f 1%nat :: rest).
  { assert (E : Z.to_nat (N - 1) = S (Z.to_nat (N - 2))) by lia.
    rewrite E. unfold corner_path. cbn [seq map]. eauto. }
  destruct Shape as (rest & Shape).
  assert (Edge01 : In (make_edge (f 0%nat) (f 1%nat)) es).
  { destruct Hdir as [(s & Hf) | (s & Hf)]; rewrite !Hf; apply He.
    - exists s. do 2 f_equal; lia.
    - exists (s - 1). rewrite make_edge_sym. do 2 f_equal; lia. }
  pose proof (collect_edges_unit svc layer es _ _ HP Edge01) as Hu.
  destruct (collect_edges_in_grid svc layer es _ _ HP Edge01) as [G0 G1].
  pose proof (loop_has_solid_on_right_unit svc layer t j _ _ rest HL Hu G0 G1)
    as Probe.
  rewrite <- Shape in Probe. rewrite Hs in Probe.
  destruct Hdir as [(s & Hf) | (s & Hf)].
  - exists s. rewrite W. do 2 f_equal.
    unfold resolve_winding. rewrite Probe.
    assert (In_ : (let c := probe_cell (f 0%nat) (f 1%nat) in
                   (0 <=? fst c) && (fst c <? w) && (0 <=? snd c) && (snd c <? h))
                  = true).
    { assert (E0 : f 0%nat = rect_corner w h (s mod (2 * w + 2 * h))).
      { rewrite Hf. unfold rect_cycle. f_equal. f_equal. cbn. lia. }
      assert (E1 : f 1%nat = rect_corner w h (s mod (2 * w + 2 * h) + 1)).
      { rewrite Hf, <- rect_cycle_next by assumption. reflexivity. }
      rewrite E0, E1.
      exact (proj1 (rect_probe w h (s mod (2 * w + 2 * h)) Hw Hh
                      (Z.mod_pos_bound s (2 * w + 2 * h) ltac:(lia)))). }
    cbv zeta in In_. rewrite In_. cbn [negb].
    unfold corner_path. rewrite <- HN. apply map_ext. exact Hf.
  - exists (s - Z.of_nat (Z.to_nat (N - 1))). rewrite W. do 2 f_equal.
    unfold resolve_winding. rewrite Probe.
    assert (Out : (let c := probe_cell (f 0%nat) (f 1%nat) in
                   (0 <=? fst c) && (fst c <? w) && (0 <=? snd c) && (snd c <? h))
                  = false).
    { assert (E0 : f 0%nat = rect_corner w h ((s - 1) mod (2 * w + 2 * h) + 1)).
      { rewrite Hf, <- rect_cycle_next by assumption. f_equal. cbn. lia. }
      assert (E1 : f 1%nat = rect_corner w h ((s - 1) mod (2 * w + 2 * h))).
      { rewrite Hf. reflexivity. }
      rewrite E0, E1.
      exact (proj2 (rect_probe w h ((s - 1) mod (2 * w + 2 * h)) Hw Hh
                      (Z.mod_pos_bound (s - 1) (2 * w + 2 * h) ltac:(lia)))). }
    cbv zeta in Out. rewrite Out. cbn [negb].
    rewrite rev_corner_path. unfold corner_path. rewrite <- HN.
    apply map_ext_in. intros i Hi. apply in_seq in Hi. rewrite Hf.
    f_equal. lia.
Qed.

(** ** [Animation]: the frame index *)

Lemma to_size_t_small i : 0 <= i < 2 ^ 64 -> to_size_t i = i.
Proof. intros H. unfold to_size_t. now apply Z.mod_small. Qed.

Lemma to_size_t_neg i : - 2 ^ 64 <= i < 0 -> to_size_t i = i + 2 ^ 64.
Proof.
  intros H. unfold to_size_t.
  rewrite <- (Z.mod_add i 1 (2 ^ 64)) by lia.
  apply Z.mod_small. lia.
Qed.

(** The comparison [current_frame > frames.size() - 1] for an [int] index:
    it holds for an index past the end and for a negative one. *)
Lemma past_the_end size frame :
  0 < size < 2 ^ 31 -> - 2 ^ 31 <= frame < 2 ^ 31 ->
  (to_size_t (size - 1) <? to_size_t frame) =
  negb ((0 <=? frame) && (frame <? size)).
Proof.
  intros Hs Hf. rewrite (to_size_t_small (size - 1)) by lia.
  destruct (Z.leb_spec 0 frame) as [H0 | H0].
  - rewrite to_size_t_small by lia. cbn [andb].
    destruct (Z.ltb_spec (size - 1) frame), (Z.ltb_spec frame size);
      try lia; reflexivity.
  - rewrite to_size_t_neg by lia. cbn [andb negb].
    apply Z.ltb_lt. lia.
Qed.

Lemma Animation_update_frames a dt :
  frames (Animation_update a dt) = frames a.
Proof.
  unfold Animation_update. destruct (frames a) eqn:E; [exact E|].
  destruct (negb (playing a) || negb (is_active a)); [exact E|].
  reflexivity.
Qed.

Lemma frames_size a : frames a <> [] -> 0 < Z.of_nat (length (frames a)).
Proof. destruct (frames a); [congruence | cbn; lia]. Qed.

(** The frame index after an update that went through. *)
Lemma Animation_update_frame a dt :
  frames a <> [] -> playing a = true -> is_active a = true ->
  Z.of_nat (length (frames a)) < 2 ^ 31 ->
  - 2 ^ 31 <= current_frame a < 2 ^ 31 - 1 ->
  current_frame (Animation_update a dt) =
  let frame := if fleb (fsub (frame_timer a) dt) f_zero
               then current_frame a + 1 else current_frame a in
  if (0 <=? frame) && (frame <? Z.of_nat (length (frames a))) then frame
  else if looping a then 0 else Z.of_nat (length (frames a)) - 1.
Proof.
  intros Hne Hp Ha Hs Hf. pose proof (frames_size a Hne) as H0.
  unfold Animation_update. destruct (frames a) as [|t ts] eqn:E; [congruence|].
  rewrite Hp, Ha. cbn [negb orb current_frame].
  set (size := Z.of_nat (length (t :: ts))) in *.
  cbv zeta.
  set (frame := if fleb (fsub (frame_timer a) dt) f_zero
                then current_frame a + 1 else current_frame a).
  assert (Hfr : - 2 ^ 31 <= frame < 2 ^ 31).
  { unfold frame. destruct (fleb _ _); lia. }
  rewrite (past_the_end size frame) by lia.
  destruct ((0 <=? frame) && (frame <? size)); reflexivity.
Qed.

(** X8. An update of a playing, active animation with at least one frame
    leaves the frame index inside [frames], whatever the index was before
    (negative or past the end), so the [frames[current_frame]] of a
    following [draw] is in range. *)
Theorem Animation_update_in_range (a : Animation) (delta_time : float32) :
  frames a <> [] -> playing a = true -> is_active a = true ->
  Z.of_nat (length (frames a)) < 2 ^ 31 ->
  - 2 ^ 31 <= current_frame a < 2 ^ 31 - 1 ->
  0 <= current_frame (Animation_update a delta_time)
    < Z.of_nat (length (frames (Animation_update a delta_time))) /\
  exists sprite,
    Animation_draw (Animation_update a delta_time) = Some [sprite].
Proof.
  intros Hne Hp Ha Hs Hf. pose proof (frames_size a Hne) as H0.
  assert (R : 0 <= current_frame (Animation_update a delta_time)
              < Z.of_nat (length (frames a))).
  { rewrite Animation_update_frame by assumption. cbv zeta.
    destruct (Z.leb_spec 0 (if fleb (fsub (frame_timer a) delta_time) f_zero
                            then current_frame a + 1 else current_frame a)),
             (Z.ltb_spec (if fleb (fsub (frame_timer a) delta_time) f_zero
                          then current_frame a + 1 else current_frame a)
                         (Z.of_nat (length (frames a)))); cbn [andb];
      try lia; destruct (looping a); lia. }
  rewrite Animation_update_frames. split; [exact R|].
  unfold Animation_draw, Animation_sprite.
  assert (Act : is_active (Animation_update a delta_time) = true).
  { unfold Animation_update. destruct (frames a); [exact Ha|].
    destruct (negb (playing a) || negb (is_active a)); [exact Ha|]. exact Ha. }
  rewrite Act. cbn [negb]. rewrite Animation_update_frames.
  rewrite to_size_t_small by lia.
  destruct (nth_error (frames a)
              (Z.to_nat (current_frame (Animation_update a delta_time)))) eqn:N.
  - eauto.
  - apply nth_error_None in N. lia.
Qed.

(** ** [Animation]: one tick per update *)

Lemma Animation_update_flags a dt :
  playing (Animation_update a dt) = playing a /\
  is_active (Animation_update a dt) = is_active a /\
  looping (Animation_update a dt) = looping a /\
  fps (Animation_update a dt) = fps a.
Proof.
  unfold Animation_update. destruct (frames a); [auto|].
  destruct (negb (playing a) || negb (is_active a)); auto.
Qed.

(** *** The order of binary32 numbers and the sign of a difference *)

(** [x <= y] on numbers is the order of their keys. *)
Lemma fleb_key x y :
  fleb x y = true <->
  x <> S754_nan /\ y <> S754_nan /\ key_le (f32_key x) (f32_key y).
Proof.
  unfold fleb, SFleb, key_le.
  destruct x as [sx | sx | | sx mx ex], y as [sy | sy | | sy my ey];
    try destruct sx; try destruct sy; cbn [SFcompare f32_key fst snd]; std_ops;
    try (split; [intros H; try discriminate H; repeat split; try discriminate; lia
                |intros (H1 & H2 & H3); try congruence; try reflexivity; lia]).
  - destruct (Z.compare_spec ex ey) as [E | E | E];
      [change (Pos.compare_cont Eq mx my) with (Pos.compare mx my);
       destruct (Pos.compare_spec mx my) as [M | M | M]| |]; cbn [CompOpp];
      (split; [intros H; try discriminate H; repeat split; try discriminate; lia
              |intros (H1 & H2 & H3); try reflexivity; lia]).
  - destruct (Z.compare_spec ex ey) as [E | E | E];
      [change (Pos.compare_cont Eq mx my) with (Pos.compare mx my);
       destruct (Pos.compare_spec mx my) as [M | M | M]| |]; cbn [CompOpp];
      (split; [intros H; try discriminate H; repeat split; try discriminate; lia
              |intros (H1 & H2 & H3); try reflexivity; lia]).
Qed.

Lemma fleb_trans x y z : fleb x y = true -> fleb y z = true -> fleb x z = true.
Proof.
  rewrite !fleb_key. unfold key_le. intros (X & Y & H1) (_ & Z & H2).
  repeat split; try assumption. lia.
Qed.

(** Of two well-formed mantissas the one with the larger exponent holds the
    larger value. *)
Lemma bounded_lt m1 e1 m2 e2 :
  bounded 24 128 m1 e1 = true -> bounded 24 128 m2 e2 = true -> e1 < e2 ->
  Zpos m1 < Zpos m2 * 2 ^ (e2 - e1).
Proof.
  unfold bounded, canonical_mantissa. intros H1 H2 H.
  apply andb_true_iff in H1, H2. destruct H1 as [H1 _], H2 as [H2 _].
  std_ops. apply Z.eqb_eq in H1, H2. rewrite fexp32 in H1, H2.
  fold (dig m1) in H1. fold (dig m2) in H2.
  pose proof (dig_bounds m1) as [_ U1]. pose proof (dig_bounds m2) as [L2 _].
  assert (D1 : dig m1 <= 24) by lia. assert (D2 : dig m2 = 24) by lia.
  rewrite D2 in L2.
  assert (2 ^ dig m1 <= 2 ^ 24) by (apply Z.pow_le_mono_r; lia).
  assert (2 ^ 1 <= 2 ^ (e2 - e1)) by (apply Z.pow_le_mono_r; lia).
  change (2 ^ (24 - 1)) with 8388608 in L2. change (2 ^ 24) with 16777216 in *.
  change (2 ^ 1) with 2 in *. nia.
Qed.

Lemma shr_1_nonneg mrs : 0 <= shr_m mrs -> 0 <= shr_m (shr_1 mrs).
Proof.
  destruct mrs as [m r s]. cbn [shr_m]. intros H.
  destruct m as [|[p|p|]|p]; cbn; lia.
Qed.

Lemma shr_fexp_nonneg m e l : 0 <= m -> 0 <= shr_m (fst (shr_fexp 24 128 m e l)).
Proof.
  intros H. unfold shr_fexp, shr.
  assert (R : 0 <= shr_m (shr_record_of_loc m l)) by (destruct l as [|[| |]]; exact H).
  destruct (_ - _) as [|n|n]; cbn [fst]; try exact R.
  rewrite iter_pos_iter. apply Pos.iter_invariant; [|exact R].
  intros x Hx. now apply shr_1_nonneg.
Qed.

(** Rounding keeps the sign: the result is a zero, a finite number or an
    infinity of the sign it is given. *)
Lemma binary_round_aux_sign s m e l :
  0 <= m ->
  (binary_round_aux 24 128 s m e l = S754_zero s) \/
  (exists M E, binary_round_aux 24 128 s m e l = S754_finite s M E) \/
  (binary_round_aux 24 128 s m e l = S754_infinity s).
Proof.
  intros H. unfold binary_round_aux.
  pose proof (shr_fexp_nonneg m e l H) as H1.
  destruct (shr_fexp 24 128 m e l) as [mrs' e']. cbn [fst] in H1.
  assert (H2 : 0 <= round_nearest_even (shr_m mrs') (loc_of_shr_record mrs')).
  { unfold round_nearest_even. std_ops.
    destruct (loc_of_shr_record mrs') as [|[| |]]; try lia.
    destruct (Z.even (shr_m mrs')); lia. }
  pose proof (shr_fexp_nonneg _ e' loc_Exact H2) as H3.
  destruct (shr_fexp 24 128 _ e' loc_Exact) as [mrs'' e'']. cbn [fst] in H3.
  destruct (shr_m mrs'') as [|M|M]; [now left| |lia].
  destruct (IntDef.Z.leb e'' (IntDef.Z.sub 128 24)); [right; left; eauto|now right; right].
Qed.

(** A number that is at most zero compares so. *)
Lemma fleb_zero_cases s x :
  x = S754_zero s \/ (exists M E, x = S754_finite true M E) \/ x = S754_infinity true ->
  fleb x f_zero = true.
Proof. intros [-> | [(M & E & ->) | ->]]; reflexivity. Qed.

Lemma binary_normalize_nonpos z e :
  z <= 0 -> fleb (binary_normalize 24 128 z e false) f_zero = true.
Proof.
  intros H. destruct z as [|m|m]; [reflexivity|lia|].
  cbn [binary_normalize]. unfold binary_round.
  destruct (shl_align m e _) as [mz ez].
  destruct (binary_round_aux_sign true (Zpos mz) ez loc_Exact ltac:(lia))
    as [E | [(M & E' & E) | E]]; rewrite E; reflexivity.
Qed.

(** The difference of [x <= y], [y] finite, is at most zero. *)
Lemma fsub_le_zero x y :
  well_formed x -> well_formed y -> is_finite y = true -> fleb x y = true ->
  fleb (fsub x y) f_zero = true.
Proof.
  unfold well_formed. intros Vx Vy Fy H.
  pose proof (proj1 (fleb_key x y) H) as (Nx & Ny & K). unfold key_le in K.
  destruct x as [sx | sx | | sx mx ex], y as [sy | sy | | sy my ey];
    try discriminate Fy; try congruence.
  - destruct sx, sy; reflexivity.
  - destruct sy; cbn [f32_key fst snd] in K; [lia|reflexivity].
  - destruct sx; cbn [f32_key fst snd] in K; [reflexivity|lia].
  - destruct sx, sy; cbn [f32_key fst snd] in K; try reflexivity; lia.
  - destruct sx; cbn [f32_key fst snd] in K; [reflexivity|lia].
  - cbn [valid_binary] in Vx, Vy.
    unfold fsub. cbn [SFsub]. apply binary_normalize_nonpos. std_ops.
    set (ez := Z.min ex ey).
    rewrite !shl_align_val by (unfold ez; lia).
    assert (Px : 0 < 2 ^ (ex - ez)) by (apply Z.pow_pos_nonneg; unfold ez; lia).
    assert (Py : 0 < 2 ^ (ey - ez)) by (apply Z.pow_pos_nonneg; unfold ez; lia).
    destruct sx, sy; cbn [f32_key fst snd cond_Zopp] in K |- *; try lia.
    + (* both negative: [ey <= ex] *)
      destruct (Z.eq_dec ex ey) as [-> | Ne].
      * unfold ez. rewrite Z.min_id, Z.sub_diag, Z.pow_0_r. lia.
      * assert (L : ey < ex) by lia.
        pose proof (bounded_lt my ey mx ex Vy Vx L) as B.
        replace ez with ey in * by (unfold ez; lia).
        rewrite Z.sub_diag, Z.pow_0_r. lia.
    + (* both positive: [ex <= ey] *)
      destruct (Z.eq_dec ex ey) as [-> | Ne].
      * unfold ez. rewrite Z.min_id, Z.sub_diag, Z.pow_0_r. lia.
      * assert (L : ex < ey) by lia.
        pose proof (bounded_lt mx ex my ey Vx Vy L) as B.
        replace ez with ex in * by (unfold ez; lia).
        rewrite Z.sub_diag, Z.pow_0_r. lia.
Qed.

(** *** Rounding returns well-formed numbers *)

Lemma Zdigits2_bounds m : 0 < m -> 2 ^ (Zdigits2 m - 1) <= m < 2 ^ Zdigits2 m.
Proof. destruct m as [|p|p]; try lia. intros _. apply (dig_bounds p). Qed.

Lemma Zdigits2_unique m d : 0 < m -> 2 ^ (d - 1) <= m < 2 ^ d -> Zdigits2 m = d.
Proof. destruct m as [|p|p]; try lia. intros _. apply (dig_unique p). Qed.

Lemma Zdigits2_nonneg m : 0 <= Zdigits2 m.
Proof. destruct m; cbn; lia. Qed.

Lemma Zdigits2_ge m k : 0 < m -> 2 ^ (k - 1) <= m -> k <= Zdigits2 m.
Proof.
  intros Hm H. pose proof (Zdigits2_bounds m Hm) as [_ U].
  pose proof (Zdigits2_nonneg m).
  destruct (Z.leb_spec k (Zdigits2 m)); [assumption|].
  assert (2 ^ Zdigits2 m <= 2 ^ (k - 1)) by (apply Z.pow_le_mono_r; lia). lia.
Qed.

(** The bits left after a shift to the right. *)
Lemma Zdigits2_div m n :
  0 < m -> 0 <= n < Zdigits2 m ->
  0 < m / 2 ^ n /\ Zdigits2 (m / 2 ^ n) = Zdigits2 m - n.
Proof.
  intros Hm Hn. pose proof (Zdigits2_bounds m Hm) as [L U].
  assert (P : 0 < 2 ^ n) by (apply Z.pow_pos_nonneg; lia).
  assert (L' : 2 ^ (Zdigits2 m - n - 1) <= m / 2 ^ n).
  { apply Z.div_le_lower_bound; [exact P|].
    rewrite <- Z.pow_add_r by lia.
    now replace (n + (Zdigits2 m - n - 1)) with (Zdigits2 m - 1) by lia. }
  assert (U' : m / 2 ^ n < 2 ^ (Zdigits2 m - n)).
  { apply Z.div_lt_upper_bound; [exact P|].
    rewrite <- Z.pow_add_r by lia.
    now replace (n + (Zdigits2 m - n)) with (Zdigits2 m) by lia. }
  assert (0 < 2 ^ (Zdigits2 m - n - 1)) by (apply Z.pow_pos_nonneg; lia).
  split; [lia|]. apply Zdigits2_unique; [lia|]. split; [exact L'|exact U'].
Qed.

Lemma Zdigits2_div_small m n : 0 <= m -> Zdigits2 m <= n -> m / 2 ^ n = 0.
Proof.
  intros Hm Hn. destruct (Z.eq_dec m 0) as [-> | N].
  - apply Z.div_0_l. apply Z.pow_nonzero; [lia|]. pose proof (Zdigits2_nonneg 0). cbn in *. lia.
  - pose proof (Zdigits2_bounds m ltac:(lia)) as [_ U]. pose proof (Zdigits2_nonneg m).
    apply Z.div_small. split; [lia|].
    assert (2 ^ Zdigits2 m <= 2 ^ n) by (apply Z.pow_le_mono_r; lia). lia.
Qed.

Lemma shr_1_m mrs : 0 <= shr_m mrs -> shr_m (shr_1 mrs) = shr_m mrs / 2.
Proof.
  destruct mrs as [m r s]. cbn [shr_m]. intros H.
  destruct m as [|[p|p|]|p]; cbn [shr_1 shr_m]; try reflexivity; try lia;
    first [apply (Z.div_unique _ _ _ 1); lia | apply (Z.div_unique _ _ _ 0); lia].
Qed.

Lemma iter_shr_m p mrs :
  0 <= shr_m mrs ->
  shr_m (Pos.iter shr_1 mrs p) = shr_m mrs / 2 ^ Zpos p.
Proof.
  intros H. induction p as [|p IH] using Pos.peano_ind.
  - cbn [Pos.iter]. rewrite Z.pow_1_r. now apply shr_1_m.
  - rewrite Pos.iter_succ, Pos2Z.inj_succ, Z.pow_succ_r by lia.
    rewrite shr_1_m.
    + rewrite IH, Z.div_div by (try lia; apply Z.pow_pos_nonneg; lia).
      f_equal. ring.
    + rewrite IH. apply Z.div_pos; [exact H|apply Z.pow_pos_nonneg; lia].
Qed.

(** What [shr_fexp] leaves of a mantissa. *)
Lemma shr_fexp_m m e l :
  0 <= m ->
  shr_m (fst (shr_fexp 24 128 m e l)) =
    m / 2 ^ Z.max 0 (fexp 24 128 (Zdigits2 m + e) - e) /\
  snd (shr_fexp 24 128 m e l) = e + Z.max 0 (fexp 24 128 (Zdigits2 m + e) - e).
Proof.
  intros H. unfold shr_fexp, shr. std_ops.
  assert (R : shr_m (shr_record_of_loc m l) = m) by (destruct l as [|[| |]]; reflexivity).
  destruct (fexp 24 128 (Zdigits2 m + e) - e) as [|n|n]; cbn [fst snd Z.max].
  - rewrite R, Z.pow_0_r, Z.div_1_r. split; [reflexivity|lia].
  - rewrite iter_pos_iter, iter_shr_m by (rewrite R; exact H).
    rewrite R. split; reflexivity.
  - rewrite R. change (Z.max 0 (Z.neg n)) with 0.
    rewrite Z.pow_0_r, Z.div_1_r. split; [reflexivity|lia].
Qed.

Lemma round_nearest_even_cases m l :
  round_nearest_even m l = m \/ round_nearest_even m l = m + 1.
Proof.
  unfold round_nearest_even. std_ops.
  destruct l as [|[| |]]; auto. destruct (Z.even m); auto.
Qed.

Lemma canonical_mantissa_iff M e :
  canonical_mantissa 24 128 M e = true <-> fexp 24 128 (Zdigits2 (Zpos M) + e) = e.
Proof. unfold canonical_mantissa. std_ops. cbn [Zdigits2]. apply Z.eqb_eq. Qed.

(** Rounding returns a well-formed number, from a mantissa that is not
    shorter than its exponent allows. *)
Lemma binary_round_aux_valid s m e l :
  0 <= m -> e <= fexp 24 128 (Zdigits2 m + e) ->
  valid_binary 24 128 (binary_round_aux 24 128 s m e l) = true.
Proof.
  intros Hm He. unfold binary_round_aux.
  destruct (shr_fexp_m m e l Hm) as [M1 E1].
  destruct (shr_fexp 24 128 m e l) as [mrs' e']. cbn [fst snd] in M1, E1.
  set (d := Zdigits2 m) in *. pose proof (Zdigits2_nonneg m) as Hd. fold d in Hd.
  set (n1 := fexp 24 128 (d + e) - e) in *.
  assert (N1 : 0 <= n1) by (unfold n1; lia).
  rewrite Z.max_r in M1, E1 by exact N1.
  set (m' := shr_m mrs') in *.
  assert (Hm' : 0 <= m') by (rewrite M1; apply Z.div_pos; [exact Hm|apply Z.pow_pos_nonneg; lia]).
  set (r := round_nearest_even m' (loc_of_shr_record mrs')).
  assert (Hr : r = m' \/ r = m' + 1) by apply round_nearest_even_cases.
  assert (Hr0 : 0 <= r) by lia.
  destruct (shr_fexp_m r e' loc_Exact Hr0) as [M2 E2].
  destruct (shr_fexp 24 128 r e' loc_Exact) as [mrs'' e'']. cbn [fst snd] in M2, E2.
  destruct (shr_m mrs'') as [|M|M] eqn:EM; [reflexivity| |reflexivity].
  std_ops. destruct (Z.leb_spec e'' (128 - 24)) as [Le | Le]; [|reflexivity].
  cbn [valid_binary]. unfold bounded. std_ops.
  apply andb_true_iff. split; [|apply Z.leb_le; exact Le].
  apply canonical_mantissa_iff. rewrite <- EM. rewrite <- EM in M2.
  assert (Fe' : e' = fexp 24 128 (d + e)) by (unfold n1 in E1; lia).
  rewrite fexp32 in *.
  destruct (Z.eq_dec m' 0) as [Z0 | NZ].
  - (* everything was shifted out: the smallest exponent *)
    assert (R1 : r = 1).
    { destruct Hr as [Hr | Hr]; [|lia]. rewrite Hr, Z0 in M2.
      rewrite Z.div_0_l in M2 by (apply Z.pow_nonzero; lia). rewrite M2 in EM. discriminate EM. }
    assert (Dn : d <= n1).
    { destruct (Z.eq_dec m 0) as [-> | N0]; [unfold d; cbn; lia|].
      destruct (Z.leb_spec d n1); [assumption|].
      destruct (Zdigits2_div m n1 ltac:(lia) ltac:(lia)) as [P _]. lia. }
    assert (Ee : e' = -149) by (unfold n1 in Dn; lia).
    rewrite R1 in M2, E2. cbn [Zdigits2 digits2_pos] in M2, E2.
    rewrite Ee in M2, E2. cbn in M2, E2. rewrite M2, E2. reflexivity.
  - assert (Pm : 0 < m) by (destruct (Z.eq_dec m 0) as [E0|]; [rewrite E0, Z.div_0_l in M1 by (apply Z.pow_nonzero; lia); lia|lia]).
    assert (Dn : n1 < d).
    { destruct (Z.leb_spec d n1); [|assumption].
      rewrite (Zdigits2_div_small m n1) in M1 by (fold d; lia). lia. }
    destruct (Zdigits2_div m n1 Pm ltac:(fold d; lia)) as [_ Dm'].
    rewrite <- M1 in Dm'. fold d in Dm'.
    pose proof (Zdigits2_bounds m' ltac:(lia)) as [Lm Um].
    rewrite Dm' in Lm, Um.
    assert (Dr : Zdigits2 r = d - n1 \/ (Zdigits2 r = d - n1 + 1 /\ r = 2 ^ (d - n1))).
    { destruct Hr as [-> | ->]; [left; exact Dm'|].
      destruct (Z.eq_dec (m' + 1) (2 ^ (d - n1))) as [E2' | N2].
      - right. split; [|exact E2']. apply Zdigits2_unique; [lia|].
        rewrite E2'. replace (d - n1 + 1 - 1) with (d - n1) by lia.
        split; [lia|]. apply Z.pow_lt_mono_r; lia.
      - left. apply Zdigits2_unique; [lia|]. lia. }
    destruct Dr as [Dr | [Dr Rp]].
    + rewrite Dr in M2, E2.
      replace (Z.max 0 (Z.max (d - n1 + e' - 24) (-149) - e')) with 0 in M2, E2 by lia.
      rewrite Z.pow_0_r, Z.div_1_r in M2. rewrite M2, E2, Dr. lia.
    + rewrite Dr in M2, E2.
      destruct (Z.eq_dec (Z.max (d - n1 + 1 + e' - 24) (-149)) e') as [Q0 | Q1].
      * replace (Z.max 0 (Z.max (d - n1 + 1 + e' - 24) (-149) - e')) with 0 in M2, E2 by lia.
        rewrite Z.pow_0_r, Z.div_1_r in M2. rewrite M2, E2, Dr. lia.
      * replace (Z.max 0 (Z.max (d - n1 + 1 + e' - 24) (-149) - e')) with 1 in M2, E2 by lia.
        assert (Hhalf : r / 2 ^ 1 = 2 ^ (d - n1 - 1)).
        { rewrite Rp. rewrite <- Z.pow_sub_r by lia. reflexivity. }
        rewrite Hhalf in M2.
        assert (Dh : Zdigits2 (2 ^ (d - n1 - 1)) = d - n1).
        { apply Zdigits2_unique; [apply Z.pow_pos_nonneg; lia|].
          split; [lia|]. apply Z.pow_lt_mono_r; lia. }
        rewrite M2, E2, Dh. lia.
Qed.

Lemma f_one_well_formed : well_formed f_one.
Proof. reflexivity. Qed.

(** The quotient of well-formed numbers is well-formed. *)
Lemma fdiv_well_formed x y :
  well_formed x -> well_formed y -> well_formed (fdiv x y).
Proof.
  unfold well_formed, fdiv. intros Vx Vy.
  destruct x as [sx | sx | | sx mx ex], y as [sy | sy | | sy my ey];
    try reflexivity.
  cbn [SFdiv]. unfold SFdiv_core_binary. cbn [Zdigits2]. std_ops.
  fold (dig mx) (dig my).
  set (delta := dig mx + ex - (dig my + ey)).
  set (e' := Z.min (fexp 24 128 delta) (ex - ey)).
  set (s := ex - ey - e').
  assert (Hs : 0 <= s) by (unfold s, e'; lia).
  set (m' := match s with
             | 0 => Zpos mx
             | Zpos _ => Z.shiftl (Zpos mx) s
             | Zneg _ => 0
             end).
  assert (Em' : m' = Zpos mx * 2 ^ s).
  { unfold m'. destruct s as [|p|p]; [rewrite Z.pow_0_r; lia| |lia].
    now rewrite Z.shiftl_mul_pow2 by lia. }
  assert (Ps : 0 < 2 ^ s) by (apply Z.pow_pos_nonneg; lia).
  pose proof (Z.div_eucl_eq m' (Zpos my) ltac:(lia)) as Hq.
  pose proof (Z.mod_pos_bound m' (Zpos my) ltac:(lia)) as Hr.
  unfold Z.modulo in Hr. 
  assert (Qd : fst (Z.div_eucl m' (Zpos my)) = m' / Zpos my) by reflexivity.
  destruct (Z.div_eucl m' (Zpos my)) as [q r]. cbn [fst] in Qd.
  apply binary_round_aux_valid.
  - rewrite Qd. apply Z.div_pos; lia.
  - pose proof (dig_bounds mx) as [L1 U1]. pose proof (dig_bounds my) as [L2 U2].
    pose proof (dig_pos mx) as D1. pose proof (dig_pos my) as D2.
    assert (He' : e' <= fexp 24 128 delta) by (unfold e'; lia).
    rewrite fexp32 in *.
    destruct (Z.eq_dec q 0) as [-> | Nq].
    + (* the quotient is below one *)
      cbn [Zdigits2].
      assert (m' < Zpos my) by nia.
      assert (2 ^ (dig mx - 1 + s) < 2 ^ dig my).
      { rewrite Z.pow_add_r by lia. nia. }
      assert (dig mx - 1 + s < dig my).
      { apply (Z.pow_lt_mono_r_iff 2); lia. }
      unfold s, delta in *. lia.
    + assert (Pq : 0 < q) by (rewrite Qd in *; pose proof (Z.div_pos m' (Zpos my)); lia).
      pose proof (Zdigits2_bounds q Pq) as [_ Uq].
      assert (K : dig mx + s - dig my <= Zdigits2 q).
      { destruct (Z.leb_spec (dig mx + s - dig my) 0) as [C | C].
        - pose proof (Zdigits2_ge q 1 Pq ltac:(cbn; lia)). lia.
        - apply Zdigits2_ge; [exact Pq|]. rewrite Qd.
          apply Z.div_le_lower_bound; [lia|].
          assert (E2 : 2 ^ (dig mx - 1 + s) = 2 ^ (dig mx + s - dig my - 1) * 2 ^ dig my).
          { rewrite <- Z.pow_add_r by lia. f_equal. lia. }
          assert (E3 : 2 ^ (dig mx - 1 + s) = 2 ^ (dig mx - 1) * 2 ^ s)
            by (rewrite Z.pow_add_r by lia; reflexivity).
          assert (0 < 2 ^ (dig mx + s - dig my - 1)) by (apply Z.pow_pos_nonneg; lia).
          nia. }
      unfold s, delta in *. lia.
Qed.

Lemma fleb_refl x : x <> S754_nan -> fleb x x = true.
Proof.
  intros H. apply fleb_key. repeat split; try assumption. unfold key_le. lia.
Qed.

Lemma fleb_not_nan x y : fleb x y = true -> x <> S754_nan.
Proof. intros H. now apply fleb_key in H. Qed.

Lemma Animation_update_tick a dt :
  frames a <> [] -> playing a = true -> is_active a = true ->
  well_formed (frame_timer a) -> well_formed dt -> is_finite dt = true ->
  fleb (frame_timer a) dt = true ->
  frame_timer (Animation_update a dt) = fdiv f_one (fps a) /\
  fleb (fsub (frame_timer a) dt) f_zero = true.
Proof.
  intros Hne Hp Ha Wt Wd Fd Ht.
  pose proof (fsub_le_zero _ _ Wt Wd Fd Ht) as E.
  split; [|exact E].
  unfold Animation_update. destruct (frames a); [congruence|].
  rewrite Hp, Ha. cbn [negb orb frame_timer]. now rewrite E.
Qed.

(** X9. When the timer is at most the frame period [1.0f / fps] and every
    frame time is a finite number that is at least the period, every update
    advances a playing animation by exactly one frame, however long the
    frame time is: after [n] updates a looping animation is at frame
    [(f + n) mod size] and a non-looping one at [min (f + n) (size - 1)].
    The numbers are well-formed binary32 numbers and the comparisons are
    those of binary32; no finite frame time is at least the period when the
    period is the infinity that [fps = 0] gives. *)
Theorem Animation_updates_one_frame_each (a : Animation)
    (delta_times : list float32) :
  frames a <> [] -> playing a = true -> is_active a = true ->
  Z.of_nat (length (frames a)) < 2 ^ 31 ->
  0 <= current_frame a < Z.of_nat (length (frames a)) ->
  well_formed (frame_timer a) -> well_formed (fps a) ->
  fleb (frame_timer a) (fdiv f_one (fps a)) = true ->
  Forall (fun dt => well_formed dt /\ is_finite dt = true /\
                    fleb (fdiv f_one (fps a)) dt = true) delta_times ->
  current_frame (Animation_updates a delta_times) =
  if looping a
  then (current_frame a + Z.of_nat (length delta_times))
         mod Z.of_nat (length (frames a))
  else Z.min (current_frame a + Z.of_nat (length delta_times))
             (Z.of_nat (length (frames a)) - 1).
Proof.
  unfold Animation_updates. revert a.
  induction delta_times as [|dt dts IH]; intros a Hne Hp Ha Hs Hf Wt Wp Ht Hd.
  - cbn [fold_left length]. rewrite Z.add_0_r.
    destruct (looping a); [now rewrite Z.mod_small | lia].
  - inversion Hd as [|? ? (Wd & Fd & Hdt) Hd']; subst. cbn [fold_left].
    destruct (Animation_update_flags a dt) as (F1 & F2 & F3 & F4).
    destruct (Animation_update_tick a dt Hne Hp Ha Wt Wd Fd) as [T1 T2].
    { eapply fleb_trans; eauto. }
    assert (Fr : current_frame (Animation_update a dt) =
                 if current_frame a + 1 <? Z.of_nat (length (frames a))
                 then current_frame a + 1
                 else if looping a then 0 else Z.of_nat (length (frames a)) - 1).
    { rewrite Animation_update_frame by (try assumption; lia).
      cbv zeta. rewrite T2.
      destruct (Z.leb_spec 0 (current_frame a + 1)); [reflexivity | lia]. }
    rewrite IH.
    + rewrite F3, Animation_update_frames, Fr. cbn [length].
      rewrite Nat2Z.inj_succ.
      set (size := Z.of_nat (length (frames a))) in *.
      destruct (Z.ltb_spec (current_frame a + 1) size) as [L | L].
      * replace (current_frame a + Z.succ (Z.of_nat (length dts)))
          with (current_frame a + 1 + Z.of_nat (length dts)) by lia.
        reflexivity.
      * assert (E : current_frame a + 1 = size) by lia.
        destruct (looping a).
        -- replace (current_frame a + Z.succ (Z.of_nat (length dts)))
             with (Z.of_nat (length dts) + 1 * size) by lia.
           rewrite Z.mod_add by lia. reflexivity.
        -- lia.
    + now rewrite Animation_update_frames.
    + now rewrite F1.
    + now rewrite F2.
    + now rewrite Animation_update_frames.
    + rewrite Animation_update_frames, Fr.
      destruct (Z.ltb_spec (current_frame a + 1) (Z.of_nat (length (frames a))));
        [lia|]. destruct (looping a); lia.
    + rewrite T1. now apply fdiv_well_formed.
    + now rewrite F4.
    + rewrite T1, F4. apply fleb_refl. exact (fleb_not_nan _ _ Hdt).
    + now rewrite F4.
Qed.

(** X10. A non-looping animation never goes back and never leaves the last
    frame: whatever the frame times, the frame index after the updates is at
    least the one before and at most [size - 1]. *)
Theorem Animation_non_looping_monotone (a : Animation)
    (delta_times : list float32) :
  looping a = false ->
  Z.of_nat (length (frames a)) < 2 ^ 31 ->
  0 <= current_frame a < Z.of_nat (length (frames a)) ->
  current_frame a <= current_frame (Animation_updates a delta_times)
    <= Z.of_nat (length (frames a)) - 1.
Proof.
  unfold Animation_updates. revert a.
  induction delta_times as [|dt dts IH]; intros a Hl Hs Hf.
  - cbn. lia.
  - cbn [fold_left].
    destruct (Animation_update_flags a dt) as (F1 & F2 & F3 & F4).
    assert (Fr : current_frame a <= current_frame (Animation_update a dt)
                 <= Z.of_nat (length (frames a)) - 1).
    { destruct (frames a) as [|t ts] eqn:E.
      - cbn in Hf. lia.
      - destruct (playing a) eqn:Hp; [destruct (is_active a) eqn:Ha|].
        + rewrite <- E in *.
          rewrite Animation_update_frame
            by (try assumption; try lia; rewrite E; discriminate).
          cbv zeta. rewrite Hl.
          destruct (fleb (fsub (frame_timer a) dt) f_zero);
            [destruct (Z.leb_spec 0 (current_frame a + 1)),
                      (Z.ltb_spec (current_frame a + 1)
                                  (Z.of_nat (length (frames a))))
            |destruct (Z.leb_spec 0 (current_frame a)),
                      (Z.ltb_spec (current_frame a)
                                  (Z.of_nat (length (frames a))))];
            cbn [andb]; lia.
        + unfold Animation_update. rewrite E, Hp, Ha. cbn [negb orb]. lia.
        + unfold Animation_update. rewrite E, Hp. cbn [negb orb]. lia. }
    specialize (IH (Animation_update a dt)).
    rewrite F3, Animation_update_frames in IH.
    specialize (IH Hl Hs ltac:(lia)). lia.
Qed.

(** ** [Animation]: a frame rate of zero *)

Lemma Animation_update_frozen a dt :
  frame_timer a = S754_infinity false -> current_frame a = 0 ->
  is_finite dt = true ->
  frame_timer (Animation_update a dt) = S754_infinity false /\
  current_frame (Animation_update a dt) = 0.
Proof.
  intros Ht Hf Hd. unfold Animation_update.
  destruct (frames a) as [|t ts]; [auto|].
  destruct (negb (playing a) || negb (is_active a)); [auto|].
  cbv zeta. rewrite Ht, Hf.
  assert (E : fsub (S754_infinity false) dt = S754_infinity false)
    by (destruct dt; try discriminate Hd; reflexivity).
  rewrite E. cbn [fleb SFleb SFcompare f_zero frame_timer current_frame].
  split; [reflexivity|].
  change (to_size_t 0) with 0.
  destruct (Z.ltb_spec (to_size_t (Z.of_nat (length (t :: ts)) - 1)) 0) as [L | L];
    [|reflexivity].
  unfold to_size_t in L.
  pose proof (Z.mod_pos_bound (Z.of_nat (length (t :: ts)) - 1) (2 ^ 64)
                ltac:(lia)). lia.
Qed.

(** X24. An animation constructed with [fps = 0.0f] never leaves its first
    frame: its timer [1.0f / fps] is the infinity, it is still the infinity
    after a finite frame time is subtracted, and it is never at most zero. *)
Theorem Animation_zero_fps_never_advances (fs : list Texture2D) (lp : bool)
    (delta_times : list float32) :
  Forall (fun dt => is_finite dt = true) delta_times ->
  frame_timer (Animation_updates (Animation_new fs f_zero lp) delta_times) =
    S754_infinity false /\
  current_frame (Animation_updates (Animation_new fs f_zero lp) delta_times) = 0.
Proof.
  unfold Animation_updates.
  assert (G : forall a, frame_timer a = S754_infinity false ->
                        current_frame a = 0 ->
                        Forall (fun dt => is_finite dt = true) delta_times ->
                        frame_timer (fold_left Animation_update delta_times a) =
                          S754_infinity false /\
                        current_frame (fold_left Animation_update delta_times a) = 0).
  { induction delta_times as [|dt dts IH]; intros a Ht Hf Hd.
    - cbn. auto.
    - inversion Hd as [|? ? Hdt Hd']; subst. cbn [fold_left].
      destruct (Animation_update_frozen a dt Ht Hf Hdt) as [T F].
      now apply IH. }
  intros Hd. now apply G.
Qed.

(** ** [std::unordered_map]: [find] after an assignment *)

Lemma map_find_assign {V : Type} (m : list (string * V)) k v k' :
  map_find (map_assign m k v) k' =
  if String.eqb k k' then Some v else map_find m k'.
Proof.
  induction m as [|[k0 v0] m IH]; cbn [map_assign map_find]; [reflexivity|].
  destruct (String.eqb_spec k0 k) as [-> | N]; cbn [map_find].
  - destruct (String.eqb_spec k k'); reflexivity.
  - rewrite IH. destruct (String.eqb_spec k0 k') as [E | N'];
      destruct (String.eqb_spec k k'); congruence.
Qed.

Lemma map_find_app {V : Type} (m : list (string * V)) k v k' :
  map_find (m ++ [(k, v)]) k' =
  match map_find m k' with
  | Some v' => Some v'
  | None => if String.eqb k k' then Some v else None
  end.
Proof.
  induction m as [|[k0 v0] m IH]; cbn [app map_find]; [reflexivity|].
  destruct (String.eqb k0 k'); [reflexivity | exact IH].
Qed.

Lemma map_index_found {V : Type} (d : V) (m : list (string * V)) k v :
  map_find m k = Some v -> map_index d m k = (m, v).
Proof. intros H. unfold map_index. now rewrite H. Qed.

(** ** [AnimationController]: calls in order are safe *)

Lemma sprite_in_range a :
  frame_in_range a -> exists sprite, Animation_sprite a = Some sprite.
Proof.
  intros [Hf Hs]. unfold Animation_sprite. rewrite to_size_t_small by lia.
  destruct (nth_error (frames a) (Z.to_nat (current_frame a))) eqn:N; [eauto|].
  apply nth_error_None in N. lia.
Qed.

Lemma frame_in_range_new fs rate lp :
  fs <> [] -> Z.of_nat (length fs) < 2 ^ 31 ->
  frame_in_range (Animation_new fs rate lp).
Proof.
  intros Hne Hs. unfold frame_in_range, Animation_new.
  cbn [current_frame frames]. split; [|exact Hs].
  destruct fs; [congruence | cbn [length]; lia].
Qed.

Lemma frame_in_range_update a dt :
  frame_in_range a -> frame_in_range (Animation_update a dt).
Proof.
  intros [Hf Hs]. unfold frame_in_range. rewrite Animation_update_frames.
  split; [|exact Hs].
  destruct (frames a) as [|t ts] eqn:E; [cbn in Hf; lia|].
  destruct (playing a) eqn:Hp; [destruct (is_active a) eqn:Ha|].
  - rewrite <- E in *.
    rewrite Animation_update_frame
      by (try assumption; try lia; rewrite E; discriminate).
    cbv zeta.
    destruct (fleb (fsub (frame_timer a) dt) f_zero);
      [destruct (Z.leb_spec 0 (current_frame a + 1)),
                (Z.ltb_spec (current_frame a + 1) (Z.of_nat (length (frames a))))
      |destruct (Z.leb_spec 0 (current_frame a)),
                (Z.ltb_spec (current_frame a) (Z.of_nat (length (frames a))))];
      cbn [andb]; try lia; destruct (looping a); lia.
  - unfold Animation_update. rewrite E, Hp, Ha. cbn [negb orb]. exact Hf.
  - unfold Animation_update. rewrite E, Hp. cbn [negb orb]. exact Hf.
Qed.

(** A member function that keeps the frame index in range, called on the
    current animation. *)
Lemma on_current_ok known h c (f : Animation -> Animation) :
  (forall a, frame_in_range a -> frame_in_range (f a)) ->
  controller_ok known h c ->
  exists h', on_current h c f = Some h' /\ controller_ok known h' c.
Proof.
  intros Hf Hok. pose proof Hok as (K1 & K2 & K3 & K4). unfold on_current.
  destruct (current_animation c) as [p|] eqn:Cur.
  - destruct (K4 p eq_refl) as (name & Hn).
    destruct (K3 name p Hn) as (a & Ha & Fa).
    unfold on_animation. rewrite Ha. eexists. split; [reflexivity|].
    split; [exact K1|]. split; [exact K2|]. split.
    + intros n q Hq. destruct (K3 n q Hq) as (b & Hb & Fb).
      cbn [heap_write heap_objects]. destruct (Nat.eqb_spec q p) as [-> | N].
      * exists (f a). split; [reflexivity | now apply Hf].
      * exists b. auto.
    + intros q Hq. apply K4. congruence.
  - exists h. split; [reflexivity | exact Hok].
Qed.

Lemma controller_add_ok known h c name fs rate lp :
  controller_ok known h c ->
  ~ In name known -> fs <> [] -> Z.of_nat (length fs) < 2 ^ 31 ->
  exists h' c',
    AnimationController_add_new h c name fs rate lp = Some (h', c') /\
    controller_ok (name :: known) h' c'.
Proof.
  intros (K1 & K2 & K3 & K4) Hnew Hne Hs.
  assert (Hfind : map_find (animations c) name = None).
  { destruct (map_find (animations c) name) eqn:F; [|reflexivity].
    exfalso. apply Hnew, K1. congruence. }
  pose proof (frame_in_range_new fs rate lp Hne Hs) as Fnew.
  destruct (sprite_in_range _ Fnew) as (sprite & Hsp).
  unfold AnimationController_add_new, heap_make_unique.
  unfold AnimationController_add_animation. rewrite Hfind.
  cbn [heap_objects]. rewrite Nat.eqb_refl, Hsp.
  set (h1 := mkHeap _ _).
  set (anims := map_assign (animations c) name (Some (heap_next h))).
  assert (Own : forall n q, map_find anims n = Some (Some q) ->
                            exists a, heap_objects h1 q = Some a /\ frame_in_range a).
  { intros n q Hq. unfold anims in Hq. rewrite map_find_assign in Hq.
    destruct (String.eqb_spec name n) as [-> | N].
    - inversion Hq; subst q. exists (Animation_new fs rate lp).
      split; [|exact Fnew]. unfold h1. cbn. now rewrite Nat.eqb_refl.
    - destruct (K3 n q Hq) as (b & Hb & Fb). unfold h1. cbn [heap_objects].
      destruct (Nat.eqb_spec q (heap_next h)).
      + exists (Animation_new fs rate lp). auto.
      + exists b. auto. }
  assert (Keys : forall n, In n (name :: known) <-> map_find anims n <> None).
  { intros n. unfold anims. rewrite map_find_assign. cbn [In].
    destruct (String.eqb_spec name n) as [-> | N].
    - split; [discriminate | auto].
    - rewrite <- K1. split; [intros [E | H]; [congruence | exact H] | auto]. }
  assert (Nonnull : forall n, map_find anims n <> Some None).
  { intros n. unfold anims. rewrite map_find_assign.
    destruct (String.eqb name n); [discriminate | apply K2]. }
  destruct (current_animation c) as [q|] eqn:Cur.
  - do 2 eexists. split; [reflexivity|].
    split; [exact Keys|]. split; [exact Nonnull|]. split; [exact Own|].
    cbn [current_animation animations]. intros q' Hq'.
    destruct (K4 q' Hq') as (n & Hn). exists n. unfold anims.
    rewrite map_find_assign.
    destruct (String.eqb_spec name n) as [-> | N]; [congruence | exact Hn].
  - do 2 eexists. split; [reflexivity|].
    split; [exact Keys|]. split; [exact Nonnull|]. split; [exact Own|].
    cbn [current_animation animations]. intros q' Hq'. inversion Hq'; subst q'.
    exists name. unfold anims. rewrite map_find_assign.
    now rewrite String.eqb_refl.
Qed.

Lemma controller_play_name_ok known h c name :
  controller_ok known h c ->
  exists h' c',
    AnimationController_play_name h c name = Some (h', c') /\
    controller_ok known h' c'.
Proof.
  intros Hok. pose proof Hok as (K1 & K2 & K3 & K4).
  unfold AnimationController_play_name.
  destruct (map_find (animations c) name) as [[p|]|] eqn:F.
  - destruct (K3 name p F) as (a & Ha & Fa). rewrite Ha.
    assert (Fp : frame_in_range (Animation_play a)) by exact Fa.
    destruct (sprite_in_range _ Fp) as (sprite & ->).
    do 2 eexists. split; [reflexivity|].
    split; [exact K1|]. split; [exact K2|]. split.
    + cbn [animations]. intros n q Hq. destruct (K3 n q Hq) as (b & Hb & Fb).
      cbn [heap_write heap_objects]. destruct (Nat.eqb_spec q p) as [-> | N].
      * eauto.
      * eauto.
    + cbn [current_animation animations]. intros q Hq. inversion Hq; subst q.
      eauto.
  - exfalso. exact (K2 name F).
  - exists h, c. split; [reflexivity | exact Hok].
Qed.

Lemma controller_draw_ok known h c :
  controller_ok known h c -> AnimationController_draw h c <> None.
Proof.
  intros (K1 & K2 & K3 & K4). unfold AnimationController_draw.
  destruct (current_animation c) as [p|] eqn:Cur; [|discriminate].
  destruct (K4 p eq_refl) as (name & Hn).
  destruct (K3 name p Hn) as (a & Ha & Fa). rewrite Ha.
  unfold Animation_draw. destruct (negb (is_active a)); [discriminate|].
  destruct (sprite_in_range a Fa) as (sprite & ->). discriminate.
Qed.

Lemma controller_get_ok known h c name :
  controller_ok known h c -> In name known ->
  controller_ok known h (fst (AnimationController_get_animation c name)).
Proof.
  intros Hok Hin. pose proof Hok as (K1 & K2 & K3 & K4).
  unfold AnimationController_get_animation.
  destruct (map_find (animations c) name) as [v|] eqn:F.
  - rewrite (map_index_found None _ _ _ F). cbn [fst]. exact Hok.
  - exfalso. now apply (proj1 (K1 name) Hin).
Qed.

Lemma controller_ok_new : controller_ok [] heap_empty AnimationController_new.
Proof.
  unfold controller_ok, AnimationController_new. cbn.
  repeat split; try tauto; try discriminate.
Qed.

Lemma controller_calls_ok calls :
  forall known h c,
    controller_ok known h c -> calls_in_order known calls ->
    exists known' h' c',
      controller_calls h c calls = Some (h', c') /\ controller_ok known' h' c'.
Proof.
  induction calls as [|call calls IH]; intros known h c Hok Hc.
  - exists known, h, c. split; [reflexivity | exact Hok].
  - cbn [controller_calls].
    assert (Keep : forall f,
               (forall a, frame_in_range a -> frame_in_range (f a)) ->
               calls_in_order known calls ->
               exists known' h' c',
                 match keep_controller c (on_current h c f) with
                 | Some (h0, c0) => controller_calls h0 c0 calls
                 | None => None
                 end = Some (h', c') /\ controller_ok known' h' c').
    { intros f Hf Hrest. destruct (on_current_ok known h c f Hf Hok) as (h1 & -> & Hok1).
      cbn [keep_controller option_map]. now apply (IH known). }
    destruct call as [name fs rate lp | name | | name | | play | | dt | ];
      cbn [calls_in_order controller_call] in Hc |- *.
    + destruct Hc as (H1 & H2 & H3 & H4).
      destruct (controller_add_ok known h c name fs rate lp Hok H1 H2 H3)
        as (h1 & c1 & -> & Hok1).
      now apply (IH (name :: known)).
    + destruct Hc as [H1 H2].
      apply (IH known); [|exact H2]. now apply controller_get_ok.
    + apply Keep; [auto | exact Hc].
    + destruct (controller_play_name_ok known h c name Hok) as (h1 & c1 & -> & Hok1).
      now apply (IH known).
    + apply Keep; [auto | exact Hc].
    + apply Keep; [destruct play; auto | exact Hc].
    + apply Keep; [|exact Hc]. intros a [Hf Hs]. split; [cbn; lia | exact Hs].
    + apply Keep; [|exact Hc]. intros a. apply frame_in_range_update.
    + pose proof (controller_draw_ok known h c Hok) as D.
      destruct (AnimationController_draw h c); [|congruence].
      now apply (IH known).
Qed.

(** X11. A controller that is used in order never runs into undefined
    behaviour: when every animation is added under a name of its own with at
    least one frame, and [get_animation] is called only for names that were
    added, no call of the sequence dereferences a null or dangling pointer or
    indexes [frames] out of range, and neither does a [draw] after it. *)
Theorem controller_calls_in_order_safe (calls : list ControllerCall) :
  calls_in_order [] calls ->
  exists h c,
    controller_calls heap_empty AnimationController_new calls = Some (h, c) /\
    AnimationController_draw h c <> None /\
    (forall delta_time, AnimationController_update h c delta_time <> None).
Proof.
  intros Hc.
  destruct (controller_calls_ok calls [] heap_empty AnimationController_new
              controller_ok_new Hc) as (known & h & c & R & Hok).
  exists h, c. split; [exact R|]. split; [now apply (controller_draw_ok known)|].
  intros dt. unfold AnimationController_update.
  destruct (on_current_ok known h c (fun a => Animation_update a dt)
              (fun a => frame_in_range_update a dt) Hok) as (h' & -> & _).
  discriminate.
Qed.

(** ** [AnimationController]: two ways out of order *)

(** X12. Adding an animation under the name of the current animation destroys
    the current animation and leaves [current_animation] pointing to it: the
    call returns normally, and the next [update] and the next [draw] go
    through a dangling pointer. *)
Theorem readd_current_animation_dangles (h : Heap) (c : AnimationController)
    (name : string) (p : ptr) (fs : list Texture2D) (rate : float32) (lp : bool) :
  current_animation c = Some p ->
  map_find (animations c) name = Some (Some p) ->
  (p < heap_next h)%nat ->
  exists h' c',
    AnimationController_add_new h c name fs rate lp = Some (h', c') /\
    current_animation c' = Some p /\
    heap_objects h' p = None /\
    map_find (animations c') name = Some (Some (heap_next h)) /\
    (forall delta_time, AnimationController_update h' c' delta_time = None) /\
    AnimationController_draw h' c' = None.
Proof.
  intros Cur Own Lt.
  unfold AnimationController_add_new, heap_make_unique,
    AnimationController_add_animation.
  rewrite Own, Cur. do 2 eexists. split; [reflexivity|].
  assert (Gone : heap_objects
                   (heap_delete
                      (mkHeap (fun q => if Nat.eqb q (heap_next h)
                                        then Some (Animation_new fs rate lp)
                                        else heap_objects h q)
                              (S (heap_next h))) p) p = None).
  { cbn. now rewrite Nat.eqb_refl. }
  split; [reflexivity|]. split; [exact Gone|]. split; [|split].
  - cbn [animations]. rewrite map_find_assign. now rewrite String.eqb_refl.
  - intros dt. unfold AnimationController_update, on_current, on_animation.
    cbn [current_animation]. now rewrite Gone.
  - unfold AnimationController_draw. cbn [current_animation]. now rewrite Gone.
Qed.

(** X13. [get_animation] for a name that was never added returns a null
    pointer and leaves a null entry in the map; [play(name)], which did
    nothing before, then calls a member function on the null pointer. *)
Theorem get_unknown_animation_then_play (h : Heap) (c : AnimationController)
    (name : string) :
  map_find (animations c) name = None ->
  AnimationController_play_name h c name = Some (h, c) /\
  snd (AnimationController_get_animation c name) = None /\
  map_find (animations (fst (AnimationController_get_animation c name))) name
    = Some None /\
  AnimationController_play_name
    h (fst (AnimationController_get_animation c name)) name = None.
Proof.
  intros F. unfold AnimationController_get_animation, map_index.
  rewrite F. cbn [fst snd animations].
  assert (G : map_find (animations c ++ [(name, @None ptr)]) name = Some None).
  { rewrite map_find_app, F. now rewrite String.eqb_refl. }
  split; [|split; [|split]].
  - unfold AnimationController_play_name. now rewrite F.
  - reflexivity.
  - exact G.
  - unfold AnimationController_play_name. cbn [animations]. now rewrite G.
Qed.

(** ** [MultiComponent] *)

(** X14. [add_component] followed by [get_component] for the same name gives
    the component that was added and changes nothing; the entries of the
    other names are as before; adding a null pointer dereferences it. *)
Theorem MultiComponent_add_then_get (components : ComponentMap) (name : string)
    (component : ptr) :
  exists components',
    MultiComponent_add_component components name (Some component)
      = Some components' /\
    MultiComponent_get_component components' name = (components', Some component) /\
    (forall other, other <> name ->
                   map_find components' other = map_find components other) /\
    MultiComponent_add_component components name None = None.
Proof.
  unfold MultiComponent_add_component, MultiComponent_get_component.
  assert (F : forall v, map_find (map_assign components name v) name = Some v).
  { intros v. rewrite map_find_assign. now rewrite String.eqb_refl. }
  rewrite (map_index_found None _ _ _ (F (Some component))).
  rewrite (map_index_found None _ _ _ (F None)).
  eexists. split; [reflexivity|]. split; [|split].
  - apply map_index_found, F.
  - intros other N. rewrite map_find_assign.
    destruct (String.eqb_spec name other); congruence.
  - reflexivity.
Qed.

Lemma MultiComponent_update_app m name :
  MultiComponent_update (m ++ [(name, None)]) = None.
Proof.
  induction m as [|[k [c|]] m IH]; cbn [app MultiComponent_update];
    [reflexivity | now rewrite IH | reflexivity].
Qed.

(** X15. [get_component] for a name that is not in the map returns a null
    pointer and puts a null entry into the map: from then on [init],
    [update] and [draw] call a member function on a null pointer.  For a
    name that is in the map the call changes nothing. *)
Theorem MultiComponent_get_unknown (components : ComponentMap) (name : string) :
  (map_find components name = None ->
   snd (MultiComponent_get_component components name) = None /\
   MultiComponent_update (fst (MultiComponent_get_component components name))
     = None) /\
  (forall entry, map_find components name = Some entry ->
     MultiComponent_get_component components name = (components, entry)).
Proof.
  unfold MultiComponent_get_component, map_index. split.
  - intros ->. cbn [fst snd]. split; [reflexivity|].
    apply MultiComponent_update_app.
  - intros entry ->. reflexivity.
Qed.

(** ** [TextureService]: every file is loaded once *)

Lemma map_assign_new_keys {V : Type} (m : list (string * V)) k v :
  map_find m k = None -> map_assign m k v = m ++ [(k, v)].
Proof.
  induction m as [|[k0 v0] m IH]; cbn [map_find map_assign app]; [reflexivity|].
  destruct (String.eqb k0 k); [discriminate|]. intros H. now rewrite IH.
Qed.

Lemma map_find_keys {V : Type} (m : list (string * V)) k :
  map_find m k <> None <-> In k (map fst m).
Proof.
  induction m as [|[k0 v0] m IH]; cbn [map_find map fst In].
  - split; [congruence | intros []].
  - destruct (String.eqb_spec k0 k) as [-> | N].
    + split; [auto | discriminate].
    + rewrite IH. split; [auto | intros [E | H]; [congruence | exact H]].
Qed.

(** One [get_texture]: a file name that is in the map is answered from the
    map, a new one is loaded and appended to the load log. *)
Lemma get_texture_step LoadTexture s f :
  map fst (textures s) = texture_loads s ->
  exists t,
    TextureService_get_texture LoadTexture s f =
      (mkTextureService
         (if existsb (String.eqb f) (texture_loads s) then textures s
          else textures s ++ [(f, t)])
         (if existsb (String.eqb f) (texture_loads s) then texture_loads s
          else texture_loads s ++ [f]), t) /\
    map_find (if existsb (String.eqb f) (texture_loads s) then textures s
              else textures s ++ [(f, t)]) f = Some t.
Proof.
  intros Inv. unfold TextureService_get_texture.
  destruct (map_find (textures s) f) as [t|] eqn:F.
  - assert (E : existsb (String.eqb f) (texture_loads s) = true).
    { apply existsb_exists. exists f. split; [|apply String.eqb_refl].
      rewrite <- Inv. apply map_find_keys. congruence. }
    rewrite E, (map_index_found _ _ _ _ F). exists t. auto.
  - assert (E : existsb (String.eqb f) (texture_loads s) = false).
    { destruct (existsb (String.eqb f) (texture_loads s)) eqn:X; [|reflexivity].
      apply existsb_exists in X. destruct X as (g & Hg & Eg).
      apply String.eqb_eq in Eg. subst g. rewrite <- Inv in Hg.
      apply map_find_keys in Hg. congruence. }
    rewrite E. cbn [textures texture_loads].
    exists (LoadTexture (texture_loads s) f).
    assert (G : map_find (textures s ++ [(f, LoadTexture (texture_loads s) f)]) f
                = Some (LoadTexture (texture_loads s) f)).
    { rewrite map_find_app, F. now rewrite String.eqb_refl. }
    rewrite (map_assign_new_keys _ _ _ F), (map_index_found _ _ _ _ G). auto.
Qed.

Lemma get_textures_inv LoadTexture filenames :
  forall s,
    map fst (textures s) = texture_loads s -> NoDup (texture_loads s) ->
    let s' := TextureService_get_textures LoadTexture s filenames in
    map fst (textures s') = texture_loads s' /\ NoDup (texture_loads s') /\
    (forall f, In f (texture_loads s') <->
               In f (texture_loads s) \/ In f filenames).
Proof.
  unfold TextureService_get_textures.
  induction filenames as [|f fs IH]; intros s Inv Hn; cbn [fold_left].
  - split; [exact Inv|]. split; [exact Hn|]. intros g. cbn. tauto.
  - destruct (get_texture_step LoadTexture s f Inv) as (t & -> & _).
    cbn [fst].
    destruct (existsb (String.eqb f) (texture_loads s)) eqn:E.
    + destruct (IH (mkTextureService (textures s) (texture_loads s)) Inv Hn)
        as (I1 & I2 & I3).
      split; [exact I1|]. split; [exact I2|]. intros g. rewrite I3.
      cbn [texture_loads In]. split; [tauto|].
      intros [H | [<- | H]]; auto. left.
      apply existsb_exists in E. destruct E as (g & Hg & Eg).
      apply String.eqb_eq in Eg. now subst g.
    + assert (Hf : ~ In f (texture_loads s)).
      { intros H. assert (X : existsb (String.eqb f) (texture_loads s) = true).
        { apply existsb_exists. exists f. split; [exact H | apply String.eqb_refl]. }
        congruence. }
      destruct (IH (mkTextureService (textures s ++ [(f, t)]) (texture_loads s ++ [f])))
        as (I1 & I2 & I3).
      * cbn [textures texture_loads]. rewrite map_app, Inv. reflexivity.
      * cbn [texture_loads]. apply NoDup_app; [exact Hn | | ].
        -- repeat constructor. intros [].
        -- intros x Hx [<- | []]. contradiction.
      * split; [exact I1|]. split; [exact I2|]. intros g. rewrite I3.
        cbn [texture_loads In]. rewrite in_app_iff. cbn [In]. tauto.
Qed.

(** X16. Whatever file names are asked for, in whatever order and however
    often, [LoadTexture] is called exactly once for every distinct name; and
    asking again for a name that was asked for before returns the texture in
    the map, loads nothing and leaves the service as it is. *)
Theorem TextureService_loads_once
    (LoadTexture : list string -> string -> Texture2D) (filenames : list string) :
  let s := TextureService_get_textures LoadTexture TextureService_new filenames in
  NoDup (texture_loads s) /\
  (forall f, In f (texture_loads s) <-> In f filenames) /\
  (forall f, In f filenames ->
     exists t, map_find (textures s) f = Some t /\
               TextureService_get_texture LoadTexture s f =
                 (mkTextureService (textures s) (texture_loads s), t)).
Proof.
  destruct (get_textures_inv LoadTexture filenames TextureService_new
              eq_refl (NoDup_nil _)) as (I1 & I2 & I3).
  cbv zeta. split; [exact I2|]. split.
  - intros f. rewrite I3. cbn. tauto.
  - intros f Hf.
    set (s := TextureService_get_textures LoadTexture TextureService_new filenames) in *.
    destruct (get_texture_step LoadTexture s f I1) as (t & R & G).
    assert (E : existsb (String.eqb f) (texture_loads s) = true).
    { apply existsb_exists. exists f. split; [|apply String.eqb_refl].
      apply I3. now right. }
    rewrite E in R, G. exists t. auto.
Qed.

(** ** [SoundService]: one sound loaded, the others aliases of it *)

(** The number of sounds in all the vectors of the map. *)
Lemma map_assign_total {V : Type} (size : V -> nat) (m : list (string * V)) k v :
  (list_sum (map (fun e => size (snd e)) (map_assign m k v)) +
   match map_find m k with Some old => size old | None => 0 end =
   list_sum (map (fun e => size (snd e)) m) + size v)%nat.
Proof.
  induction m as [|[k0 v0] m IH]; cbn [map_assign map_find].
  - simpl. lia.
  - destruct (String.eqb k0 k); simpl in *; lia.
Qed.

Lemma map_assign_Forall {V : Type} (P : V -> Prop) (m : list (string * V)) k v :
  Forall (fun e => P (snd e)) m -> P v ->
  Forall (fun e => P (snd e)) (map_assign m k v).
Proof.
  intros Hm Hv. induction Hm as [|[k0 v0] m H0 Hm IH]; cbn [map_assign].
  - repeat constructor. exact Hv.
  - destruct (String.eqb k0 k); constructor; auto.
Qed.

Lemma SoundService_destroy_total sounds :
  Forall (fun e => snd e <> []) sounds ->
  exists calls,
    SoundService_destroy sounds = Some calls /\
    length calls = list_sum (map (fun e => length (snd e)) sounds).
Proof.
  induction 1 as [|[k v] m H0 Hm (calls & IH1 & IH2)];
    cbn [SoundService_destroy].
  - now exists [].
  - destruct v as [|first aliases]; [now cbn in H0|]. rewrite IH1.
    eexists. split; [reflexivity|].
    cbn [length]. rewrite length_app, length_map, IH2. simpl. reflexivity.
Qed.

(** What the map holds for a file name after the requests [done]. *)
Lemma get_sound_step sounds done f :
  (forall g, map_find sounds g =
             match count_occ string_dec done g with
             | O => None
             | S n => Some (LoadSound g :: repeat (LoadSoundAlias (LoadSound g)) n)
             end) ->
  exists sounds',
    SoundService_get_sound sounds f =
      Some (sounds', match count_occ string_dec done f with
                     | O => LoadSound f
                     | S _ => LoadSoundAlias (LoadSound f)
                     end) /\
    (forall g, map_find sounds' g =
               match count_occ string_dec (done ++ [f]) g with
               | O => None
               | S n => Some (LoadSound g :: repeat (LoadSoundAlias (LoadSound g)) n)
               end) /\
    (list_sum (map (fun e => length (snd e)) sounds') =
     S (list_sum (map (fun e => length (snd e)) sounds)))%nat /\
    (Forall (fun e => snd e <> []) sounds ->
     Forall (fun e => snd e <> []) sounds').
Proof.
  intros J. unfold SoundService_get_sound. pose proof (J f) as Jf.
  assert (C : forall g, count_occ string_dec (done ++ [f]) g =
                        (count_occ string_dec done g +
                         if string_dec f g then 1 else 0)%nat).
  { intros g. rewrite count_occ_app. cbn [count_occ].
    destruct (string_dec f g); reflexivity. }
  destruct (count_occ string_dec done f) as [|n] eqn:Cf; rewrite Jf.
  - eexists. split; [reflexivity|]. split; [|split].
    + intros g. rewrite map_find_assign, C.
      destruct (string_dec f g) as [E | E].
      * subst g. rewrite String.eqb_refl, Cf. reflexivity.
      * apply String.eqb_neq in E. rewrite E, J, Nat.add_0_r. reflexivity.
    + pose proof (map_assign_total (@length Sound) sounds f [LoadSound f]) as T.
      rewrite Jf in T. cbn [length] in T. lia.
    + intros H. apply (map_assign_Forall (fun v => v <> [])); [exact H | discriminate].
  - eexists. split; [reflexivity|]. split; [|split].
    + intros g. rewrite map_find_assign, C.
      destruct (string_dec f g) as [E | E];
        [subst g; rewrite String.eqb_refl
        |apply String.eqb_neq in E; rewrite E].
      * rewrite Cf. replace (S n + 1)%nat with (S (S n)) by lia.
        cbn [app repeat]. do 2 f_equal. symmetry. apply repeat_cons.
      * rewrite J, Nat.add_0_r. reflexivity.
    + pose proof (map_assign_total (@length Sound) sounds f
                    ((LoadSound f :: repeat (LoadSoundAlias (LoadSound f)) n)
                       ++ [LoadSoundAlias (LoadSound f)])) as T.
      rewrite Jf in T. rewrite length_app in T. cbn [length] in T. lia.
    + intros H. apply (map_assign_Forall (fun v => v <> [])); [exact H|].
      discriminate.
Qed.

Lemma get_sounds_inv rest :
  forall sounds done,
    (forall g, map_find sounds g =
               match count_occ string_dec done g with
               | O => None
               | S n => Some (LoadSound g :: repeat (LoadSoundAlias (LoadSound g)) n)
               end) ->
    Forall (fun e => snd e <> []) sounds ->
    list_sum (map (fun e => length (snd e)) sounds) = length done ->
    exists sounds',
      SoundService_get_sounds sounds rest = Some sounds' /\
      (forall g, map_find sounds' g =
                 match count_occ string_dec (done ++ rest) g with
                 | O => None
                 | S n => Some (LoadSound g :: repeat (LoadSoundAlias (LoadSound g)) n)
                 end) /\
      Forall (fun e => snd e <> []) sounds' /\
      list_sum (map (fun e => length (snd e)) sounds') = length (done ++ rest).
Proof.
  induction rest as [|f rest IH]; intros sounds done J Hne Ht;
    cbn [SoundService_get_sounds].
  - exists sounds. rewrite app_nil_r. auto.
  - destruct (get_sound_step sounds done f J) as (s1 & -> & J1 & T1 & N1).
    destruct (IH s1 (done ++ [f]) J1 (N1 Hne)) as (s2 & R & J2 & N2 & T2).
    + rewrite T1, Ht, length_app. cbn. lia.
    + exists s2. rewrite <- app_assoc in J2, T2. auto.
Qed.

(** X17. After any sequence of [get_sound] calls on a new service the map
    holds, for every file name asked for [n + 1] times, the sound loaded
    from the file followed by [n] aliases of that sound; every other name has
    no entry.  The destructor then unloads as many sounds as there were
    calls and never reads the first element of an empty vector. *)
Theorem SoundService_one_load_per_file (filenames : list string) :
  exists sounds calls,
    SoundService_get_sounds [] filenames = Some sounds /\
    (forall f, map_find sounds f =
               match count_occ string_dec filenames f with
               | O => None
               | S n => Some (LoadSound f :: repeat (LoadSoundAlias (LoadSound f)) n)
               end) /\
    SoundService_destroy sounds = Some calls /\
    length calls = length filenames.
Proof.
  destruct (get_sounds_inv filenames [] [] (fun _ => eq_refl) (Forall_nil _) eq_refl)
    as (sounds & R & J & N & T).
  destruct (SoundService_destroy_total sounds N) as (calls & D & L).
  exists sounds, calls. cbn [app] in J, T. repeat split; auto. congruence.
Qed.

(** ** The layer renderers *)

Lemma draw_down_app l x n :
  (n <= length l)%nat -> draw_down (l ++ [x]) n = draw_down l n.
Proof.
  induction n as [|n IH]; intros H; cbn [draw_down]; [reflexivity|].
  rewrite nth_error_app1 by lia. rewrite IH by lia. reflexivity.
Qed.

(** [draw] draws the visible layers, the last one first. *)
Lemma LevelService_draw_rev renderers :
  LevelService_draw renderers = map renderer (filter visible (rev renderers)).
Proof.
  unfold LevelService_draw.
  induction renderers as [|x l IH] using rev_ind; [reflexivity|].
  rewrite length_app, Nat.add_comm. cbn [length Nat.add draw_down].
  rewrite nth_error_app2 by lia. rewrite Nat.sub_diag. cbn [nth_error].
  rewrite draw_down_app by lia. rewrite IH, rev_app_distr. cbn [rev app filter].
  destruct (visible x); reflexivity.
Qed.

Lemma set_layer_visibility_absent renderers layer_id value :
  ~ In layer_id (map layer_iid renderers) ->
  LevelService_set_layer_visibility renderers layer_id value = renderers.
Proof.
  induction renderers as [|x l IH]; [reflexivity|].
  cbn [map In LevelService_set_layer_visibility]. intros H.
  destruct (String.eqb_spec (layer_iid x) layer_id) as [E | N]; [tauto|].
  rewrite IH by tauto. reflexivity.
Qed.

Lemma set_layer_visibility_map renderers layer_id value :
  NoDup (map layer_iid renderers) ->
  LevelService_set_layer_visibility renderers layer_id value =
  map (fun r => if String.eqb (layer_iid r) layer_id
                then mkLayerRenderer (renderer r) (layer_iid r) value else r)
      renderers.
Proof.
  induction renderers as [|x l IH]; [reflexivity|].
  cbn [map LevelService_set_layer_visibility]. intros H.
  inversion H as [|? ? Hx Hl]; subst.
  destruct (String.eqb_spec (layer_iid x) layer_id) as [E | N].
  - f_equal. rewrite <- E. clear IH H.
    induction l as [|y l IH]; [reflexivity|]. cbn [map].
    cbn [map In] in Hx. inversion Hl; subst.
    destruct (String.eqb_spec (layer_iid y) (layer_iid x)) as [E' | N'].
    + exfalso. apply Hx. now left.
    + f_equal. apply IH; tauto.
  - f_equal. now apply IH.
Qed.

(** X18. With layer ids that are all different, [draw] after
    [set_layer_visibility(layer_id, value)] draws, last layer first, the
    layer [layer_id] exactly when [value] is true and every other layer
    exactly when it was visible before. *)
Theorem set_layer_visibility_then_draw (renderers : list LayerRenderer)
    (layer_id : string) (value : bool) :
  NoDup (map layer_iid renderers) ->
  LevelService_draw (LevelService_set_layer_visibility renderers layer_id value) =
  map renderer
      (filter (fun r => if String.eqb (layer_iid r) layer_id then value
                        else visible r)
              (rev renderers)).
Proof.
  intros H. rewrite LevelService_draw_rev, set_layer_visibility_map by exact H.
  rewrite <- map_rev. generalize (rev renderers). intros l.
  induction l as [|x l IH]; [reflexivity|]. cbn [map filter].
  destruct (String.eqb (layer_iid x) layer_id); cbn [visible].
  - destruct value; cbn [map renderer]; now rewrite IH.
  - destruct (visible x); cbn [map]; now rewrite IH.
Qed.

(** X19. [draw_layer] does not look at the visibility flag: it draws the
    first renderer with the given id also when the layer is hidden, at most
    one texture, and nothing exactly when no renderer has the id. *)
Theorem draw_layer_ignores_visibility (renderers : list LayerRenderer)
    (layer_id hidden_id : string) (value : bool) :
  LevelService_draw_layer
    (LevelService_set_layer_visibility renderers hidden_id value) layer_id =
  LevelService_draw_layer renderers layer_id /\
  (LevelService_draw_layer renderers layer_id = [] <->
   ~ In layer_id (map layer_iid renderers)) /\
  (forall texture, In texture (LevelService_draw_layer renderers layer_id) ->
     LevelService_draw_layer renderers layer_id = [texture] /\
     exists r, In r renderers /\ layer_iid r = layer_id /\ renderer r = texture).
Proof.
  split; [|split].
  - induction renderers as [|x l IH]; [reflexivity|].
    cbn [LevelService_set_layer_visibility].
    destruct (String.eqb (layer_iid x) hidden_id);
      cbn [LevelService_draw_layer layer_iid renderer];
      destruct (String.eqb (layer_iid x) layer_id); auto.
  - induction renderers as [|x l IH]; cbn [LevelService_draw_layer map In].
    + tauto.
    + destruct (String.eqb_spec (layer_iid x) layer_id) as [E | N].
      * split; [discriminate | tauto].
      * rewrite IH. tauto.
  - induction renderers as [|x l IH]; cbn [LevelService_draw_layer];
      intros texture Ht; [destruct Ht|].
    destruct (String.eqb_spec (layer_iid x) layer_id) as [E | N].
    + destruct Ht as [<- | []]. split; [reflexivity|].
      exists x. split; [now left | auto].
    + destruct (IH texture Ht) as (K & r & Hr & K1 & K2).
      split; [exact K|]. exists r. split; [now right | auto].
Qed.

(** ** The layer bodies *)

Lemma push_layer_body_repeat layer_bodies layer_body loops :
  push_layer_body layer_bodies layer_body loops =
  layer_bodies ++ repeat layer_body (length loops).
Proof.
  unfold push_layer_body. revert layer_bodies.
  induction loops as [|l loops IH]; intros bodies; cbn [fold_left length repeat].
  - now rewrite app_nil_r.
  - rewrite IH, <- app_assoc. reflexivity.
Qed.

Lemma init_layer_bodies_spec layers :
  forall world layer_bodies,
    init_layer_bodies world layer_bodies layers =
    (world ++ map fst layers,
     layer_bodies ++ flat_map (fun l => repeat (fst l) (length (snd l))) layers).
Proof.
  induction layers as [|[b loops] layers IH]; intros world bodies;
    cbn [init_layer_bodies map flat_map fst snd].
  - now rewrite !app_nil_r.
  - rewrite IH, push_layer_body_repeat. unfold b2CreateBody.
    now rewrite <- !app_assoc.
Qed.

Lemma b2Body_IsValid_In world body :
  b2Body_IsValid world body = true <-> In body world.
Proof.
  unfold b2Body_IsValid. rewrite existsb_exists. split.
  - intros (x & Hx & E). apply Z.eqb_eq in E. now subst.
  - intros H. exists body. split; [exact H | apply Z.eqb_refl].
Qed.

Lemma b2DestroyBody_In world body x :
  In x (b2DestroyBody world body) <-> In x world /\ x <> body.
Proof.
  unfold b2DestroyBody. rewrite filter_In.
  destruct (Z.eqb_spec x body); cbn; intuition congruence.
Qed.

(** Further copies of a body that is no longer valid are skipped. *)
Lemma destroy_invalid_copies world body n rest :
  ~ In body world ->
  destroy_layer_bodies world (repeat body n ++ rest) =
  destroy_layer_bodies world rest.
Proof.
  intros H. induction n as [|n IH]; [reflexivity|].
  cbn [repeat app destroy_layer_bodies].
  destruct (b2Body_IsValid world body) eqn:V; [|exact IH].
  apply b2Body_IsValid_In in V. contradiction.
Qed.

Lemma destroy_layer_bodies_spec (layers : list (b2BodyId * list (list IntPoint))) :
  forall world,
    NoDup (map fst layers) ->
    (forall b, In b (map fst layers) -> In b world) ->
    snd (destroy_layer_bodies
           world (flat_map (fun l => repeat (fst l) (length (snd l))) layers)) =
      map fst (filter (fun l => negb (length (snd l) =? 0)%nat) layers) /\
    (forall x,
        In x (fst (destroy_layer_bodies
                     world (flat_map (fun l => repeat (fst l) (length (snd l))) layers)))
        <-> In x world /\
            ~ In x (map fst (filter (fun l => negb (length (snd l) =? 0)%nat) layers))).
Proof.
  induction layers as [|[b loops] layers IH]; intros world Hn Hw.
  - cbn. split; [reflexivity | tauto].
  - cbn [map fst] in Hn, Hw. inversion Hn as [|? ? Hb Hn']; subst.
    cbn [flat_map fst snd filter].
    destruct loops as [|l loops]; cbn [length repeat app Nat.eqb negb].
    + apply IH; [exact Hn' | intros x Hx; apply Hw; now right].
    + cbn [destroy_layer_bodies].
      assert (V : b2Body_IsValid world b = true).
      { apply b2Body_IsValid_In, Hw. now left. }
      rewrite V.
      rewrite destroy_invalid_copies
        by (intros K; apply b2DestroyBody_In in K; tauto).
      destruct (IH (b2DestroyBody world b) Hn') as [I1 I2].
      { intros x Hx. apply b2DestroyBody_In. split; [apply Hw; now right|].
        intros ->. contradiction. }
      destruct (destroy_layer_bodies (b2DestroyBody world b) _) as [w' calls].
      cbn [fst snd map] in *. split; [now rewrite I1|].
      intros x. rewrite I2, b2DestroyBody_In. cbn [In]. intuition congruence.
Qed.

(** X20. [init] records the body of a layer once for every loop of the layer,
    so not at all for a layer without loops.  The destructor then destroys
    the body of every layer that has a loop exactly once, and leaves the body
    of every layer without loops in the world. *)
Theorem layer_bodies_destroyed_once (world : b2World)
    (layers : list (b2BodyId * list (list IntPoint))) :
  NoDup (map fst layers) ->
  (forall b, In b (map fst layers) -> ~ In b world) ->
  let created := init_layer_bodies world [] layers in
  let destroyed := destroy_layer_bodies (fst created) (snd created) in
  snd created = flat_map (fun l => repeat (fst l) (length (snd l))) layers /\
  snd destroyed = map fst (filter (fun l => negb (length (snd l) =? 0)%nat) layers) /\
  NoDup (snd destroyed) /\
  (forall b, In b (fst destroyed) <-> In b world \/ In (b, []) layers).
Proof.
  intros Hn Hfresh created destroyed. unfold destroyed, created.
  rewrite init_layer_bodies_spec. cbn [fst snd app].
  destruct (destroy_layer_bodies_spec layers (world ++ map fst layers) Hn)
    as [I1 I2].
  { intros b Hb. apply in_or_app. now right. }
  split; [reflexivity|]. split; [exact I1|]. split.
  - rewrite I1. clear - Hn. induction layers as [|[b loops] layers IH];
      [constructor|].
    cbn [map fst] in Hn. inversion Hn as [|? ? Hb Hn']; subst.
    cbn [filter snd]. destruct (negb _); [|now apply IH].
    cbn [map fst]. constructor; [|now apply IH].
    intros K. apply Hb. apply in_map_iff in K. destruct K as (x & E & Hx).
    apply filter_In in Hx. apply in_map_iff. exists x. tauto.
  - intros b. rewrite I2, in_app_iff. split.
    + intros [[Hw | Hl] Hd]; [now left | right].
      apply in_map_iff in Hl. destruct Hl as ([b' loops] & E & Hl).
      cbn [fst] in E. subst b'.
      destruct loops as [|l loops]; [exact Hl|].
      exfalso. apply Hd. apply in_map_iff. exists (b, l :: loops).
      split; [reflexivity|]. apply filter_In. split; [exact Hl | reflexivity].
    + intros [Hw | Hl].
      * split; [now left|]. intros K. apply in_map_iff in K.
        destruct K as (x & E & Hx). apply filter_In in Hx.
        apply (Hfresh b); [|exact Hw]. apply in_map_iff. exists x. tauto.
      * split; [right; apply in_map_iff; exists (b, []); auto|].
        intros K. apply in_map_iff in K. destruct K as ([b' loops] & E & Hx).
        cbn [fst] in E. subst b'. apply filter_In in Hx. destruct Hx as [Hx Hne].
        cbn [snd] in Hne.
        assert (loops = []).
        { clear - Hn Hl Hx. induction layers as [|[c lc] layers IH];
            [destruct Hl|].
          cbn [map fst] in Hn. inversion Hn as [|? ? Hc Hn']; subst.
          destruct Hl as [E1 | Hl], Hx as [E2 | Hx].
          - congruence.
          - inversion E1; subst. exfalso. apply Hc. apply in_map_iff.
            exists (b, loops). auto.
          - inversion E2; subst. exfalso. apply Hc. apply in_map_iff.
            exists (b, []). auto.
          - now apply IH. }
        subst loops. discriminate.
Qed.

(** ** [PlatformerMovementComponent] *)

Lemma Qltb_lt x y : Qltb x y = true <-> (x < y)%Q.
Proof.
  unfold Qltb. rewrite negb_true_iff. split.
  - intros H. apply Qnot_le_lt. intros K. apply Qle_bool_iff in K. congruence.
  - intros H. destruct (Qle_bool y x) eqn:E; [|reflexivity].
    apply Qle_bool_iff in E. exfalso. exact (Qlt_not_le _ _ H E).
Qed.

Lemma Qltb_ge x y : Qltb x y = false <-> (y <= x)%Q.
Proof.
  unfold Qltb. rewrite negb_false_iff. apply Qle_bool_iff.
Qed.

Lemma fmax_bounds a b : (a <= fmax a b /\ b <= fmax a b)%Q.
Proof.
  unfold fmax. destruct (Qltb a b) eqn:E.
  - apply Qltb_lt in E. split; lra.
  - apply Qltb_ge in E. split; lra.
Qed.

Lemma fmax_cases a b : fmax a b = a \/ fmax a b = b.
Proof. unfold fmax. destruct (Qltb a b); auto. Qed.

Lemma fmin_cases a b : fmin a b = a \/ fmin a b = b.
Proof. unfold fmin. destruct (Qltb b a); auto. Qed.

Lemma fmin_bounds a b : (fmin a b <= a /\ fmin a b <= b)%Q.
Proof.
  unfold fmin. destruct (Qltb b a) eqn:E.
  - apply Qltb_lt in E. split; lra.
  - apply Qltb_ge in E. split; lra.
Qed.

(** The clamp [std::max(-s, std::min(s, v))] for a speed [s >= 0]. *)
Lemma clamp_bounds s v :
  (0 <= s)%Q -> (- s <= fmax (- s) (fmin s v) <= s)%Q.
Proof.
  intros Hs. destruct (fmax_bounds (- s) (fmin s v)) as [B1 B2].
  split; [exact B1|].
  destruct (fmax_cases (- s) (fmin s v)) as [-> | ->]; [lra|].
  apply fmin_bounds.
Qed.

(** X22. Whatever the inputs and the velocity before, the vertical velocity
    [update] writes is at most the fall speed downwards and at most the
    larger of the fall speed and the jump speed upwards (for non-negative
    speeds and a cutoff multiplier between 0 and 1). *)
Theorem platformer_vertical_speed_bounded (c : PlatformerMovementComponent)
    (f : PlatformerFrame) (v : b2Vec2) :
  (0 <= fall_speed (params c))%Q ->
  (0 <= jump_speed (params c))%Q ->
  (0 <= jump_cutoff_multiplier (params c) <= 1)%Q ->
  snd (PlatformerMovementComponent_update c f) = Some v ->
  (- fmax (fall_speed (params c)) (jump_speed (params c)) <= vy v
   <= fall_speed (params c))%Q.
Proof.
  intros Hf Hj Hm H. unfold PlatformerMovementComponent_update in H.
  destruct (negb (body_valid f)); [discriminate|].
  cbv zeta in H. cbn [snd] in H. inversion H as [E]. clear H E. cbn [vy].
  set (clamped := fmax (- fall_speed (params c))
                       (fmin (fall_speed (params c))
                             (vy (velocity f) + gravity (params c) * delta_time f))).
  set (jump := Qltb 0 _ && _).
  pose proof (clamp_bounds (fall_speed (params c))
                (vy (velocity f) + gravity (params c) * delta_time f) Hf) as C.
  fold clamped in C.
  destruct (fmax_bounds (fall_speed (params c)) (jump_speed (params c))) as [M1 M2].
  set (M := fmax (fall_speed (params c)) (jump_speed (params c))) in *.
  assert (Y : (- M <= (if jump then - jump_speed (params c) else clamped)
               <= fall_speed (params c))%Q).
  { destruct jump; lra. }
  set (y := if jump then (- jump_speed (params c))%Q else clamped) in *.
  destruct (negb (jump_held c) && Qltb y 0) eqn:Cut; [|exact Y].
  apply andb_true_iff in Cut. destruct Cut as [_ Cut]. apply Qltb_lt in Cut.
  set (m := jump_cutoff_multiplier (params c)) in *.
  split; nra.
Qed.

Lemma set_input_fields c hs pr hd :
  params (PlatformerMovementComponent_set_input c hs pr hd) = params c /\
  coyote_timer (PlatformerMovementComponent_set_input c hs pr hd) = coyote_timer c /\
  jump_held (PlatformerMovementComponent_set_input c hs pr hd) = hd.
Proof. repeat split. Qed.

(** One update in the air with no coyote time left. *)
Lemma update_in_the_air c f :
  (coyote_timer c <= 0)%Q -> airborne_frame f ->
  exists v_x,
    snd (PlatformerMovementComponent_update c f) =
      Some (mkVec2 v_x (falling_velocity (params c) (jump_held c) (delta_time f)
                                         (vy (velocity f)))) /\
    params (fst (PlatformerMovementComponent_update c f)) = params c /\
    coyote_timer (fst (PlatformerMovementComponent_update c f)) = 0%Q /\
    grounded (fst (PlatformerMovementComponent_update c f)) = false.
Proof.
  intros Hc (Hv & Hd & Hl & Hr).
  assert (E : fmax 0 (coyote_timer c - delta_time f) = 0%Q).
  { unfold fmax. replace (Qltb 0 (coyote_timer c - delta_time f)) with false;
      [reflexivity|]. symmetry. apply Qltb_ge. lra. }
  unfold PlatformerMovementComponent_update. rewrite Hv, Hl, Hr. cbn [negb orb].
  cbv zeta. rewrite E. change (Qltb 0 0) with false.
  rewrite andb_false_r. cbn [fst snd params coyote_timer grounded].
  eexists. split; [|auto]. unfold falling_velocity. reflexivity.
Qed.

(** X23. A component whose coyote time has run out does not jump while it is
    in the air: as long as neither ground ray hits, every update writes the
    vertical velocity of a fall, whatever the jump input is and however long
    the jump stays buffered. *)
Theorem platformer_no_jump_in_the_air
    (steps : list (Q * bool * bool * PlatformerFrame))
    (c : PlatformerMovementComponent) :
  (coyote_timer c <= 0)%Q ->
  Forall (fun s => airborne_frame (snd s)) steps ->
  Forall2 (fun s written =>
             exists v_x,
               written =
               Some (mkVec2 v_x (falling_velocity (params c) (snd (fst s))
                                                  (delta_time (snd s))
                                                  (vy (velocity (snd s))))))
          steps (snd (PlatformerMovementComponent_updates c steps)) /\
  (coyote_timer (fst (PlatformerMovementComponent_updates c steps)) <= 0)%Q.
Proof.
  revert c. induction steps as [|[[[hs pr] hd] f] steps IH]; intros c Hc Ha.
  - cbn. split; [constructor | exact Hc].
  - inversion Ha as [|? ? Hf Ha']; subst. cbn [snd] in Hf.
    cbn [PlatformerMovementComponent_updates].
    set (c1 := PlatformerMovementComponent_set_input c hs pr hd).
    destruct (update_in_the_air c1 f Hc Hf) as (v_x & U1 & U2 & U3 & U4).
    destruct (PlatformerMovementComponent_update c1 f) as [c2 w] eqn:U.
    cbn [fst snd] in U1, U2, U3, U4.
    destruct (IH c2) as [I1 I2]; [rewrite U3; lra | exact Ha' |].
    destruct (PlatformerMovementComponent_updates c2 steps) as [c3 ws].
    cbn [fst snd] in *. split; [|exact I2].
    constructor.
    + exists v_x. exact U1.
    + rewrite U2 in I1. exact I1.
Qed.

(** ** The further theorems at concrete inputs *)

Lemma block3_exact : exact_probes (wall_service 1) block3 1 0.
Proof. unfold exact_probes. cbn. repeat split; try lia; reflexivity. Defined.

Lemma block3_below_guard : 2 * 3 + 2 * 3 + 1 <= vertex_guard.
Proof. unfold vertex_guard. lia. Defined.

Lemma one_le_three : 1 <= 3.
Proof. lia. Defined.

Lemma loops_partition_boundary_witness :
  exists loops,
    walk_loops (wall_service 1) single_cell
               (collect_edges (wall_service 1) single_cell) = Some loops /\
    Permutation (flat_map loop_edges loops)
                (collect_edges (wall_service 1) single_cell).
Proof.
  destruct (loops_partition_boundary (wall_service 1) single_cell
              (collect_edges (wall_service 1) single_cell) (Permutation_refl _)
              single_cell_small) as (loops & A & B & _).
  exists loops. split; [exact A | exact B].
Defined.

Lemma layer_chains_even_count_witness :
  exists chains,
    layer_chains (wall_service 1) single_cell sample_physics sample_material
                 (collect_edges (wall_service 1) single_cell) = Some chains /\
    Forall (fun cd => 4 <= count cd) chains.
Proof.
  destruct (layer_chains_even_count (wall_service 1) single_cell
              sample_physics sample_material
              (collect_edges (wall_service 1) single_cell) (Permutation_refl _)
              single_cell_small) as (raws & chains & _ & A & _ & B).
  exists chains. split; [exact A|].
  eapply Forall_impl; [|exact B]. intros cd K. exact (proj1 K).
Defined.

Lemma corner_degree_cases_witness :
  (degree (collect_edges (wall_service 1) single_cell) (mkPoint 0 0) = 0 \/
   degree (collect_edges (wall_service 1) single_cell) (mkPoint 0 0) = 2 \/
   degree (collect_edges (wall_service 1) single_cell) (mkPoint 0 0) = 4)%nat.
Proof.
  exact (proj1 (corner_degree_cases (wall_service 1) single_cell
                  (collect_edges (wall_service 1) single_cell) 0 0
                  (Permutation_refl _))).
Defined.

Lemma build_adj_index_witness :
  NoDup (build_adj (collect_edges (wall_service 1) single_cell) (mkPoint 0 0)).
Proof.
  exact (proj1 (proj2 (proj2 (build_adj_index (wall_service 1) single_cell
                                (collect_edges (wall_service 1) single_cell)
                                (Permutation_refl _) (mkPoint 0 0))))).
Defined.

Lemma chains_iff_solid_cell_witness :
  exists chains,
    layer_chains (wall_service 1) single_cell sample_physics sample_material
                 (collect_edges (wall_service 1) single_cell) = Some chains /\
    (chains = [] <->
     forall x y, cell_solid (wall_service 1) single_cell x y = false).
Proof.
  exact (chains_iff_solid_cell (wall_service 1) single_cell
           sample_physics sample_material
           (collect_edges (wall_service 1) single_cell) (Permutation_refl _)
           single_cell_small).
Defined.

Lemma solid_rectangle_one_chain_witness :
  exists loop,
    layer_chains (wall_service 1) block3 sample_physics sample_material
                 (collect_edges (wall_service 1) block3) =
      Some [chain_def (wall_service 1) block3 sample_physics sample_material loop] /\
    NoDup loop.
Proof.
  destruct (solid_rectangle_one_chain (wall_service 1) block3
              sample_physics sample_material 3 3
              (collect_edges (wall_service 1) block3)
              one_le_three one_le_three block3_below_guard
              (block3_solid 1) (Permutation_refl _)) as (loop & A & _ & B & _).
  exists loop. split; [exact A | exact B].
Defined.

Lemma solid_rectangle_winding_witness :
  exists s,
    walk_loops (wall_service 1) block3 (collect_edges (wall_service 1) block3) =
    Some [map (fun t => rect_cycle 3 3 (s + Z.of_nat t)) (seq 0 12)].
Proof.
  exact (solid_rectangle_winding (wall_service 1) block3 3 3 1 0
           (collect_edges (wall_service 1) block3)
           one_le_three one_le_three block3_below_guard block3_exact
           (block3_solid 1) (Permutation_refl _)).
Defined.

Lemma sample_animation_frames : frames sample_animation <> [].
Proof. discriminate. Defined.

Lemma sample_animation_size : Z.of_nat (length (frames sample_animation)) < 2 ^ 31.
Proof. cbn. lia. Defined.

Lemma Animation_update_in_range_witness :
  exists sprite,
    Animation_draw (Animation_update sample_animation sample_dt) = Some [sprite].
Proof.
  apply (Animation_update_in_range sample_animation sample_dt
           sample_animation_frames eq_refl eq_refl sample_animation_size).
  cbn. lia.
Defined.

Lemma Animation_updates_one_frame_each_witness :
  current_frame (Animation_updates sample_animation [long_dt; long_dt; long_dt]) = 1.
Proof.
  rewrite (Animation_updates_one_frame_each sample_animation
             [long_dt; long_dt; long_dt]
             sample_animation_frames eq_refl eq_refl sample_animation_size).
  - reflexivity.
  - cbn. lia.
  - reflexivity.
  - reflexivity.
  - reflexivity.
  - repeat constructor; reflexivity.
Defined.

Lemma Animation_zero_fps_never_advances_witness :
  current_frame (Animation_updates
                   (Animation_new [sample_texture; sample_texture] f_zero true)
                   [long_dt; long_dt; long_dt]) = 0.
Proof.
  apply (Animation_zero_fps_never_advances [sample_texture; sample_texture] true
           [long_dt; long_dt; long_dt]).
  repeat constructor.
Defined.

Lemma Animation_non_looping_monotone_witness :
  0 <= current_frame (Animation_updates
                        (Animation_new [sample_texture; sample_texture]
                                       sample_fps false)
                        [long_dt; long_dt; long_dt]) <= 1.
Proof.
  apply (Animation_non_looping_monotone
           (Animation_new [sample_texture; sample_texture] sample_fps false)
           [long_dt; long_dt; long_dt] eq_refl).
  - cbn. lia.
  - cbn. lia.
Defined.

Lemma sample_calls_in_order : calls_in_order [] sample_calls.
Proof.
  cbn. split; [intros [] | split; [discriminate | split; [lia | auto]]].
Defined.

Lemma controller_calls_in_order_safe_witness :
  exists h c,
    controller_calls heap_empty AnimationController_new sample_calls = Some (h, c) /\
    AnimationController_draw h c <> None.
Proof.
  destruct (controller_calls_in_order_safe sample_calls sample_calls_in_order)
    as (h & c & A & B & _).
  exists h, c. split; [exact A | exact B].
Defined.

Lemma readd_current_animation_dangles_witness :
  exists h c,
    AnimationController_add_new sample_heap sample_controller "run"
                                [sample_texture] sample_fps true = Some (h, c) /\
    AnimationController_draw h c = None.
Proof.
  destruct (readd_current_animation_dangles sample_heap sample_controller "run"
              0%nat [sample_texture] sample_fps true eq_refl eq_refl
              (Nat.lt_0_succ 0))
    as (h & c & A & _ & _ & _ & _ & B).
  exists h, c. split; [exact A | exact B].
Defined.

Lemma get_unknown_animation_then_play_witness :
  AnimationController_play_name
    heap_empty (fst (AnimationController_get_animation AnimationController_new "run"))
    "run" = None.
Proof.
  exact (proj2 (proj2 (proj2 (get_unknown_animation_then_play
                                heap_empty AnimationController_new "run" eq_refl)))).
Defined.

Lemma sample_renderers_ids : NoDup (map layer_iid sample_renderers).
Proof.
  cbn. constructor; [intros [H | []]; discriminate H|].
  constructor; [intros [] | constructor].
Defined.

Lemma set_layer_visibility_then_draw_witness :
  LevelService_draw (LevelService_set_layer_visibility sample_renderers "walls" false)
  = [1].
Proof.
  rewrite (set_layer_visibility_then_draw sample_renderers "walls" false
             sample_renderers_ids).
  reflexivity.
Defined.

Lemma sample_layers_ids : NoDup (map fst sample_layers).
Proof.
  cbn. constructor; [intros [H | []]; discriminate H|].
  constructor; [intros [] | constructor].
Defined.

Lemma layer_bodies_destroyed_once_witness :
  snd (destroy_layer_bodies (fst (init_layer_bodies [] [] sample_layers))
                            (snd (init_layer_bodies [] [] sample_layers))) = [1].
Proof.
  exact (proj1 (proj2 (layer_bodies_destroyed_once [] sample_layers
                         sample_layers_ids (fun b _ K => K)))).
Defined.

Lemma platformer_vertical_speed_bounded_witness :
  exists v,
    snd (PlatformerMovementComponent_update sample_component sample_frame) = Some v /\
    (vy v <= 1200)%Q.
Proof.
  eexists. split; [reflexivity|].
  apply (platformer_vertical_speed_bounded sample_component sample_frame).
  - unfold Qle. cbn. lia.
  - unfold Qle. cbn. lia.
  - split; unfold Qle; cbn; lia.
  - reflexivity.
Defined.

Lemma sample_frame_airborne : airborne_frame sample_frame.
Proof.
  unfold airborne_frame. cbn. repeat split. unfold Qle. cbn. lia.
Defined.

Lemma platformer_no_jump_in_the_air_witness :
  (coyote_timer
     (fst (PlatformerMovementComponent_updates
             sample_component [(1%Q, true, true, sample_frame)])) <= 0)%Q.
Proof.
  apply (platformer_no_jump_in_the_air [(1%Q, true, true, sample_frame)]
           sample_component).
  - unfold Qle. cbn. lia.
  - repeat constructor; exact sample_frame_airborne || apply sample_frame_airborne.
Defined.
